(** * Convective, viscous and source-term numerics of the two-temperature
    model: a shallow embedding of [numerics_direct_tne2.cpp]

  [su2double] is read as a real number: the development is about the
  formulas of the file in exact arithmetic.  Arrays are total functions
  on indices, written with [upd]; [for] loops are [for_range]; a loop
  variable that is read after its loop is returned by [for_var]. *)

From Stdlib Require Import Reals Lra Lia ZArith List Bool PeanoNat String.
From Stdlib Require Import FunctionalExtensionality.
Import ListNotations.

Local Open Scope R_scope.

(** ** Arrays and loops *)

Definition vec := nat -> R.
Definition mat := nat -> nat -> R.

Definition upd (a : vec) (i : nat) (x : R) : vec :=
fun k => if Nat.eqb k i then x else a k.

Definition upd2 (a : mat) (i j : nat) (x : R) : mat :=
fun r c => if (Nat.eqb r i && Nat.eqb c j)%bool then x else a r c.

(** [for (i = 0; i < n; i++) s = body i s] *)
Fixpoint for_range {S : Type} (n : nat) (body : nat -> S -> S) (s : S) : S :=
match n with
| O => s
| Datatypes.S k => body k (for_range k body s)
end.

(** The same loop, together with the value the loop variable holds
  once the loop is left. *)
Definition for_var {S : Type} (n : nat) (body : nat -> S -> S) (s : S)
: nat * S := (n, for_range n body s).

(** [x = 0; for (i = 0; i < n; i++) x += f i] *)
Definition sum_upto (n : nat) (f : nat -> R) : R :=
for_range n (fun i acc => acc + f i) 0.

(** A buffer of length [n] filled by [for (i = 0; i < n; i++) a[i] = f i];
  entries past the allocated length are never read and are taken as 0. *)
Definition vec_init (n : nat) (f : nat -> R) : vec :=
fun k => if Nat.ltb k n then f k else 0.

(** [t = 0; for (kVar..) t += P[iVar][kVar]*Lambda[kVar]*invP[kVar][jVar]]:
  the entry of [P x Lambda x inverse P] the upwind schemes accumulate. *)
Definition Proj_ModJac_Tensor (n : nat) (P : mat) (Lambda : vec) (invP : mat)
  (iVar jVar : nat) : R :=
sum_upto n (fun kVar => P iVar kVar * Lambda kVar * invP kVar jVar).

(** Two loops in a row over one buffer:
  [for (i = 0; i < n1; i++) a[i] = f i; for (i = n1; i < n2; i++) a[i] = g i]. *)
Definition vec_init2 (n1 n2 : nat) (f g : nat -> R) : vec :=
fun k => if Nat.ltb k n1 then f k else if Nat.ltb k n2 then g k else 0.

(** A call either returns or ends the process: [exit(status)] after a
  message on the standard output. *)
Inductive outcome (A : Type) : Type :=
| Returns (a : A)
| Exits (message : string) (status : Z).
Arguments Returns {A} a.
Arguments Exits {A} message status.

Definition bind {A B : Type} (x : outcome A) (f : A -> outcome B)
: outcome B :=
match x with
| Returns a => f a
| Exits msg st => Exits msg st
end.

(** A [for] loop whose body may end the process. *)
Fixpoint for_range_exit {S : Type} (n : nat) (body : nat -> S -> outcome S)
  (s : S) : outcome S :=
match n with
| O => Returns s
| Datatypes.S k => bind (for_range_exit k body s) (body k)
end.

(** A [for] loop whose body may have no defined result. *)
Fixpoint for_range_opt {S : Type} (n : nat) (body : nat -> S -> option S)
  (s : S) : option S :=
match n with
| O => Some s
| Datatypes.S k =>
    match for_range_opt k body s with
    | Some t => body k t
    | None => None
    end
end.

(** Conversions to [unsigned short].  From a floating value the result is
  defined only when the truncated value is representable; from an [int]
  it is the value modulo 2^16. *)
Definition ushort_of_floating (z : Z) : option Z :=
if ((0 <=? z) && (z <=? 65535))%Z then Some z else None.

Definition ushort_of_int (z : Z) : Z := (z mod 65536)%Z.

(** The Kronecker symbol: the entries of the identity matrix. *)
Definition kron (i j : nat) : R := if Nat.eqb i j then 1 else 0.

(** A buffer given by its entries. *)
Definition vec_of_list (l : list R) : vec := fun k => nth k l 0.

(** A matrix given by its rows. *)
Definition mat_of_rows (rows : list (list R)) : mat :=
fun i j => vec_of_list (nth i rows []) j.

(** The opposite vector: the normal of a face seen from its other side. *)
Definition vneg (a : vec) : vec := fun k => - a k.

(** ** Members and helpers of the base class

  The declarations of [CNumerics] are not part of this file; what the
  schemes read from it is kept here. *)

Module CNumerics.
Section Members.
Variables (nDim nSpecies : nat).

(** Modelled from the spec: the index constants of the primitive vector
    are declared outside this file.  Section 3 of the specification names
    them and the schemes' comments give their order:
    [rho1,...,rhoNs, T, Tve, u, v, w, P, rho, h, a, rhoCvtr, rhoCvve]. *)
Definition RHOS_INDEX : nat := 0.
Definition T_INDEX : nat := nSpecies.
Definition TVE_INDEX : nat := nSpecies + 1.
Definition VEL_INDEX : nat := nSpecies + 2.
Definition P_INDEX : nat := nSpecies + nDim + 2.
Definition RHO_INDEX : nat := nSpecies + nDim + 3.
Definition H_INDEX : nat := nSpecies + nDim + 4.
Definition A_INDEX : nat := nSpecies + nDim + 5.
Definition RHOCVTR_INDEX : nat := nSpecies + nDim + 6.
Definition RHOCVVE_INDEX : nat := nSpecies + nDim + 7.

(** The first statements of every [ComputeResidual]:
    [Area = 0; for (iDim..) Area += Normal[iDim]*Normal[iDim];
     Area = sqrt(Area)] and [UnitNormal[iDim] = Normal[iDim]/Area]. *)
Definition FaceArea (Normal : vec) : R :=
  sqrt (sum_upto nDim (fun iDim => Normal iDim * Normal iDim)).

Definition FaceUnitNormal (Normal : vec) : vec :=
  vec_init nDim (fun iDim => Normal iDim / FaceArea Normal).

(** A buffer in the layout of the conserved variables, written as the
    schemes write their convective vectors: a loop over the species, a
    loop over the dimensions, then the two energy entries. *)
Definition ConservedLayout (s m : nat -> R) (e eve : R) : vec :=
  let a := for_range nSpecies (fun iSpecies a => upd a iSpecies (s iSpecies))
             (fun _ => 0) in
  let a := for_range nDim (fun iDim a => upd a (nSpecies + iDim) (m iDim))
             a in
  let a := upd a (nSpecies + nDim) e in
  upd a (nSpecies + nDim + 1) eve.

(** Modelled from the spec: [GetInviscidProjFlux] is defined with the
    base class, outside this file.  It is the analytic inviscid flux of
    the two-temperature system projected on the normal: species mass
    [rho_s (u.n)], momentum [rho u (u.n) + P n], total enthalpy
    [rho h (u.n)] and vibrational-electronic energy [rho e_ve (u.n)]. *)
Definition GetInviscidProjFlux (val_U val_V val_normal : vec) : vec :=
  let rho := val_V RHO_INDEX in
  let P := val_V P_INDEX in
  let H := val_V H_INDEX in
  let rhoEve := val_U (nSpecies + nDim + 1)%nat in
  let Proj_vel :=
    sum_upto nDim (fun iDim => val_V (VEL_INDEX + iDim)%nat
                               * val_normal iDim) in
  ConservedLayout
    (fun iSpecies => val_V (RHOS_INDEX + iSpecies)%nat * Proj_vel)
    (fun iDim => rho * Proj_vel * val_V (VEL_INDEX + iDim)%nat
                 + P * val_normal iDim)
    (rho * Proj_vel * H)
    (rhoEve * Proj_vel).

(** Modelled from the spec: the eigenvalues that go with the matrices of
    [GetPMatrix] and [GetPMatrix_inv], which are defined with the base
    class, outside this file.  Section 4.1: the species modes and the
    [nDim - 1] shear modes carry the normal velocity, the two acoustic
    modes the normal velocity plus and minus the sound speed, the
    vibrational-energy mode the normal velocity. *)
Definition ConvectiveEigenvalues (val_V val_normal : vec) : vec :=
  let vn := sum_upto nDim (fun iDim => val_V (VEL_INDEX + iDim)%nat
                                       * val_normal iDim) in
  let a := val_V A_INDEX in
  let L := for_range (nSpecies + nDim - 1)
             (fun iVar L => upd L iVar vn) (fun _ => 0) in
  let L := upd L (nSpecies + nDim - 1) (vn + a) in
  let L := upd L (nSpecies + nDim) (vn - a) in
  upd L (nSpecies + nDim + 1) vn.

(** A normal of unit length, as every scheme passes to the base class. *)
Definition UnitLength (val_normal : vec) : Prop :=
  sum_upto nDim (fun iDim => val_normal iDim * val_normal iDim) = 1.

(** Modelled from the spec: what [GetPMatrix] and [GetPMatrix_inv], which
    are defined outside this file, compute.  Section 4.1: built for a
    state, a unit normal and the tangent vectors [l] and [m], the two
    matrices are inverse of each other and diagonalise the flux Jacobian
    projected on the normal, here [ProjJac], with the eigenvalues above:
    [A = P Lambda P^-1]. *)
Definition EigenKernel (nVar : nat)
    (ProjJac : vec -> vec -> vec -> vec -> mat)
    (GetPMatrix GetPMatrix_inv : vec -> vec -> vec -> vec -> vec -> vec -> mat)
    (l m : vec) : Prop :=
  forall (val_U val_V val_dPdU val_normal : vec),
    UnitLength val_normal ->
    forall i j, (i < nVar)%nat -> (j < nVar)%nat ->
      let P := GetPMatrix val_U val_V val_dPdU val_normal l m in
      let invP := GetPMatrix_inv val_U val_V val_dPdU val_normal l m in
      sum_upto nVar (fun k => P i k * invP k j) = kron i j /\
      sum_upto nVar (fun k => invP i k * P k j) = kron i j /\
      Proj_ModJac_Tensor nVar P (ConvectiveEigenvalues val_V val_normal)
        invP i j = ProjJac val_U val_V val_dPdU val_normal i j.

(** Modelled from the spec: the flux Jacobian is projected on the normal,
    so that it changes sign with the normal. *)
Definition OddInNormal (nVar : nat)
    (ProjJac : vec -> vec -> vec -> vec -> mat) : Prop :=
  forall (val_U val_V val_dPdU n n' : vec),
    (forall iDim, n' iDim = - n iDim) ->
    forall i j, (i < nVar)%nat -> (j < nVar)%nat ->
      ProjJac val_U val_V val_dPdU n' i j
      = - ProjJac val_U val_V val_dPdU n i j.
End Members.
End CNumerics.

(** ** AUSM scheme *)

Module CUpwAUSM_TNE2.
Section Members.
Variables (nDim nSpecies nVar : nat).
Variables (U_i U_j V_i V_j Normal : vec).

Local Abbreviation RHOS_INDEX := (CNumerics.RHOS_INDEX).
Local Abbreviation VEL_INDEX := (CNumerics.VEL_INDEX nSpecies).
Local Abbreviation P_INDEX := (CNumerics.P_INDEX nDim nSpecies).
Local Abbreviation RHO_INDEX := (CNumerics.RHO_INDEX nDim nSpecies).
Local Abbreviation H_INDEX := (CNumerics.H_INDEX nDim nSpecies).
Local Abbreviation A_INDEX := (CNumerics.A_INDEX nDim nSpecies).

(** Each definition is a local variable of [ComputeResidual]
    (lines 516-618), in the order of the source. *)
Definition Area : R := CNumerics.FaceArea nDim Normal.
Definition UnitNormal : vec := CNumerics.FaceUnitNormal nDim Normal.

Definition rhos_i : vec :=
  vec_init nSpecies (fun iSpecies => V_i (RHOS_INDEX + iSpecies)%nat).
Definition rhos_j : vec :=
  vec_init nSpecies (fun iSpecies => V_j (RHOS_INDEX + iSpecies)%nat).
Definition u_i : vec :=
  vec_init nDim (fun iDim => V_i (VEL_INDEX + iDim)%nat).
Definition u_j : vec :=
  vec_init nDim (fun iDim => V_j (VEL_INDEX + iDim)%nat).

Definition P_i : R := V_i P_INDEX.
Definition P_j : R := V_j P_INDEX.
Definition h_i : R := V_i H_INDEX.
Definition h_j : R := V_j H_INDEX.
Definition a_i : R := V_i A_INDEX.
Definition a_j : R := V_j A_INDEX.
Definition rho_i : R := V_i RHO_INDEX.
Definition rho_j : R := V_j RHO_INDEX.
Definition e_ve_i : R := U_i (nSpecies + nDim + 1)%nat / rho_i.
Definition e_ve_j : R := U_j (nSpecies + nDim + 1)%nat / rho_j.

Definition ProjVel_i : R :=
  sum_upto nDim (fun iDim => u_i iDim * UnitNormal iDim).
Definition ProjVel_j : R :=
  sum_upto nDim (fun iDim => u_j iDim * UnitNormal iDim).

Definition mL : R := ProjVel_i / a_i.
Definition mR : R := ProjVel_j / a_j.

Definition mLP : R :=
  if Rle_dec (Rabs mL) 1 then 0.25 * (mL + 1) * (mL + 1)
  else 0.5 * (mL + Rabs mL).
Definition mRM : R :=
  if Rle_dec (Rabs mR) 1 then - 0.25 * (mR - 1) * (mR - 1)
  else 0.5 * (mR - Rabs mR).
Definition mF : R := mLP + mRM.

Definition pLP : R :=
  if Rle_dec (Rabs mL) 1 then 0.25 * P_i * (mL + 1) * (mL + 1) * (2 - mL)
  else 0.5 * P_i * (mL + Rabs mL) / mL.
Definition pRM : R :=
  if Rle_dec (Rabs mR) 1 then 0.25 * P_j * (mR - 1) * (mR - 1) * (2 + mR)
  else 0.5 * P_j * (mR - Rabs mR) / mR.
Definition pF : R := pLP + pRM.
Definition Phi : R := Rabs mF.

Definition FcL : vec :=
  CNumerics.ConservedLayout nDim nSpecies
    (fun iSpecies => rhos_i iSpecies * a_i)
    (fun iDim => rho_i * a_i * u_i iDim)
    (rho_i * a_i * h_i) (rho_i * a_i * e_ve_i).
Definition FcR : vec :=
  CNumerics.ConservedLayout nDim nSpecies
    (fun iSpecies => rhos_j iSpecies * a_j)
    (fun iDim => rho_j * a_j * u_j iDim)
    (rho_j * a_j * h_j) (rho_j * a_j * e_ve_j).

Definition ComputeResidual : vec :=
  let val_residual := vec_init nVar (fun iVar =>
      0.5 * ((mF + Phi) * FcL iVar + (mF - Phi) * FcR iVar) * Area) in
  for_range nDim
    (fun iDim r => upd r (nSpecies + iDim)
                     (r (nSpecies + iDim)%nat + pF * UnitNormal iDim * Area))
    val_residual.
End Members.
End CUpwAUSM_TNE2.

(** ** AUSM+-up2 scheme *)

Module CUpwAUSMPLUSUP2_TNE2.
Section Members.
Variables (nDim nSpecies nVar : nat).
(** [Minf = config->GetMach()], [Gamma = config->GetGamma()]. *)
Variables (Minf Gamma : R).
Variables (U_i U_j V_i V_j Normal : vec).

Local Abbreviation RHOS_INDEX := (CNumerics.RHOS_INDEX).
Local Abbreviation VEL_INDEX := (CNumerics.VEL_INDEX nSpecies).
Local Abbreviation P_INDEX := (CNumerics.P_INDEX nDim nSpecies).
Local Abbreviation RHO_INDEX := (CNumerics.RHO_INDEX nDim nSpecies).
Local Abbreviation H_INDEX := (CNumerics.H_INDEX nDim nSpecies).

(** Set by the constructor. *)
Definition Kp : R := 0.25.
Definition sigma : R := 1.

(** Local variables of [ComputeResidual] (lines 928-1066). *)
Definition Area : R := CNumerics.FaceArea nDim Normal.
Definition UnitNormal : vec := CNumerics.FaceUnitNormal nDim Normal.

Definition rhos_i : vec :=
  vec_init nSpecies (fun iSpecies => V_i (RHOS_INDEX + iSpecies)%nat).
Definition rhos_j : vec :=
  vec_init nSpecies (fun iSpecies => V_j (RHOS_INDEX + iSpecies)%nat).
Definition u_i : vec :=
  vec_init nDim (fun iDim => V_i (VEL_INDEX + iDim)%nat).
Definition u_j : vec :=
  vec_init nDim (fun iDim => V_j (VEL_INDEX + iDim)%nat).
Definition sq_veli : R := sum_upto nDim (fun iDim => u_i iDim * u_i iDim).
Definition sq_velj : R := sum_upto nDim (fun iDim => u_j iDim * u_j iDim).

Definition P_i : R := V_i P_INDEX.
Definition P_j : R := V_j P_INDEX.
Definition h_i : R := V_i H_INDEX.
Definition h_j : R := V_j H_INDEX.
Definition rho_i : R := V_i RHO_INDEX.
Definition rho_j : R := V_j RHO_INDEX.
Definition e_ve_i : R := U_i (nSpecies + nDim + 1)%nat / rho_i.
Definition e_ve_j : R := U_j (nSpecies + nDim + 1)%nat / rho_j.

Definition ProjVel_i : R :=
  sum_upto nDim (fun iDim => u_i iDim * UnitNormal iDim).
Definition ProjVel_j : R :=
  sum_upto nDim (fun iDim => u_j iDim * UnitNormal iDim).

Definition CstarL : R := sqrt (2 * (Gamma - 1) / (Gamma + 1) * h_i).
Definition CstarR : R := sqrt (2 * (Gamma - 1) / (Gamma + 1) * h_j).
Definition ChatL : R := CstarL * CstarL / Rmax CstarL ProjVel_i.
Definition ChatR : R := CstarR * CstarR / Rmax CstarR (- ProjVel_j).
Definition aF : R := Rmin ChatL ChatR.

Definition mL : R := ProjVel_i / aF.
Definition mR : R := ProjVel_j / aF.

Definition rhoF : R := 0.5 * (rho_i + rho_j).
Definition MFsq : R := 0.5 * (mL * mL + mR * mR).
Definition param1 : R := Rmax MFsq (Minf * Minf).
Definition Mrefsq : R := Rmin 1 param1.
Definition fa : R := 2 * sqrt Mrefsq - Mrefsq.
Definition alpha : R := 3 / 16 * (- 4 + 5 * fa * fa).
Definition beta : R := 1 / 8.

Definition Mp : R :=
  - (Kp / fa) * Rmax (1 - sigma * MFsq) 0 * (P_j - P_i)
  / (rhoF * aF * aF).

Definition mLP : R :=
  if Rle_dec (Rabs mL) 1
  then 0.25 * (mL + 1) * (mL + 1) + beta * (mL * mL - 1) * (mL * mL - 1)
  else 0.5 * (mL + Rabs mL).
Definition mRM : R :=
  if Rle_dec (Rabs mR) 1
  then - 0.25 * (mR - 1) * (mR - 1) - beta * (mR * mR - 1) * (mR * mR - 1)
  else 0.5 * (mR - Rabs mR).
Definition mF : R := mLP + mRM + Mp.

Definition pLP : R :=
  if Rle_dec (Rabs mL) 1
  then 0.25 * (mL + 1) * (mL + 1) * (2 - mL)
       + alpha * mL * (mL * mL - 1) * (mL * mL - 1)
  else 0.5 * (mL + Rabs mL) / mL.
Definition pRM : R :=
  if Rle_dec (Rabs mR) 1
  then 0.25 * (mR - 1) * (mR - 1) * (2 + mR)
       - alpha * mR * (mR * mR - 1) * (mR * mR - 1)
  else 0.5 * (mR - Rabs mR) / mR.

Definition pFi : R :=
  sqrt (0.5 * (sq_veli + sq_velj)) * (pLP + pRM - 1)
  * 0.5 * (rho_j + rho_i) * aF.
Definition pF : R :=
  0.5 * (P_j + P_i) + 0.5 * (pLP - pRM) * (P_i - P_j) + pFi.

Definition Phi : R := Rabs mF.
Definition mfP : R := 0.5 * (mF + Phi).
Definition mfM : R := 0.5 * (mF - Phi).

Definition FcL : vec :=
  CNumerics.ConservedLayout nDim nSpecies
    (fun iSpecies => rhos_i iSpecies * aF)
    (fun iDim => rho_i * aF * u_i iDim)
    (rho_i * aF * h_i) (rho_i * aF * e_ve_i).
Definition FcR : vec :=
  CNumerics.ConservedLayout nDim nSpecies
    (fun iSpecies => rhos_j iSpecies * aF)
    (fun iDim => rho_j * aF * u_j iDim)
    (rho_j * aF * h_j) (rho_j * aF * e_ve_j).

Definition ComputeResidual : vec :=
  let val_residual := vec_init nVar (fun iVar =>
      (mfP * FcL iVar + mfM * FcR iVar) * Area) in
  for_range nDim
    (fun iDim r => upd r (nSpecies + iDim)
                     (r (nSpecies + iDim)%nat + pF * UnitNormal iDim * Area))
    val_residual.
End Members.
End CUpwAUSMPLUSUP2_TNE2.

(** ** Flux-vector splitting (MSW) *)

Module CUpwMSW_TNE2.
Section Members.
Variables (nDim nSpecies nVar nPrimVar : nat).
(** [var->CalcEve(config, Tve, iSpecies)] and
    [var->CalcdPdU(V, Eve, config, dPdU)] of the mixture. *)
Variable CalcEve : R -> nat -> R.
Variable CalcdPdU : vec -> vec -> vec.
(** [GetPMatrix] and [GetPMatrix_inv] of the base class, as functions of
    what they are passed: [U], [V], [dPdU], the unit normal and the two
    tangent vectors. *)
Variables GetPMatrix GetPMatrix_inv : vec -> vec -> vec -> vec -> vec -> vec -> mat.
(** The tangent vectors are members; this scheme does not call
    [CreateBasis] and reads them as they are. *)
Variables (l m : vec).
Variables (U_i U_j V_i V_j dPdU_i dPdU_j Normal : vec).

Local Abbreviation TVE_INDEX := (CNumerics.TVE_INDEX nSpecies).
Local Abbreviation VEL_INDEX := (CNumerics.VEL_INDEX nSpecies).
Local Abbreviation P_INDEX := (CNumerics.P_INDEX nDim nSpecies).
Local Abbreviation A_INDEX := (CNumerics.A_INDEX nDim nSpecies).

(** Local variables of [ComputeResidual] (lines 320-462). *)
Definition alpha : R := 5.
Definition epsilon : R := 0.

Definition Area : R := CNumerics.FaceArea nDim Normal.
Definition UnitNormal : vec := CNumerics.FaceUnitNormal nDim Normal.

Definition u_i : vec :=
  vec_init nDim (fun iDim => V_i (VEL_INDEX + iDim)%nat).
Definition u_j : vec :=
  vec_init nDim (fun iDim => V_j (VEL_INDEX + iDim)%nat).
Definition P_i : R := V_i P_INDEX.
Definition P_j : R := V_j P_INDEX.

Definition ProjVel_i : R :=
  sum_upto nDim (fun iDim => u_i iDim * UnitNormal iDim).
Definition ProjVel_j : R :=
  sum_upto nDim (fun iDim => u_j iDim * UnitNormal iDim).

Definition dp : R := Rabs (P_j - P_i) / Rmin P_j P_i.
Definition w : R := 0.5 * (1 / ((alpha * dp) ^ 2 + 1)).
Definition onemw : R := 1 - w.

Definition Ust_i : vec :=
  vec_init nVar (fun iVar => onemw * U_i iVar + w * U_j iVar).
Definition Ust_j : vec :=
  vec_init nVar (fun iVar => onemw * U_j iVar + w * U_i iVar).
Definition Vst_i : vec :=
  vec_init nPrimVar (fun iVar => onemw * V_i iVar + w * V_j iVar).
Definition Vst_j : vec :=
  vec_init nPrimVar (fun iVar => onemw * V_j iVar + w * V_i iVar).
Definition ProjVelst_i : R := onemw * ProjVel_i + w * ProjVel_j.
Definition ProjVelst_j : R := onemw * ProjVel_j + w * ProjVel_i.

Definition Evest_i : vec :=
  vec_init nSpecies (fun iSpecies => CalcEve (Vst_i TVE_INDEX) iSpecies).
Definition Evest_j : vec :=
  vec_init nSpecies (fun iSpecies => CalcEve (Vst_j TVE_INDEX) iSpecies).
(** Computed at lines 389-390 and not read again. *)
Definition dPdUst_i : vec := CalcdPdU Vst_i Evest_i.
Definition dPdUst_j : vec := CalcdPdU Vst_j Evest_j.

(** Flow eigenvalues at i (Lambda+). *)
Definition Lambda_i : vec :=
  let L := for_range (nSpecies + nDim - 1)
      (fun iSpecies L => upd L iSpecies
         (0.5 * (ProjVelst_i
                 + sqrt (ProjVelst_i * ProjVelst_i + epsilon * epsilon))))
      (fun _ => 0) in
  let L := upd L (nSpecies + nDim - 1)
      (0.5 * (ProjVelst_i + Vst_i A_INDEX
              + sqrt ((ProjVelst_i + Vst_i A_INDEX)
                      * (ProjVelst_i + Vst_i A_INDEX)
                      + epsilon * epsilon))) in
  let L := upd L (nSpecies + nDim)
      (0.5 * (ProjVelst_i - Vst_i A_INDEX
              + sqrt ((ProjVelst_i - Vst_i A_INDEX)
                      * (ProjVelst_i - Vst_i A_INDEX)
                      + epsilon * epsilon))) in
  upd L (nSpecies + nDim + 1)
      (0.5 * (ProjVelst_i
              + sqrt (ProjVelst_i * ProjVelst_i + epsilon * epsilon))).

(** Lines 408-409: the matrices at i are built from the weighted state and
    from [dPdU_i], the pressure derivatives of the node. *)
Definition P_Tensor_i : mat :=
  GetPMatrix Ust_i Vst_i dPdU_i UnitNormal l m.
Definition invP_Tensor_i : mat :=
  GetPMatrix_inv Ust_i Vst_i dPdU_i UnitNormal l m.

(** Projected flux (f+) at i. *)
Definition Fc_i : vec :=
  vec_init nVar (fun iVar =>
    sum_upto nVar (fun jVar =>
      Proj_ModJac_Tensor nVar P_Tensor_i Lambda_i invP_Tensor_i iVar jVar
      * U_i jVar * Area)).

(** Flow eigenvalues at j (Lambda-). *)
Definition Lambda_j : vec :=
  let L := for_range (nSpecies + nDim - 1)
      (fun iVar L => upd L iVar
         (0.5 * (ProjVelst_j
                 - sqrt (ProjVelst_j * ProjVelst_j + epsilon * epsilon))))
      (fun _ => 0) in
  let L := upd L (nSpecies + nDim - 1)
      (0.5 * (ProjVelst_j + Vst_j A_INDEX
              - sqrt ((ProjVelst_j + Vst_j A_INDEX)
                      * (ProjVelst_j + Vst_j A_INDEX)
                      + epsilon * epsilon))) in
  let L := upd L (nSpecies + nDim)
      (0.5 * (ProjVelst_j - Vst_j A_INDEX
              - sqrt ((ProjVelst_j - Vst_j A_INDEX)
                      * (ProjVelst_j - Vst_j A_INDEX)
                      + epsilon * epsilon))) in
  upd L (nSpecies + nDim + 1)
      (0.5 * (ProjVelst_j
              - sqrt (ProjVelst_j * ProjVelst_j + epsilon * epsilon))).

(** Lines 441-442. *)
Definition P_Tensor_j : mat :=
  GetPMatrix Ust_j Vst_j dPdU_j UnitNormal l m.
Definition invP_Tensor_j : mat :=
  GetPMatrix_inv Ust_j Vst_j dPdU_j UnitNormal l m.

(** Projected flux (f-). *)
Definition Fc_j : vec :=
  vec_init nVar (fun iVar =>
    sum_upto nVar (fun jVar =>
      Proj_ModJac_Tensor nVar P_Tensor_j Lambda_j invP_Tensor_j iVar jVar
      * U_j jVar * Area)).

(** Flux splitting. *)
Definition ComputeResidual : vec :=
  vec_init nVar (fun iVar => Fc_i iVar + Fc_j iVar).

(** The flux as the specification words it: the same two products, with
    the matrices of each side built entirely from its weighted state,
    [dPdUst] included. *)
Definition ComputeResidual_star : vec :=
  vec_init nVar (fun iVar =>
    sum_upto nVar (fun jVar =>
      Proj_ModJac_Tensor nVar
        (GetPMatrix Ust_i Vst_i dPdUst_i UnitNormal l m) Lambda_i
        (GetPMatrix_inv Ust_i Vst_i dPdUst_i UnitNormal l m) iVar jVar
      * U_i jVar * Area)
    + sum_upto nVar (fun jVar =>
      Proj_ModJac_Tensor nVar
        (GetPMatrix Ust_j Vst_j dPdUst_j UnitNormal l m) Lambda_j
        (GetPMatrix_inv Ust_j Vst_j dPdUst_j UnitNormal l m) iVar jVar
      * U_j jVar * Area)).
End Members.
End CUpwMSW_TNE2.

(** ** Roe scheme: eigenvalues and entropy correction *)

Module CUpwRoe_TNE2.
Section Members.
Variables (nDim nSpecies nVar : nat).

(** Lines 158-167: the eigenvalues of the Roe state.  The second loop
    runs on the member-function variable [iDim], whose final value
    leaves with the array. *)
Definition Eigenvalues (ProjVelocity RoeSoundSpeed : R) (Lambda : vec)
  : nat * vec :=
  let Lambda := for_range nSpecies
      (fun iSpecies L => upd L iSpecies ProjVelocity) Lambda in
  let '(iDim, Lambda) := for_var (nDim - 1)
      (fun iDim L => upd L (nSpecies + iDim) ProjVelocity) Lambda in
  let Lambda := upd Lambda (nSpecies + nDim - 1)
      (ProjVelocity + RoeSoundSpeed) in
  let Lambda := upd Lambda (nSpecies + nDim)
      (ProjVelocity - RoeSoundSpeed) in
  let Lambda := upd Lambda (nSpecies + nDim + 1) ProjVelocity in
  (iDim, Lambda).

(** Lines 169-181: Harten and Hyman bounds, with the indices the source
    has: [Lambda[iDim]] in the species loop and in the last assignment
    reads the value [iDim] was left with. *)
Definition EntropyBounds (iDim : nat) (Lambda : vec)
    (ProjVelocity_i ProjVelocity_j a_i a_j : R) (Epsilon : vec) : vec :=
  let Epsilon := for_range nSpecies
      (fun iSpecies E => upd E iSpecies
         (4 * Rmax 0 (Rmax (Lambda iDim - ProjVelocity_i)
                           (ProjVelocity_j - Lambda iDim)))) Epsilon in
  let '(iDim, Epsilon) := for_var (nDim - 1)
      (fun iDim E => upd E (nSpecies + iDim)
         (4 * Rmax 0 (Rmax (Lambda iDim - ProjVelocity_i)
                           (ProjVelocity_j - Lambda iDim)))) Epsilon in
  let Epsilon := upd Epsilon (nSpecies + nDim - 1)
      (4 * Rmax 0 (Rmax
         (Lambda (nSpecies + nDim - 1)%nat - (ProjVelocity_i + a_i))
         ((ProjVelocity_j + a_j) - Lambda (nSpecies + nDim - 1)%nat))) in
  let Epsilon := upd Epsilon (nSpecies + nDim)
      (4 * Rmax 0 (Rmax
         (Lambda (nSpecies + nDim)%nat - (ProjVelocity_i - a_i))
         ((ProjVelocity_j - a_j) - Lambda (nSpecies + nDim)%nat))) in
  let Epsilon := upd Epsilon (nSpecies + nDim + 1)
      (4 * Rmax 0 (Rmax (Lambda iDim - ProjVelocity_i)
                        (ProjVelocity_j - Lambda iDim))) in
  Epsilon.

(** The bounds with the index of each mode, as the comment of the
    correction and the specification intend them. *)
Definition EntropyBounds_intended (Lambda : vec)
    (ProjVelocity_i ProjVelocity_j a_i a_j : R) (Epsilon : vec) : vec :=
  let Epsilon := for_range nSpecies
      (fun iSpecies E => upd E iSpecies
         (4 * Rmax 0 (Rmax (Lambda iSpecies - ProjVelocity_i)
                           (ProjVelocity_j - Lambda iSpecies)))) Epsilon in
  let Epsilon := for_range (nDim - 1)
      (fun iDim E => upd E (nSpecies + iDim)
         (4 * Rmax 0 (Rmax (Lambda (nSpecies + iDim)%nat - ProjVelocity_i)
                           (ProjVelocity_j - Lambda (nSpecies + iDim)%nat))))
      Epsilon in
  let Epsilon := upd Epsilon (nSpecies + nDim - 1)
      (4 * Rmax 0 (Rmax
         (Lambda (nSpecies + nDim - 1)%nat - (ProjVelocity_i + a_i))
         ((ProjVelocity_j + a_j) - Lambda (nSpecies + nDim - 1)%nat))) in
  let Epsilon := upd Epsilon (nSpecies + nDim)
      (4 * Rmax 0 (Rmax
         (Lambda (nSpecies + nDim)%nat - (ProjVelocity_i - a_i))
         ((ProjVelocity_j - a_j) - Lambda (nSpecies + nDim)%nat))) in
  let Epsilon := upd Epsilon (nSpecies + nDim + 1)
      (4 * Rmax 0 (Rmax
         (Lambda (nSpecies + nDim + 1)%nat - ProjVelocity_i)
         (ProjVelocity_j - Lambda (nSpecies + nDim + 1)%nat))) in
  Epsilon.

(** Lines 182-186: the quadratic smoothing below the bound, the absolute
    value otherwise. *)
Definition EntropyFix (Lambda Epsilon : vec) : vec :=
  for_range nVar
    (fun iVar L =>
       if Rlt_dec (Rabs (L iVar)) (Epsilon iVar)
       then upd L iVar
              ((L iVar * L iVar + Epsilon iVar * Epsilon iVar)
               / (2 * Epsilon iVar))
       else upd L iVar (Rabs (L iVar)))
    Lambda.

(** Lines 188-189. *)
Definition AbsPass (Lambda : vec) : vec :=
  for_range nVar (fun iVar L => upd L iVar (Rabs (L iVar))) Lambda.

(** Lines 158-189 in sequence, from the buffers [Lambda0] and [Epsilon0]
    as the previous call left them. *)
Definition CorrectedEigenvalues
    (ProjVelocity RoeSoundSpeed ProjVelocity_i ProjVelocity_j a_i a_j : R)
    (Lambda0 Epsilon0 : vec) : vec :=
  let '(iDim, Lambda) := Eigenvalues ProjVelocity RoeSoundSpeed Lambda0 in
  let Epsilon := EntropyBounds iDim Lambda
                   ProjVelocity_i ProjVelocity_j a_i a_j Epsilon0 in
  AbsPass (EntropyFix Lambda Epsilon).

Definition CorrectedEigenvalues_intended
    (ProjVelocity RoeSoundSpeed ProjVelocity_i ProjVelocity_j a_i a_j : R)
    (Lambda0 Epsilon0 : vec) : vec :=
  let '(_, Lambda) := Eigenvalues ProjVelocity RoeSoundSpeed Lambda0 in
  let Epsilon := EntropyBounds_intended Lambda
                   ProjVelocity_i ProjVelocity_j a_i a_j Epsilon0 in
  AbsPass (EntropyFix Lambda Epsilon).

(** *** The residual (lines 111-218) *)

Variable nPrimVar : nat.
Variable CalcEve : R -> nat -> R.
Variable CalcdPdU : vec -> vec -> vec.
(** [CreateBasis(UnitNormal)] fills the tangent vectors [l] and [m]. *)
Variable CreateBasis : vec -> vec * vec.
Variables GetPMatrix GetPMatrix_inv : vec -> vec -> vec -> vec -> vec -> vec -> mat.
Variables (U_i U_j V_i V_j Normal : vec).
(** [Lambda] and [Epsilon] as the previous call left them. *)
Variables (Lambda0 Epsilon0 : vec).

Local Abbreviation TVE_INDEX := (CNumerics.TVE_INDEX nSpecies).
Local Abbreviation VEL_INDEX := (CNumerics.VEL_INDEX nSpecies).
Local Abbreviation P_INDEX := (CNumerics.P_INDEX nDim nSpecies).
Local Abbreviation RHO_INDEX := (CNumerics.RHO_INDEX nDim nSpecies).
Local Abbreviation A_INDEX := (CNumerics.A_INDEX nDim nSpecies).

Definition Area : R := CNumerics.FaceArea nDim Normal.
Definition UnitNormal : vec := CNumerics.FaceUnitNormal nDim Normal.

(** The local [R] of the source: the square root of the density ratio. *)
Definition R_roe : R := sqrt (Rabs (V_j RHO_INDEX / V_i RHO_INDEX)).

Definition RoeU : vec :=
  vec_init nVar (fun iVar => (R_roe * U_j iVar + U_i iVar) / (R_roe + 1)).
Definition RoeV : vec :=
  vec_init nPrimVar (fun iVar => (R_roe * V_j iVar + V_i iVar) / (R_roe + 1)).
Definition RoeEve : vec :=
  vec_init nSpecies (fun iSpecies => CalcEve (RoeV TVE_INDEX) iSpecies).
Definition RoedPdU : vec := CalcdPdU RoeV RoeEve.

Definition l : vec := fst (CreateBasis UnitNormal).
Definition m : vec := snd (CreateBasis UnitNormal).

Definition ProjFlux_i : vec :=
  CNumerics.GetInviscidProjFlux nDim nSpecies U_i V_i Normal.
Definition ProjFlux_j : vec :=
  CNumerics.GetInviscidProjFlux nDim nSpecies U_j V_j Normal.

Definition P_Tensor : mat := GetPMatrix RoeU RoeV RoedPdU UnitNormal l m.
Definition invP_Tensor : mat :=
  GetPMatrix_inv RoeU RoeV RoedPdU UnitNormal l m.

Definition ProjVelocity : R :=
  sum_upto nDim (fun iDim => RoeV (VEL_INDEX + iDim)%nat * UnitNormal iDim).
Definition ProjVelocity_i : R :=
  sum_upto nDim (fun iDim => V_i (VEL_INDEX + iDim)%nat * UnitNormal iDim).
Definition ProjVelocity_j : R :=
  sum_upto nDim (fun iDim => V_j (VEL_INDEX + iDim)%nat * UnitNormal iDim).

Definition RoeSoundSpeed : R :=
  sqrt ((1 + RoedPdU (nSpecies + nDim)%nat) * RoeV P_INDEX / RoeV RHO_INDEX).

Definition Lambda : vec :=
  CorrectedEigenvalues ProjVelocity RoeSoundSpeed
    ProjVelocity_i ProjVelocity_j (V_i A_INDEX) (V_j A_INDEX)
    Lambda0 Epsilon0.

Definition Diff_U : vec := vec_init nVar (fun iVar => U_j iVar - U_i iVar).

(** Roe's flux approximation: the mean of the two projected fluxes, from
    which the loop over [jVar] takes the upwind term away. *)
Definition ComputeResidual : vec :=
  vec_init nVar (fun iVar =>
    for_range nVar
      (fun jVar r =>
         r - 0.5 * Proj_ModJac_Tensor nVar P_Tensor Lambda invP_Tensor
                     iVar jVar
             * Diff_U jVar * Area)
      (0.5 * (ProjFlux_i iVar + ProjFlux_j iVar))).

End Members.
End CUpwRoe_TNE2.

(** ** AUSMPW+ scheme *)

Module CUpwAUSMPWplus_TNE2.
Section Members.
Variables (nDim nSpecies nVar : nat).
(** [Ms = config->GetMolar_Mass()]; [UNIVERSAL_GAS_CONSTANT] comes from
    the declarations. *)
Variable Ms : vec.
Variable UNIVERSAL_GAS_CONSTANT : R.
Variables (U_i U_j V_i V_j Normal : vec).

Local Abbreviation RHOS_INDEX := (CNumerics.RHOS_INDEX).
Local Abbreviation RHO_INDEX := (CNumerics.RHO_INDEX nDim nSpecies).
Local Abbreviation H_INDEX := (CNumerics.H_INDEX nDim nSpecies).
Local Abbreviation RHOCVTR_INDEX := (CNumerics.RHOCVTR_INDEX nDim nSpecies).
Local Abbreviation RHOCVVE_INDEX := (CNumerics.RHOCVVE_INDEX nDim nSpecies).

(** Local variables of [ComputeResidual] (lines 1465-1612). *)
Definition alpha : R := 3 / 16.

Definition Area : R := CNumerics.FaceArea nDim Normal.
Definition UnitNormal : vec := CNumerics.FaceUnitNormal nDim Normal.

Definition RuSI : R := UNIVERSAL_GAS_CONSTANT.
Definition Ru : R := 1000 * RuSI.

Definition rhos_i : vec :=
  vec_init nSpecies (fun iSpecies => V_i (RHOS_INDEX + iSpecies)%nat).
Definition rhos_j : vec :=
  vec_init nSpecies (fun iSpecies => V_j (RHOS_INDEX + iSpecies)%nat).
(** Lines 1505-1510: the velocities and the pressures are set to [0.0]; the
    reads of [V_i] and [V_j] stand in comments beside them. *)
Definition u_i : vec := vec_init nDim (fun iDim => 0).
Definition u_j : vec := vec_init nDim (fun iDim => 0).
Definition P_i : R := 0.
Definition P_j : R := 0.
Definition h_i : R := V_i H_INDEX.
Definition h_j : R := V_j H_INDEX.
Definition rho_i : R := V_i RHO_INDEX.
Definition rho_j : R := V_j RHO_INDEX.
Definition rhoEve_i : R := U_i (nSpecies + nDim + 1)%nat.
Definition rhoEve_j : R := U_j (nSpecies + nDim + 1)%nat.
Definition rhoCvtr_i : R := V_i RHOCVTR_INDEX.
Definition rhoCvtr_j : R := V_j RHOCVTR_INDEX.
Definition rhoCvve_i : R := V_i RHOCVVE_INDEX.
Definition rhoCvve_j : R := V_j RHOCVVE_INDEX.
Definition rhoRi : R :=
  sum_upto nSpecies
    (fun iSpecies => V_i (RHOS_INDEX + iSpecies)%nat * Ru / Ms iSpecies).
Definition rhoRj : R :=
  sum_upto nSpecies
    (fun iSpecies => V_j (RHOS_INDEX + iSpecies)%nat * Ru / Ms iSpecies).

Definition ProjVel_i : R :=
  sum_upto nDim (fun iDim => u_i iDim * UnitNormal iDim).
Definition ProjVel_j : R :=
  sum_upto nDim (fun iDim => u_j iDim * UnitNormal iDim).
Definition sqVi : R :=
  sum_upto nDim (fun iDim =>
    (u_i iDim - ProjVel_i * UnitNormal iDim)
    * (u_i iDim - ProjVel_i * UnitNormal iDim)).
Definition sqVj : R :=
  sum_upto nDim (fun iDim =>
    (u_j iDim - ProjVel_j * UnitNormal iDim)
    * (u_j iDim - ProjVel_j * UnitNormal iDim)).

Definition Hnorm : R := 0.5 * (h_i - 0.5 * sqVi + h_j - 0.5 * sqVj).
Definition gtl_i : R := rhoRi / (rhoCvtr_i + rhoCvve_i) + 1.
Definition gtl_j : R := rhoRj / (rhoCvtr_j + rhoCvve_j) + 1.
Definition gam : R := 0.5 * (gtl_i + gtl_j).
Definition atl : R :=
  if Rlt_dec (Rabs (rho_i - rho_j) / (0.5 * (rho_i + rho_j))) 1E-3
  then sqrt (2 * Hnorm * (gam - 1) / (gam + 1))
  else sqrt (2 * Hnorm
             * (((gtl_i - 1) / (gtl_i * rho_i) - (gtl_j - 1) / (gtl_j * rho_j))
                / ((gtl_j + 1) / (gtl_j * rho_i)
                   - (gtl_i + 1) / (gtl_i * rho_j)))).

Definition aij : R :=
  if Rge_dec (0.5 * (ProjVel_i + ProjVel_j)) 0
  then atl * atl / Rmax (Rabs ProjVel_i) atl
  else atl * atl / Rmax (Rabs ProjVel_j) atl.

Definition mL : R := ProjVel_i / aij.
Definition mR : R := ProjVel_j / aij.
Definition mLP : R :=
  if Rle_dec (Rabs mL) 1 then 0.25 * (mL + 1) * (mL + 1)
  else 0.5 * (mL + Rabs mL).
Definition pLP : R :=
  if Rle_dec (Rabs mL) 1
  then P_i * (0.25 * (mL + 1) * (mL + 1) * (2 - mL)
              + alpha * mL * (mL * mL - 1) * (mL * mL - 1))
  else P_i * 0.5 * (mL + Rabs mL) / mL.
Definition mRM : R :=
  if Rle_dec (Rabs mR) 1 then - 0.25 * (mR - 1) * (mR - 1)
  else 0.5 * (mR - Rabs mR).
Definition pRM : R :=
  if Rle_dec (Rabs mR) 1
  then P_j * (0.25 * (mR - 1) * (mR - 1) * (2 + mR)
              - alpha * mR * (mR * mR - 1) * (mR * mR - 1))
  else 0.5 * P_j * (mR - Rabs mR) / mR.

Definition w : R := 1 - (Rmin (P_i / P_j) (P_j / P_i)) ^ 3.
Definition ps : R := pLP + pRM.
Definition fL : R := if Rlt_dec (Rabs mL) 1 then P_i / ps - 1 else 0.
Definition fR : R := if Rlt_dec (Rabs mR) 1 then P_j / ps - 1 else 0.

Definition mF : R := mLP + mRM.
Definition mbLP : R :=
  if Rge_dec mF 0 then mLP + mRM * ((1 - w) * (1 + fR) - fL)
  else mLP * w * (1 + fL).
Definition mbRM : R :=
  if Rge_dec mF 0 then mRM * w * (1 + fR)
  else mRM + mLP * ((1 - w) * (1 + fL) + fL - fR).

Definition FcL : vec :=
  CNumerics.ConservedLayout nDim nSpecies
    (fun iSpecies => rhos_i iSpecies)
    (fun iDim => rho_i * u_i iDim)
    (rho_i * h_i) rhoEve_i.
Definition FcR : vec :=
  CNumerics.ConservedLayout nDim nSpecies
    (fun iSpecies => rhos_j iSpecies)
    (fun iDim => rho_j * u_j iDim)
    (rho_j * h_j) rhoEve_j.

Definition ComputeResidual : vec :=
  let val_residual := vec_init nVar (fun iVar =>
      (mbLP * aij * FcL iVar + mbRM * aij * FcR iVar) * Area) in
  for_range nDim
    (fun iDim r => upd r (nSpecies + iDim)
       (r (nSpecies + iDim)%nat
        + (pLP * UnitNormal iDim + pRM * UnitNormal iDim) * Area))
    val_residual.
End Members.
End CUpwAUSMPWplus_TNE2.

(** ** Centered scheme with first-order dissipation *)

Module CCentLax_TNE2.
Section Members.
Variables (nDim nSpecies nVar nPrimVar : nat).
(** [Param_Kappa_0 = config->GetKappa_1st_TNE2()]; [EPS] comes from the
    declarations. *)
Variables (Param_Kappa_0 EPS : R).
(** Members set by the caller: the spectral radii of the two cells and
    their numbers of neighbours. *)
Variables (Lambda_i Lambda_j : R) (Neighbor_i Neighbor_j : nat).
Variables (U_i U_j V_i V_j Normal : vec).

Local Abbreviation VEL_INDEX := (CNumerics.VEL_INDEX nSpecies).
Local Abbreviation RHO_INDEX := (CNumerics.RHO_INDEX nDim nSpecies).
Local Abbreviation H_INDEX := (CNumerics.H_INDEX nDim nSpecies).
Local Abbreviation A_INDEX := (CNumerics.A_INDEX nDim nSpecies).

(** Set by the constructor. *)
Definition Param_p : R := 0.3.

(** Local variables of [ComputeResidual] (lines 1915-1984). *)
Definition rho_i : R := V_i RHO_INDEX.
Definition rho_j : R := V_j RHO_INDEX.
Definition h_i : R := V_i H_INDEX.
Definition h_j : R := V_j H_INDEX.
Definition a_i : R := V_i A_INDEX.
Definition a_j : R := V_j A_INDEX.

Definition MeanU : vec :=
  vec_init nVar (fun iVar => 0.5 * (U_i iVar + U_j iVar)).
Definition MeanV : vec :=
  vec_init nPrimVar (fun iVar => 0.5 * (V_i iVar + V_j iVar)).

Definition ProjFlux : vec :=
  CNumerics.GetInviscidProjFlux nDim nSpecies MeanU MeanV Normal.

Definition Diff_U : vec :=
  upd (vec_init nVar (fun iVar => U_i iVar - U_j iVar))
      (nSpecies + nDim) (rho_i * h_i - rho_j * h_j).

(** Lines 1964-1969: [ProjVel_i = 0; ProjVel_j = 0; Area = 0;], the loop
    over the dimensions, then [Area = sqrt(Area)].  The state of the loop
    is the triple of the three variables. *)
Definition SpectralLoop : R * R * R :=
  for_range nDim
    (fun iDim '(ProjVel_i, ProjVel_j, Area) =>
       (ProjVel_i + V_i (VEL_INDEX + iDim)%nat * Normal iDim,
        ProjVel_j + V_j (VEL_INDEX + iDim)%nat * Normal iDim,
        Area))
    (0, 0, 0).
Definition ProjVel_i : R := fst (fst SpectralLoop).
Definition ProjVel_j : R := snd (fst SpectralLoop).
Definition Area : R := sqrt (snd SpectralLoop).

Definition Local_Lambda_i : R := Rabs ProjVel_i + a_i * Area.
Definition Local_Lambda_j : R := Rabs ProjVel_j + a_j * Area.
Definition MeanLambda : R := 0.5 * (Local_Lambda_i + Local_Lambda_j).

(** [pow] with the exponent [Param_p] is the real power. *)
Definition Phi_i : R := Rpower (Lambda_i / (4 * MeanLambda + EPS)) Param_p.
Definition Phi_j : R := Rpower (Lambda_j / (4 * MeanLambda + EPS)) Param_p.
Definition StretchingFactor : R := 4 * Phi_i * Phi_j / (Phi_i + Phi_j + EPS).

Definition sc0 : R :=
  3 * (INR Neighbor_i + INR Neighbor_j) / (INR Neighbor_i * INR Neighbor_j).
Definition Epsilon_0 : R := Param_Kappa_0 * sc0 * INR nDim / 3.

Definition ComputeResidual : vec :=
  let val_resconv := vec_init nVar (fun iVar => ProjFlux iVar) in
  for_range nVar
    (fun iVar r => upd r iVar
       (r iVar + Epsilon_0 * Diff_U iVar * StretchingFactor * MeanLambda))
    val_resconv.
End Members.
End CCentLax_TNE2.

(** ** Viscous flux, average of gradients *)

Module CAvgGrad_TNE2.
Section Members.
Variables (nDim nSpecies nVar nPrimVar nPrimVarGrad : nat).
(** [config->GetIonization()]. *)
Variable ionization : bool.
(** [var->CalcHs(config, T, eve, iSpecies)] of the mixture; [TWO3] comes
    from the declarations. *)
Variable CalcHs : R -> R -> nat -> R.
Variable TWO3 : R.

Local Abbreviation RHOS_INDEX := (CNumerics.RHOS_INDEX).
Local Abbreviation T_INDEX := (CNumerics.T_INDEX nSpecies).
Local Abbreviation TVE_INDEX := (CNumerics.TVE_INDEX nSpecies).
Local Abbreviation VEL_INDEX := (CNumerics.VEL_INDEX nSpecies).
Local Abbreviation RHO_INDEX := (CNumerics.RHO_INDEX nDim nSpecies).

(** Lines 2163-2271.  The primitive vector holds mass fractions in its
    species entries.  The loop over [iDim] fills one column of
    [Flux_Tensor] at a time and is left through [exit(1)] when the mixture
    is ionized. *)
Definition GetViscousProjFlux (val_primvar : vec) (val_gradprimvar : mat)
    (val_eve val_normal val_diffusioncoeff : vec)
    (val_viscosity val_therm_conductivity val_therm_conductivity_ve : R)
  : outcome vec :=
  let Flux_Tensor : mat := fun _ _ => 0 in
  let nHeavy := if ionization then (nSpecies - 1)%nat else nSpecies in
  let Ds := val_diffusioncoeff in
  let mu := val_viscosity in
  let ktr := val_therm_conductivity in
  let kve := val_therm_conductivity_ve in
  let rho := val_primvar RHO_INDEX in
  let T := val_primvar T_INDEX in
  let V := val_primvar in
  let GV := val_gradprimvar in
  let hs := vec_init nSpecies
              (fun iSpecies => CalcHs T (val_eve iSpecies) iSpecies) in
  let div_vel := sum_upto nDim (fun iDim => GV (VEL_INDEX + iDim)%nat iDim) in
  let Vector := vec_init nDim (fun iDim =>
      sum_upto nHeavy (fun iSpecies =>
        rho * Ds iSpecies * GV (RHOS_INDEX + iSpecies)%nat iDim)) in
  let tau : mat := fun iDim jDim =>
      0 + mu * (val_gradprimvar (VEL_INDEX + jDim)%nat iDim
                + val_gradprimvar (VEL_INDEX + iDim)%nat jDim)
      - (if Nat.eqb iDim jDim then TWO3 * mu * div_vel else 0) in
  bind
    (for_range_exit nDim
       (fun iDim Flux_Tensor =>
          let Flux_Tensor := for_range nHeavy
              (fun iSpecies F => upd2 F iSpecies iDim
                 (rho * Ds iSpecies * GV (RHOS_INDEX + iSpecies)%nat iDim
                  - V (RHOS_INDEX + iSpecies)%nat * Vector iDim))
              Flux_Tensor in
          if ionization
          then Exits
                 "GetViscProjFlux -- NEED TO IMPLEMENT IONIZED FUNCTIONALITY!!!"
                 1
          else
            let F := upd2 Flux_Tensor (nSpecies + nDim) iDim 0 in
            let F := for_range nDim
                (fun jDim F =>
                   let F := upd2 F (nSpecies + jDim) iDim (tau iDim jDim) in
                   upd2 F (nSpecies + nDim) iDim
                     (F (nSpecies + nDim)%nat iDim
                      + tau iDim jDim * val_primvar (VEL_INDEX + jDim)%nat))
                F in
            let F := for_range nHeavy
                (fun iSpecies F =>
                   let F := upd2 F (nSpecies + nDim) iDim
                       (F (nSpecies + nDim)%nat iDim
                        + F iSpecies iDim * hs iSpecies) in
                   upd2 F (nSpecies + nDim + 1) iDim
                     (F (nSpecies + nDim + 1)%nat iDim
                      + F iSpecies iDim * val_eve iSpecies))
                F in
            let F := upd2 F (nSpecies + nDim) iDim
                (F (nSpecies + nDim)%nat iDim
                 + (ktr * GV T_INDEX iDim + kve * GV TVE_INDEX iDim)) in
            let F := upd2 F (nSpecies + nDim + 1) iDim
                (F (nSpecies + nDim + 1)%nat iDim
                 + kve * GV TVE_INDEX iDim) in
            Returns F)
       Flux_Tensor)
    (fun Flux_Tensor =>
       Returns (vec_init nVar (fun iVar =>
         sum_upto nDim (fun iDim => Flux_Tensor iVar iDim
                                    * val_normal iDim)))).

(** Members set by the caller for the two cells. *)
Variables (V_i V_j : vec) (PrimVar_Grad_i PrimVar_Grad_j : mat).
Variables (Diffusion_Coeff_i Diffusion_Coeff_j eve_i eve_j : vec).
Variables (Laminar_Viscosity_i Laminar_Viscosity_j : R).
Variables (Thermal_Conductivity_i Thermal_Conductivity_j : R).
Variables (Thermal_Conductivity_ve_i Thermal_Conductivity_ve_j : R).
Variable Normal : vec.

(** Local variables of [ComputeResidual] (lines 2082-2145). *)
Definition Mean_Diffusion_Coeff : vec :=
  vec_init nSpecies (fun iSpecies =>
    0.5 * (Diffusion_Coeff_i iSpecies + Diffusion_Coeff_j iSpecies)).
Definition Mean_Laminar_Viscosity : R :=
  0.5 * (Laminar_Viscosity_i + Laminar_Viscosity_j).
Definition Mean_Thermal_Conductivity : R :=
  0.5 * (Thermal_Conductivity_i + Thermal_Conductivity_j).
Definition Mean_Thermal_Conductivity_ve : R :=
  0.5 * (Thermal_Conductivity_ve_i + Thermal_Conductivity_ve_j).

(** Mass fractions in the species entries, the stored primitives after. *)
Definition PrimVar_i : vec :=
  vec_init2 nSpecies nPrimVar
    (fun iSpecies => V_i iSpecies / V_i RHO_INDEX) (fun iVar => V_i iVar).
Definition PrimVar_j : vec :=
  vec_init2 nSpecies nPrimVar
    (fun iSpecies => V_j iSpecies / V_j RHO_INDEX) (fun iVar => V_j iVar).
Definition Mean_PrimVar : vec :=
  vec_init2 nSpecies nPrimVar
    (fun iSpecies => 0.5 * (PrimVar_i iSpecies + PrimVar_j iSpecies))
    (fun iVar => 0.5 * (PrimVar_i iVar + PrimVar_j iVar)).

Definition Mean_GradPrimVar : mat :=
  fun iVar iDim =>
    if Nat.ltb iDim nDim then
      vec_init2 nSpecies nPrimVarGrad
        (fun iSpecies =>
           0.5 * (1 / V_i RHO_INDEX
                  * (PrimVar_Grad_i iSpecies iDim
                     - PrimVar_i iSpecies * PrimVar_Grad_i RHO_INDEX iDim)
                  + 1 / V_j RHO_INDEX
                    * (PrimVar_Grad_j iSpecies iDim
                       - PrimVar_j iSpecies * PrimVar_Grad_j RHO_INDEX iDim)))
        (fun iVar =>
           0.5 * (PrimVar_Grad_i iVar iDim + PrimVar_Grad_j iVar iDim))
        iVar
    else 0.

Definition Mean_Eve : vec :=
  vec_init nSpecies (fun iSpecies => 0.5 * (eve_i iSpecies + eve_j iSpecies)).

Definition ComputeResidual : outcome vec :=
  bind (GetViscousProjFlux Mean_PrimVar Mean_GradPrimVar Mean_Eve Normal
          Mean_Diffusion_Coeff Mean_Laminar_Viscosity
          Mean_Thermal_Conductivity Mean_Thermal_Conductivity_ve)
       (fun Proj_Flux_Tensor =>
          Returns (vec_init nVar (fun iVar => Proj_Flux_Tensor iVar))).
End Members.

(** What lines 2107-2122 form at one node before the two nodes are
    averaged: the gradient of the mass fractions in the species rows, the
    stored gradient in the rows after. *)
Definition Node_GradPrimVar (nDim nSpecies nPrimVar nPrimVarGrad : nat)
    (V : vec) (PrimVar_Grad : mat) : mat :=
  fun iVar iDim =>
    if Nat.ltb iDim nDim then
      vec_init2 nSpecies nPrimVarGrad
        (fun iSpecies =>
           1 / V (CNumerics.RHO_INDEX nDim nSpecies)
           * (PrimVar_Grad iSpecies iDim
              - PrimVar_i nDim nSpecies nPrimVar V iSpecies
                * PrimVar_Grad (CNumerics.RHO_INDEX nDim nSpecies) iDim))
        (fun iVar => PrimVar_Grad iVar iDim)
        iVar
    else 0.

(** The part of a gradient along the edge from [Coord_i] to [Coord_j],
    which the corrected scheme replaces by the difference of the two
    states. *)
Definition Edge_Projection (nDim nPrimVarGrad : nat) (Grad : mat)
    (Coord_i Coord_j : vec) : mat :=
  fun iVar iDim =>
    if (Nat.ltb iVar nPrimVarGrad && Nat.ltb iDim nDim)%bool then
      sum_upto nDim (fun jDim =>
        Grad iVar jDim * (Coord_j jDim - Coord_i jDim))
      * (Coord_j iDim - Coord_i iDim)
      / sum_upto nDim (fun jDim =>
          (Coord_j jDim - Coord_i jDim) * (Coord_j jDim - Coord_i jDim))
    else 0.

(** The arrays [GetViscousProjFlux] fills on the way (lines 2210-2260),
    for a mixture that is not ionized: the divergence of the velocity,
    the sum of the diffusion fluxes, the stress tensor, the diffusion
    flux of a species and the entries of [Flux_Tensor] once the loop over
    the dimensions has run. *)
Section FluxTensor.
Variables (nDim nSpecies : nat).
Variable CalcHs : R -> R -> nat -> R.
Variable TWO3 : R.
Variables (val_primvar : vec) (val_gradprimvar : mat).
Variables (val_eve val_diffusioncoeff : vec).
Variables (val_viscosity val_therm_conductivity : R).
Variable val_therm_conductivity_ve : R.

Definition div_vel : R :=
  sum_upto nDim (fun iDim =>
    val_gradprimvar (CNumerics.VEL_INDEX nSpecies + iDim)%nat iDim).
Definition Vector (iDim : nat) : R :=
  sum_upto nSpecies (fun iSpecies =>
    val_primvar (CNumerics.RHO_INDEX nDim nSpecies)
    * val_diffusioncoeff iSpecies
    * val_gradprimvar (CNumerics.RHOS_INDEX + iSpecies)%nat iDim).
Definition tau (iDim jDim : nat) : R :=
  0 + val_viscosity
      * (val_gradprimvar (CNumerics.VEL_INDEX nSpecies + jDim)%nat iDim
         + val_gradprimvar (CNumerics.VEL_INDEX nSpecies + iDim)%nat jDim)
  - (if Nat.eqb iDim jDim then TWO3 * val_viscosity * div_vel else 0).
Definition SpeciesFlux (iSpecies iDim : nat) : R :=
  val_primvar (CNumerics.RHO_INDEX nDim nSpecies)
  * val_diffusioncoeff iSpecies
  * val_gradprimvar (CNumerics.RHOS_INDEX + iSpecies)%nat iDim
  - val_primvar (CNumerics.RHOS_INDEX + iSpecies)%nat * Vector iDim.
Definition Flux_Tensor (iVar iDim : nat) : R :=
  if Nat.ltb iVar nSpecies then SpeciesFlux iVar iDim
  else if Nat.ltb iVar (nSpecies + nDim) then tau iDim (iVar - nSpecies)
  else if Nat.eqb iVar (nSpecies + nDim) then
    sum_upto nDim (fun jDim =>
      tau iDim jDim
      * val_primvar (CNumerics.VEL_INDEX nSpecies + jDim)%nat)
    + sum_upto nSpecies (fun iSpecies =>
        SpeciesFlux iSpecies iDim
        * CalcHs (val_primvar (CNumerics.T_INDEX nSpecies))
            (val_eve iSpecies) iSpecies)
    + (val_therm_conductivity
       * val_gradprimvar (CNumerics.T_INDEX nSpecies) iDim
       + val_therm_conductivity_ve
         * val_gradprimvar (CNumerics.TVE_INDEX nSpecies) iDim)
  else if Nat.eqb iVar (nSpecies + nDim + 1) then
    sum_upto nSpecies (fun iSpecies =>
      SpeciesFlux iSpecies iDim * val_eve iSpecies)
    + val_therm_conductivity_ve
      * val_gradprimvar (CNumerics.TVE_INDEX nSpecies) iDim
  else 0.

(** One turn of the loop over [iDim] of lines 2236-2262, past the test
    on [ionization]. *)
Definition Flux_Tensor_column (iDim : nat) (Flux_Tensor : mat) : mat :=
  let nHeavy := nSpecies in
  let rho := val_primvar (CNumerics.RHO_INDEX nDim nSpecies) in
  let hs := vec_init nSpecies (fun iSpecies =>
      CalcHs (val_primvar (CNumerics.T_INDEX nSpecies))
        (val_eve iSpecies) iSpecies) in
  let Flux_Tensor := for_range nHeavy
      (fun iSpecies F => upd2 F iSpecies iDim
         (rho * val_diffusioncoeff iSpecies
          * val_gradprimvar (CNumerics.RHOS_INDEX + iSpecies)%nat iDim
          - val_primvar (CNumerics.RHOS_INDEX + iSpecies)%nat
            * vec_init nDim Vector iDim))
      Flux_Tensor in
  let F := upd2 Flux_Tensor (nSpecies + nDim) iDim 0 in
  let F := for_range nDim
      (fun jDim F =>
         let F := upd2 F (nSpecies + jDim) iDim (tau iDim jDim) in
         upd2 F (nSpecies + nDim) iDim
           (F (nSpecies + nDim)%nat iDim
            + tau iDim jDim
              * val_primvar (CNumerics.VEL_INDEX nSpecies + jDim)%nat))
      F in
  let F := for_range nHeavy
      (fun iSpecies F =>
         let F := upd2 F (nSpecies + nDim) iDim
             (F (nSpecies + nDim)%nat iDim
              + F iSpecies iDim * hs iSpecies) in
         upd2 F (nSpecies + nDim + 1) iDim
           (F (nSpecies + nDim + 1)%nat iDim
            + F iSpecies iDim * val_eve iSpecies))
      F in
  let F := upd2 F (nSpecies + nDim) iDim
      (F (nSpecies + nDim)%nat iDim
       + (val_therm_conductivity
          * val_gradprimvar (CNumerics.T_INDEX nSpecies) iDim
          + val_therm_conductivity_ve
            * val_gradprimvar (CNumerics.TVE_INDEX nSpecies) iDim)) in
  upd2 F (nSpecies + nDim + 1) iDim
    (F (nSpecies + nDim + 1)%nat iDim
     + val_therm_conductivity_ve
       * val_gradprimvar (CNumerics.TVE_INDEX nSpecies) iDim).
End FluxTensor.
End CAvgGrad_TNE2.

(** ** Viscous flux, average of gradients with the edge correction *)

Module CAvgGradCorrected_TNE2.
Section Members.
Variables (nDim nSpecies nVar nPrimVar nPrimVarGrad : nat).
Variable ionization : bool.
Variable CalcHs : R -> R -> nat -> R.
Variable TWO3 : R.

Local Abbreviation RHO_INDEX := (CNumerics.RHO_INDEX nDim nSpecies).

(** Lines 2625-2733 are, word for word, lines 2163-2271. *)
Definition GetViscousProjFlux :
    vec -> mat -> vec -> vec -> vec -> R -> R -> R -> outcome vec :=
  CAvgGrad_TNE2.GetViscousProjFlux nDim nSpecies nVar ionization CalcHs TWO3.

Variables (V_i V_j : vec) (PrimVar_Grad_i PrimVar_Grad_j : mat).
Variables (Diffusion_Coeff_i Diffusion_Coeff_j eve_i eve_j : vec).
Variables (Laminar_Viscosity_i Laminar_Viscosity_j : R).
Variables (Thermal_Conductivity_i Thermal_Conductivity_j : R).
Variables (Thermal_Conductivity_ve_i Thermal_Conductivity_ve_j : R).
Variables (Normal Coord_i Coord_j : vec).

(** Local variables of [ComputeResidual] (lines 3041-3126). *)
Definition Edge_Vector : vec :=
  vec_init nDim (fun iDim => Coord_j iDim - Coord_i iDim).
Definition dist_ij_2 : R :=
  sum_upto nDim (fun iDim => Edge_Vector iDim * Edge_Vector iDim).

Definition PrimVar_i : vec :=
  vec_init2 nSpecies nPrimVar
    (fun iSpecies => V_i iSpecies / V_i RHO_INDEX) (fun iVar => V_i iVar).
Definition PrimVar_j : vec :=
  vec_init2 nSpecies nPrimVar
    (fun iSpecies => V_j iSpecies / V_j RHO_INDEX) (fun iVar => V_j iVar).
Definition Mean_PrimVar : vec :=
  vec_init2 nSpecies nPrimVar
    (fun iSpecies => 0.5 * (PrimVar_i iSpecies + PrimVar_j iSpecies))
    (fun iVar => 0.5 * (PrimVar_i iVar + PrimVar_j iVar)).

(** The mean gradient before the correction. *)
Definition Mean_GradPrimVar : mat :=
  fun iVar iDim =>
    if Nat.ltb iDim nDim then
      vec_init2 nSpecies nPrimVarGrad
        (fun iSpecies =>
           0.5 * (1 / V_i RHO_INDEX
                  * (PrimVar_Grad_i iSpecies iDim
                     - PrimVar_i iSpecies * PrimVar_Grad_i RHO_INDEX iDim)
                  + 1 / V_j RHO_INDEX
                    * (PrimVar_Grad_j iSpecies iDim
                       - PrimVar_j iSpecies * PrimVar_Grad_j RHO_INDEX iDim)))
        (fun iVar =>
           0.5 * (PrimVar_Grad_i iVar iDim + PrimVar_Grad_j iVar iDim))
        iVar
    else 0.

Definition Mean_Eve : vec :=
  vec_init nSpecies (fun iSpecies => 0.5 * (eve_i iSpecies + eve_j iSpecies)).

Definition Mean_Diffusion_Coeff : vec :=
  vec_init nSpecies (fun iSpecies =>
    0.5 * (Diffusion_Coeff_i iSpecies + Diffusion_Coeff_j iSpecies)).
Definition Mean_Laminar_Viscosity : R :=
  0.5 * (Laminar_Viscosity_i + Laminar_Viscosity_j).
Definition Mean_Thermal_Conductivity : R :=
  0.5 * (Thermal_Conductivity_i + Thermal_Conductivity_j).
Definition Mean_Thermal_Conductivity_ve : R :=
  0.5 * (Thermal_Conductivity_ve_i + Thermal_Conductivity_ve_j).

(** Projection of the mean gradient in the direction of the edge. *)
Definition Proj_Mean_GradPrimVar_Edge : vec :=
  vec_init nPrimVarGrad (fun iVar =>
    sum_upto nDim (fun iDim => Mean_GradPrimVar iVar iDim * Edge_Vector iDim)).

(** Lines 3110-3113: what the loop takes away from every entry of the mean
    gradient. *)
Definition GradCorrection : mat :=
  fun iVar iDim =>
    (Proj_Mean_GradPrimVar_Edge iVar - (PrimVar_j iVar - PrimVar_i iVar))
    * Edge_Vector iDim / dist_ij_2.

(** The mean gradient once the loop of lines 3106-3114 has run. *)
Definition Mean_GradPrimVar_Corrected : mat :=
  fun iVar iDim =>
    if (Nat.ltb iVar nPrimVarGrad && Nat.ltb iDim nDim)%bool
    then Mean_GradPrimVar iVar iDim - GradCorrection iVar iDim
    else Mean_GradPrimVar iVar iDim.

Definition ComputeResidual : outcome vec :=
  bind (GetViscousProjFlux Mean_PrimVar Mean_GradPrimVar_Corrected Mean_Eve
          Normal Mean_Diffusion_Coeff Mean_Laminar_Viscosity
          Mean_Thermal_Conductivity Mean_Thermal_Conductivity_ve)
       (fun Proj_Flux_Tensor =>
          Returns (vec_init nVar (fun iVar => Proj_Flux_Tensor iVar))).
End Members.
End CAvgGradCorrected_TNE2.

(** ** Source terms: finite-rate chemistry and vibrational relaxation *)

Module CSource_TNE2.
Section Members.
Variables (nDim nSpecies nVar : nat).
(** Read from the configuration: the molar masses, the table of
    equilibrium-constant coefficients of a reaction (six rows of five),
    the map of reactants ([RxnMap[iReaction][0][ii]]) and products
    ([RxnMap[iReaction][1][ii]]), the rate-controlling temperature
    exponents, the Arrhenius coefficients and the characteristic
    vibrational temperatures. *)
Variable Ms : vec.
Variable GetChemistryEquilConstants : nat -> mat.
Variable RxnMap : nat -> nat -> nat -> nat.
Variables (Tcf_a Tcf_b Tcb_a Tcb_b : vec).
Variables (GetArrheniusCoeff GetArrheniusEta GetArrheniusTheta : nat -> R).
Variable thetav : vec.
(** From the declarations. *)
Variables (AVOGAD_CONSTANT UNIVERSAL_GAS_CONSTANT PI_NUMBER : R).
(** Members set by the caller. *)
Variables (U_i V_i eve_i : vec) (Volume : R).

Local Abbreviation RHOS_INDEX := (CNumerics.RHOS_INDEX).
Local Abbreviation T_INDEX := (CNumerics.T_INDEX nSpecies).
Local Abbreviation TVE_INDEX := (CNumerics.TVE_INDEX nSpecies).
Local Abbreviation P_INDEX := (CNumerics.P_INDEX nDim nSpecies).

(** *** [GetKeqConstants] (lines 3235-3286) *)

(** The mixture number density, in 1/cm^3 after line 3252. *)
Definition NumberDensity : R :=
  let N := sum_upto nSpecies
             (fun iSpecies => V_i iSpecies / Ms iSpecies * AVOGAD_CONSTANT) in
  N * 1E-6.

(** [floor(log10(N))]; the logarithm has no value for [N <= 0]. *)
Definition floor_log10 (N : R) : option Z :=
  if Rlt_dec 0 N then Some (Int_part (ln N / ln 10)) else None.

Definition tbl_offset : Z := 14.

(** [pwr] and [iIndex] are [unsigned short]: [pwr] converts a floating
    value, [iIndex] converts the [int] difference [pwr - tbl_offset]. *)
Definition GetKeqConstants (val_Reaction : nat) : option vec :=
  let RxnConstantTable := GetChemistryEquilConstants val_Reaction in
  let N := NumberDensity in
  match floor_log10 N with
  | None => None
  | Some fl =>
    match ushort_of_floating fl with
    | None => None
    | Some pwr =>
      let iIndex := ushort_of_int (pwr - tbl_offset) in
      if (iIndex <=? 0)%Z then
        Some (vec_init 5 (fun ii => RxnConstantTable 0%nat ii))
      else if (iIndex >=? 5)%Z then
        Some (vec_init 5 (fun ii => RxnConstantTable 5%nat ii))
      else
        let '(tmp1, tmp2) :=
          for_range (Z.to_nat pwr)
            (fun ii '(tmp1, tmp2) => (tmp1 * 10, tmp2 * 10)) (1, 1) in
        let tmp2 := tmp2 * 10 in
        Some (vec_init 5 (fun ii =>
          (RxnConstantTable (Z.to_nat iIndex + 1)%nat ii
           - RxnConstantTable (Z.to_nat iIndex) ii)
          / (tmp2 - tmp1) * (N - tmp1)
          + RxnConstantTable (Z.to_nat iIndex) ii))
    end
  end.

(** *** [ComputeChemistry] (lines 3288-3422), the residual *)

Definition T_min : R := 800.
Definition epsilon : R := 80.

Definition T : R := V_i T_INDEX.
Definition Tve : R := V_i TVE_INDEX.

(** The rate-controlling temperatures: [pow] with real exponents. *)
Definition Trxnf (iReaction : nat) : R :=
  Rpower T (Tcf_a iReaction) * Rpower Tve (Tcf_b iReaction).
Definition Trxnb (iReaction : nat) : R :=
  Rpower T (Tcb_a iReaction) * Rpower Tve (Tcb_b iReaction).

Definition Thf (iReaction : nat) : R :=
  0.5 * (Trxnf iReaction + T_min
         + sqrt ((Trxnf iReaction - T_min) * (Trxnf iReaction - T_min)
                 + epsilon * epsilon)).
Definition Thb (iReaction : nat) : R :=
  0.5 * (Trxnb iReaction + T_min
         + sqrt ((Trxnb iReaction - T_min) * (Trxnb iReaction - T_min)
                 + epsilon * epsilon)).

Definition Keq (iReaction : nat) (A : vec) : R :=
  let Thb := Thb iReaction in
  exp (A 0%nat * (Thb / 1E4) + A 1%nat + A 2%nat * ln (1E4 / Thb)
       + A 3%nat * (1E4 / Thb) + A 4%nat * (1E4 / Thb) * (1E4 / Thb)).

Definition kf (iReaction : nat) : R :=
  GetArrheniusCoeff iReaction
  * exp (GetArrheniusEta iReaction * ln (Thf iReaction))
  * exp (- GetArrheniusTheta iReaction / Thf iReaction).
Definition kfb (iReaction : nat) : R :=
  GetArrheniusCoeff iReaction
  * exp (GetArrheniusEta iReaction * ln (Thb iReaction))
  * exp (- GetArrheniusTheta iReaction / Thb iReaction).
Definition kb (iReaction : nat) (A : vec) : R :=
  kfb iReaction / Keq iReaction A.

(** Lines 3382-3399: the products of the concentrations over the three
    slots of each side; a slot holding [nSpecies] is empty. *)
Definition Concentrations (iReaction : nat) : R * R :=
  for_range 3
    (fun ii '(fwdRxn, bkwRxn) =>
       let iSpecies := RxnMap iReaction 0%nat ii in
       let fwdRxn :=
         if Nat.eqb iSpecies nSpecies then fwdRxn
         else fwdRxn * (0.001 * U_i iSpecies / Ms iSpecies) in
       let jSpecies := RxnMap iReaction 1%nat ii in
       let bkwRxn :=
         if Nat.eqb jSpecies nSpecies then bkwRxn
         else bkwRxn * (0.001 * U_i jSpecies / Ms jSpecies) in
       (fwdRxn, bkwRxn))
    (1, 1).
Definition fwdRxn (iReaction : nat) : R :=
  1000 * kf iReaction * fst (Concentrations iReaction).
Definition bkwRxn (iReaction : nat) (A : vec) : R :=
  1000 * kb iReaction A * snd (Concentrations iReaction).

(** The molar mass a slot of the reaction map stands for: none when the
    slot is empty. *)
Definition SlotMolarMass (iSpecies : nat) : R :=
  if Nat.eqb iSpecies nSpecies then 0 else Ms iSpecies.

(** Lines 3401-3418: what one reaction adds to the residual. *)
Definition ReactionResidual (iReaction : nat) (A : vec) (val_residual : vec)
  : vec :=
  let fwdRxn := fwdRxn iReaction in
  let bkwRxn := bkwRxn iReaction A in
  for_range 3
    (fun ii r =>
       (* Products *)
       let iSpecies := RxnMap iReaction 1%nat ii in
       let r :=
         if Nat.eqb iSpecies nSpecies then r
         else
           let r := upd r iSpecies
               (r iSpecies + Ms iSpecies * (fwdRxn - bkwRxn) * Volume) in
           upd r (nSpecies + nDim + 1)
               (r (nSpecies + nDim + 1)%nat
                + Ms iSpecies * (fwdRxn - bkwRxn) * eve_i iSpecies * Volume) in
       (* Reactants *)
       let iSpecies := RxnMap iReaction 0%nat ii in
       if Nat.eqb iSpecies nSpecies then r
       else
         let r := upd r iSpecies
             (r iSpecies - Ms iSpecies * (fwdRxn - bkwRxn) * Volume) in
         upd r (nSpecies + nDim + 1)
             (r (nSpecies + nDim + 1)%nat
              - Ms iSpecies * (fwdRxn - bkwRxn) * eve_i iSpecies * Volume))
    val_residual.

(** One turn of the loop over the reactions. *)
Definition ReactionStep (iReaction : nat) (val_residual : vec) : option vec :=
  match GetKeqConstants iReaction with
  | None => None
  | Some A => Some (ReactionResidual iReaction A val_residual)
  end.

Variable nReactions : nat.

Definition ComputeChemistry : option vec :=
  for_range_opt nReactions ReactionStep (vec_init nVar (fun _ => 0)).

(** *** [ComputeVibRelaxation] (lines 3576-3637) *)

Variable CalcEve : R -> nat -> R.

Definition RuSI : R := UNIVERSAL_GAS_CONSTANT.
Definition Ru : R := 1000 * RuSI.
Definition P : R := V_i P_INDEX.

Definition conc : R :=
  sum_upto nSpecies
    (fun iSpecies => V_i (RHOS_INDEX + iSpecies)%nat / Ms iSpecies).
Definition N : R :=
  sum_upto nSpecies
    (fun iSpecies => V_i (RHOS_INDEX + iSpecies)%nat / Ms iSpecies
                     * AVOGAD_CONSTANT).
(** Mole fractions. *)
Definition X : vec :=
  vec_init nSpecies
    (fun iSpecies => (V_i (RHOS_INDEX + iSpecies)%nat / Ms iSpecies) / conc).

(** Millikan and White relaxation time of the pair. *)
Definition mu (iSpecies jSpecies : nat) : R :=
  Ms iSpecies * Ms jSpecies / (Ms iSpecies + Ms jSpecies).
Definition A_sr (iSpecies jSpecies : nat) : R :=
  1.16 * 1E-3 * sqrt (mu iSpecies jSpecies)
  * Rpower (thetav iSpecies) (4 / 3).
Definition B_sr (iSpecies jSpecies : nat) : R :=
  0.015 * Rpower (mu iSpecies jSpecies) 0.25.
Definition tau_sr (iSpecies jSpecies : nat) : R :=
  101325 / P
  * exp (A_sr iSpecies jSpecies
         * (Rpower T (- 1 / 3) - B_sr iSpecies jSpecies) - 18.42).

Definition num (iSpecies : nat) : R :=
  sum_upto nSpecies (fun jSpecies => X jSpecies).
Definition denom (iSpecies : nat) : R :=
  sum_upto nSpecies
    (fun jSpecies => X jSpecies / tau_sr iSpecies jSpecies).
Definition tauMW (iSpecies : nat) : R := num iSpecies / denom iSpecies.

(** Park limiting cross section. *)
Definition Cs (iSpecies : nat) : R :=
  sqrt ((8 * Ru * T) / (PI_NUMBER * Ms iSpecies)).
Definition sig_s : R := 1E-20 * (5E4 * 5E4) / (T * T).
Definition tauP (iSpecies : nat) : R := 1 / (sig_s * Cs iSpecies * N).

(** Species relaxation time. *)
Definition taus (iSpecies : nat) : R := tauMW iSpecies + tauP iSpecies.

Definition estar (iSpecies : nat) : R := CalcEve T iSpecies.

Definition ComputeVibRelaxation : vec :=
  let nEv := (nSpecies + nDim + 1)%nat in
  for_range nSpecies
    (fun iSpecies r =>
       let rhos := V_i (RHOS_INDEX + iSpecies)%nat in
       upd r nEv
         (r nEv + rhos * (estar iSpecies - eve_i iSpecies)
                  / taus iSpecies * Volume))
    (vec_init nVar (fun _ => 0)).
End Members.
End CSource_TNE2.

(** ** Source terms: the axisymmetric source *)

Module ComputeAxisymmetric.
Section Members.
Variables (nDim nSpecies nVar : nat).
(** Members set by the caller, and [Ys], a member that this function
    reads in the Jacobian and does not set. *)
Variables (U_i V_i dPdU_i Coord_i Ys : vec) (Volume : R).
(** What the arrays of the caller hold on entry. *)
Variables (val_residual_in val_source_in : vec).

Local Abbreviation RHOS_INDEX := (CNumerics.RHOS_INDEX).
Local Abbreviation RHO_INDEX := (CNumerics.RHO_INDEX nDim nSpecies).
Local Abbreviation H_INDEX := (CNumerics.H_INDEX nDim nSpecies).

(** Local variables of [CSource_TNE2::ComputeAxisymmetric]
    (lines 3701-3792). *)
Definition yinv : R :=
  if Req_dec_T (Coord_i 1%nat) 0 then 0 else 1 / Coord_i 1%nat.

Definition rho : R := V_i RHO_INDEX.
Definition rhou : R := U_i nSpecies.
Definition rhov : R := U_i (nSpecies + 1)%nat.
Definition rhoEve : R := U_i (nSpecies + nDim + 1)%nat.
Definition H : R := V_i H_INDEX.
Definition Y : vec :=
  vec_init nSpecies (fun iSpecies => V_i (RHOS_INDEX + iSpecies)%nat / rho).

(** Lines 3725-3730: the rows are written at [nSpecies], ...,
    [nSpecies+3]; the other entries of the array keep what they held. *)
Definition val_residual : vec :=
  let r := for_range nSpecies
      (fun iSpecies r => upd r iSpecies (yinv * rhov * Y iSpecies * Volume))
      val_residual_in in
  let r := upd r nSpecies (yinv * rhov * U_i nSpecies / rho * Volume) in
  let r := upd r (nSpecies + 1)
      (yinv * rhov * U_i (nSpecies + 1)%nat / rho * Volume) in
  let r := upd r (nSpecies + 2) (yinv * rhov * H * Volume) in
  upd r (nSpecies + 3)
    (yinv * rhov * U_i (nSpecies + nDim + 1)%nat / rho * Volume).

(** Set source term. *)
Definition val_source : vec :=
  for_range nVar
    (fun iVar s => upd s iVar (s iVar + val_residual iVar / Volume))
    val_source_in.

(** The Jacobian of the implicit branch (lines 3736-3791). *)
Definition dYdr : mat :=
  fun iSpecies jSpecies =>
    if (Nat.ltb iSpecies nSpecies && Nat.ltb jSpecies nSpecies)%bool then
      0 + - 1 / rho * Ys iSpecies
      + (if Nat.eqb iSpecies jSpecies then 1 / rho else 0)
    else 0.

Definition val_Jacobian : mat :=
  let J : mat := fun _ _ => 0 in
  (* Species density *)
  let J := for_range nSpecies
      (fun iSpecies J =>
         let J := for_range nSpecies
             (fun jSpecies J =>
                upd2 J iSpecies jSpecies (dYdr iSpecies jSpecies * rhov))
             J in
         upd2 J iSpecies (nSpecies + 1) (Y iSpecies))
      J in
  (* X-momentum *)
  let J := for_range nSpecies
      (fun iSpecies J =>
         upd2 J nSpecies iSpecies (- rhou * rhov / (rho * rho)))
      J in
  let J := upd2 J nSpecies nSpecies (rhov / rho) in
  let J := upd2 J nSpecies (nSpecies + 1) (rhou / rho) in
  (* Y-momentum *)
  let J := for_range nSpecies
      (fun iSpecies J =>
         upd2 J (nSpecies + 1) iSpecies (- rhov * rhov / (rho * rho)))
      J in
  let J := upd2 J (nSpecies + 1) (nSpecies + 1) (2 * rhov / rho) in
  (* Energy *)
  let J := for_range nSpecies
      (fun iSpecies J =>
         upd2 J (nSpecies + nDim) iSpecies
           (- H * rhov / rho + dPdU_i iSpecies * rhov / rho))
      J in
  let J := upd2 J (nSpecies + nDim) nSpecies
      (dPdU_i nSpecies * rhov / rho) in
  let J := upd2 J (nSpecies + nDim) (nSpecies + 1)
      (H + dPdU_i (nSpecies + 1)%nat * rhov / rho) in
  let J := upd2 J (nSpecies + nDim) (nSpecies + nDim)
      ((1 + dPdU_i (nSpecies + nDim)%nat) * rhov / rho) in
  let J := upd2 J (nSpecies + nDim) (nSpecies + nDim + 1)
      (dPdU_i (nSpecies + nDim + 1)%nat * rhov / rho) in
  (* Vib-el energy *)
  let J := for_range nSpecies
      (fun iSpecies J =>
         upd2 J (nSpecies + nDim + 1) iSpecies
           (- rhoEve * rhov / (rho * rho)))
      J in
  let J := upd2 J (nSpecies + nDim + 1) (nSpecies + 1) (rhoEve / rho) in
  let J := upd2 J (nSpecies + nDim + 1) (nSpecies + nDim + 1)
      (rhov / rho) in
  fun iVar jVar =>
    if (Nat.ltb iVar nVar && Nat.ltb jVar nVar)%bool
    then J iVar jVar * (yinv * Volume)
    else J iVar jVar.
End Members.
End ComputeAxisymmetric.

(** ** Sample data

    One species in two dimensions, so that [nVar = 5] and the primitive
    vector has eleven entries
    [rho1, T, Tve, u, v, P, rho, h, a, rhoCvtr, rhoCvve]. *)

Module Sample.
(** A gas at rest. *)
Definition V_rest : vec :=
  vec_of_list [1; 300; 300; 0; 0; 101325; 1; 300000; 340; 700; 100].
Definition U_rest : vec := vec_of_list [1; 0; 0; 200000; 1000].
(** The same gas, rarefied to 1e-8 kg/m^3. *)
Definition V_thin : vec :=
  vec_of_list [1E-8; 300; 300; 0; 0; 101325; 1E-8; 300000; 340; 700; 100].
(** Molecular nitrogen, in kg/kmol, and the number of particles in a
    kmol. *)
Definition Ms_N2 : vec := fun _ => 28.
Definition AVOGAD_CONSTANT : R := 6.0221415E26.
(** Nitrogen and its atoms: the dissociation N2 + M -> 2N + M, written
    in the map as reactants [N2, -, -] and products [N, N, -], where the
    empty slot holds [nSpecies = 2]. *)
Definition Ms_N2_N : vec := vec_of_list [28; 14].
Definition RxnMap_dissociation : nat -> nat -> nat -> nat :=
  fun iReaction side ii =>
    match side, ii with
    | O, O => 0%nat
    | Datatypes.S O, O => 1%nat
    | Datatypes.S O, Datatypes.S O => 1%nat
    | _, _ => 2%nat
    end.
(** The gas at rest under twice the pressure. *)
Definition V_rest_2P : vec :=
  vec_of_list [1; 300; 300; 0; 0; 202650; 1; 300000; 340; 700; 100].
(** Stand-ins for the mixture and for the eigenvector matrices, which are
    defined outside this file: pressure derivatives that follow the
    pressure of the state they are computed at, and a pair of mutually
    inverse matrices, the identity but for the entry of row 2 and column
    0, which carries the first pressure derivative. *)
Definition CalcEve_zero : R -> nat -> R := fun _ _ => 0.
Definition CalcdPdU_P : vec -> vec -> vec :=
  fun V _ _ => V (CNumerics.P_INDEX 2 1).
Definition dPdU_rest : vec := fun _ => 101325.
Definition PMatrix_shear : vec -> vec -> vec -> vec -> vec -> vec -> mat :=
  fun _ _ dPdU _ _ _ i k =>
    (if Nat.eqb i k then 1 else 0)
    + (if (Nat.eqb i 2 && Nat.eqb k 0)%bool then dPdU 0%nat else 0).
Definition PMatrix_shear_inv : vec -> vec -> vec -> vec -> vec -> vec -> mat :=
  fun _ _ dPdU _ _ _ i k =>
    (if Nat.eqb i k then 1 else 0)
    - (if (Nat.eqb i 2 && Nat.eqb k 0)%bool then dPdU 0%nat else 0).
(** A face of unit area, normal to the first axis. *)
Definition Normal_x : vec := vec_of_list [1; 0].
(** Two nodes one unit apart along the first axis, and a velocity field
    whose first component grows at unit rate along that axis, in a gas of
    unit viscosity that neither diffuses nor conducts. *)
Definition Coord_origin : vec := vec_of_list [0; 0].
Definition Coord_x : vec := vec_of_list [1; 0].
Definition Grad_stretch : mat :=
  fun iVar iDim => if (Nat.eqb iVar 3 && Nat.eqb iDim 0)%bool then 1 else 0.
Definition CalcHs_zero : R -> R -> nat -> R := fun _ _ _ => 0.
Definition vec_zero : vec := fun _ => 0.

(** A gas of one species in one dimension whose pressure is the density
    times the square of the sound speed, at rest and in motion, and a face
    of unit area. *)
Definition V_line : vec :=
  vec_of_list [1; 300; 300; 0; 115600; 1; 300000; 340; 700; 100].
Definition U_line : vec := vec_of_list [1; 0; 200000; 1000].
Definition V_line_moving : vec :=
  vec_of_list [2; 400; 350; 100; 231200; 2; 400000; 340; 700; 100].
Definition U_line_moving : vec := vec_of_list [2; 200; 500000; 3000].
Definition Normal_line : vec := vec_of_list [1].
Definition Grad_line : mat := fun _ _ => 1.
Definition CreateBasis_line : vec -> vec * vec :=
  fun _ => (vec_zero, vec_zero).
(** A stand-in for the eigenstructure of the base class on that line:
    the acoustic columns are those of the gas whose sound speed is 340,
    ordered by the side the normal points to, and the Jacobian is the
    matrix they diagonalise with the eigenvalues of section 4.1. *)
Definition side (val_normal : vec) : R :=
  if Rlt_dec 0 (val_normal 0%nat) then 1 else -1.
Definition PMatrix_line : vec -> vec -> vec -> vec -> vec -> vec -> mat :=
  fun _ _ _ val_normal _ _ =>
    mat_of_rows [[0; 1; 1; 0];
                 [0; 340 * side val_normal; - 340 * side val_normal; 0];
                 [1; 0; 0; 0];
                 [0; 0; 0; 1]].
Definition PMatrix_line_inv : vec -> vec -> vec -> vec -> vec -> vec -> mat :=
  fun _ _ _ val_normal _ _ =>
    mat_of_rows [[0; 0; 1; 0];
                 [1 / 2; side val_normal / 680; 0; 0];
                 [1 / 2; - side val_normal / 680; 0; 0];
                 [0; 0; 0; 1]].
Definition ProjJac_line : vec -> vec -> vec -> vec -> mat :=
  fun _ val_V _ val_normal i j =>
    let u := val_V (CNumerics.VEL_INDEX 1) in
    let a := val_V (CNumerics.A_INDEX 1 1) in
    val_normal 0%nat
    * mat_of_rows [[u; a / 340; 0; 0];
                   [340 * a; u; 0; 0];
                   [0; 0; u; 0];
                   [0; 0; 0; u]] i j.
End Sample.

(** ** Further sample data *)

Module Cases.
(** Two states of a gas of one species in one dimension that move faster
    than sound along the first axis, whose total enthalpy gives the
    critical sound speed 300 for [Gamma = 1.4], and the same states
    moving the other way. *)
Definition V_fast_i : vec :=
  vec_of_list [1; 300; 300; 400; 115600; 1; 270000; 340; 700; 100].
Definition U_fast_i : vec := vec_of_list [1; 400; 200000; 1000].
Definition V_fast_j : vec :=
  vec_of_list [2; 400; 350; 450; 231200; 2; 270000; 340; 700; 100].
Definition U_fast_j : vec := vec_of_list [2; 900; 500000; 3000].
Definition V_back_i : vec :=
  vec_of_list [1; 300; 300; -400; 115600; 1; 270000; 340; 700; 100].
Definition U_back_i : vec := vec_of_list [1; -400; 200000; 1000].
Definition V_back_j : vec :=
  vec_of_list [2; 400; 350; -450; 231200; 2; 270000; 340; 700; 100].
Definition U_back_j : vec := vec_of_list [2; -900; 500000; 3000].
(** The gas at rest of [Sample] at a hundredth of its density, about
    2.15e17 particles per cm^3. *)
Definition V_mid : vec :=
  vec_of_list [0.01; 300; 300; 0; 0; 1013.25; 0.01; 300000; 340; 700; 100].
(** A table of equilibrium-constant coefficients whose row [r] holds
    [r] in every column, for every reaction. *)
Definition Table_steps : nat -> mat :=
  fun _ r _ => vec_of_list [0; 1; 2; 3; 4; 5] r.
(** A mixture of molecular and atomic nitrogen at rest in two
    dimensions, about 2.58e19 particles per cm^3. *)
Definition V_mix : vec :=
  vec_of_list
    [0.8; 0.2; 300; 300; 0; 0; 101325; 1; 300000; 340; 700; 100].
Definition U_mix : vec := vec_of_list [0.8; 0.2; 0; 0; 200000; 1000].
(** A node off the axis and one on it, a conserved state with momentum
    along both axes, and the mass fraction of a gas of one species. *)
Definition Coord_off : vec := vec_of_list [1; 2].
Definition Coord_axis : vec := vec_of_list [1; 0].
Definition U_swirl : vec := vec_of_list [1; 3; 4; 200000; 1000].
Definition Ys_one : vec := fun _ => 1.
End Cases.

(* ================================================================== *)
(** * Properties *)

(** ** Loops over arrays *)

Lemma upd_same (a : vec) i x : upd a i x i = x.
Proof. unfold upd. now rewrite Nat.eqb_refl. Qed.

Lemma upd_other (a : vec) i x k : k <> i -> upd a i x k = a k.
Proof. unfold upd. intros H. apply Nat.eqb_neq in H. now rewrite H. Qed.

Lemma for_range_ext {S : Type} (n : nat) (f g : nat -> S -> S) (s : S) :
(forall i t, (i < n)%nat -> f i t = g i t) ->
for_range n f s = for_range n g s.
Proof.
induction n as [|n IH]; intros H; simpl; [reflexivity|].
rewrite IH by (intros; apply H; lia). apply H; lia.
Qed.

(** A loop that stores [g i] at [off + i] leaves the other entries alone. *)
Lemma for_range_store (n off : nat) (g : nat -> R) (a : vec) (k : nat) :
for_range n (fun i b => upd b (off + i) (g i)) a k =
if (Nat.leb off k && Nat.ltb k (off + n))%bool then g (k - off)%nat else a k.
Proof.
induction n as [|n IH]; simpl.
- destruct (Nat.leb_spec off k), (Nat.ltb_spec k (off + 0)); simpl;
    try reflexivity; lia.
- unfold upd at 1. destruct (Nat.eqb_spec k (off + n)) as [->|Hne].
  + replace (off + n - off)%nat with n by lia.
    destruct (Nat.leb_spec off (off + n)),
             (Nat.ltb_spec (off + n) (off + Datatypes.S n));
      simpl; try reflexivity; lia.
  + rewrite IH.
    destruct (Nat.leb_spec off k), (Nat.ltb_spec k (off + n)),
             (Nat.ltb_spec k (off + Datatypes.S n));
      simpl; try reflexivity; lia.
Qed.

(** A loop that rewrites entry [i] from its own value. *)
Lemma for_range_inplace (n : nat) (h : nat -> R -> R) (a : vec) (k : nat) :
for_range n (fun i b => upd b i (h i (b i))) a k =
if Nat.ltb k n then h k (a k) else a k.
Proof.
induction n as [|n IH]; simpl; [reflexivity|].
unfold upd at 1. destruct (Nat.eqb_spec k n) as [->|Hne].
- rewrite IH. rewrite Nat.ltb_irrefl.
  destruct (Nat.ltb_spec n (Datatypes.S n)); [reflexivity|lia].
- rewrite IH.
  destruct (Nat.ltb_spec k n), (Nat.ltb_spec k (Datatypes.S n));
    try reflexivity; lia.
Qed.

(** A loop that rewrites entry [off + i] from its own value. *)
Lemma for_range_inplace_off (n off : nat) (h : nat -> R -> R) (a : vec)
    (k : nat) :
  for_range n (fun i b => upd b (off + i) (h i (b (off + i)%nat))) a k =
  if (Nat.leb off k && Nat.ltb k (off + n))%bool
  then h (k - off)%nat (a k) else a k.
Proof.
  induction n as [|n IH]; simpl.
  - destruct (Nat.leb_spec off k), (Nat.ltb_spec k (off + 0)); simpl;
      try reflexivity; lia.
  - unfold upd at 1. destruct (Nat.eqb_spec k (off + n)) as [->|Hne].
    + rewrite IH. replace (off + n - off)%nat with n by lia.
      destruct (Nat.leb_spec off (off + n)),
               (Nat.ltb_spec (off + n) (off + n)),
               (Nat.ltb_spec (off + n) (off + Datatypes.S n));
        simpl; try reflexivity; lia.
    + rewrite IH.
      destruct (Nat.leb_spec off k), (Nat.ltb_spec k (off + n)),
               (Nat.ltb_spec k (off + Datatypes.S n));
        simpl; try reflexivity; lia.
Qed.

Lemma sum_upto_S (n : nat) (f : nat -> R) :
  sum_upto (Datatypes.S n) f = sum_upto n f + f n.
Proof. reflexivity. Qed.

Lemma sum_upto_ext (n : nat) (f g : nat -> R) :
  (forall i, (i < n)%nat -> f i = g i) -> sum_upto n f = sum_upto n g.
Proof.
  induction n as [|n IH]; intros H; [reflexivity|].
  rewrite !sum_upto_S, IH, (H n) by (try lia; intros; apply H; lia).
  reflexivity.
Qed.

Lemma sum_upto_opp (n : nat) (f : nat -> R) :
  sum_upto n (fun i => - f i) = - sum_upto n f.
Proof.
  induction n as [|n IH]; [unfold sum_upto; simpl; ring|].
  rewrite !sum_upto_S, IH. ring.
Qed.

Lemma sum_upto_plus (n : nat) (f g : nat -> R) :
  sum_upto n (fun i => f i + g i) = sum_upto n f + sum_upto n g.
Proof.
  induction n as [|n IH]; [unfold sum_upto; simpl; ring|].
  rewrite !sum_upto_S, IH. ring.
Qed.

Lemma sum_upto_scal (n : nat) (c : R) (f : nat -> R) :
  sum_upto n (fun i => c * f i) = c * sum_upto n f.
Proof.
  induction n as [|n IH]; [unfold sum_upto; simpl; ring|].
  rewrite !sum_upto_S, IH. ring.
Qed.

Lemma sum_upto_zero (n : nat) (f : nat -> R) :
  (forall i, (i < n)%nat -> f i = 0) -> sum_upto n f = 0.
Proof.
  induction n as [|n IH]; intros H; [reflexivity|].
  rewrite sum_upto_S, IH, (H n) by (try lia; intros; apply H; lia). ring.
Qed.

Lemma vec_init_lt (n : nat) (f : nat -> R) (k : nat) :
  (k < n)%nat -> vec_init n f k = f k.
Proof.
  intros H. unfold vec_init. destruct (Nat.ltb_spec k n); [reflexivity|lia].
Qed.

(** ** Geometry shared by the schemes *)

Section Geometry.
Variables (nDim nSpecies : nat).

Lemma FaceArea_vneg (Normal : vec) :
  CNumerics.FaceArea nDim (vneg Normal) = CNumerics.FaceArea nDim Normal.
Proof.
  unfold CNumerics.FaceArea. f_equal. apply sum_upto_ext.
  intros i _. unfold vneg. ring.
Qed.

Lemma FaceUnitNormal_vneg (Normal : vec) (k : nat) :
  CNumerics.FaceUnitNormal nDim (vneg Normal) k =
  - CNumerics.FaceUnitNormal nDim Normal k.
Proof.
  unfold CNumerics.FaceUnitNormal, vec_init. rewrite FaceArea_vneg.
  destruct (Nat.ltb k nDim); unfold vneg, Rdiv; ring.
Qed.

(** The projected velocity changes sign with the normal. *)
Lemma proj_vneg (u : vec) (Normal : vec) :
  sum_upto nDim (fun iDim => u iDim
                   * CNumerics.FaceUnitNormal nDim (vneg Normal) iDim) =
  - sum_upto nDim (fun iDim => u iDim
                     * CNumerics.FaceUnitNormal nDim Normal iDim).
Proof.
  rewrite <- sum_upto_opp. apply sum_upto_ext. intros i _.
  rewrite FaceUnitNormal_vneg. ring.
Qed.

Lemma ConservedLayout_at (s m : nat -> R) (e eve : R) (k : nat) :
  CNumerics.ConservedLayout nDim nSpecies s m e eve k =
  if Nat.ltb k nSpecies then s k
  else if Nat.ltb k (nSpecies + nDim) then m (k - nSpecies)%nat
  else if Nat.eqb k (nSpecies + nDim) then e
  else if Nat.eqb k (nSpecies + nDim + 1) then eve
  else 0.
Proof.
  unfold CNumerics.ConservedLayout. unfold upd at 1 2.
  rewrite (for_range_store nDim nSpecies m).
  rewrite (for_range_store nSpecies 0 s). simpl.
  rewrite Nat.sub_0_r.
  destruct (Nat.eqb_spec k (nSpecies + nDim + 1)),
           (Nat.eqb_spec k (nSpecies + nDim)),
           (Nat.leb_spec nSpecies k),
           (Nat.ltb_spec k (nSpecies + nDim)),
           (Nat.ltb_spec k nSpecies); simpl; try reflexivity; lia.
Qed.

(** The entries of a residual: the convective part of length [nVar], then
    the pressure added to the momentum rows. *)
Lemma residual_at (nVar : nat) (conv : nat -> R) (press : nat -> R)
    (k : nat) :
  for_range nDim
    (fun iDim r => upd r (nSpecies + iDim)
                     (r (nSpecies + iDim)%nat + press iDim))
    (vec_init nVar conv) k =
  if (Nat.leb nSpecies k && Nat.ltb k (nSpecies + nDim))%bool
  then vec_init nVar conv k + press (k - nSpecies)%nat
  else vec_init nVar conv k.
Proof.
  apply (for_range_inplace_off nDim nSpecies (fun i x => x + press i)).
Qed.
End Geometry.

(** ** AUSM: exchange of the two sides *)

Section AUSMSwap.
Variables (nDim nSpecies nVar : nat).
Variables (U_i U_j V_i V_j Normal : vec).

Lemma AUSM_mL_swap :
  CUpwAUSM_TNE2.mL nDim nSpecies V_j (vneg Normal) =
  - CUpwAUSM_TNE2.mR nDim nSpecies V_j Normal.
Proof.
  unfold CUpwAUSM_TNE2.mL, CUpwAUSM_TNE2.mR, CUpwAUSM_TNE2.ProjVel_i,
    CUpwAUSM_TNE2.ProjVel_j, CUpwAUSM_TNE2.UnitNormal,
    CUpwAUSM_TNE2.u_i, CUpwAUSM_TNE2.u_j, CUpwAUSM_TNE2.a_i,
    CUpwAUSM_TNE2.a_j.
  rewrite proj_vneg. unfold Rdiv. ring.
Qed.

Lemma AUSM_mR_swap :
  CUpwAUSM_TNE2.mR nDim nSpecies V_i (vneg Normal) =
  - CUpwAUSM_TNE2.mL nDim nSpecies V_i Normal.
Proof.
  unfold CUpwAUSM_TNE2.mL, CUpwAUSM_TNE2.mR, CUpwAUSM_TNE2.ProjVel_i,
    CUpwAUSM_TNE2.ProjVel_j, CUpwAUSM_TNE2.UnitNormal,
    CUpwAUSM_TNE2.u_i, CUpwAUSM_TNE2.u_j, CUpwAUSM_TNE2.a_i,
    CUpwAUSM_TNE2.a_j.
  rewrite proj_vneg. unfold Rdiv. ring.
Qed.

Lemma AUSM_mLP_swap :
  CUpwAUSM_TNE2.mLP nDim nSpecies V_j (vneg Normal) =
  - CUpwAUSM_TNE2.mRM nDim nSpecies V_j Normal.
Proof.
  unfold CUpwAUSM_TNE2.mLP, CUpwAUSM_TNE2.mRM.
  rewrite AUSM_mL_swap, Rabs_Ropp.
  destruct (Rle_dec _ _); lra.
Qed.

Lemma AUSM_mRM_swap :
  CUpwAUSM_TNE2.mRM nDim nSpecies V_i (vneg Normal) =
  - CUpwAUSM_TNE2.mLP nDim nSpecies V_i Normal.
Proof.
  unfold CUpwAUSM_TNE2.mLP, CUpwAUSM_TNE2.mRM.
  rewrite AUSM_mR_swap, Rabs_Ropp.
  destruct (Rle_dec _ _); lra.
Qed.

Lemma AUSM_pLP_swap :
  CUpwAUSM_TNE2.pLP nDim nSpecies V_j (vneg Normal) =
  CUpwAUSM_TNE2.pRM nDim nSpecies V_j Normal.
Proof.
  unfold CUpwAUSM_TNE2.pLP, CUpwAUSM_TNE2.pRM.
  rewrite AUSM_mL_swap, Rabs_Ropp.
  unfold CUpwAUSM_TNE2.P_i, CUpwAUSM_TNE2.P_j.
  destruct (Rle_dec _ _); [nra|].
  unfold Rdiv. rewrite Rinv_opp. nra.
Qed.

Lemma AUSM_pRM_swap :
  CUpwAUSM_TNE2.pRM nDim nSpecies V_i (vneg Normal) =
  CUpwAUSM_TNE2.pLP nDim nSpecies V_i Normal.
Proof.
  unfold CUpwAUSM_TNE2.pLP, CUpwAUSM_TNE2.pRM.
  rewrite AUSM_mR_swap, Rabs_Ropp.
  unfold CUpwAUSM_TNE2.P_i, CUpwAUSM_TNE2.P_j.
  destruct (Rle_dec _ _); [nra|].
  unfold Rdiv. rewrite Rinv_opp. nra.
Qed.

Lemma AUSM_antisymmetric (k : nat) :
  CUpwAUSM_TNE2.ComputeResidual nDim nSpecies nVar U_i U_j V_i V_j Normal k =
  - CUpwAUSM_TNE2.ComputeResidual nDim nSpecies nVar U_j U_i V_j V_i
      (vneg Normal) k.
Proof.
  unfold CUpwAUSM_TNE2.ComputeResidual. rewrite !residual_at.
  unfold CUpwAUSM_TNE2.pF, CUpwAUSM_TNE2.Phi, CUpwAUSM_TNE2.mF.
  rewrite AUSM_mLP_swap, AUSM_mRM_swap, AUSM_pLP_swap, AUSM_pRM_swap.
  unfold CUpwAUSM_TNE2.UnitNormal, CUpwAUSM_TNE2.Area.
  rewrite FaceUnitNormal_vneg, FaceArea_vneg.
  replace (- CUpwAUSM_TNE2.mRM nDim nSpecies V_j Normal
           + - CUpwAUSM_TNE2.mLP nDim nSpecies V_i Normal)
    with (- (CUpwAUSM_TNE2.mLP nDim nSpecies V_i Normal
             + CUpwAUSM_TNE2.mRM nDim nSpecies V_j Normal)) by ring.
  rewrite Rabs_Ropp.
  change (CUpwAUSM_TNE2.FcL nDim nSpecies U_j V_j)
    with (CUpwAUSM_TNE2.FcR nDim nSpecies U_j V_j).
  change (CUpwAUSM_TNE2.FcR nDim nSpecies U_i V_i)
    with (CUpwAUSM_TNE2.FcL nDim nSpecies U_i V_i).
  unfold vec_init.
  destruct (Nat.leb nSpecies k && Nat.ltb k (nSpecies + nDim))%bool,
           (Nat.ltb k nVar); nra.
Qed.
End AUSMSwap.

(** ** AUSM+-up2: exchange of the two sides *)

Section AUSMPLUSUP2Swap.
Variables (nDim nSpecies nVar : nat).
Variables (Minf Gamma : R).
Variables (U_i U_j V_i V_j Normal : vec).

Lemma UP2_ProjVel_i_swap (V : vec) :
  CUpwAUSMPLUSUP2_TNE2.ProjVel_i nDim nSpecies V (vneg Normal) =
  - CUpwAUSMPLUSUP2_TNE2.ProjVel_j nDim nSpecies V Normal.
Proof.
  unfold CUpwAUSMPLUSUP2_TNE2.ProjVel_i, CUpwAUSMPLUSUP2_TNE2.ProjVel_j,
    CUpwAUSMPLUSUP2_TNE2.UnitNormal, CUpwAUSMPLUSUP2_TNE2.u_i,
    CUpwAUSMPLUSUP2_TNE2.u_j.
  apply proj_vneg.
Qed.

Lemma UP2_ProjVel_j_swap (V : vec) :
  CUpwAUSMPLUSUP2_TNE2.ProjVel_j nDim nSpecies V (vneg Normal) =
  - CUpwAUSMPLUSUP2_TNE2.ProjVel_i nDim nSpecies V Normal.
Proof.
  unfold CUpwAUSMPLUSUP2_TNE2.ProjVel_i, CUpwAUSMPLUSUP2_TNE2.ProjVel_j,
    CUpwAUSMPLUSUP2_TNE2.UnitNormal, CUpwAUSMPLUSUP2_TNE2.u_i,
    CUpwAUSMPLUSUP2_TNE2.u_j.
  apply proj_vneg.
Qed.

Lemma UP2_aF_swap :
  CUpwAUSMPLUSUP2_TNE2.aF nDim nSpecies Gamma V_j V_i (vneg Normal) =
  CUpwAUSMPLUSUP2_TNE2.aF nDim nSpecies Gamma V_i V_j Normal.
Proof.
  unfold CUpwAUSMPLUSUP2_TNE2.aF, CUpwAUSMPLUSUP2_TNE2.ChatL,
    CUpwAUSMPLUSUP2_TNE2.ChatR.
  rewrite UP2_ProjVel_i_swap, UP2_ProjVel_j_swap, Ropp_involutive.
  rewrite Rmin_comm. reflexivity.
Qed.

Lemma UP2_mL_swap :
  CUpwAUSMPLUSUP2_TNE2.mL nDim nSpecies Gamma V_j V_i (vneg Normal) =
  - CUpwAUSMPLUSUP2_TNE2.mR nDim nSpecies Gamma V_i V_j Normal.
Proof.
  unfold CUpwAUSMPLUSUP2_TNE2.mL, CUpwAUSMPLUSUP2_TNE2.mR.
  rewrite UP2_aF_swap, UP2_ProjVel_i_swap. unfold Rdiv. ring.
Qed.

Lemma UP2_mR_swap :
  CUpwAUSMPLUSUP2_TNE2.mR nDim nSpecies Gamma V_j V_i (vneg Normal) =
  - CUpwAUSMPLUSUP2_TNE2.mL nDim nSpecies Gamma V_i V_j Normal.
Proof.
  unfold CUpwAUSMPLUSUP2_TNE2.mL, CUpwAUSMPLUSUP2_TNE2.mR.
  rewrite UP2_aF_swap, UP2_ProjVel_j_swap. unfold Rdiv. ring.
Qed.

Lemma UP2_MFsq_swap :
  CUpwAUSMPLUSUP2_TNE2.MFsq nDim nSpecies Gamma V_j V_i (vneg Normal) =
  CUpwAUSMPLUSUP2_TNE2.MFsq nDim nSpecies Gamma V_i V_j Normal.
Proof.
  unfold CUpwAUSMPLUSUP2_TNE2.MFsq. rewrite UP2_mL_swap, UP2_mR_swap. lra.
Qed.

Lemma UP2_fa_swap :
  CUpwAUSMPLUSUP2_TNE2.fa nDim nSpecies Minf Gamma V_j V_i (vneg Normal) =
  CUpwAUSMPLUSUP2_TNE2.fa nDim nSpecies Minf Gamma V_i V_j Normal.
Proof.
  unfold CUpwAUSMPLUSUP2_TNE2.fa, CUpwAUSMPLUSUP2_TNE2.Mrefsq,
    CUpwAUSMPLUSUP2_TNE2.param1.
  rewrite UP2_MFsq_swap. reflexivity.
Qed.

Lemma UP2_alpha_swap :
  CUpwAUSMPLUSUP2_TNE2.alpha nDim nSpecies Minf Gamma V_j V_i (vneg Normal) =
  CUpwAUSMPLUSUP2_TNE2.alpha nDim nSpecies Minf Gamma V_i V_j Normal.
Proof.
  unfold CUpwAUSMPLUSUP2_TNE2.alpha. rewrite UP2_fa_swap. reflexivity.
Qed.

Lemma UP2_Mp_swap :
  CUpwAUSMPLUSUP2_TNE2.Mp nDim nSpecies Minf Gamma V_j V_i (vneg Normal) =
  - CUpwAUSMPLUSUP2_TNE2.Mp nDim nSpecies Minf Gamma V_i V_j Normal.
Proof.
  unfold CUpwAUSMPLUSUP2_TNE2.Mp.
  rewrite UP2_fa_swap, UP2_MFsq_swap, UP2_aF_swap.
  unfold CUpwAUSMPLUSUP2_TNE2.rhoF, CUpwAUSMPLUSUP2_TNE2.P_i,
    CUpwAUSMPLUSUP2_TNE2.P_j, CUpwAUSMPLUSUP2_TNE2.rho_i,
    CUpwAUSMPLUSUP2_TNE2.rho_j.
  rewrite (Rplus_comm (V_j _) (V_i _)).
  unfold Rdiv. ring.
Qed.

Lemma UP2_mLP_swap :
  CUpwAUSMPLUSUP2_TNE2.mLP nDim nSpecies Gamma V_j V_i (vneg Normal) =
  - CUpwAUSMPLUSUP2_TNE2.mRM nDim nSpecies Gamma V_i V_j Normal.
Proof.
  unfold CUpwAUSMPLUSUP2_TNE2.mLP, CUpwAUSMPLUSUP2_TNE2.mRM,
    CUpwAUSMPLUSUP2_TNE2.beta.
  rewrite UP2_mL_swap, Rabs_Ropp.
  destruct (Rle_dec _ _); lra.
Qed.

Lemma UP2_mRM_swap :
  CUpwAUSMPLUSUP2_TNE2.mRM nDim nSpecies Gamma V_j V_i (vneg Normal) =
  - CUpwAUSMPLUSUP2_TNE2.mLP nDim nSpecies Gamma V_i V_j Normal.
Proof.
  unfold CUpwAUSMPLUSUP2_TNE2.mLP, CUpwAUSMPLUSUP2_TNE2.mRM,
    CUpwAUSMPLUSUP2_TNE2.beta.
  rewrite UP2_mR_swap, Rabs_Ropp.
  destruct (Rle_dec _ _); lra.
Qed.

Lemma UP2_mF_swap :
  CUpwAUSMPLUSUP2_TNE2.mF nDim nSpecies Minf Gamma V_j V_i (vneg Normal) =
  - CUpwAUSMPLUSUP2_TNE2.mF nDim nSpecies Minf Gamma V_i V_j Normal.
Proof.
  unfold CUpwAUSMPLUSUP2_TNE2.mF.
  rewrite UP2_mLP_swap, UP2_mRM_swap, UP2_Mp_swap. ring.
Qed.

Lemma UP2_pLP_swap :
  CUpwAUSMPLUSUP2_TNE2.pLP nDim nSpecies Minf Gamma V_j V_i (vneg Normal) =
  CUpwAUSMPLUSUP2_TNE2.pRM nDim nSpecies Minf Gamma V_i V_j Normal.
Proof.
  unfold CUpwAUSMPLUSUP2_TNE2.pLP, CUpwAUSMPLUSUP2_TNE2.pRM.
  rewrite UP2_mL_swap, UP2_alpha_swap, Rabs_Ropp.
  destruct (Rle_dec _ _); [nra|].
  unfold Rdiv. rewrite Rinv_opp. nra.
Qed.

Lemma UP2_pRM_swap :
  CUpwAUSMPLUSUP2_TNE2.pRM nDim nSpecies Minf Gamma V_j V_i (vneg Normal) =
  CUpwAUSMPLUSUP2_TNE2.pLP nDim nSpecies Minf Gamma V_i V_j Normal.
Proof.
  unfold CUpwAUSMPLUSUP2_TNE2.pLP, CUpwAUSMPLUSUP2_TNE2.pRM.
  rewrite UP2_mR_swap, UP2_alpha_swap, Rabs_Ropp.
  destruct (Rle_dec _ _); [nra|].
  unfold Rdiv. rewrite Rinv_opp. nra.
Qed.

Lemma UP2_pF_swap :
  CUpwAUSMPLUSUP2_TNE2.pF nDim nSpecies Minf Gamma V_j V_i (vneg Normal) =
  CUpwAUSMPLUSUP2_TNE2.pF nDim nSpecies Minf Gamma V_i V_j Normal.
Proof.
  unfold CUpwAUSMPLUSUP2_TNE2.pF, CUpwAUSMPLUSUP2_TNE2.pFi.
  rewrite UP2_pLP_swap, UP2_pRM_swap, UP2_aF_swap.
  change (CUpwAUSMPLUSUP2_TNE2.sq_veli nDim nSpecies V_j)
    with (CUpwAUSMPLUSUP2_TNE2.sq_velj nDim nSpecies V_j).
  change (CUpwAUSMPLUSUP2_TNE2.sq_velj nDim nSpecies V_i)
    with (CUpwAUSMPLUSUP2_TNE2.sq_veli nDim nSpecies V_i).
  unfold CUpwAUSMPLUSUP2_TNE2.P_i, CUpwAUSMPLUSUP2_TNE2.P_j,
    CUpwAUSMPLUSUP2_TNE2.rho_i, CUpwAUSMPLUSUP2_TNE2.rho_j.
  rewrite (Rplus_comm (CUpwAUSMPLUSUP2_TNE2.sq_velj nDim nSpecies V_j)).
  rewrite (Rplus_comm (CUpwAUSMPLUSUP2_TNE2.pRM _ _ _ _ _ _ _)).
  set (s := sqrt _). lra.
Qed.

Lemma UP2_FcL_swap :
  CUpwAUSMPLUSUP2_TNE2.FcL nDim nSpecies Gamma U_j V_j V_i (vneg Normal) =
  CUpwAUSMPLUSUP2_TNE2.FcR nDim nSpecies Gamma U_j V_i V_j Normal.
Proof.
  unfold CUpwAUSMPLUSUP2_TNE2.FcL, CUpwAUSMPLUSUP2_TNE2.FcR.
  rewrite UP2_aF_swap. reflexivity.
Qed.

Lemma UP2_FcR_swap :
  CUpwAUSMPLUSUP2_TNE2.FcR nDim nSpecies Gamma U_i V_j V_i (vneg Normal) =
  CUpwAUSMPLUSUP2_TNE2.FcL nDim nSpecies Gamma U_i V_i V_j Normal.
Proof.
  unfold CUpwAUSMPLUSUP2_TNE2.FcL, CUpwAUSMPLUSUP2_TNE2.FcR.
  rewrite UP2_aF_swap. reflexivity.
Qed.

Lemma AUSMPLUSUP2_antisymmetric (k : nat) :
  CUpwAUSMPLUSUP2_TNE2.ComputeResidual nDim nSpecies nVar Minf Gamma
    U_i U_j V_i V_j Normal k =
  - CUpwAUSMPLUSUP2_TNE2.ComputeResidual nDim nSpecies nVar Minf Gamma
      U_j U_i V_j V_i (vneg Normal) k.
Proof.
  unfold CUpwAUSMPLUSUP2_TNE2.ComputeResidual. rewrite !residual_at.
  unfold CUpwAUSMPLUSUP2_TNE2.mfP, CUpwAUSMPLUSUP2_TNE2.mfM,
    CUpwAUSMPLUSUP2_TNE2.Phi.
  rewrite UP2_mF_swap, UP2_pF_swap, UP2_FcL_swap, UP2_FcR_swap, Rabs_Ropp.
  unfold CUpwAUSMPLUSUP2_TNE2.UnitNormal, CUpwAUSMPLUSUP2_TNE2.Area.
  rewrite FaceUnitNormal_vneg, FaceArea_vneg.
  unfold vec_init.
  destruct (Nat.leb nSpecies k && Nat.ltb k (nSpecies + nDim))%bool,
           (Nat.ltb k nVar); nra.
Qed.
End AUSMPLUSUP2Swap.

(** ** Roe scheme *)

Section RoeEntropyFix.
Variables (nDim nSpecies nVar : nat).

Let fix1 (e : vec) (i : nat) (x : R) : R :=
  if Rlt_dec (Rabs x) (e i)
  then (x * x + e i * e i) / (2 * e i) else Rabs x.

Lemma EntropyFix_at (Lambda Epsilon : vec) (k : nat) :
  CUpwRoe_TNE2.EntropyFix nVar Lambda Epsilon k =
  if Nat.ltb k nVar then fix1 Epsilon k (Lambda k) else Lambda k.
Proof.
  unfold CUpwRoe_TNE2.EntropyFix.
  rewrite (for_range_ext nVar _
             (fun i b => upd b i (fix1 Epsilon i (b i)))).
  - apply for_range_inplace.
  - intros i t _. unfold fix1. destruct (Rlt_dec _ _); reflexivity.
Qed.

Lemma AbsPass_at (Lambda : vec) (k : nat) :
  CUpwRoe_TNE2.AbsPass nVar Lambda k =
  if Nat.ltb k nVar then Rabs (Lambda k) else Lambda k.
Proof.
  unfold CUpwRoe_TNE2.AbsPass.
  apply (for_range_inplace nVar (fun _ x => Rabs x)).
Qed.

(** The smoothing formula dominates the magnitude it replaces. *)
Lemma smoothing_dominates (x e : R) :
  Rabs x < e -> Rabs x <= (x * x + e * e) / (2 * e).
Proof.
  intros H. assert (He : 0 < e) by (pose proof (Rabs_pos x); lra).
  apply Rmult_le_reg_r with (2 * e); [lra|].
  unfold Rdiv. rewrite Rmult_assoc, Rinv_l, Rmult_1_r by lra.
  assert (Hx : x * x = Rabs x * Rabs x).
  { unfold Rabs. destruct (Rcase_abs x); ring. }
  rewrite Hx. nra.
Qed.

Lemma Eigenvalues_iDim (pv c : R) (L0 : vec) :
  fst (CUpwRoe_TNE2.Eigenvalues nDim nSpecies pv c L0) = (nDim - 1)%nat.
Proof. reflexivity. Qed.

(** Every entry of index at most [nSpecies + nDim - 2], and the last
    one, holds the projected velocity of the Roe state. *)
Lemma Eigenvalues_convective (pv c : R) (L0 : vec) (k : nat) :
  (1 <= nDim)%nat ->
  (k < nSpecies + nDim - 1)%nat \/ k = (nSpecies + nDim + 1)%nat ->
  snd (CUpwRoe_TNE2.Eigenvalues nDim nSpecies pv c L0) k = pv.
Proof.
  intros HD Hk. unfold CUpwRoe_TNE2.Eigenvalues, for_var. simpl.
  destruct Hk as [Hk| ->]; [|apply upd_same].
  rewrite !upd_other by lia.
  rewrite (for_range_store (nDim - 1) nSpecies (fun _ => pv)).
  destruct (Nat.leb_spec nSpecies k); simpl.
  - destruct (Nat.ltb_spec k (nSpecies + (nDim - 1))); [reflexivity|lia].
  - rewrite (for_range_store nSpecies 0 (fun _ => pv)). simpl.
    destruct (Nat.ltb_spec k nSpecies); [reflexivity|lia].
Qed.

Lemma EntropyBounds_agree (pv c pvi pvj ai aj : R) (L0 E0 : vec) :
  (1 <= nSpecies)%nat -> (1 <= nDim)%nat ->
  let '(iDim, Lambda) := CUpwRoe_TNE2.Eigenvalues nDim nSpecies pv c L0 in
  CUpwRoe_TNE2.EntropyBounds nDim nSpecies iDim Lambda pvi pvj ai aj E0 =
  CUpwRoe_TNE2.EntropyBounds_intended nDim nSpecies Lambda pvi pvj ai aj E0.
Proof.
  intros HS HD.
  pose proof (Eigenvalues_convective pv c L0) as Hpv.
  pose proof (Eigenvalues_iDim pv c L0) as HiD.
  destruct (CUpwRoe_TNE2.Eigenvalues nDim nSpecies pv c L0) as [iDim Lambda].
  simpl in Hpv, HiD. subst iDim.
  unfold CUpwRoe_TNE2.EntropyBounds, CUpwRoe_TNE2.EntropyBounds_intended,
    for_var.
  rewrite (Hpv (nDim - 1)%nat), (Hpv (nSpecies + nDim + 1)%nat)
    by (auto; left; lia).
  f_equal. f_equal. f_equal.
  rewrite (for_range_ext (nDim - 1) _
    (fun iDim E => upd E (nSpecies + iDim)
       (4 * Rmax 0 (Rmax (Lambda (nSpecies + iDim)%nat - pvi)
                         (pvj - Lambda (nSpecies + iDim)%nat))))).
  - f_equal. apply for_range_ext. intros i t Hi.
    rewrite (Hpv i) by (auto; left; lia). reflexivity.
  - intros i t Hi.
    rewrite (Hpv i), (Hpv (nSpecies + i)%nat) by (auto; left; lia).
    reflexivity.
Qed.
End RoeEntropyFix.

(** C4. In the Roe scheme every eigenvalue, once the Harten-Hyman
  correction and the following absolute-value pass have run, is at least
  the absolute value of the uncorrected eigenvalue of the same index. *)
Theorem Roe_entropy_fix_dominates
  (nDim nSpecies nVar : nat) (pv c pvi pvj ai aj : R) (L0 E0 : vec)
  (iVar : nat) :
(iVar < nVar)%nat ->
Rabs (snd (CUpwRoe_TNE2.Eigenvalues nDim nSpecies pv c L0) iVar) <=
CUpwRoe_TNE2.CorrectedEigenvalues nDim nSpecies nVar
  pv c pvi pvj ai aj L0 E0 iVar.
Proof.
intros Hi. unfold CUpwRoe_TNE2.CorrectedEigenvalues.
destruct (CUpwRoe_TNE2.Eigenvalues nDim nSpecies pv c L0) as [iDim Lambda].
simpl. rewrite AbsPass_at, EntropyFix_at.
destruct (Nat.ltb_spec iVar nVar); [|lia].
destruct (Rlt_dec _ _) as [Hlt|Hge].
- eapply Rle_trans; [apply smoothing_dominates; exact Hlt|apply Rle_abs].
- rewrite Rabs_Rabsolu. apply Rle_refl.
Qed.

Lemma Roe_entropy_fix_dominates_witness :
Rabs (snd (CUpwRoe_TNE2.Eigenvalues 2 2 1 3
             (fun _ => 0)) 3%nat) <=
CUpwRoe_TNE2.CorrectedEigenvalues 2 2 6 1 3 0 2 3 3
  (fun _ => 0) (fun _ => 0) 3%nat.
Proof. apply Roe_entropy_fix_dominates. lia. Defined.

(** C9. With at least one species and one space dimension, every bound
  the source computes from [Lambda[iDim]] equals the bound of the mode's
  own index, since both entries hold the Roe projected velocity; the
  corrected eigenvalues of the two versions are the same array. *)
Theorem Roe_stale_index_equals_intended
  (nDim nSpecies nVar : nat) (pv c pvi pvj ai aj : R) (L0 E0 : vec) :
(1 <= nSpecies)%nat -> (1 <= nDim)%nat ->
(forall k, (k <= nSpecies + nDim - 2)%nat ->
   snd (CUpwRoe_TNE2.Eigenvalues nDim nSpecies pv c L0) k = pv) /\
(let '(iDim, Lambda) := CUpwRoe_TNE2.Eigenvalues nDim nSpecies pv c L0 in
 CUpwRoe_TNE2.EntropyBounds nDim nSpecies iDim Lambda pvi pvj ai aj E0 =
 CUpwRoe_TNE2.EntropyBounds_intended nDim nSpecies Lambda
   pvi pvj ai aj E0) /\
CUpwRoe_TNE2.CorrectedEigenvalues nDim nSpecies nVar
  pv c pvi pvj ai aj L0 E0 =
CUpwRoe_TNE2.CorrectedEigenvalues_intended nDim nSpecies nVar
  pv c pvi pvj ai aj L0 E0.
Proof.
intros HS HD. split; [|split].
- intros k Hk. apply Eigenvalues_convective; [exact HD|left; lia].
- apply EntropyBounds_agree; assumption.
- pose proof (EntropyBounds_agree nDim nSpecies pv c pvi pvj ai aj L0 E0
                HS HD) as H.
  unfold CUpwRoe_TNE2.CorrectedEigenvalues,
    CUpwRoe_TNE2.CorrectedEigenvalues_intended.
  destruct (CUpwRoe_TNE2.Eigenvalues nDim nSpecies pv c L0) as [iDim Lambda].
  rewrite H. reflexivity.
Qed.

(** ** Centered scheme: the spectral radius *)

Section CentLaxSpectral.
Variables (nDim nSpecies : nat) (V_i V_j Normal : vec).

(** The loop of lines 1965-1968 never adds to [Area]. *)
Lemma SpectralLoop_Area :
  snd (CCentLax_TNE2.SpectralLoop nDim nSpecies V_i V_j Normal) = 0.
Proof.
  unfold CCentLax_TNE2.SpectralLoop.
  induction nDim as [|n IH]; simpl; [reflexivity|].
  destruct (for_range n _ _) as [[pi pj] A]. simpl in *. exact IH.
Qed.

Lemma CentLax_Area_zero :
  CCentLax_TNE2.Area nDim nSpecies V_i V_j Normal = 0.
Proof.
  unfold CCentLax_TNE2.Area. rewrite SpectralLoop_Area. apply sqrt_0.
Qed.

(** Hence the sound speed never enters the local spectral radius. *)
Lemma CentLax_Local_Lambda_i :
  CCentLax_TNE2.Local_Lambda_i nDim nSpecies V_i V_j Normal =
  Rabs (CCentLax_TNE2.ProjVel_i nDim nSpecies V_i V_j Normal).
Proof.
  unfold CCentLax_TNE2.Local_Lambda_i. rewrite CentLax_Area_zero. ring.
Qed.

Lemma CentLax_Local_Lambda_j :
  CCentLax_TNE2.Local_Lambda_j nDim nSpecies V_i V_j Normal =
  Rabs (CCentLax_TNE2.ProjVel_j nDim nSpecies V_i V_j Normal).
Proof.
  unfold CCentLax_TNE2.Local_Lambda_j. rewrite CentLax_Area_zero. ring.
Qed.
End CentLaxSpectral.

Lemma FaceArea_Normal_x : CNumerics.FaceArea 2 Sample.Normal_x = 1.
Proof.
  unfold CNumerics.FaceArea, sum_upto, Sample.Normal_x, vec_of_list. simpl.
  replace (0 + 1 * 1 + 0 * 0) with 1 by ring. apply sqrt_1.
Qed.

(** C3. For the gas at rest of [Sample] on a face of unit area, [Area] is
    0 when [Local_Lambda_i] is computed and [Local_Lambda_i] is 0, where
    the spectral radius [|ProjVel_i| + a_i * |Normal|] is 340. *)
Theorem CentLax_spectral_radius_without_sound_speed :
  CCentLax_TNE2.Area 2 1 Sample.V_rest Sample.V_rest Sample.Normal_x = 0 /\
  CCentLax_TNE2.Local_Lambda_i 2 1 Sample.V_rest Sample.V_rest
    Sample.Normal_x = 0 /\
  Rabs (CCentLax_TNE2.ProjVel_i 2 1 Sample.V_rest Sample.V_rest
          Sample.Normal_x)
  + CCentLax_TNE2.a_i 2 1 Sample.V_rest
    * CNumerics.FaceArea 2 Sample.Normal_x = 340.
Proof.
  assert (Hp : CCentLax_TNE2.ProjVel_i 2 1 Sample.V_rest Sample.V_rest
                 Sample.Normal_x = 0).
  { unfold CCentLax_TNE2.ProjVel_i, CCentLax_TNE2.SpectralLoop,
      Sample.V_rest, Sample.Normal_x, vec_of_list. simpl. ring. }
  split; [apply CentLax_Area_zero|]. split.
  - rewrite CentLax_Local_Lambda_i, Hp. apply Rabs_R0.
  - rewrite Hp, Rabs_R0, FaceArea_Normal_x.
    unfold CCentLax_TNE2.a_i, Sample.V_rest, vec_of_list. simpl. ring.
Qed.

(** ** Equilibrium constants: the table look-up *)

Lemma ln_10_pos : 0 < ln 10.
Proof. rewrite <- ln_1. apply ln_increasing; lra. Qed.

Lemma pow10_pos (k : nat) : 0 < 10 ^ k.
Proof. apply pow_lt; lra. Qed.

(** [floor(log10(N))] is the decade of [N]. *)
Lemma floor_log10_decade (k : nat) (N : R) :
  10 ^ k <= N < 10 ^ (k + 1) ->
  CSource_TNE2.floor_log10 N = Some (Z.of_nat k).
Proof.
  intros [Hlo Hhi]. pose proof (pow10_pos k) as Hk.
  unfold CSource_TNE2.floor_log10.
  destruct (Rlt_dec 0 N) as [HN|HN]; [|lra].
  f_equal. symmetry. apply Int_part_spec.
  rewrite <- INR_IZR_INZ. pose proof ln_10_pos as H10.
  assert (Hl : INR k * ln 10 <= ln N).
  { rewrite <- ln_pow by lra.
    destruct Hlo as [Hlt|Heq]; [left; apply ln_increasing; assumption|].
    rewrite Heq. apply Rle_refl. }
  assert (Hu : ln N < (INR k + 1) * ln 10).
  { replace (INR k + 1) with (INR (k + 1)) by (rewrite plus_INR; simpl; ring).
    rewrite <- ln_pow by lra. apply ln_increasing; assumption. }
  split.
  - apply Rmult_lt_reg_r with (ln 10); [exact H10|].
    unfold Rdiv. rewrite Rmult_minus_distr_r, Rmult_assoc, Rinv_l by lra.
    lra.
  - apply Rmult_le_reg_r with (ln 10); [exact H10|].
    unfold Rdiv. rewrite Rmult_assoc, Rinv_l by lra. lra.
Qed.

Lemma tmp_loop (k : nat) :
  for_range k
    (fun (ii : nat) '(tmp1, tmp2) => (tmp1 * 10, tmp2 * 10)) (1, 1) =
  (10 ^ k, 10 ^ k).
Proof.
  induction k as [|k IH]; simpl; [reflexivity|].
  rewrite IH. f_equal; ring.
Qed.

Section KeqTable.
Variables (nSpecies : nat) (Ms : vec) (Table : nat -> mat).
Variables (AVOGAD_CONSTANT : R) (V_i : vec) (val_Reaction : nat).

Let N := CSource_TNE2.NumberDensity nSpecies Ms AVOGAD_CONSTANT V_i.
Let Keq := CSource_TNE2.GetKeqConstants nSpecies Ms Table AVOGAD_CONSTANT V_i
             val_Reaction.
Let row (r : nat) : vec := vec_init 5 (fun ii => Table val_Reaction r ii).

(** What the function returns in the decade [10^k <= N < 10^(k+1)]. *)
Lemma GetKeqConstants_decade (k : nat) :
  (Z.of_nat k <= 65535)%Z -> 10 ^ k <= N < 10 ^ (k + 1) ->
  Keq =
  let iIndex := ushort_of_int (Z.of_nat k - 14) in
  if (iIndex <=? 0)%Z then Some (row 0)
  else if (iIndex >=? 5)%Z then Some (row 5)
  else Some (vec_init 5 (fun ii =>
         (Table val_Reaction (Z.to_nat iIndex + 1)%nat ii
          - Table val_Reaction (Z.to_nat iIndex) ii)
         / (10 ^ k * 10 - 10 ^ k) * (N - 10 ^ k)
         + Table val_Reaction (Z.to_nat iIndex) ii)).
Proof.
  intros Hk HN. unfold Keq, CSource_TNE2.GetKeqConstants.
  fold N. rewrite (floor_log10_decade k N HN).
  unfold ushort_of_floating.
  destruct (Z.leb_spec 0 (Z.of_nat k)); [|lia].
  destruct (Z.leb_spec (Z.of_nat k) 65535); [|lia]. simpl andb. cbv iota.
  rewrite Nat2Z.id, tmp_loop. reflexivity.
Qed.

(** Below [10^14] the index wraps around and the top row is returned. *)
Lemma GetKeqConstants_below (k : nat) :
  (k < 14)%nat -> 10 ^ k <= N < 10 ^ (k + 1) -> Keq = Some (row 5).
Proof.
  intros Hk HN. rewrite (GetKeqConstants_decade k) by (lia || exact HN).
  unfold ushort_of_int.
  assert (E : ((Z.of_nat k - 14) mod 65536 = Z.of_nat k + 65522)%Z).
  { symmetry. apply (Z.mod_unique _ _ (-1)); lia. }
  cbv zeta. rewrite E.
  destruct (Z.leb_spec (Z.of_nat k + 65522) 0); [lia|].
  destruct (Z.geb_spec (Z.of_nat k + 65522) 5); [reflexivity|lia].
Qed.

(** In the decade of [10^14] the bottom row is returned as it is. *)
Lemma GetKeqConstants_first_decade :
  10 ^ 14 <= N < 10 ^ 15 -> Keq = Some (row 0).
Proof.
  intros HN. rewrite (GetKeqConstants_decade 14) by (lia || exact HN).
  reflexivity.
Qed.

(** From [10^19] on the top row is returned. *)
Lemma GetKeqConstants_above (k : nat) :
  (19 <= Z.of_nat k <= 65535)%Z -> 10 ^ k <= N < 10 ^ (k + 1) ->
  Keq = Some (row 5).
Proof.
  intros Hk HN. rewrite (GetKeqConstants_decade k) by (lia || exact HN).
  unfold ushort_of_int. cbv zeta.
  rewrite Z.mod_small by lia.
  destruct (Z.leb_spec (Z.of_nat k - 14) 0); [lia|].
  destruct (Z.geb_spec (Z.of_nat k - 14) 5); [reflexivity|lia].
Qed.

(** Between [10^15] and [10^19] the rows of the decade and of the next
    one are interpolated. *)
Lemma GetKeqConstants_between (k : nat) :
  (15 <= k <= 18)%nat -> 10 ^ k <= N < 10 ^ (k + 1) ->
  Keq = Some (vec_init 5 (fun ii =>
          (Table val_Reaction (k - 14 + 1)%nat ii
           - Table val_Reaction (k - 14)%nat ii)
          / (10 ^ k * 10 - 10 ^ k) * (N - 10 ^ k)
          + Table val_Reaction (k - 14)%nat ii)).
Proof.
  intros Hk HN. rewrite (GetKeqConstants_decade k) by (lia || exact HN).
  unfold ushort_of_int. cbv zeta.
  rewrite Z.mod_small by lia.
  destruct (Z.leb_spec (Z.of_nat k - 14) 0); [lia|].
  destruct (Z.geb_spec (Z.of_nat k - 14) 5); [lia|].
  replace (Z.to_nat (Z.of_nat k - 14)) with (k - 14)%nat by lia.
  reflexivity.
Qed.
End KeqTable.

(** C2. For nitrogen at 1e-8 kg/m^3 the number density is about 2.15e11
    per cm^3, below the lowest decade of the table, and [GetKeqConstants]
    returns the row [RxnConstantTable[5]], whatever the table. *)
Theorem GetKeqConstants_below_table_returns_top_row
    (Table : nat -> mat) (val_Reaction : nat) :
  CSource_TNE2.NumberDensity 1 Sample.Ms_N2 Sample.AVOGAD_CONSTANT
    Sample.V_thin < 10 ^ 14 /\
  CSource_TNE2.GetKeqConstants 1 Sample.Ms_N2 Table Sample.AVOGAD_CONSTANT
    Sample.V_thin val_Reaction =
  Some (vec_init 5 (fun ii => Table val_Reaction 5%nat ii)).
Proof.
  assert (HN : 10 ^ 11 <=
               CSource_TNE2.NumberDensity 1 Sample.Ms_N2
                 Sample.AVOGAD_CONSTANT Sample.V_thin < 10 ^ (11 + 1)).
  { unfold CSource_TNE2.NumberDensity, sum_upto, Sample.Ms_N2,
      Sample.AVOGAD_CONSTANT, Sample.V_thin, vec_of_list. simpl. lra. }
  split.
  - destruct HN as [_ HN]. simpl in HN |- *. lra.
  - apply (GetKeqConstants_below 1 Sample.Ms_N2 Table Sample.AVOGAD_CONSTANT
             Sample.V_thin val_Reaction 11); [lia|exact HN].
Qed.

(** ** Chemistry: the species mass a reaction creates *)

Lemma sum_upto_upd (n : nat) (r : vec) (i : nat) (x : R) :
  sum_upto n (upd r i x) =
  sum_upto n r + (if Nat.ltb i n then x - r i else 0).
Proof.
  induction n as [|n IH]; [unfold sum_upto; simpl; ring|].
  rewrite !sum_upto_S, IH. unfold upd.
  destruct (Nat.eqb_spec n i) as [->|Hne].
  - rewrite Nat.ltb_irrefl.
    destruct (Nat.ltb_spec i (Datatypes.S i)); [ring|lia].
  - destruct (Nat.ltb_spec i n), (Nat.ltb_spec i (Datatypes.S n));
      try ring; lia.
Qed.

Section ChemistryMass.
Variables (nDim nSpecies : nat) (Ms : vec).

(** One slot of the reaction map: the species row gains [x - r s], the
    vibrational-energy row is not a species row. *)
Lemma species_sum_slot (r : vec) (s : nat) (x e : R) :
  (s <= nSpecies)%nat ->
  sum_upto nSpecies
    (if Nat.eqb s nSpecies then r
     else upd (upd r s x) (nSpecies + nDim + 1) e) =
  sum_upto nSpecies r + (if Nat.eqb s nSpecies then 0 else x - r s).
Proof.
  intros Hs. destruct (Nat.eqb_spec s nSpecies) as [->|Hne]; [ring|].
  rewrite !sum_upto_upd.
  destruct (Nat.ltb_spec (nSpecies + nDim + 1) nSpecies); [lia|].
  destruct (Nat.ltb_spec s nSpecies); [ring|lia].
Qed.
End ChemistryMass.

(** C6. When the slots of a reaction hold species indices or the empty
    mark, the species rows of the residual gain, in one reaction step,
    [Volume * (fwdRxn - bkwRxn)] times the molar masses of the product
    slots minus those of the reactant slots; nothing when they balance. *)
Theorem reaction_species_mass_balance
    (nDim nSpecies : nat) (Ms : vec) (RxnMap : nat -> nat -> nat -> nat)
    (Tcf_a Tcf_b Tcb_a Tcb_b : vec) (Cf eta theta : nat -> R)
    (U_i V_i eve_i : vec) (Volume : R) (iReaction : nat) (A r : vec) :
  (forall side ii, (side < 2)%nat -> (ii < 3)%nat ->
     (RxnMap iReaction side ii <= nSpecies)%nat) ->
  let fwdRxn := CSource_TNE2.fwdRxn nSpecies Ms RxnMap Tcf_a Tcf_b
                  Cf eta theta U_i V_i iReaction in
  let bkwRxn := CSource_TNE2.bkwRxn nSpecies Ms RxnMap Tcb_a Tcb_b
                  Cf eta theta U_i V_i iReaction A in
  let products := sum_upto 3 (fun ii =>
      CSource_TNE2.SlotMolarMass nSpecies Ms (RxnMap iReaction 1%nat ii)) in
  let reactants := sum_upto 3 (fun ii =>
      CSource_TNE2.SlotMolarMass nSpecies Ms (RxnMap iReaction 0%nat ii)) in
  let r' := CSource_TNE2.ReactionResidual nDim nSpecies Ms RxnMap
              Tcf_a Tcf_b Tcb_a Tcb_b Cf eta theta U_i V_i eve_i Volume
              iReaction A r in
  sum_upto nSpecies r' - sum_upto nSpecies r =
    Volume * (fwdRxn - bkwRxn) * (products - reactants) /\
  (products = reactants -> sum_upto nSpecies r' = sum_upto nSpecies r).
Proof.
  intros Hmap fwdRxn bkwRxn products reactants r'.
  assert (E : sum_upto nSpecies r' - sum_upto nSpecies r =
              Volume * (fwdRxn - bkwRxn) * (products - reactants)).
  { subst r' products reactants.
    unfold CSource_TNE2.ReactionResidual. fold fwdRxn bkwRxn.
    unfold sum_upto at 3 4. cbn [for_range].
    pose proof (Hmap 0%nat 0%nat ltac:(lia) ltac:(lia)) as H00.
    pose proof (Hmap 0%nat 1%nat ltac:(lia) ltac:(lia)) as H01.
    pose proof (Hmap 0%nat 2%nat ltac:(lia) ltac:(lia)) as H02.
    pose proof (Hmap 1%nat 0%nat ltac:(lia) ltac:(lia)) as H10.
    pose proof (Hmap 1%nat 1%nat ltac:(lia) ltac:(lia)) as H11.
    pose proof (Hmap 1%nat 2%nat ltac:(lia) ltac:(lia)) as H12.
    rewrite !(species_sum_slot nDim nSpecies) by assumption.
    unfold CSource_TNE2.SlotMolarMass.
    destruct (Nat.eqb (RxnMap iReaction 0%nat 0%nat) nSpecies),
             (Nat.eqb (RxnMap iReaction 0%nat 1%nat) nSpecies),
             (Nat.eqb (RxnMap iReaction 0%nat 2%nat) nSpecies),
             (Nat.eqb (RxnMap iReaction 1%nat 0%nat) nSpecies),
             (Nat.eqb (RxnMap iReaction 1%nat 1%nat) nSpecies),
             (Nat.eqb (RxnMap iReaction 1%nat 2%nat) nSpecies); ring. }
  split; [exact E|].
  intros Hbal. rewrite Hbal in E. lra.
Qed.

(** ** Vibrational relaxation: the relaxation times *)

Lemma sum_upto_nonneg (n : nat) (f : nat -> R) :
  (forall i, (i < n)%nat -> 0 <= f i) -> 0 <= sum_upto n f.
Proof.
  induction n as [|n IH]; intros H; [unfold sum_upto; simpl; lra|].
  rewrite sum_upto_S.
  assert (0 <= sum_upto n f) by (apply IH; intros; apply H; lia).
  assert (0 <= f n) by (apply H; lia). lra.
Qed.

Lemma sum_upto_pos (n : nat) (f : nat -> R) :
  (forall i, (i < n)%nat -> 0 <= f i) ->
  (exists i, (i < n)%nat /\ 0 < f i) -> 0 < sum_upto n f.
Proof.
  induction n as [|n IH]; intros H [i [Hi Hp]]; [lia|].
  rewrite sum_upto_S.
  assert (Hn : 0 <= sum_upto n f)
    by (apply sum_upto_nonneg; intros; apply H; lia).
  assert (Hf : 0 <= f n) by (apply H; lia).
  destruct (Nat.eq_dec i n) as [->|Hne]; [lra|].
  assert (0 < sum_upto n f).
  { apply IH; [intros; apply H; lia|]. exists i. split; [lia|exact Hp]. }
  lra.
Qed.

Section VibRelaxation.
Variables (nDim nSpecies : nat) (Ms thetav : vec).
Variables (AVOGAD_CONSTANT UNIVERSAL_GAS_CONSTANT PI_NUMBER : R).
Variable V_i : vec.

Let T := CSource_TNE2.T nSpecies V_i.
Let P := CSource_TNE2.P nDim nSpecies V_i.
Let X := CSource_TNE2.X nSpecies Ms V_i.
Let tau_sr := CSource_TNE2.tau_sr nDim nSpecies Ms thetav V_i.
Let tauMW := CSource_TNE2.tauMW nDim nSpecies Ms thetav V_i.
Let tauP := CSource_TNE2.tauP nSpecies Ms AVOGAD_CONSTANT
              UNIVERSAL_GAS_CONSTANT PI_NUMBER V_i.

Hypothesis HAvogadro : 0 < AVOGAD_CONSTANT.
Hypothesis HRu : 0 < UNIVERSAL_GAS_CONSTANT.
Hypothesis HPi : 0 < PI_NUMBER.
Hypothesis HMs : forall s, (s < nSpecies)%nat -> 0 < Ms s.
Hypothesis Hrho : forall s, (s < nSpecies)%nat ->
  0 <= V_i (CNumerics.RHOS_INDEX + s)%nat.
Hypothesis HT : 0 < T.
Hypothesis HP : 0 < P.
Hypothesis HX : forall s, (s < nSpecies)%nat -> 0 <= X s.
Hypothesis HX1 : exists s, (s < nSpecies)%nat /\ 0 < X s.

Lemma tau_sr_pos (s r : nat) : 0 < tau_sr s r.
Proof.
  unfold tau_sr, CSource_TNE2.tau_sr. fold P.
  apply Rmult_lt_0_compat; [|apply exp_pos].
  apply Rdiv_lt_0_compat; lra.
Qed.

Lemma tauMW_pos (s : nat) : 0 < tauMW s.
Proof.
  unfold tauMW, CSource_TNE2.tauMW, CSource_TNE2.num, CSource_TNE2.denom.
  fold X. fold tau_sr.
  apply Rdiv_lt_0_compat.
  - apply sum_upto_pos; assumption.
  - apply sum_upto_pos.
    + intros j Hj. apply Rmult_le_pos; [apply HX; exact Hj|].
      left. apply Rinv_0_lt_compat, tau_sr_pos.
    + destruct HX1 as [j [Hj Hp]]. exists j. split; [exact Hj|].
      apply Rdiv_lt_0_compat; [exact Hp|apply tau_sr_pos].
Qed.

(** A positive mole fraction needs a positive molar concentration. *)
Lemma conc_pos : 0 < CSource_TNE2.conc nSpecies Ms V_i.
Proof.
  assert (Hge : 0 <= CSource_TNE2.conc nSpecies Ms V_i).
  { apply sum_upto_nonneg. intros j Hj.
    apply Rmult_le_pos; [apply Hrho; exact Hj|].
    left. apply Rinv_0_lt_compat, HMs, Hj. }
  destruct Hge as [Hlt|Heq]; [exact Hlt|].
  destruct HX1 as [j [Hj Hp]]. exfalso.
  unfold X, CSource_TNE2.X in Hp. rewrite vec_init_lt in Hp by exact Hj.
  rewrite <- Heq in Hp. unfold Rdiv in Hp at 1.
  rewrite Rinv_0, Rmult_0_r in Hp. lra.
Qed.

Lemma N_pos : 0 < CSource_TNE2.N nSpecies Ms AVOGAD_CONSTANT V_i.
Proof.
  unfold CSource_TNE2.N.
  rewrite (sum_upto_ext _ _
    (fun iSpecies => AVOGAD_CONSTANT
       * (V_i (CNumerics.RHOS_INDEX + iSpecies)%nat / Ms iSpecies)))
    by (intros; ring).
  rewrite sum_upto_scal. apply Rmult_lt_0_compat; [exact HAvogadro|].
  apply conc_pos.
Qed.

Lemma tauP_pos (s : nat) : (s < nSpecies)%nat -> 0 < tauP s.
Proof.
  intros Hs. unfold tauP, CSource_TNE2.tauP.
  apply Rdiv_lt_0_compat; [lra|].
  apply Rmult_lt_0_compat; [apply Rmult_lt_0_compat|apply N_pos].
  - unfold CSource_TNE2.sig_s. fold T.
    apply Rdiv_lt_0_compat; [lra|]. apply Rmult_lt_0_compat; exact HT.
  - unfold CSource_TNE2.Cs. apply sqrt_lt_R0. fold T.
    apply Rdiv_lt_0_compat.
    + unfold CSource_TNE2.Ru, CSource_TNE2.RuSI.
      apply Rmult_lt_0_compat; [lra|exact HT].
    + apply Rmult_lt_0_compat; [exact HPi|apply HMs, Hs].
Qed.
End VibRelaxation.

(** C8. With [T > 0], [P > 0], nonnegative mole fractions of which one is
    positive (molar masses positive, partial densities nonnegative and the
    constants of the declarations positive), every pairwise time
    [tau_sr], every mixture time [tauMW], every limiting-cross-section
    time [tauP] and every total time [taus] is positive. *)
Theorem vib_relaxation_times_positive
    (nDim nSpecies : nat) (Ms thetav : vec)
    (AVOGAD_CONSTANT UNIVERSAL_GAS_CONSTANT PI_NUMBER : R) (V_i : vec) :
  0 < AVOGAD_CONSTANT -> 0 < UNIVERSAL_GAS_CONSTANT -> 0 < PI_NUMBER ->
  (forall s, (s < nSpecies)%nat -> 0 < Ms s) ->
  (forall s, (s < nSpecies)%nat -> 0 <= V_i (CNumerics.RHOS_INDEX + s)%nat) ->
  0 < CSource_TNE2.T nSpecies V_i ->
  0 < CSource_TNE2.P nDim nSpecies V_i ->
  (forall s, (s < nSpecies)%nat -> 0 <= CSource_TNE2.X nSpecies Ms V_i s) ->
  (exists s, (s < nSpecies)%nat /\ 0 < CSource_TNE2.X nSpecies Ms V_i s) ->
  forall s r, (s < nSpecies)%nat -> (r < nSpecies)%nat ->
    0 < CSource_TNE2.tau_sr nDim nSpecies Ms thetav V_i s r /\
    0 < CSource_TNE2.tauMW nDim nSpecies Ms thetav V_i s /\
    0 < CSource_TNE2.tauP nSpecies Ms AVOGAD_CONSTANT
          UNIVERSAL_GAS_CONSTANT PI_NUMBER V_i s /\
    0 < CSource_TNE2.taus nDim nSpecies Ms thetav AVOGAD_CONSTANT
          UNIVERSAL_GAS_CONSTANT PI_NUMBER V_i s.
Proof.
  intros HA HR HPi HMs Hrho HT HP HX HX1 s r Hs Hr.
  pose proof (tau_sr_pos nDim nSpecies Ms thetav V_i HP s r) as H1.
  pose proof (tauMW_pos nDim nSpecies Ms thetav V_i HP HX HX1 s) as H2.
  pose proof (tauP_pos nSpecies Ms AVOGAD_CONSTANT UNIVERSAL_GAS_CONSTANT
                PI_NUMBER V_i HA HR HPi HMs Hrho HT HX1 s Hs) as H3.
  repeat split; try assumption.
  unfold CSource_TNE2.taus. lra.
Qed.

(** ** Viscous flux: the ionized mixture *)

Lemma for_range_exit_exits {S : Type} (n : nat)
    (body : nat -> S -> outcome S) (s : S) (msg : string) (st : Z) :
  (forall k t, body k t = Exits msg st) ->
  for_range_exit (Datatypes.S n) body s = Exits msg st.
Proof.
  intros H. induction n as [|n IH].
  - simpl. apply H.
  - change (bind (for_range_exit (Datatypes.S n) body s)
              (body (Datatypes.S n)) = Exits msg st).
    rewrite IH. reflexivity.
Qed.

Lemma for_range_exit_returns {S : Type} (n : nat)
    (body : nat -> S -> outcome S) (s : S) :
  (forall k t, exists t', body k t = Returns t') ->
  exists t', for_range_exit n body s = Returns t'.
Proof.
  intros H. induction n as [|n [t IH]]; simpl.
  - exists s. reflexivity.
  - rewrite IH. simpl. apply H.
Qed.

Section ViscousExit.
Variables (nDim nSpecies nVar : nat) (CalcHs : R -> R -> nat -> R) (TWO3 : R).
Variables (val_primvar : vec) (val_gradprimvar : mat).
Variables (val_eve val_normal val_diffusioncoeff : vec).
Variables (val_viscosity val_therm_conductivity : R).
Variable val_therm_conductivity_ve : R.

Lemma GetViscousProjFlux_ionized :
  (0 < nDim)%nat ->
  CAvgGrad_TNE2.GetViscousProjFlux nDim nSpecies nVar true CalcHs TWO3
    val_primvar val_gradprimvar val_eve val_normal val_diffusioncoeff
    val_viscosity val_therm_conductivity val_therm_conductivity_ve =
  Exits "GetViscProjFlux -- NEED TO IMPLEMENT IONIZED FUNCTIONALITY!!!" 1.
Proof.
  intros HD. destruct nDim as [|n]; [lia|].
  unfold CAvgGrad_TNE2.GetViscousProjFlux. cbv zeta.
  rewrite (for_range_exit_exits n _ _
    "GetViscProjFlux -- NEED TO IMPLEMENT IONIZED FUNCTIONALITY!!!" 1);
    reflexivity.
Qed.

Lemma GetViscousProjFlux_not_ionized :
  exists Proj_Flux_Tensor,
    CAvgGrad_TNE2.GetViscousProjFlux nDim nSpecies nVar false CalcHs TWO3
      val_primvar val_gradprimvar val_eve val_normal val_diffusioncoeff
      val_viscosity val_therm_conductivity val_therm_conductivity_ve =
    Returns Proj_Flux_Tensor.
Proof.
  unfold CAvgGrad_TNE2.GetViscousProjFlux. cbv zeta.
  match goal with
  | |- exists _, bind (for_range_exit ?n ?body ?s) _ = _ =>
      destruct (for_range_exit_returns n body s) as [F HF]
  end.
  - intros k t. eexists. reflexivity.
  - rewrite HF. simpl. eexists. reflexivity.
Qed.
End ViscousExit.

(** C10. In at least one dimension, both viscous flux functions end the
    process with the message and [exit(1)] when the mixture is ionized,
    and return a flux when it is not: there is no other way out. *)
Theorem viscous_flux_exits_iff_ionized
    (nDim nSpecies nVar : nat) (CalcHs : R -> R -> nat -> R) (TWO3 : R)
    (val_primvar : vec) (val_gradprimvar : mat)
    (val_eve val_normal val_diffusioncoeff : vec)
    (val_viscosity val_therm_conductivity val_therm_conductivity_ve : R) :
  (0 < nDim)%nat ->
  (CAvgGrad_TNE2.GetViscousProjFlux nDim nSpecies nVar true CalcHs TWO3
     val_primvar val_gradprimvar val_eve val_normal val_diffusioncoeff
     val_viscosity val_therm_conductivity val_therm_conductivity_ve =
   Exits "GetViscProjFlux -- NEED TO IMPLEMENT IONIZED FUNCTIONALITY!!!" 1 /\
   CAvgGradCorrected_TNE2.GetViscousProjFlux nDim nSpecies nVar true
     CalcHs TWO3
     val_primvar val_gradprimvar val_eve val_normal val_diffusioncoeff
     val_viscosity val_therm_conductivity val_therm_conductivity_ve =
   Exits "GetViscProjFlux -- NEED TO IMPLEMENT IONIZED FUNCTIONALITY!!!" 1) /\
  ((exists Proj_Flux_Tensor,
      CAvgGrad_TNE2.GetViscousProjFlux nDim nSpecies nVar false CalcHs TWO3
        val_primvar val_gradprimvar val_eve val_normal val_diffusioncoeff
        val_viscosity val_therm_conductivity val_therm_conductivity_ve =
      Returns Proj_Flux_Tensor) /\
   (exists Proj_Flux_Tensor,
      CAvgGradCorrected_TNE2.GetViscousProjFlux nDim nSpecies nVar false
        CalcHs TWO3
        val_primvar val_gradprimvar val_eve val_normal val_diffusioncoeff
        val_viscosity val_therm_conductivity val_therm_conductivity_ve =
      Returns Proj_Flux_Tensor)).
Proof.
  intros HD. split; split.
  - apply GetViscousProjFlux_ionized, HD.
  - apply GetViscousProjFlux_ionized, HD.
  - apply GetViscousProjFlux_not_ionized.
  - apply GetViscousProjFlux_not_ionized.
Qed.

(** ** Flux-vector splitting: eigenvalues and the matrices of each side *)

Lemma sqrt_sq_eps (x : R) :
  sqrt (x * x + CUpwMSW_TNE2.epsilon * CUpwMSW_TNE2.epsilon) = Rabs x.
Proof.
  unfold CUpwMSW_TNE2.epsilon.
  replace (x * x + 0 * 0) with (Rsqr x) by (unfold Rsqr; ring).
  apply sqrt_Rsqr_abs.
Qed.

Section MSWEigenvalues.
Variables (nDim nSpecies nPrimVar : nat) (V_i V_j Normal : vec).

Let pv_i := CUpwMSW_TNE2.ProjVelst_i nDim nSpecies V_i V_j Normal.
Let pv_j := CUpwMSW_TNE2.ProjVelst_j nDim nSpecies V_i V_j Normal.
Let a_i := CUpwMSW_TNE2.Vst_i nDim nSpecies nPrimVar V_i V_j
             (CNumerics.A_INDEX nDim nSpecies).
Let a_j := CUpwMSW_TNE2.Vst_j nDim nSpecies nPrimVar V_i V_j
             (CNumerics.A_INDEX nDim nSpecies).

(** The positive and negative parts of the flow eigenvalues. *)
Lemma MSW_Lambda_i_at (k : nat) :
  CUpwMSW_TNE2.Lambda_i nDim nSpecies nPrimVar V_i V_j Normal k =
  if Nat.eqb k (nSpecies + nDim + 1) then 0.5 * (pv_i + Rabs pv_i)
  else if Nat.eqb k (nSpecies + nDim)
       then 0.5 * (pv_i - a_i + Rabs (pv_i - a_i))
  else if Nat.eqb k (nSpecies + nDim - 1)
       then 0.5 * (pv_i + a_i + Rabs (pv_i + a_i))
  else if Nat.ltb k (nSpecies + nDim - 1) then 0.5 * (pv_i + Rabs pv_i)
  else 0.
Proof.
  unfold CUpwMSW_TNE2.Lambda_i. fold pv_i. fold a_i.
  rewrite !sqrt_sq_eps. unfold upd at 1 2 3.
  rewrite (for_range_store (nSpecies + nDim - 1) 0
             (fun _ => 0.5 * (pv_i + Rabs pv_i))). simpl.
  reflexivity.
Qed.

Lemma MSW_Lambda_j_at (k : nat) :
  CUpwMSW_TNE2.Lambda_j nDim nSpecies nPrimVar V_i V_j Normal k =
  if Nat.eqb k (nSpecies + nDim + 1) then 0.5 * (pv_j - Rabs pv_j)
  else if Nat.eqb k (nSpecies + nDim)
       then 0.5 * (pv_j - a_j - Rabs (pv_j - a_j))
  else if Nat.eqb k (nSpecies + nDim - 1)
       then 0.5 * (pv_j + a_j - Rabs (pv_j + a_j))
  else if Nat.ltb k (nSpecies + nDim - 1) then 0.5 * (pv_j - Rabs pv_j)
  else 0.
Proof.
  unfold CUpwMSW_TNE2.Lambda_j. fold pv_j. fold a_j.
  rewrite !sqrt_sq_eps. unfold upd at 1 2 3.
  rewrite (for_range_store (nSpecies + nDim - 1) 0
             (fun _ => 0.5 * (pv_j - Rabs pv_j))). simpl.
  reflexivity.
Qed.
End MSWEigenvalues.


(** ** Finite sums and the eigenvector matrices *)

Lemma sum_upto_scal_r (n : nat) (c : R) (f : nat -> R) :
  sum_upto n (fun i => f i * c) = sum_upto n f * c.
Proof.
  induction n as [|n IH]; [unfold sum_upto; simpl; ring|].
  rewrite !sum_upto_S, IH. ring.
Qed.

Lemma sum_upto_swap (n m : nat) (g : nat -> nat -> R) :
  sum_upto n (fun a => sum_upto m (fun b => g a b)) =
  sum_upto m (fun b => sum_upto n (fun a => g a b)).
Proof.
  induction n as [|n IH].
  - unfold sum_upto at 1 3. simpl. symmetry. apply sum_upto_zero.
    intros. reflexivity.
  - rewrite sum_upto_S, IH, <- sum_upto_plus. apply sum_upto_ext.
    intros b _. rewrite sum_upto_S. reflexivity.
Qed.

(** The Kronecker symbol picks one term of a sum. *)
Lemma sum_upto_kron_r (n : nat) (f : nat -> R) (j : nat) :
  (j < n)%nat -> sum_upto n (fun k => f k * kron k j) = f j.
Proof.
  intros Hj. induction n as [|n IH]; [lia|].
  rewrite sum_upto_S. unfold kron at 2.
  destruct (Nat.eqb_spec n j) as [->|Hne].
  - rewrite sum_upto_zero; [ring|]. intros k Hk. unfold kron.
    destruct (Nat.eqb_spec k j); [lia|ring].
  - rewrite IH by lia. ring.
Qed.

Lemma sum_upto_kron_l (n : nat) (f : nat -> R) (j : nat) :
  (j < n)%nat -> sum_upto n (fun k => kron j k * f k) = f j.
Proof.
  intros Hj. rewrite <- (sum_upto_kron_r n f j Hj). apply sum_upto_ext.
  intros k _. unfold kron. rewrite (Nat.eqb_sym j k). ring.
Qed.

Section Spectral.
Variable n : nat.
Variables (P Q P' Q' : mat) (d e : vec).

(** [P], [Q] and [P'], [Q'] are inverse pairs; both diagonalise one and
    the same matrix, with eigenvalues [d] and [e]. *)
Hypothesis HPQ : forall i j, (i < n)%nat -> (j < n)%nat ->
  sum_upto n (fun k => P i k * Q k j) = kron i j.
Hypothesis HQP : forall i j, (i < n)%nat -> (j < n)%nat ->
  sum_upto n (fun k => Q i k * P k j) = kron i j.
Hypothesis HPQ' : forall i j, (i < n)%nat -> (j < n)%nat ->
  sum_upto n (fun k => P' i k * Q' k j) = kron i j.
Hypothesis HQP' : forall i j, (i < n)%nat -> (j < n)%nat ->
  sum_upto n (fun k => Q' i k * P' k j) = kron i j.
Hypothesis Hsame : forall i j, (i < n)%nat -> (j < n)%nat ->
  Proj_ModJac_Tensor n P d Q i j = Proj_ModJac_Tensor n P' e Q' i j.

Let S (a k : nat) : R := sum_upto n (fun b => Q' a b * P b k).

(** A product of three matrices between two others, summed in either
    order. *)
Lemma sandwich (A B C D : mat) (x : vec) (a k : nat) :
  sum_upto n (fun b => sum_upto n (fun c =>
    A a b * Proj_ModJac_Tensor n B x C b c * D c k)) =
  sum_upto n (fun m =>
    sum_upto n (fun b => A a b * B b m) * x m
    * sum_upto n (fun c => C m c * D c k)).
Proof.
  unfold Proj_ModJac_Tensor.
  transitivity (sum_upto n (fun b => sum_upto n (fun c => sum_upto n
      (fun m => A a b * B b m * x m * C m c * D c k)))).
  { apply sum_upto_ext. intros b _. apply sum_upto_ext. intros c _.
    rewrite <- sum_upto_scal, <- sum_upto_scal_r.
    apply sum_upto_ext. intros m _. ring. }
  transitivity (sum_upto n (fun m => sum_upto n (fun b => sum_upto n
      (fun c => A a b * B b m * x m * C m c * D c k)))).
  { transitivity (sum_upto n (fun b => sum_upto n (fun m => sum_upto n
        (fun c => A a b * B b m * x m * C m c * D c k)))).
    - apply sum_upto_ext. intros b _.
      apply (sum_upto_swap n n
               (fun c m => A a b * B b m * x m * C m c * D c k)).
    - apply (sum_upto_swap n n
               (fun b m => sum_upto n
                  (fun c => A a b * B b m * x m * C m c * D c k))). }
  apply sum_upto_ext. intros m _.
  rewrite <- sum_upto_scal_r, <- sum_upto_scal_r.
  apply sum_upto_ext. intros b _.
  rewrite <- sum_upto_scal. apply sum_upto_ext. intros c _. ring.
Qed.

Lemma intertwine (a k : nat) :
  (a < n)%nat -> (k < n)%nat -> S a k * d k = e a * S a k.
Proof.
  intros Ha Hk.
  transitivity (sum_upto n (fun b => sum_upto n (fun c =>
      Q' a b * Proj_ModJac_Tensor n P d Q b c * P c k))).
  - rewrite sandwich.
    rewrite (sum_upto_ext n _ (fun m => (S a m * d m) * kron m k)).
    + rewrite sum_upto_kron_r by exact Hk. reflexivity.
    + intros m Hm. rewrite (HQP m k Hm Hk). reflexivity.
  - rewrite (sum_upto_ext n _ (fun b => sum_upto n (fun c =>
        Q' a b * Proj_ModJac_Tensor n P' e Q' b c * P c k))).
    + rewrite sandwich.
      rewrite (sum_upto_ext n _ (fun m => kron a m * (e m * S m k))).
      * rewrite sum_upto_kron_l by exact Ha. reflexivity.
      * intros m Hm. rewrite (HQP' a m Ha Hm). unfold S. ring.
    + intros b Hb. apply sum_upto_ext. intros c Hc.
      rewrite (Hsame b c Hb Hc). reflexivity.
Qed.

(** Any function of the eigenvalues gives the same matrix through either
    pair. *)
Lemma spectral_function (phi : R -> R) (i j : nat) :
  (i < n)%nat -> (j < n)%nat ->
  Proj_ModJac_Tensor n P (fun k => phi (d k)) Q i j =
  Proj_ModJac_Tensor n P' (fun k => phi (e k)) Q' i j.
Proof.
  intros Hi Hj.
  assert (HS : forall a k, (a < n)%nat -> (k < n)%nat ->
            S a k * phi (d k) = phi (e a) * S a k).
  { intros a k Ha Hk. pose proof (intertwine a k Ha Hk) as H.
    destruct (Req_dec (S a k) 0) as [Hz|Hnz]; [rewrite Hz; ring|].
    assert (d k = e a) as ->; [|ring].
    apply Rmult_eq_reg_l with (S a k); [|exact Hnz]. rewrite H. ring. }
  assert (HP : forall k, (k < n)%nat ->
            P i k = sum_upto n (fun a => P' i a * S a k)).
  { intros k Hk. unfold S.
    rewrite (sum_upto_ext n _ (fun a => sum_upto n
               (fun b => P' i a * Q' a b * P b k))).
    - rewrite sum_upto_swap.
      rewrite (sum_upto_ext n _ (fun b => kron i b * P b k)).
      + rewrite sum_upto_kron_l by exact Hi. reflexivity.
      + intros b Hb. rewrite <- (HPQ' i b Hi Hb), <- sum_upto_scal_r.
        reflexivity.
    - intros a _. rewrite <- sum_upto_scal. apply sum_upto_ext.
      intros b _. ring. }
  assert (HQ : forall a, (a < n)%nat ->
            sum_upto n (fun k => S a k * Q k j) = Q' a j).
  { intros a Ha. unfold S.
    rewrite (sum_upto_ext n _ (fun k => sum_upto n
               (fun b => Q' a b * P b k * Q k j))).
    - rewrite sum_upto_swap.
      rewrite (sum_upto_ext n _ (fun b => Q' a b * kron b j)).
      + rewrite sum_upto_kron_r by exact Hj. reflexivity.
      + intros b Hb. rewrite <- (HPQ b j Hb Hj), <- sum_upto_scal.
        apply sum_upto_ext. intros k _. ring.
    - intros k _. rewrite <- sum_upto_scal_r. reflexivity. }
  unfold Proj_ModJac_Tensor.
  transitivity (sum_upto n (fun k => sum_upto n (fun a =>
      P' i a * S a k * phi (d k) * Q k j))).
  { apply sum_upto_ext. intros k Hk. rewrite (HP k Hk).
    rewrite <- !sum_upto_scal_r. reflexivity. }
  rewrite sum_upto_swap. apply sum_upto_ext. intros a Ha.
  rewrite <- (HQ a Ha), <- sum_upto_scal. apply sum_upto_ext.
  intros k Hk.
  replace (P' i a * S a k * phi (d k) * Q k j)
    with (P' i a * (S a k * phi (d k)) * Q k j) by ring.
  rewrite (HS a k Ha Hk). ring.
Qed.
End Spectral.

(** ** Flux-vector splitting: exchange of the two sides *)

Lemma Proj_ModJac_Tensor_ext (n : nat) (P Q : mat) (L L' : vec) (i j : nat) :
  (forall k, (k < n)%nat -> L k = L' k) ->
  Proj_ModJac_Tensor n P L Q i j = Proj_ModJac_Tensor n P L' Q i j.
Proof.
  intros H. apply sum_upto_ext. intros k Hk. rewrite (H k Hk). reflexivity.
Qed.

Lemma Proj_ModJac_Tensor_opp (n : nat) (P Q : mat) (L : vec) (i j : nat) :
  Proj_ModJac_Tensor n P (fun k => - L k) Q i j =
  - Proj_ModJac_Tensor n P L Q i j.
Proof.
  unfold Proj_ModJac_Tensor. rewrite <- sum_upto_opp.
  apply sum_upto_ext. intros k _. ring.
Qed.

Lemma Proj_ModJac_Tensor_plus (n : nat) (P Q : mat) (L L' : vec)
    (i j : nat) :
  Proj_ModJac_Tensor n P (fun k => L k + L' k) Q i j =
  Proj_ModJac_Tensor n P L Q i j + Proj_ModJac_Tensor n P L' Q i j.
Proof.
  unfold Proj_ModJac_Tensor. rewrite <- sum_upto_plus.
  apply sum_upto_ext. intros k _. ring.
Qed.

Section UnitNormal.
Variable nDim : nat.

Lemma sum_squares_nonneg (v : vec) :
  0 <= sum_upto nDim (fun iDim => v iDim * v iDim).
Proof. apply sum_upto_nonneg. intros i _. nra. Qed.

(** The unit normal of a face of nonzero area has unit length. *)
Lemma FaceUnitNormal_unit (Normal : vec) :
  CNumerics.FaceArea nDim Normal <> 0 ->
  CNumerics.UnitLength nDim (CNumerics.FaceUnitNormal nDim Normal).
Proof.
  intros HA. unfold CNumerics.UnitLength.
  rewrite (sum_upto_ext nDim _
    (fun iDim => (Normal iDim * Normal iDim)
                 * (/ CNumerics.FaceArea nDim Normal
                    * / CNumerics.FaceArea nDim Normal))).
  - rewrite sum_upto_scal_r.
    replace (sum_upto nDim (fun iDim => Normal iDim * Normal iDim))
      with (CNumerics.FaceArea nDim Normal * CNumerics.FaceArea nDim Normal).
    + field. exact HA.
    + unfold CNumerics.FaceArea. apply sqrt_sqrt, sum_squares_nonneg.
  - intros i Hi. unfold CNumerics.FaceUnitNormal.
    rewrite vec_init_lt by exact Hi. unfold Rdiv. ring.
Qed.
End UnitNormal.

Lemma ConvectiveEigenvalues_at (nDim nSpecies : nat) (V n : vec) (k : nat) :
  CNumerics.ConvectiveEigenvalues nDim nSpecies V n k =
  let vn := sum_upto nDim
              (fun iDim => V (CNumerics.VEL_INDEX nSpecies + iDim)%nat
                           * n iDim) in
  let a := V (CNumerics.A_INDEX nDim nSpecies) in
  if Nat.eqb k (nSpecies + nDim + 1) then vn
  else if Nat.eqb k (nSpecies + nDim) then vn - a
  else if Nat.eqb k (nSpecies + nDim - 1) then vn + a
  else if Nat.ltb k (nSpecies + nDim - 1) then vn
  else 0.
Proof.
  unfold CNumerics.ConvectiveEigenvalues. cbv zeta. unfold upd at 1 2 3.
  rewrite (for_range_store (nSpecies + nDim - 1) 0). simpl.
  reflexivity.
Qed.

Section MSWSwap.
Variables (nDim nSpecies nVar nPrimVar : nat).
Variable ProjJac : vec -> vec -> vec -> vec -> mat.
Variables GetPMatrix GetPMatrix_inv : vec -> vec -> vec -> vec -> vec -> vec -> mat.
Variables (l m : vec).

Hypothesis HPrim : (nSpecies + nDim + 2 <= nPrimVar)%nat.
Hypothesis HKernel :
  CNumerics.EigenKernel nDim nSpecies nVar ProjJac GetPMatrix GetPMatrix_inv
    l m.
Hypothesis HOdd : CNumerics.OddInNormal nVar ProjJac.

(** The positive and the negative part of an eigenvalue. *)
Let pos (x : R) : R := 0.5 * (x + Rabs x).
Let neg (x : R) : R := 0.5 * (x - Rabs x).

Lemma MSW_w_swap (V_i V_j : vec) :
  CUpwMSW_TNE2.w nDim nSpecies V_j V_i = CUpwMSW_TNE2.w nDim nSpecies V_i V_j.
Proof.
  unfold CUpwMSW_TNE2.w, CUpwMSW_TNE2.dp, CUpwMSW_TNE2.P_i,
    CUpwMSW_TNE2.P_j.
  rewrite Rabs_minus_sym, Rmin_comm. reflexivity.
Qed.

(** The weighted projected velocity is the projected velocity of the
    weighted state. *)
Lemma MSW_ProjVelst_j_star (V_i V_j Normal : vec) :
  sum_upto nDim (fun iDim =>
    CUpwMSW_TNE2.Vst_j nDim nSpecies nPrimVar V_i V_j
      (CNumerics.VEL_INDEX nSpecies + iDim)%nat
    * CNumerics.FaceUnitNormal nDim Normal iDim) =
  CUpwMSW_TNE2.ProjVelst_j nDim nSpecies V_i V_j Normal.
Proof.
  unfold CUpwMSW_TNE2.ProjVelst_j, CUpwMSW_TNE2.ProjVel_i,
    CUpwMSW_TNE2.ProjVel_j, CUpwMSW_TNE2.UnitNormal.
  rewrite <- !sum_upto_scal, <- sum_upto_plus. apply sum_upto_ext.
  intros d Hd. unfold CUpwMSW_TNE2.Vst_j, CUpwMSW_TNE2.u_i, CUpwMSW_TNE2.u_j.
  rewrite !vec_init_lt by (unfold CNumerics.VEL_INDEX; lia). ring.
Qed.

Lemma MSW_ProjVelst_i_star (V_i V_j Normal : vec) :
  sum_upto nDim (fun iDim =>
    CUpwMSW_TNE2.Vst_i nDim nSpecies nPrimVar V_i V_j
      (CNumerics.VEL_INDEX nSpecies + iDim)%nat
    * CNumerics.FaceUnitNormal nDim Normal iDim) =
  CUpwMSW_TNE2.ProjVelst_i nDim nSpecies V_i V_j Normal.
Proof.
  unfold CUpwMSW_TNE2.ProjVelst_i, CUpwMSW_TNE2.ProjVel_i,
    CUpwMSW_TNE2.ProjVel_j, CUpwMSW_TNE2.UnitNormal.
  rewrite <- !sum_upto_scal, <- sum_upto_plus. apply sum_upto_ext.
  intros d Hd. unfold CUpwMSW_TNE2.Vst_i, CUpwMSW_TNE2.u_i, CUpwMSW_TNE2.u_j.
  rewrite !vec_init_lt by (unfold CNumerics.VEL_INDEX; lia). ring.
Qed.

(** [Lambda_i] and [Lambda_j] are the positive and negative parts of the
    eigenvalues of the weighted states. *)
Lemma MSW_Lambda_i_pos (V_i V_j Normal : vec) (k : nat) :
  CUpwMSW_TNE2.Lambda_i nDim nSpecies nPrimVar V_i V_j Normal k =
  pos (CNumerics.ConvectiveEigenvalues nDim nSpecies
         (CUpwMSW_TNE2.Vst_i nDim nSpecies nPrimVar V_i V_j)
         (CNumerics.FaceUnitNormal nDim Normal) k).
Proof.
  rewrite MSW_Lambda_i_at, ConvectiveEigenvalues_at. cbv zeta.
  rewrite MSW_ProjVelst_i_star. unfold pos.
  repeat match goal with |- context [if ?b then _ else _] => destruct b end;
    try reflexivity.
  rewrite Rabs_R0. lra.
Qed.

Lemma MSW_Lambda_j_neg (V_i V_j Normal : vec) (k : nat) :
  CUpwMSW_TNE2.Lambda_j nDim nSpecies nPrimVar V_i V_j Normal k =
  neg (CNumerics.ConvectiveEigenvalues nDim nSpecies
         (CUpwMSW_TNE2.Vst_j nDim nSpecies nPrimVar V_i V_j)
         (CNumerics.FaceUnitNormal nDim Normal) k).
Proof.
  rewrite MSW_Lambda_j_at, ConvectiveEigenvalues_at. cbv zeta.
  rewrite MSW_ProjVelst_j_star. unfold neg.
  repeat match goal with |- context [if ?b then _ else _] => destruct b end;
    try reflexivity.
  rewrite Rabs_R0. lra.
Qed.

Lemma pos_opp (x : R) : pos (- x) = - neg x.
Proof. unfold pos, neg. rewrite Rabs_Ropp. lra. Qed.

Lemma neg_opp (x : R) : neg (- x) = - pos x.
Proof. unfold pos, neg. rewrite Rabs_Ropp. lra. Qed.

(** The matrices of a state seen from the other side of the face carry
    any function of the opposite eigenvalues. *)
Lemma kernel_other_side (phi : R -> R) (U V dPdU Normal : vec) (i j : nat) :
  CNumerics.FaceArea nDim Normal <> 0 ->
  (i < nVar)%nat -> (j < nVar)%nat ->
  Proj_ModJac_Tensor nVar
    (GetPMatrix U V dPdU (CNumerics.FaceUnitNormal nDim (vneg Normal)) l m)
    (fun k => phi (CNumerics.ConvectiveEigenvalues nDim nSpecies V
                     (CNumerics.FaceUnitNormal nDim (vneg Normal)) k))
    (GetPMatrix_inv U V dPdU (CNumerics.FaceUnitNormal nDim (vneg Normal))
       l m) i j =
  Proj_ModJac_Tensor nVar
    (GetPMatrix U V dPdU (CNumerics.FaceUnitNormal nDim Normal) l m)
    (fun k => phi (- CNumerics.ConvectiveEigenvalues nDim nSpecies V
                       (CNumerics.FaceUnitNormal nDim Normal) k))
    (GetPMatrix_inv U V dPdU (CNumerics.FaceUnitNormal nDim Normal) l m)
    i j.
Proof.
  intros HA Hi Hj.
  assert (HA' : CNumerics.FaceArea nDim (vneg Normal) <> 0)
    by (rewrite FaceArea_vneg; exact HA).
  pose proof (FaceUnitNormal_unit nDim Normal HA) as Hu.
  pose proof (FaceUnitNormal_unit nDim (vneg Normal) HA') as Hu'.
  apply (spectral_function nVar _ _ _ _
           (CNumerics.ConvectiveEigenvalues nDim nSpecies V
              (CNumerics.FaceUnitNormal nDim (vneg Normal)))
           (fun k => - CNumerics.ConvectiveEigenvalues nDim nSpecies V
                         (CNumerics.FaceUnitNormal nDim Normal) k));
    try assumption.
  - intros a b Ha Hb. apply (HKernel U V dPdU _ Hu' a b Ha Hb).
  - intros a b Ha Hb. apply (HKernel U V dPdU _ Hu' a b Ha Hb).
  - intros a b Ha Hb. apply (HKernel U V dPdU _ Hu a b Ha Hb).
  - intros a b Ha Hb. apply (HKernel U V dPdU _ Hu a b Ha Hb).
  - intros a b Ha Hb. rewrite Proj_ModJac_Tensor_opp.
    destruct (HKernel U V dPdU _ Hu' a b Ha Hb) as [_ [_ ->]].
    destruct (HKernel U V dPdU _ Hu a b Ha Hb) as [_ [_ ->]].
    apply HOdd; try assumption. intros d. apply FaceUnitNormal_vneg.
Qed.

(** With the same state on the two sides the two half-fluxes add up to
    the projected Jacobian applied to the state. *)
Lemma MSW_consistent (U V dPdU Normal : vec) (k : nat) :
  CNumerics.FaceArea nDim Normal <> 0 ->
  CUpwMSW_TNE2.ComputeResidual nDim nSpecies nVar nPrimVar
    GetPMatrix GetPMatrix_inv l m U U V V dPdU dPdU Normal k =
  vec_init nVar (fun iVar =>
    sum_upto nVar (fun jVar =>
      ProjJac (CUpwMSW_TNE2.Ust_i nDim nSpecies nVar U U V V)
              (CUpwMSW_TNE2.Vst_i nDim nSpecies nPrimVar V V) dPdU
              (CNumerics.FaceUnitNormal nDim Normal) iVar jVar
      * U jVar * CNumerics.FaceArea nDim Normal)) k.
Proof.
  intros HA.
  unfold CUpwMSW_TNE2.ComputeResidual, CUpwMSW_TNE2.Fc_i, CUpwMSW_TNE2.Fc_j,
    vec_init.
  destruct (Nat.ltb_spec k nVar) as [Hk|Hk]; [|reflexivity].
  rewrite <- sum_upto_plus. apply sum_upto_ext. intros j Hj.
  unfold CUpwMSW_TNE2.P_Tensor_i, CUpwMSW_TNE2.invP_Tensor_i,
    CUpwMSW_TNE2.P_Tensor_j, CUpwMSW_TNE2.invP_Tensor_j,
    CUpwMSW_TNE2.UnitNormal, CUpwMSW_TNE2.Area.
  change (CUpwMSW_TNE2.Ust_j nDim nSpecies nVar U U V V)
    with (CUpwMSW_TNE2.Ust_i nDim nSpecies nVar U U V V).
  change (CUpwMSW_TNE2.Vst_j nDim nSpecies nPrimVar V V)
    with (CUpwMSW_TNE2.Vst_i nDim nSpecies nPrimVar V V).
  pose proof (FaceUnitNormal_unit nDim Normal HA) as Hu.
  destruct (HKernel (CUpwMSW_TNE2.Ust_i nDim nSpecies nVar U U V V)
              (CUpwMSW_TNE2.Vst_i nDim nSpecies nPrimVar V V) dPdU _ Hu
              k j Hk Hj) as [_ [_ <-]].
  rewrite (Proj_ModJac_Tensor_ext nVar _ _
             (CNumerics.ConvectiveEigenvalues nDim nSpecies
                (CUpwMSW_TNE2.Vst_i nDim nSpecies nPrimVar V V)
                (CNumerics.FaceUnitNormal nDim Normal))
             (fun k =>
                CUpwMSW_TNE2.Lambda_i nDim nSpecies nPrimVar V V Normal k
                + CUpwMSW_TNE2.Lambda_j nDim nSpecies nPrimVar V V Normal k)).
  - rewrite Proj_ModJac_Tensor_plus. ring.
  - intros i Hi. rewrite MSW_Lambda_i_pos, MSW_Lambda_j_neg.
    change (CUpwMSW_TNE2.Vst_j nDim nSpecies nPrimVar V V)
      with (CUpwMSW_TNE2.Vst_i nDim nSpecies nPrimVar V V).
    unfold pos, neg. lra.
Qed.

(** The weighted state of two equal states is the state. *)
Lemma MSW_star_same (U V : vec) :
  (forall i, (i < nVar)%nat ->
     CUpwMSW_TNE2.Ust_i nDim nSpecies nVar U U V V i = U i) /\
  (forall i, (i < nPrimVar)%nat ->
     CUpwMSW_TNE2.Vst_i nDim nSpecies nPrimVar V V i = V i).
Proof.
  split; intros i Hi;
    unfold CUpwMSW_TNE2.Ust_i, CUpwMSW_TNE2.Vst_i, CUpwMSW_TNE2.onemw;
    rewrite vec_init_lt by exact Hi; ring.
Qed.

Variables (U_i U_j V_i V_j dPdU_i dPdU_j Normal : vec).
Hypothesis HArea : CNumerics.FaceArea nDim Normal <> 0.

Lemma MSW_Fc_i_swap (k : nat) :
  CUpwMSW_TNE2.Fc_i nDim nSpecies nVar nPrimVar GetPMatrix GetPMatrix_inv
    l m U_j U_i V_j V_i dPdU_j (vneg Normal) k =
  - CUpwMSW_TNE2.Fc_j nDim nSpecies nVar nPrimVar GetPMatrix GetPMatrix_inv
      l m U_i U_j V_i V_j dPdU_j Normal k.
Proof.
  unfold CUpwMSW_TNE2.Fc_i, CUpwMSW_TNE2.Fc_j, vec_init.
  destruct (Nat.ltb_spec k nVar) as [Hk|Hk]; [|ring].
  rewrite <- sum_upto_opp. apply sum_upto_ext. intros j Hj.
  unfold CUpwMSW_TNE2.Area. rewrite FaceArea_vneg.
  unfold CUpwMSW_TNE2.P_Tensor_i, CUpwMSW_TNE2.invP_Tensor_i,
    CUpwMSW_TNE2.P_Tensor_j, CUpwMSW_TNE2.invP_Tensor_j,
    CUpwMSW_TNE2.UnitNormal.
  change (CUpwMSW_TNE2.Ust_i nDim nSpecies nVar U_j U_i V_j V_i)
    with (vec_init nVar (fun iVar =>
            CUpwMSW_TNE2.onemw nDim nSpecies V_j V_i * U_j iVar
            + CUpwMSW_TNE2.w nDim nSpecies V_j V_i * U_i iVar)).
  rewrite (Proj_ModJac_Tensor_ext nVar _ _ _
             (fun k => pos (CNumerics.ConvectiveEigenvalues nDim nSpecies
                (CUpwMSW_TNE2.Vst_i nDim nSpecies nPrimVar V_j V_i)
                (CNumerics.FaceUnitNormal nDim (vneg Normal)) k)))
    by (intros; apply MSW_Lambda_i_pos).
  unfold CUpwMSW_TNE2.onemw, CUpwMSW_TNE2.Vst_i.
  unfold CUpwMSW_TNE2.onemw. rewrite !(MSW_w_swap V_i V_j).
  fold (CUpwMSW_TNE2.onemw nDim nSpecies V_i V_j).
  fold (CUpwMSW_TNE2.Ust_j nDim nSpecies nVar U_i U_j V_i V_j).
  fold (CUpwMSW_TNE2.Vst_j nDim nSpecies nPrimVar V_i V_j).
  rewrite (kernel_other_side pos) by assumption.
  rewrite (Proj_ModJac_Tensor_ext nVar _ _ _
             (fun k => - CUpwMSW_TNE2.Lambda_j nDim nSpecies nPrimVar
                           V_i V_j Normal k))
    by (intros; rewrite pos_opp, MSW_Lambda_j_neg; reflexivity).
  rewrite Proj_ModJac_Tensor_opp. ring.
Qed.

Lemma MSW_Fc_j_swap (k : nat) :
  CUpwMSW_TNE2.Fc_j nDim nSpecies nVar nPrimVar GetPMatrix GetPMatrix_inv
    l m U_j U_i V_j V_i dPdU_i (vneg Normal) k =
  - CUpwMSW_TNE2.Fc_i nDim nSpecies nVar nPrimVar GetPMatrix GetPMatrix_inv
      l m U_i U_j V_i V_j dPdU_i Normal k.
Proof.
  unfold CUpwMSW_TNE2.Fc_i, CUpwMSW_TNE2.Fc_j, vec_init.
  destruct (Nat.ltb_spec k nVar) as [Hk|Hk]; [|ring].
  rewrite <- sum_upto_opp. apply sum_upto_ext. intros j Hj.
  unfold CUpwMSW_TNE2.Area. rewrite FaceArea_vneg.
  unfold CUpwMSW_TNE2.P_Tensor_i, CUpwMSW_TNE2.invP_Tensor_i,
    CUpwMSW_TNE2.P_Tensor_j, CUpwMSW_TNE2.invP_Tensor_j,
    CUpwMSW_TNE2.UnitNormal.
  change (CUpwMSW_TNE2.Ust_j nDim nSpecies nVar U_j U_i V_j V_i)
    with (vec_init nVar (fun iVar =>
            CUpwMSW_TNE2.onemw nDim nSpecies V_j V_i * U_i iVar
            + CUpwMSW_TNE2.w nDim nSpecies V_j V_i * U_j iVar)).
  rewrite (Proj_ModJac_Tensor_ext nVar _ _ _
             (fun k => neg (CNumerics.ConvectiveEigenvalues nDim nSpecies
                (CUpwMSW_TNE2.Vst_j nDim nSpecies nPrimVar V_j V_i)
                (CNumerics.FaceUnitNormal nDim (vneg Normal)) k)))
    by (intros; apply MSW_Lambda_j_neg).
  unfold CUpwMSW_TNE2.onemw, CUpwMSW_TNE2.Vst_j.
  unfold CUpwMSW_TNE2.onemw. rewrite !(MSW_w_swap V_i V_j).
  fold (CUpwMSW_TNE2.onemw nDim nSpecies V_i V_j).
  fold (CUpwMSW_TNE2.Ust_i nDim nSpecies nVar U_i U_j V_i V_j).
  fold (CUpwMSW_TNE2.Vst_i nDim nSpecies nPrimVar V_i V_j).
  rewrite (kernel_other_side neg) by assumption.
  rewrite (Proj_ModJac_Tensor_ext nVar _ _ _
             (fun k => - CUpwMSW_TNE2.Lambda_i nDim nSpecies nPrimVar
                           V_i V_j Normal k))
    by (intros; rewrite neg_opp, MSW_Lambda_i_pos; reflexivity).
  rewrite Proj_ModJac_Tensor_opp. ring.
Qed.

Lemma MSW_antisymmetric (k : nat) :
  CUpwMSW_TNE2.ComputeResidual nDim nSpecies nVar nPrimVar
    GetPMatrix GetPMatrix_inv l m U_i U_j V_i V_j dPdU_i dPdU_j Normal k =
  - CUpwMSW_TNE2.ComputeResidual nDim nSpecies nVar nPrimVar
      GetPMatrix GetPMatrix_inv l m U_j U_i V_j V_i dPdU_j dPdU_i
      (vneg Normal) k.
Proof.
  unfold CUpwMSW_TNE2.ComputeResidual, vec_init.
  destruct (Nat.ltb k nVar); [|ring].
  rewrite MSW_Fc_i_swap, MSW_Fc_j_swap. ring.
Qed.
End MSWSwap.



Section MSWSample.
Let Vi := Sample.V_rest.
Let Vj := Sample.V_rest_2P.
Let n := Sample.Normal_x.

Lemma Sample_MSW_w : CUpwMSW_TNE2.w 2 1 Vi Vj = 1 / 52.
Proof.
  unfold CUpwMSW_TNE2.w, CUpwMSW_TNE2.dp, CUpwMSW_TNE2.alpha,
    CUpwMSW_TNE2.P_i, CUpwMSW_TNE2.P_j, Vi, Vj, Sample.V_rest,
    Sample.V_rest_2P, vec_of_list. simpl nth.
  replace (202650 - 101325) with 101325 by lra.
  rewrite Rabs_right by lra. rewrite Rmin_right by lra.
  replace (101325 / 101325) with 1 by (field; lra).
  lra.
Qed.

Lemma Sample_MSW_ProjVelst_i : CUpwMSW_TNE2.ProjVelst_i 2 1 Vi Vj n = 0.
Proof.
  unfold CUpwMSW_TNE2.ProjVelst_i, CUpwMSW_TNE2.ProjVel_i,
    CUpwMSW_TNE2.ProjVel_j.
  rewrite !sum_upto_zero; [ring| |];
    intros i Hi; destruct i as [|[|i]]; try lia;
    unfold CUpwMSW_TNE2.u_i, CUpwMSW_TNE2.u_j, vec_init, Vi, Vj,
      Sample.V_rest, Sample.V_rest_2P, vec_of_list; simpl; ring.
Qed.

Lemma Sample_MSW_ProjVelst_j : CUpwMSW_TNE2.ProjVelst_j 2 1 Vi Vj n = 0.
Proof.
  unfold CUpwMSW_TNE2.ProjVelst_j, CUpwMSW_TNE2.ProjVel_i,
    CUpwMSW_TNE2.ProjVel_j.
  rewrite !sum_upto_zero; [ring| |];
    intros i Hi; destruct i as [|[|i]]; try lia;
    unfold CUpwMSW_TNE2.u_i, CUpwMSW_TNE2.u_j, vec_init, Vi, Vj,
      Sample.V_rest, Sample.V_rest_2P, vec_of_list; simpl; ring.
Qed.

Lemma Sample_MSW_a_i :
  CUpwMSW_TNE2.Vst_i 2 1 11 Vi Vj (CNumerics.A_INDEX 2 1) = 340.
Proof.
  unfold CUpwMSW_TNE2.Vst_i, CUpwMSW_TNE2.onemw, vec_init, Vi, Vj,
    Sample.V_rest, Sample.V_rest_2P, vec_of_list. simpl. lra.
Qed.

Lemma Sample_MSW_a_j :
  CUpwMSW_TNE2.Vst_j 2 1 11 Vi Vj (CNumerics.A_INDEX 2 1) = 340.
Proof.
  unfold CUpwMSW_TNE2.Vst_j, CUpwMSW_TNE2.onemw, vec_init, Vi, Vj,
    Sample.V_rest, Sample.V_rest_2P, vec_of_list. simpl. lra.
Qed.

Lemma Sample_MSW_dPdUst_i :
  CUpwMSW_TNE2.dPdUst_i 2 1 11 Sample.CalcEve_zero Sample.CalcdPdU_P Vi Vj
    0%nat = 101325 + 101325 / 52.
Proof.
  unfold CUpwMSW_TNE2.dPdUst_i, Sample.CalcdPdU_P, CUpwMSW_TNE2.Vst_i,
    CUpwMSW_TNE2.onemw, vec_init. rewrite Sample_MSW_w.
  unfold Vi, Vj, Sample.V_rest, Sample.V_rest_2P, vec_of_list. simpl. lra.
Qed.

End MSWSample.

Ltac msw_row2 :=
  rewrite !vec_init_lt by lia;
  unfold Proj_ModJac_Tensor, sum_upto; cbn [for_range];
  unfold CUpwMSW_TNE2.P_Tensor_i, CUpwMSW_TNE2.invP_Tensor_i,
    CUpwMSW_TNE2.P_Tensor_j, CUpwMSW_TNE2.invP_Tensor_j,
    Sample.PMatrix_shear, Sample.PMatrix_shear_inv; cbn [Nat.eqb andb];
  rewrite ?Sample_MSW_dPdUst_i;
  unfold Sample.dPdU_rest, Sample.U_rest, vec_of_list; cbn [nth];
  rewrite !MSW_Lambda_i_at, !MSW_Lambda_j_at;
  cbn [Nat.eqb Nat.ltb Nat.leb Nat.add Nat.sub];
  rewrite Sample_MSW_ProjVelst_i, Sample_MSW_ProjVelst_j,
    Sample_MSW_a_i, Sample_MSW_a_j;
  unfold CUpwMSW_TNE2.Area;
  rewrite FaceArea_Normal_x;
  rewrite ?Rplus_0_l, ?Rminus_0_l, ?Rabs_R0, ?Rabs_Ropp;
  rewrite (Rabs_right 340) by lra.


(** C7. Between the gas at rest and the same gas under twice the pressure,
    with pressure derivatives that follow the pressure and matrices whose
    entry of row 2 and column 0 is the first pressure derivative, row 2 of
    the residual carries the derivative of node i, 101325.  Built from the
    weighted state as the specification has it, it would carry
    101325 (1 + 1/52). *)
Theorem MSW_matrices_read_node_dPdU :
  CUpwMSW_TNE2.ComputeResidual 2 1 5 11
    Sample.PMatrix_shear Sample.PMatrix_shear_inv (fun _ => 0) (fun _ => 0)
    Sample.U_rest Sample.U_rest Sample.V_rest Sample.V_rest_2P
    Sample.dPdU_rest Sample.dPdU_rest Sample.Normal_x 2%nat
  = - (340 * 101325) /\
  CUpwMSW_TNE2.ComputeResidual_star 2 1 5 11
    Sample.CalcEve_zero Sample.CalcdPdU_P
    Sample.PMatrix_shear Sample.PMatrix_shear_inv (fun _ => 0) (fun _ => 0)
    Sample.U_rest Sample.U_rest Sample.V_rest Sample.V_rest_2P
    Sample.Normal_x 2%nat
  = - (340 * (101325 + 101325 / 52)).
Proof.
  split.
  - unfold CUpwMSW_TNE2.ComputeResidual, CUpwMSW_TNE2.Fc_i,
      CUpwMSW_TNE2.Fc_j.
    msw_row2. lra.
  - unfold CUpwMSW_TNE2.ComputeResidual_star. msw_row2. lra.
Qed.

(** ** Identical states on the two sides: the convective schemes *)

Section AreaWeighted.
Variables (nDim : nat) (Normal : vec).
Hypothesis HArea : CNumerics.FaceArea nDim Normal <> 0.

Lemma FaceUnitNormal_Area (iDim : nat) :
  (iDim < nDim)%nat ->
  CNumerics.FaceUnitNormal nDim Normal iDim * CNumerics.FaceArea nDim Normal
  = Normal iDim.
Proof.
  intros Hd. unfold CNumerics.FaceUnitNormal.
  rewrite vec_init_lt by exact Hd. field. exact HArea.
Qed.

(** The velocity projected on the unit normal, times the area, is the
    velocity projected on the normal. *)
Lemma proj_Area (u : vec) :
  sum_upto nDim (fun iDim => u iDim * CNumerics.FaceUnitNormal nDim Normal iDim)
  * CNumerics.FaceArea nDim Normal =
  sum_upto nDim (fun iDim => u iDim * Normal iDim).
Proof.
  rewrite <- sum_upto_scal_r. apply sum_upto_ext. intros d Hd.
  rewrite Rmult_assoc, FaceUnitNormal_Area by exact Hd. reflexivity.
Qed.
End AreaWeighted.

Lemma for_range_no_jump (n : nat) (c : nat -> R) (d : vec) (A x : R) :
  (forall j, (j < n)%nat -> d j = 0) ->
  for_range n (fun jVar r => r - 0.5 * c jVar * d jVar * A) x = x.
Proof.
  intros H. induction n as [|n IH]; simpl; [reflexivity|].
  rewrite IH by (intros; apply H; lia). rewrite (H n) by lia. ring.
Qed.

Section RoeConsistency.
Variables (nDim nSpecies nVar nPrimVar : nat).
Variable CalcEve : R -> nat -> R.
Variable CalcdPdU : vec -> vec -> vec.
Variable CreateBasis : vec -> vec * vec.
Variables GetPMatrix GetPMatrix_inv : vec -> vec -> vec -> vec -> vec -> vec -> mat.
Variables (U V Normal Lambda0 Epsilon0 : vec).

(** Without a jump the upwind term is not there, whatever the
    eigenvectors and the eigenvalues are. *)
Lemma Roe_consistent (k : nat) :
  CUpwRoe_TNE2.ComputeResidual nDim nSpecies nVar nPrimVar CalcEve CalcdPdU
    CreateBasis GetPMatrix GetPMatrix_inv U U V V Normal Lambda0 Epsilon0 k =
  vec_init nVar (CNumerics.GetInviscidProjFlux nDim nSpecies U V Normal) k.
Proof.
  unfold CUpwRoe_TNE2.ComputeResidual, vec_init.
  destruct (Nat.ltb k nVar); [|reflexivity].
  rewrite for_range_no_jump.
  - unfold CUpwRoe_TNE2.ProjFlux_i, CUpwRoe_TNE2.ProjFlux_j. lra.
  - intros j Hj. unfold CUpwRoe_TNE2.Diff_U.
    rewrite vec_init_lt by exact Hj. ring.
Qed.
End RoeConsistency.

Section InviscidFlux.
Variables (nDim nSpecies : nat).

(** The analytic flux, entry by entry. *)
Lemma GetInviscidProjFlux_at (U V Normal : vec) (k : nat) :
  CNumerics.GetInviscidProjFlux nDim nSpecies U V Normal k =
  let Proj_vel := sum_upto nDim (fun iDim =>
      V (CNumerics.VEL_INDEX nSpecies + iDim)%nat * Normal iDim) in
  let rho := V (CNumerics.RHO_INDEX nDim nSpecies) in
  if Nat.ltb k nSpecies
  then V (CNumerics.RHOS_INDEX + k)%nat * Proj_vel
  else if Nat.ltb k (nSpecies + nDim)
  then rho * Proj_vel * V (CNumerics.VEL_INDEX nSpecies + (k - nSpecies))%nat
       + V (CNumerics.P_INDEX nDim nSpecies) * Normal (k - nSpecies)%nat
  else if Nat.eqb k (nSpecies + nDim)
  then rho * Proj_vel * V (CNumerics.H_INDEX nDim nSpecies)
  else if Nat.eqb k (nSpecies + nDim + 1)
  then U (nSpecies + nDim + 1)%nat * Proj_vel
  else 0.
Proof.
  unfold CNumerics.GetInviscidProjFlux. cbv zeta.
  apply ConservedLayout_at.
Qed.

(** It reads the last conserved variable and the primitive variables up
    to the enthalpy. *)
Lemma GetInviscidProjFlux_ext (U U' V V' Normal : vec) (k : nat) :
  U (nSpecies + nDim + 1)%nat = U' (nSpecies + nDim + 1)%nat ->
  (forall i, (i < nSpecies + nDim + 5)%nat -> V i = V' i) ->
  CNumerics.GetInviscidProjFlux nDim nSpecies U V Normal k =
  CNumerics.GetInviscidProjFlux nDim nSpecies U' V' Normal k.
Proof.
  intros HU HV. rewrite !GetInviscidProjFlux_at. cbv zeta.
  rewrite HU.
  rewrite (sum_upto_ext nDim _ (fun iDim =>
             V' (CNumerics.VEL_INDEX nSpecies + iDim)%nat * Normal iDim))
    by (intros d Hd; rewrite HV by (unfold CNumerics.VEL_INDEX; lia);
        reflexivity).
  rewrite (HV (CNumerics.RHO_INDEX nDim nSpecies))
    by (unfold CNumerics.RHO_INDEX; lia).
  rewrite (HV (CNumerics.P_INDEX nDim nSpecies))
    by (unfold CNumerics.P_INDEX; lia).
  rewrite (HV (CNumerics.H_INDEX nDim nSpecies))
    by (unfold CNumerics.H_INDEX; lia).
  destruct (Nat.ltb_spec k nSpecies) as [H1|H1].
  { rewrite HV by (unfold CNumerics.RHOS_INDEX; lia). reflexivity. }
  destruct (Nat.ltb_spec k (nSpecies + nDim)) as [H2|H2]; [|reflexivity].
  rewrite (HV (CNumerics.VEL_INDEX nSpecies + (k - nSpecies))%nat)
    by (unfold CNumerics.VEL_INDEX; lia).
  reflexivity.
Qed.
End InviscidFlux.

Section LaxConsistency.
Variables (nDim nSpecies nVar nPrimVar : nat).
Variables (Param_Kappa_0 EPS Lambda_i Lambda_j : R).
Variables (Neighbor_i Neighbor_j : nat).
Variables (U V Normal : vec).
Hypothesis HVar : nVar = (nSpecies + nDim + 2)%nat.
Hypothesis HPrim : (nSpecies + nDim + 5 <= nPrimVar)%nat.

Lemma Lax_Diff_U_zero (k : nat) :
  CCentLax_TNE2.Diff_U nDim nSpecies nVar U U V V k = 0.
Proof.
  unfold CCentLax_TNE2.Diff_U, upd, vec_init, CCentLax_TNE2.rho_i,
    CCentLax_TNE2.rho_j, CCentLax_TNE2.h_i, CCentLax_TNE2.h_j.
  destruct (Nat.eqb k (nSpecies + nDim)); [ring|].
  destruct (Nat.ltb k nVar); ring.
Qed.

(** The flux of the mean state is the flux of the state and the
    dissipation has nothing to act on. *)
Lemma Lax_consistent (k : nat) :
  CCentLax_TNE2.ComputeResidual nDim nSpecies nVar nPrimVar Param_Kappa_0
    EPS Lambda_i Lambda_j Neighbor_i Neighbor_j U U V V Normal k =
  CNumerics.GetInviscidProjFlux nDim nSpecies U V Normal k.
Proof.
  unfold CCentLax_TNE2.ComputeResidual. cbv zeta.
  rewrite (for_range_inplace nVar (fun iVar x =>
    x + CCentLax_TNE2.Epsilon_0 nDim Param_Kappa_0 Neighbor_i Neighbor_j
        * CCentLax_TNE2.Diff_U nDim nSpecies nVar U U V V iVar
        * CCentLax_TNE2.StretchingFactor nDim nSpecies EPS Lambda_i Lambda_j
            V V Normal
        * CCentLax_TNE2.MeanLambda nDim nSpecies V V Normal)).
  rewrite Lax_Diff_U_zero.
  assert (E : vec_init nVar
                (fun iVar => CCentLax_TNE2.ProjFlux nDim nSpecies nVar
                               nPrimVar U U V V Normal iVar) k =
              CNumerics.GetInviscidProjFlux nDim nSpecies U V Normal k).
  { unfold vec_init, CCentLax_TNE2.ProjFlux.
    destruct (Nat.ltb_spec k nVar) as [Hk|Hk].
    - apply GetInviscidProjFlux_ext.
      + unfold CCentLax_TNE2.MeanU. rewrite vec_init_lt by lia. lra.
      + intros i Hi. unfold CCentLax_TNE2.MeanV.
        rewrite vec_init_lt by lia. lra.
    - rewrite GetInviscidProjFlux_at. cbv zeta.
      destruct (Nat.ltb_spec k nSpecies); [lia|].
      destruct (Nat.ltb_spec k (nSpecies + nDim)); [lia|].
      destruct (Nat.eqb_spec k (nSpecies + nDim)); [lia|].
      destruct (Nat.eqb_spec k (nSpecies + nDim + 1)); [lia|reflexivity]. }
  rewrite E. destruct (Nat.ltb k nVar); ring.
Qed.
End LaxConsistency.

Lemma residual_ext (nDim nSpecies nVar : nat) (conv conv' press press' : nat -> R)
    (k : nat) :
  (forall i, conv i = conv' i) ->
  (forall d, (d < nDim)%nat -> press d = press' d) ->
  for_range nDim
    (fun iDim r => upd r (nSpecies + iDim)
                     (r (nSpecies + iDim)%nat + press iDim))
    (vec_init nVar conv) k =
  for_range nDim
    (fun iDim r => upd r (nSpecies + iDim)
                     (r (nSpecies + iDim)%nat + press' iDim))
    (vec_init nVar conv') k.
Proof.
  intros Hc Hp. rewrite !residual_at. unfold vec_init. rewrite Hc.
  destruct (Nat.leb_spec nSpecies k), (Nat.ltb_spec k (nSpecies + nDim));
    simpl; try reflexivity.
  rewrite Hp by lia. reflexivity.
Qed.

Section AUSMConsistency.
Variables (nDim nSpecies nVar : nat) (U V Normal : vec).
Hypothesis HVar : nVar = (nSpecies + nDim + 2)%nat.
Hypothesis HArea : CNumerics.FaceArea nDim Normal <> 0.
Hypothesis Hrho : V (CNumerics.RHO_INDEX nDim nSpecies) <> 0.

(** The Mach number and pressure splittings add up to the Mach number and
    to one. *)
Lemma split_Mach (b m : R) :
  (if Rle_dec (Rabs m) 1 then 0.25 * (m + 1) * (m + 1)
                              + b * (m * m - 1) * (m * m - 1)
   else 0.5 * (m + Rabs m))
  + (if Rle_dec (Rabs m) 1 then - 0.25 * (m - 1) * (m - 1)
                                - b * (m * m - 1) * (m * m - 1)
     else 0.5 * (m - Rabs m)) = m.
Proof. destruct (Rle_dec (Rabs m) 1); lra. Qed.

Lemma split_pressure (al m : R) :
  (if Rle_dec (Rabs m) 1 then 0.25 * (m + 1) * (m + 1) * (2 - m)
                              + al * m * (m * m - 1) * (m * m - 1)
   else 0.5 * (m + Rabs m) / m)
  + (if Rle_dec (Rabs m) 1 then 0.25 * (m - 1) * (m - 1) * (2 + m)
                                - al * m * (m * m - 1) * (m * m - 1)
     else 0.5 * (m - Rabs m) / m) = 1.
Proof.
  destruct (Rle_dec (Rabs m) 1) as [H|H]; [lra|].
  assert (m <> 0).
  { intros ->. rewrite Rabs_R0 in H. lra. }
  unfold Rdiv.
  replace (0.5 * (m + Rabs m) * / m + 0.5 * (m - Rabs m) * / m)
    with (m * / m) by lra.
  apply Rinv_r. assumption.
Qed.

(** The convective part common to the AUSM family: a Mach number [pv/a]
    carrying the state at speed [a], and the pressure on the momentum
    rows. *)
Lemma AUSM_family_flux (a pF : R) (k : nat) :
  a <> 0 -> pF = V (CNumerics.P_INDEX nDim nSpecies) ->
  let pv := sum_upto nDim (fun iDim =>
      vec_init nDim (fun iDim => V (CNumerics.VEL_INDEX nSpecies + iDim)%nat)
        iDim * CNumerics.FaceUnitNormal nDim Normal iDim) in
  let rho := V (CNumerics.RHO_INDEX nDim nSpecies) in
  let Fc := CNumerics.ConservedLayout nDim nSpecies
      (fun iSpecies =>
         vec_init nSpecies
           (fun iSpecies => V (CNumerics.RHOS_INDEX + iSpecies)%nat) iSpecies
         * a)
      (fun iDim =>
         rho * a
         * vec_init nDim
             (fun iDim => V (CNumerics.VEL_INDEX nSpecies + iDim)%nat) iDim)
      (rho * a * V (CNumerics.H_INDEX nDim nSpecies))
      (rho * a * (U (nSpecies + nDim + 1)%nat / rho)) in
  for_range nDim
    (fun iDim r => upd r (nSpecies + iDim)
       (r (nSpecies + iDim)%nat
        + pF * CNumerics.FaceUnitNormal nDim Normal iDim
          * CNumerics.FaceArea nDim Normal))
    (vec_init nVar (fun iVar =>
       pv / a * Fc iVar * CNumerics.FaceArea nDim Normal)) k =
  CNumerics.GetInviscidProjFlux nDim nSpecies U V Normal k.
Proof.
  intros Ha HpF pv rho Fc.
  rewrite (residual_at nDim nSpecies nVar _
             (fun iDim => pF * CNumerics.FaceUnitNormal nDim Normal iDim
                          * CNumerics.FaceArea nDim Normal)).
  rewrite GetInviscidProjFlux_at. cbv zeta.
  assert (Hpv : pv * CNumerics.FaceArea nDim Normal =
                sum_upto nDim (fun iDim =>
                  V (CNumerics.VEL_INDEX nSpecies + iDim)%nat * Normal iDim)).
  { unfold pv. rewrite proj_Area by exact HArea. apply sum_upto_ext.
    intros d Hd. rewrite vec_init_lt by exact Hd. reflexivity. }
  rewrite <- Hpv. unfold vec_init at 1 2. subst Fc.
  rewrite ConservedLayout_at. fold rho.
  destruct (Nat.ltb_spec k nSpecies) as [H1|H1].
  { destruct (Nat.leb_spec nSpecies k); [lia|]. simpl andb. cbv iota.
    destruct (Nat.ltb_spec k nVar); [|lia].
    rewrite vec_init_lt by exact H1. field. exact Ha. }
  destruct (Nat.leb_spec nSpecies k); [|lia].
  destruct (Nat.ltb_spec k (nSpecies + nDim)) as [H2|H2].
  { simpl andb. cbv iota. destruct (Nat.ltb_spec k nVar); [|lia].
    rewrite vec_init_lt by lia.
    rewrite <- (FaceUnitNormal_Area nDim Normal HArea (k - nSpecies))
      by lia.
    rewrite HpF. field. exact Ha. }
  simpl andb. cbv iota.
  destruct (Nat.eqb_spec k (nSpecies + nDim)) as [H3|H3].
  { destruct (Nat.ltb_spec k nVar); [|lia]. field. exact Ha. }
  destruct (Nat.eqb_spec k (nSpecies + nDim + 1)) as [H4|H4].
  { destruct (Nat.ltb_spec k nVar); [|lia]. field. split; assumption. }
  destruct (Nat.ltb_spec k nVar); [lia|reflexivity].
Qed.

Lemma AUSM_consistent (k : nat) :
  V (CNumerics.A_INDEX nDim nSpecies) <> 0 ->
  CUpwAUSM_TNE2.ComputeResidual nDim nSpecies nVar U U V V Normal k =
  CNumerics.GetInviscidProjFlux nDim nSpecies U V Normal k.
Proof.
  intros Ha.
  rewrite <- (AUSM_family_flux (V (CNumerics.A_INDEX nDim nSpecies))
                (CUpwAUSM_TNE2.pF nDim nSpecies V V Normal) k Ha).
  - unfold CUpwAUSM_TNE2.ComputeResidual. cbv zeta.
    apply residual_ext; [|reflexivity]. intros iVar.
    unfold CUpwAUSM_TNE2.Phi, CUpwAUSM_TNE2.mF.
    replace (CUpwAUSM_TNE2.mLP nDim nSpecies V Normal
             + CUpwAUSM_TNE2.mRM nDim nSpecies V Normal)
      with (CUpwAUSM_TNE2.mL nDim nSpecies V Normal)
      by (unfold CUpwAUSM_TNE2.mLP, CUpwAUSM_TNE2.mRM;
          change (CUpwAUSM_TNE2.mR nDim nSpecies V Normal)
            with (CUpwAUSM_TNE2.mL nDim nSpecies V Normal);
          destruct (Rle_dec _ _); lra).
    change (CUpwAUSM_TNE2.FcR nDim nSpecies U V)
      with (CUpwAUSM_TNE2.FcL nDim nSpecies U V).
    unfold CUpwAUSM_TNE2.Area.
    change (CNumerics.ConservedLayout nDim nSpecies _ _ _ _ iVar)
      with (CUpwAUSM_TNE2.FcL nDim nSpecies U V iVar).
    change (sum_upto nDim _ / V (CNumerics.A_INDEX nDim nSpecies))
      with (CUpwAUSM_TNE2.mL nDim nSpecies V Normal).
    lra.
  - unfold CUpwAUSM_TNE2.pF, CUpwAUSM_TNE2.pLP, CUpwAUSM_TNE2.pRM.
    change (CUpwAUSM_TNE2.mR nDim nSpecies V Normal)
      with (CUpwAUSM_TNE2.mL nDim nSpecies V Normal).
    change (CUpwAUSM_TNE2.P_j nDim nSpecies V)
      with (CUpwAUSM_TNE2.P_i nDim nSpecies V).
    change (V (CNumerics.P_INDEX nDim nSpecies))
      with (CUpwAUSM_TNE2.P_i nDim nSpecies V).
    destruct (Rle_dec _ _) as [H|H]; [lra|].
    assert (Hm : CUpwAUSM_TNE2.mL nDim nSpecies V Normal <> 0).
    { intros E. rewrite E, Rabs_R0 in H. lra. }
    unfold Rdiv.
    replace (0.5 * CUpwAUSM_TNE2.P_i nDim nSpecies V
             * (CUpwAUSM_TNE2.mL nDim nSpecies V Normal
                + Rabs (CUpwAUSM_TNE2.mL nDim nSpecies V Normal))
             * / CUpwAUSM_TNE2.mL nDim nSpecies V Normal
             + 0.5 * CUpwAUSM_TNE2.P_i nDim nSpecies V
               * (CUpwAUSM_TNE2.mL nDim nSpecies V Normal
                  - Rabs (CUpwAUSM_TNE2.mL nDim nSpecies V Normal))
               * / CUpwAUSM_TNE2.mL nDim nSpecies V Normal)
      with (CUpwAUSM_TNE2.P_i nDim nSpecies V
            * (CUpwAUSM_TNE2.mL nDim nSpecies V Normal
               * / CUpwAUSM_TNE2.mL nDim nSpecies V Normal)) by lra.
    rewrite Rinv_r by exact Hm. ring.
Qed.
End AUSMConsistency.

Section AUSMPLUSUP2Consistency.
Variables (nDim nSpecies nVar : nat) (Minf Gamma : R) (U V Normal : vec).
Hypothesis HVar : nVar = (nSpecies + nDim + 2)%nat.
Hypothesis HArea : CNumerics.FaceArea nDim Normal <> 0.
Hypothesis Hrho : V (CNumerics.RHO_INDEX nDim nSpecies) <> 0.
Hypothesis Hh :
  0 < 2 * (Gamma - 1) / (Gamma + 1) * V (CNumerics.H_INDEX nDim nSpecies).

Let aF := CUpwAUSMPLUSUP2_TNE2.aF nDim nSpecies Gamma V V Normal.
Let mL := CUpwAUSMPLUSUP2_TNE2.mL nDim nSpecies Gamma V V Normal.

(** The interface speed of sound is positive when the critical speed of
    sound is. *)
Lemma UP2_aF_pos : 0 < aF.
Proof.
  unfold aF, CUpwAUSMPLUSUP2_TNE2.aF, CUpwAUSMPLUSUP2_TNE2.ChatL,
    CUpwAUSMPLUSUP2_TNE2.ChatR.
  change (CUpwAUSMPLUSUP2_TNE2.CstarR nDim nSpecies Gamma V)
    with (CUpwAUSMPLUSUP2_TNE2.CstarL nDim nSpecies Gamma V).
  assert (HC : 0 < CUpwAUSMPLUSUP2_TNE2.CstarL nDim nSpecies Gamma V).
  { unfold CUpwAUSMPLUSUP2_TNE2.CstarL. apply sqrt_lt_R0. exact Hh. }
  set (C := CUpwAUSMPLUSUP2_TNE2.CstarL nDim nSpecies Gamma V) in *.
  assert (Hq : forall x, 0 < C * C / Rmax C x).
  { intros x. apply Rdiv_lt_0_compat; [nra|].
    pose proof (Rmax_l C x). lra. }
  apply Rmin_glb_lt; apply Hq.
Qed.

Lemma UP2_mR_same :
  CUpwAUSMPLUSUP2_TNE2.mR nDim nSpecies Gamma V V Normal = mL.
Proof. reflexivity. Qed.

Lemma UP2_Mp_zero :
  CUpwAUSMPLUSUP2_TNE2.Mp nDim nSpecies Minf Gamma V V Normal = 0.
Proof.
  unfold CUpwAUSMPLUSUP2_TNE2.Mp, CUpwAUSMPLUSUP2_TNE2.P_i,
    CUpwAUSMPLUSUP2_TNE2.P_j.
  unfold Rdiv. ring.
Qed.

Lemma UP2_mF_same :
  CUpwAUSMPLUSUP2_TNE2.mF nDim nSpecies Minf Gamma V V Normal = mL.
Proof.
  unfold CUpwAUSMPLUSUP2_TNE2.mF. rewrite UP2_Mp_zero.
  unfold CUpwAUSMPLUSUP2_TNE2.mLP, CUpwAUSMPLUSUP2_TNE2.mRM.
  rewrite UP2_mR_same. fold mL.
  rewrite (split_Mach (CUpwAUSMPLUSUP2_TNE2.beta) mL). ring.
Qed.

Lemma UP2_pF_same :
  CUpwAUSMPLUSUP2_TNE2.pF nDim nSpecies Minf Gamma V V Normal =
  V (CNumerics.P_INDEX nDim nSpecies).
Proof.
  unfold CUpwAUSMPLUSUP2_TNE2.pF, CUpwAUSMPLUSUP2_TNE2.pFi.
  assert (E : CUpwAUSMPLUSUP2_TNE2.pLP nDim nSpecies Minf Gamma V V Normal
              + CUpwAUSMPLUSUP2_TNE2.pRM nDim nSpecies Minf Gamma V V Normal
              = 1).
  { unfold CUpwAUSMPLUSUP2_TNE2.pLP, CUpwAUSMPLUSUP2_TNE2.pRM.
    rewrite UP2_mR_same. fold mL. apply split_pressure. }
  rewrite E.
  unfold CUpwAUSMPLUSUP2_TNE2.P_i, CUpwAUSMPLUSUP2_TNE2.P_j.
  set (s := sqrt _). lra.
Qed.

Lemma AUSMPLUSUP2_consistent (k : nat) :
  CUpwAUSMPLUSUP2_TNE2.ComputeResidual nDim nSpecies nVar Minf Gamma
    U U V V Normal k =
  CNumerics.GetInviscidProjFlux nDim nSpecies U V Normal k.
Proof.
  pose proof UP2_aF_pos as Ha.
  rewrite <- (AUSM_family_flux nDim nSpecies nVar U V Normal HVar HArea Hrho
                aF (CUpwAUSMPLUSUP2_TNE2.pF nDim nSpecies Minf Gamma V V
                      Normal) k).
  - unfold CUpwAUSMPLUSUP2_TNE2.ComputeResidual. cbv zeta.
    apply residual_ext; [|reflexivity]. intros iVar.
    unfold CUpwAUSMPLUSUP2_TNE2.mfP, CUpwAUSMPLUSUP2_TNE2.mfM,
      CUpwAUSMPLUSUP2_TNE2.Phi.
    rewrite UP2_mF_same.
    change (CUpwAUSMPLUSUP2_TNE2.FcR nDim nSpecies Gamma U V V Normal)
      with (CUpwAUSMPLUSUP2_TNE2.FcL nDim nSpecies Gamma U V V Normal).
    unfold CUpwAUSMPLUSUP2_TNE2.Area.
    change (CNumerics.ConservedLayout nDim nSpecies _ _ _ _ iVar)
      with (CUpwAUSMPLUSUP2_TNE2.FcL nDim nSpecies Gamma U V V Normal iVar).
    change (sum_upto nDim _ / aF) with mL.
    lra.
  - lra.
  - apply UP2_pF_same.
Qed.
End AUSMPLUSUP2Consistency.

(** ** Viscous fluxes between two equal states *)

Lemma vec_init_idem (n : nat) (f : vec) :
  vec_init n (fun i => vec_init n f i) = vec_init n f.
Proof.
  apply functional_extensionality. intros k. unfold vec_init.
  destruct (Nat.ltb k n); reflexivity.
Qed.

Lemma vec_init_mean (n : nat) (f : vec) :
  vec_init n (fun i => 0.5 * (f i + f i)) = vec_init n f.
Proof.
  apply functional_extensionality. intros k. unfold vec_init.
  destruct (Nat.ltb k n); lra.
Qed.

Section ViscousConsistency.
Variables (nDim nSpecies nVar nPrimVar nPrimVarGrad : nat).
Variable ionization : bool.
Variable CalcHs : R -> R -> nat -> R.
Variable TWO3 : R.
Variables (V : vec) (PrimVar_Grad : mat).
Variables (Diffusion_Coeff eve : vec).
Variables (Laminar_Viscosity Thermal_Conductivity Thermal_Conductivity_ve : R).
Variables (Normal Coord_i Coord_j : vec).

(** The flux function ends by truncating to [nVar] rows, so that the copy
    into the residual changes nothing. *)
Lemma GetViscousProjFlux_truncated (P : vec) (G : mat) (e n D : vec)
    (mu ktr kve : R) :
  bind (CAvgGrad_TNE2.GetViscousProjFlux nDim nSpecies nVar ionization CalcHs
          TWO3 P G e n D mu ktr kve)
       (fun Proj_Flux_Tensor =>
          Returns (vec_init nVar (fun iVar => Proj_Flux_Tensor iVar))) =
  CAvgGrad_TNE2.GetViscousProjFlux nDim nSpecies nVar ionization CalcHs
    TWO3 P G e n D mu ktr kve.
Proof.
  unfold CAvgGrad_TNE2.GetViscousProjFlux.
  match goal with
  | |- context [for_range_exit ?n ?f ?s] => destruct (for_range_exit n f s)
  end; simpl; [|reflexivity].
  now rewrite vec_init_idem.
Qed.

Lemma Mean_PrimVar_same :
  CAvgGrad_TNE2.Mean_PrimVar nDim nSpecies nPrimVar V V =
  CAvgGrad_TNE2.PrimVar_i nDim nSpecies nPrimVar V.
Proof.
  apply functional_extensionality. intros k.
  unfold CAvgGrad_TNE2.Mean_PrimVar, CAvgGrad_TNE2.PrimVar_j,
    CAvgGrad_TNE2.PrimVar_i, vec_init2.
  destruct (Nat.ltb k nSpecies); [lra|].
  destruct (Nat.ltb k nPrimVar); lra.
Qed.

Lemma Mean_GradPrimVar_same :
  CAvgGrad_TNE2.Mean_GradPrimVar nDim nSpecies nPrimVar nPrimVarGrad V V
    PrimVar_Grad PrimVar_Grad =
  CAvgGrad_TNE2.Node_GradPrimVar nDim nSpecies nPrimVar nPrimVarGrad V
    PrimVar_Grad.
Proof.
  apply functional_extensionality. intros iVar.
  apply functional_extensionality. intros iDim.
  unfold CAvgGrad_TNE2.Mean_GradPrimVar, CAvgGrad_TNE2.Node_GradPrimVar.
  change (CAvgGrad_TNE2.PrimVar_j nDim nSpecies nPrimVar V)
    with (CAvgGrad_TNE2.PrimVar_i nDim nSpecies nPrimVar V).
  unfold vec_init2.
  destruct (Nat.ltb iDim nDim); [|reflexivity].
  destruct (Nat.ltb iVar nSpecies).
  - match goal with
    | |- 0.5 * (?a + ?a) = _ => generalize a; intros r; lra
    end.
  - destruct (Nat.ltb iVar nPrimVarGrad); lra.
Qed.

(** The scheme without correction returns the viscous flux of the one
    state, projected on the normal. *)
Lemma AvgGrad_consistent :
  CAvgGrad_TNE2.ComputeResidual nDim nSpecies nVar nPrimVar nPrimVarGrad
    ionization CalcHs TWO3 V V PrimVar_Grad PrimVar_Grad
    Diffusion_Coeff Diffusion_Coeff eve eve
    Laminar_Viscosity Laminar_Viscosity
    Thermal_Conductivity Thermal_Conductivity
    Thermal_Conductivity_ve Thermal_Conductivity_ve Normal =
  CAvgGrad_TNE2.GetViscousProjFlux nDim nSpecies nVar ionization CalcHs TWO3
    (CAvgGrad_TNE2.PrimVar_i nDim nSpecies nPrimVar V)
    (CAvgGrad_TNE2.Node_GradPrimVar nDim nSpecies nPrimVar nPrimVarGrad V
       PrimVar_Grad)
    (vec_init nSpecies eve) Normal (vec_init nSpecies Diffusion_Coeff)
    Laminar_Viscosity Thermal_Conductivity Thermal_Conductivity_ve.
Proof.
  unfold CAvgGrad_TNE2.ComputeResidual.
  rewrite GetViscousProjFlux_truncated, Mean_PrimVar_same,
    Mean_GradPrimVar_same.
  unfold CAvgGrad_TNE2.Mean_Eve, CAvgGrad_TNE2.Mean_Diffusion_Coeff,
    CAvgGrad_TNE2.Mean_Laminar_Viscosity,
    CAvgGrad_TNE2.Mean_Thermal_Conductivity,
    CAvgGrad_TNE2.Mean_Thermal_Conductivity_ve.
  rewrite !vec_init_mean.
  replace (0.5 * (Laminar_Viscosity + Laminar_Viscosity))
    with Laminar_Viscosity by lra.
  replace (0.5 * (Thermal_Conductivity + Thermal_Conductivity))
    with Thermal_Conductivity by lra.
  replace (0.5 * (Thermal_Conductivity_ve + Thermal_Conductivity_ve))
    with Thermal_Conductivity_ve by lra.
  reflexivity.
Qed.

(** With the correction, the gradient of the one state loses its part
    along the edge, which the two equal states replace by zero. *)
Lemma Mean_GradPrimVar_Corrected_same :
  CAvgGradCorrected_TNE2.Mean_GradPrimVar_Corrected nDim nSpecies nPrimVar
    nPrimVarGrad V V PrimVar_Grad PrimVar_Grad Coord_i Coord_j =
  fun iVar iDim =>
    CAvgGrad_TNE2.Node_GradPrimVar nDim nSpecies nPrimVar nPrimVarGrad V
      PrimVar_Grad iVar iDim
    - CAvgGrad_TNE2.Edge_Projection nDim nPrimVarGrad
        (CAvgGrad_TNE2.Node_GradPrimVar nDim nSpecies nPrimVar nPrimVarGrad
           V PrimVar_Grad) Coord_i Coord_j iVar iDim.
Proof.
  apply functional_extensionality. intros iVar.
  apply functional_extensionality. intros iDim.
  unfold CAvgGradCorrected_TNE2.Mean_GradPrimVar_Corrected,
    CAvgGrad_TNE2.Edge_Projection.
  change (CAvgGradCorrected_TNE2.Mean_GradPrimVar nDim nSpecies nPrimVar
            nPrimVarGrad V V PrimVar_Grad PrimVar_Grad)
    with (CAvgGrad_TNE2.Mean_GradPrimVar nDim nSpecies nPrimVar
            nPrimVarGrad V V PrimVar_Grad PrimVar_Grad).
  destruct (Nat.ltb_spec iVar nPrimVarGrad) as [Hv|Hv]; simpl;
    [|rewrite Mean_GradPrimVar_same; lra].
  destruct (Nat.ltb_spec iDim nDim) as [Hd|Hd]; simpl;
    [|rewrite Mean_GradPrimVar_same; lra].
  unfold CAvgGradCorrected_TNE2.GradCorrection,
    CAvgGradCorrected_TNE2.Proj_Mean_GradPrimVar_Edge,
    CAvgGradCorrected_TNE2.dist_ij_2.
  rewrite vec_init_lt by exact Hv.
  change (CAvgGradCorrected_TNE2.Mean_GradPrimVar nDim nSpecies nPrimVar
            nPrimVarGrad V V PrimVar_Grad PrimVar_Grad)
    with (CAvgGrad_TNE2.Mean_GradPrimVar nDim nSpecies nPrimVar
            nPrimVarGrad V V PrimVar_Grad PrimVar_Grad).
  rewrite Mean_GradPrimVar_same.
  change (CAvgGradCorrected_TNE2.PrimVar_j nDim nSpecies nPrimVar V)
    with (CAvgGradCorrected_TNE2.PrimVar_i nDim nSpecies nPrimVar V).
  rewrite Rminus_diag, Rminus_0_r.
  rewrite (sum_upto_ext nDim
             (fun jDim => CAvgGrad_TNE2.Node_GradPrimVar nDim nSpecies
                 nPrimVar nPrimVarGrad V PrimVar_Grad iVar jDim
               * CAvgGradCorrected_TNE2.Edge_Vector nDim Coord_i Coord_j jDim)
             (fun jDim => CAvgGrad_TNE2.Node_GradPrimVar nDim nSpecies
                 nPrimVar nPrimVarGrad V PrimVar_Grad iVar jDim
               * (Coord_j jDim - Coord_i jDim)))
    by (intros j Hj; unfold CAvgGradCorrected_TNE2.Edge_Vector;
        now rewrite vec_init_lt by exact Hj).
  rewrite (sum_upto_ext nDim
             (fun jDim =>
                CAvgGradCorrected_TNE2.Edge_Vector nDim Coord_i Coord_j jDim
                * CAvgGradCorrected_TNE2.Edge_Vector nDim Coord_i Coord_j jDim)
             (fun jDim => (Coord_j jDim - Coord_i jDim)
                          * (Coord_j jDim - Coord_i jDim)))
    by (intros j Hj; unfold CAvgGradCorrected_TNE2.Edge_Vector;
        now rewrite vec_init_lt by exact Hj).
  unfold CAvgGradCorrected_TNE2.Edge_Vector.
  rewrite vec_init_lt by exact Hd. reflexivity.
Qed.

Lemma AvgGradCorrected_consistent :
  CAvgGradCorrected_TNE2.ComputeResidual nDim nSpecies nVar nPrimVar
    nPrimVarGrad ionization CalcHs TWO3 V V PrimVar_Grad PrimVar_Grad
    Diffusion_Coeff Diffusion_Coeff eve eve
    Laminar_Viscosity Laminar_Viscosity
    Thermal_Conductivity Thermal_Conductivity
    Thermal_Conductivity_ve Thermal_Conductivity_ve Normal Coord_i Coord_j =
  CAvgGrad_TNE2.GetViscousProjFlux nDim nSpecies nVar ionization CalcHs TWO3
    (CAvgGrad_TNE2.PrimVar_i nDim nSpecies nPrimVar V)
    (fun iVar iDim =>
       CAvgGrad_TNE2.Node_GradPrimVar nDim nSpecies nPrimVar nPrimVarGrad V
         PrimVar_Grad iVar iDim
       - CAvgGrad_TNE2.Edge_Projection nDim nPrimVarGrad
           (CAvgGrad_TNE2.Node_GradPrimVar nDim nSpecies nPrimVar
              nPrimVarGrad V PrimVar_Grad) Coord_i Coord_j iVar iDim)
    (vec_init nSpecies eve) Normal (vec_init nSpecies Diffusion_Coeff)
    Laminar_Viscosity Thermal_Conductivity Thermal_Conductivity_ve.
Proof.
  unfold CAvgGradCorrected_TNE2.ComputeResidual,
    CAvgGradCorrected_TNE2.GetViscousProjFlux.
  rewrite GetViscousProjFlux_truncated, Mean_GradPrimVar_Corrected_same.
  change (CAvgGradCorrected_TNE2.Mean_PrimVar nDim nSpecies nPrimVar V V)
    with (CAvgGrad_TNE2.Mean_PrimVar nDim nSpecies nPrimVar V V).
  rewrite Mean_PrimVar_same.
  unfold CAvgGradCorrected_TNE2.Mean_Eve,
    CAvgGradCorrected_TNE2.Mean_Diffusion_Coeff,
    CAvgGradCorrected_TNE2.Mean_Laminar_Viscosity,
    CAvgGradCorrected_TNE2.Mean_Thermal_Conductivity,
    CAvgGradCorrected_TNE2.Mean_Thermal_Conductivity_ve.
  rewrite !vec_init_mean.
  replace (0.5 * (Laminar_Viscosity + Laminar_Viscosity))
    with Laminar_Viscosity by lra.
  replace (0.5 * (Thermal_Conductivity + Thermal_Conductivity))
    with Thermal_Conductivity by lra.
  replace (0.5 * (Thermal_Conductivity_ve + Thermal_Conductivity_ve))
    with Thermal_Conductivity_ve by lra.
  reflexivity.
Qed.
End ViscousConsistency.

(** ** The eigenstructure of the sample gas *)

Lemma side_unit (n : vec) :
  CNumerics.UnitLength 1 n ->
  (n 0%nat = 1 /\ Sample.side n = 1) \/ (n 0%nat = -1 /\ Sample.side n = -1).
Proof.
  unfold CNumerics.UnitLength, sum_upto, Sample.side. simpl. intros H.
  assert (Hn : n 0%nat = 1 \/ n 0%nat = -1) by nra.
  destruct (Rlt_dec 0 (n 0%nat)); destruct Hn; (left; split; lra) ||
    (right; split; lra).
Qed.

Lemma Sample_EigenKernel (l m : vec) :
  CNumerics.EigenKernel 1 1 4 Sample.ProjJac_line Sample.PMatrix_line
    Sample.PMatrix_line_inv l m.
Proof.
  intros U V dPdU n Hn i j Hi Hj. cbv zeta.
  unfold Proj_ModJac_Tensor. 
  assert (HL : forall k, CNumerics.ConvectiveEigenvalues 1 1 V n k =
                 match k with
                 | 0%nat => V 3%nat * n 0%nat
                 | 1%nat => V 3%nat * n 0%nat + V 7%nat
                 | 2%nat => V 3%nat * n 0%nat - V 7%nat
                 | 3%nat => V 3%nat * n 0%nat
                 | _ => 0
                 end).
  { intros k. rewrite ConvectiveEigenvalues_at.
    unfold sum_upto, CNumerics.VEL_INDEX, CNumerics.A_INDEX. simpl.
    do 4 (destruct k as [|k]; simpl; [lra|]). reflexivity. }
  unfold sum_upto. simpl. rewrite !HL.
  unfold Sample.ProjJac_line, Sample.PMatrix_line, Sample.PMatrix_line_inv,
    mat_of_rows, vec_of_list, kron, CNumerics.VEL_INDEX, CNumerics.A_INDEX.
  destruct (side_unit n Hn) as [[-> ->]|[-> ->]];
    do 4 (destruct i as [|i]; [do 4 (destruct j as [|j]; [simpl; repeat split; lra|]); lia|]);
    lia.
Qed.

Lemma Sample_OddInNormal : CNumerics.OddInNormal 4 Sample.ProjJac_line.
Proof.
  intros U V dPdU n n' Hn i j Hi Hj. unfold Sample.ProjJac_line.
  cbv zeta. rewrite Hn. ring.
Qed.

(** ** The corrected viscous scheme on a stretched gas *)

Section StretchedGas.
Local Abbreviation G :=
  (CAvgGradCorrected_TNE2.Mean_GradPrimVar_Corrected 2 1 11 11
     Sample.V_rest Sample.V_rest Sample.Grad_stretch Sample.Grad_stretch
     Sample.Coord_origin Sample.Coord_x).
Local Abbreviation G0 :=
  (CAvgGrad_TNE2.Node_GradPrimVar 2 1 11 11 Sample.V_rest
     Sample.Grad_stretch).

Lemma Sample_dist_ij_2 :
  CAvgGradCorrected_TNE2.dist_ij_2 2 Sample.Coord_origin Sample.Coord_x = 1.
Proof.
  unfold CAvgGradCorrected_TNE2.dist_ij_2, CAvgGradCorrected_TNE2.Edge_Vector,
    sum_upto, vec_init, Sample.Coord_origin, Sample.Coord_x, vec_of_list.
  simpl. lra.
Qed.

Lemma Sample_GradCorrection :
  CAvgGradCorrected_TNE2.GradCorrection 2 1 11 11 Sample.V_rest Sample.V_rest
    Sample.Grad_stretch Sample.Grad_stretch Sample.Coord_origin Sample.Coord_x
    3%nat 0%nat = 1.
Proof.
  unfold CAvgGradCorrected_TNE2.GradCorrection. rewrite Sample_dist_ij_2.
  unfold CAvgGradCorrected_TNE2.Proj_Mean_GradPrimVar_Edge,
    CAvgGradCorrected_TNE2.Mean_GradPrimVar,
    CAvgGradCorrected_TNE2.PrimVar_j, CAvgGradCorrected_TNE2.PrimVar_i,
    CAvgGradCorrected_TNE2.Edge_Vector, Sample.Grad_stretch,
    Sample.Coord_origin, Sample.Coord_x, Sample.V_rest, vec_of_list,
    sum_upto, vec_init, vec_init2. simpl. lra.
Qed.

Lemma Sample_G_velocity :
  G 3%nat 0%nat = 0 /\ G 3%nat 1%nat = 0 /\
  G 4%nat 0%nat = 0 /\ G 4%nat 1%nat = 0.
Proof.
  unfold CAvgGradCorrected_TNE2.Mean_GradPrimVar_Corrected,
    CAvgGradCorrected_TNE2.GradCorrection. rewrite Sample_dist_ij_2.
  unfold CAvgGradCorrected_TNE2.Proj_Mean_GradPrimVar_Edge,
    CAvgGradCorrected_TNE2.Mean_GradPrimVar,
    CAvgGradCorrected_TNE2.PrimVar_j, CAvgGradCorrected_TNE2.PrimVar_i,
    CAvgGradCorrected_TNE2.Edge_Vector, Sample.Grad_stretch,
    Sample.Coord_origin, Sample.Coord_x, Sample.V_rest, vec_of_list,
    sum_upto, vec_init, vec_init2. simpl. repeat split; lra.
Qed.

Lemma Sample_G0_velocity :
  G0 3%nat 0%nat = 1 /\ G0 3%nat 1%nat = 0 /\
  G0 4%nat 0%nat = 0 /\ G0 4%nat 1%nat = 0.
Proof.
  unfold CAvgGrad_TNE2.Node_GradPrimVar, Sample.Grad_stretch, vec_init2.
  simpl. repeat split; lra.
Qed.

(** Row [nSpecies] of the viscous flux, the first momentum row, reads the
    gradient of the velocity alone. *)
Lemma viscous_momentum_row (P : vec) (Gr : mat) (e D : vec) (mu ktr kve : R) :
  exists flux,
    CAvgGrad_TNE2.GetViscousProjFlux 2 1 4 false Sample.CalcHs_zero (2 / 3)
      P Gr e Sample.Normal_x D mu ktr kve = Returns flux /\
    flux 1%nat =
      mu * (Gr 3%nat 0%nat + Gr 3%nat 0%nat)
      - 2 / 3 * mu * (Gr 3%nat 0%nat + Gr 4%nat 1%nat).
Proof.
  eexists. split; [reflexivity|].
  unfold vec_init, sum_upto, upd2, Sample.Normal_x, vec_of_list,
    CNumerics.VEL_INDEX. simpl. 
  lra.
Qed.

(** Between two equal states with a gradient along the edge the corrected
    scheme returns no viscous stress, where the viscous flux of the state
    has the normal stress 4/3. *)
Lemma Sample_corrected_residual :
  exists res flux : vec,
    CAvgGradCorrected_TNE2.ComputeResidual 2 1 4 11 11 false
      Sample.CalcHs_zero (2 / 3) Sample.V_rest Sample.V_rest
      Sample.Grad_stretch Sample.Grad_stretch
      Sample.vec_zero Sample.vec_zero Sample.vec_zero Sample.vec_zero
      1 1 0 0 0 0 Sample.Normal_x Sample.Coord_origin Sample.Coord_x
    = Returns res /\
    CAvgGrad_TNE2.GetViscousProjFlux 2 1 4 false Sample.CalcHs_zero (2 / 3)
      (CAvgGrad_TNE2.PrimVar_i 2 1 11 Sample.V_rest) G0
      (vec_init 1 Sample.vec_zero) Sample.Normal_x
      (vec_init 1 Sample.vec_zero) 1 0 0
    = Returns flux /\
    res 1%nat = 0 /\ flux 1%nat = 4 / 3.
Proof.
  unfold CAvgGradCorrected_TNE2.ComputeResidual,
    CAvgGradCorrected_TNE2.GetViscousProjFlux.
  destruct (viscous_momentum_row
              (CAvgGradCorrected_TNE2.Mean_PrimVar 2 1 11 Sample.V_rest
                 Sample.V_rest) G
              (CAvgGradCorrected_TNE2.Mean_Eve 1 Sample.vec_zero
                 Sample.vec_zero)
              (CAvgGradCorrected_TNE2.Mean_Diffusion_Coeff 1 Sample.vec_zero
                 Sample.vec_zero)
              (CAvgGradCorrected_TNE2.Mean_Laminar_Viscosity 1 1)
              (CAvgGradCorrected_TNE2.Mean_Thermal_Conductivity 0 0)
              (CAvgGradCorrected_TNE2.Mean_Thermal_Conductivity_ve 0 0))
    as [res [Hres Hrow]].
  destruct (viscous_momentum_row
              (CAvgGrad_TNE2.PrimVar_i 2 1 11 Sample.V_rest) G0
              (vec_init 1 Sample.vec_zero) (vec_init 1 Sample.vec_zero)
              1 0 0) as [flux [Hflux Hrow0]].
  exists (vec_init 4 (fun iVar => res iVar)), flux.
  rewrite Hres, Hflux. simpl. repeat split.
  - unfold vec_init. simpl. rewrite Hrow.
    destruct Sample_G_velocity as [-> [_ [_ ->]]].
    unfold CAvgGradCorrected_TNE2.Mean_Laminar_Viscosity. lra.
  - rewrite Hrow0. destruct Sample_G0_velocity as [-> [_ [_ ->]]]. lra.
Qed.
End StretchedGas.


(** ** AUSMPW+: the momentum rows *)

(** With the velocities and the pressures set to zero at lines 1505-1510,
    no momentum leaves the face, whatever the two states are. *)
Lemma AUSMPWplus_momentum_rows_zero (nDim nSpecies nVar : nat) (Ms : vec)
    (UNIVERSAL_GAS_CONSTANT : R) (U_i U_j V_i V_j Normal : vec)
    (k : nat) :
  (nSpecies <= k < nSpecies + nDim)%nat ->
  CUpwAUSMPWplus_TNE2.ComputeResidual nDim nSpecies nVar Ms
    UNIVERSAL_GAS_CONSTANT U_i U_j V_i V_j Normal k = 0.
Proof.
  intros Hk. unfold CUpwAUSMPWplus_TNE2.ComputeResidual. cbv zeta.
  rewrite (residual_at nDim nSpecies nVar).
  destruct (Nat.leb_spec nSpecies k); [|lia].
  destruct (Nat.ltb_spec k (nSpecies + nDim)); [|lia]. simpl.
  assert (HmL : CUpwAUSMPWplus_TNE2.mL nDim nSpecies Ms
                  UNIVERSAL_GAS_CONSTANT V_i V_j Normal = 0).
  { unfold CUpwAUSMPWplus_TNE2.mL.
    replace (CUpwAUSMPWplus_TNE2.ProjVel_i nDim Normal) with 0;
      [unfold Rdiv; ring|].
    symmetry. apply sum_upto_zero. intros d Hd.
    unfold CUpwAUSMPWplus_TNE2.u_i. rewrite vec_init_lt by exact Hd. ring. }
  assert (HmR : CUpwAUSMPWplus_TNE2.mR nDim nSpecies Ms
                  UNIVERSAL_GAS_CONSTANT V_i V_j Normal = 0).
  { unfold CUpwAUSMPWplus_TNE2.mR.
    replace (CUpwAUSMPWplus_TNE2.ProjVel_j nDim Normal) with 0;
      [unfold Rdiv; ring|].
    symmetry. apply sum_upto_zero. intros d Hd.
    unfold CUpwAUSMPWplus_TNE2.u_j. rewrite vec_init_lt by exact Hd. ring. }
  assert (HpL : CUpwAUSMPWplus_TNE2.pLP nDim nSpecies Ms
                  UNIVERSAL_GAS_CONSTANT V_i V_j Normal = 0).
  { unfold CUpwAUSMPWplus_TNE2.pLP, CUpwAUSMPWplus_TNE2.P_i. rewrite HmL.
    destruct (Rle_dec (Rabs 0) 1); unfold Rdiv; ring. }
  assert (HpR : CUpwAUSMPWplus_TNE2.pRM nDim nSpecies Ms
                  UNIVERSAL_GAS_CONSTANT V_i V_j Normal = 0).
  { unfold CUpwAUSMPWplus_TNE2.pRM, CUpwAUSMPWplus_TNE2.P_j. rewrite HmR.
    destruct (Rle_dec (Rabs 0) 1); unfold Rdiv; ring. }
  rewrite HpL, HpR. unfold vec_init.
  destruct (Nat.ltb k nVar); [|ring].
  unfold CUpwAUSMPWplus_TNE2.FcL, CUpwAUSMPWplus_TNE2.FcR.
  rewrite !ConservedLayout_at.
  destruct (Nat.ltb_spec k nSpecies); [lia|].
  destruct (Nat.ltb_spec k (nSpecies + nDim)); [|lia].
  unfold CUpwAUSMPWplus_TNE2.u_i, CUpwAUSMPWplus_TNE2.u_j.
  rewrite !vec_init_lt by lia. ring.
Qed.

(** ** Consistency of the schemes between two equal states *)

(** The analytic flux is linear in the normal. *)
Lemma GetInviscidProjFlux_Area (nDim nSpecies : nat) (U V Normal : vec)
    (k : nat) :
  CNumerics.FaceArea nDim Normal <> 0 ->
  CNumerics.GetInviscidProjFlux nDim nSpecies U V
    (CNumerics.FaceUnitNormal nDim Normal) k
  * CNumerics.FaceArea nDim Normal =
  CNumerics.GetInviscidProjFlux nDim nSpecies U V Normal k.
Proof.
  intros HA. rewrite !GetInviscidProjFlux_at. cbv zeta.
  rewrite <- (proj_Area nDim Normal HA
                (fun iDim => V (CNumerics.VEL_INDEX nSpecies + iDim)%nat)).
  destruct (Nat.ltb_spec k nSpecies) as [H1|H1]; [ring|].
  destruct (Nat.ltb_spec k (nSpecies + nDim)) as [H2|H2].
  { rewrite <- (FaceUnitNormal_Area nDim Normal HA (k - nSpecies)) by lia.
    ring. }
  destruct (Nat.eqb k (nSpecies + nDim)); [ring|].
  destruct (Nat.eqb k (nSpecies + nDim + 1)); ring.
Qed.

(** It has as many rows as there are conserved variables. *)
Lemma GetInviscidProjFlux_rows (nDim nSpecies nVar : nat) (U V Normal : vec)
    (k : nat) :
  nVar = (nSpecies + nDim + 2)%nat ->
  vec_init nVar (CNumerics.GetInviscidProjFlux nDim nSpecies U V Normal) k =
  CNumerics.GetInviscidProjFlux nDim nSpecies U V Normal k.
Proof.
  intros ->. unfold vec_init.
  destruct (Nat.ltb_spec k (nSpecies + nDim + 2)) as [Hk|Hk]; [reflexivity|].
  rewrite GetInviscidProjFlux_at. cbv zeta.
  destruct (Nat.ltb_spec k nSpecies); [lia|].
  destruct (Nat.ltb_spec k (nSpecies + nDim)); [lia|].
  destruct (Nat.eqb_spec k (nSpecies + nDim)); [lia|].
  destruct (Nat.eqb_spec k (nSpecies + nDim + 1)); [lia|reflexivity].
Qed.


(** ** The theorems at the sample data *)

Lemma Roe_stale_index_equals_intended_witness :
  CUpwRoe_TNE2.CorrectedEigenvalues 2 2 6 1 3 0 2 3 3
    (fun _ => 0) (fun _ => 0) =
  CUpwRoe_TNE2.CorrectedEigenvalues_intended 2 2 6 1 3 0 2 3 3
    (fun _ => 0) (fun _ => 0).
Proof.
  pose proof (Roe_stale_index_equals_intended 2 2 6 1 3 0 2 3 3
                (fun _ => 0) (fun _ => 0)) as H.
  destruct H as [_ [_ H]]; [lia|lia|exact H].
Defined.

Lemma reaction_species_mass_balance_witness :
  sum_upto 2
    (CSource_TNE2.ReactionResidual 2 2 Sample.Ms_N2_N
       Sample.RxnMap_dissociation Sample.vec_zero Sample.vec_zero
       Sample.vec_zero Sample.vec_zero (fun _ => 1) (fun _ => 0)
       (fun _ => 0) Sample.U_rest Sample.V_rest Sample.vec_zero 1 0
       Sample.vec_zero Sample.vec_zero) =
  sum_upto 2 Sample.vec_zero.
Proof.
  apply (reaction_species_mass_balance 2 2 Sample.Ms_N2_N
           Sample.RxnMap_dissociation Sample.vec_zero Sample.vec_zero
           Sample.vec_zero Sample.vec_zero (fun _ => 1) (fun _ => 0)
           (fun _ => 0) Sample.U_rest Sample.V_rest Sample.vec_zero 1 0
           Sample.vec_zero Sample.vec_zero).
  - intros side ii Hs Hi. unfold Sample.RxnMap_dissociation.
    destruct side as [|[|side]]; destruct ii as [|[|ii]]; lia.
  - unfold sum_upto, CSource_TNE2.SlotMolarMass, Sample.RxnMap_dissociation,
      Sample.Ms_N2_N, vec_of_list. simpl. lra.
Defined.

Lemma Sample_mole_fraction :
  CSource_TNE2.X 1 Sample.Ms_N2 Sample.V_rest 0%nat = 1.
Proof.
  unfold CSource_TNE2.X, CSource_TNE2.conc, vec_init, sum_upto,
    Sample.Ms_N2, Sample.V_rest, vec_of_list, CNumerics.RHOS_INDEX.
  simpl. lra.
Qed.

Lemma vib_relaxation_times_positive_witness :
  0 < CSource_TNE2.tau_sr 2 1 Sample.Ms_N2 (fun _ => 3395) Sample.V_rest
        0%nat 0%nat /\
  0 < CSource_TNE2.tauMW 2 1 Sample.Ms_N2 (fun _ => 3395) Sample.V_rest
        0%nat /\
  0 < CSource_TNE2.tauP 1 Sample.Ms_N2 Sample.AVOGAD_CONSTANT 8314 3
        Sample.V_rest 0%nat /\
  0 < CSource_TNE2.taus 2 1 Sample.Ms_N2 (fun _ => 3395)
        Sample.AVOGAD_CONSTANT 8314 3 Sample.V_rest 0%nat.
Proof.
  apply (vib_relaxation_times_positive 2 1 Sample.Ms_N2 (fun _ => 3395)
           Sample.AVOGAD_CONSTANT 8314 3 Sample.V_rest).
  - unfold Sample.AVOGAD_CONSTANT. lra.
  - lra.
  - lra.
  - intros s Hs. unfold Sample.Ms_N2. lra.
  - intros s Hs. assert (s = 0)%nat as -> by lia.
    unfold Sample.V_rest, vec_of_list, CNumerics.RHOS_INDEX. simpl. lra.
  - unfold CSource_TNE2.T, CNumerics.T_INDEX, Sample.V_rest, vec_of_list.
    simpl. lra.
  - unfold CSource_TNE2.P, CNumerics.P_INDEX, Sample.V_rest, vec_of_list.
    simpl. lra.
  - intros s Hs. assert (s = 0)%nat as -> by lia.
    rewrite Sample_mole_fraction. lra.
  - exists 0%nat. split; [lia|]. rewrite Sample_mole_fraction. lra.
  - lia.
  - lia.
Defined.

Lemma viscous_flux_exits_iff_ionized_witness :
  CAvgGrad_TNE2.GetViscousProjFlux 2 1 4 true Sample.CalcHs_zero (2 / 3)
    Sample.V_rest Sample.Grad_stretch Sample.vec_zero Sample.Normal_x
    Sample.vec_zero 1 0 0 =
  Exits "GetViscProjFlux -- NEED TO IMPLEMENT IONIZED FUNCTIONALITY!!!" 1.
Proof.
  pose proof (viscous_flux_exits_iff_ionized 2 1 4 Sample.CalcHs_zero (2 / 3)
                Sample.V_rest Sample.Grad_stretch Sample.vec_zero
                Sample.Normal_x Sample.vec_zero 1 0 0) as H.
  destruct H as [[H _] _]; [lia|exact H].
Defined.

Lemma FaceArea_Normal_line : CNumerics.FaceArea 1 Sample.Normal_line = 1.
Proof.
  unfold CNumerics.FaceArea, sum_upto, Sample.Normal_line, vec_of_list. simpl.
  replace (0 + 1 * 1) with 1 by ring. apply sqrt_1.
Qed.


Lemma FaceUnitNormal_Normal_line :
  CNumerics.FaceUnitNormal 1 Sample.Normal_line 0%nat = 1.
Proof.
  unfold CNumerics.FaceUnitNormal, vec_init. simpl.
  rewrite FaceArea_Normal_line.
  unfold Sample.Normal_line, vec_of_list. simpl. lra.
Qed.

(** On the sample gas the Jacobian applied to the state is the flux. *)
Lemma Sample_Jacobian_flux (dPdU : vec) (iVar : nat) :
  (iVar < 4)%nat ->
  sum_upto 4 (fun jVar =>
    Sample.ProjJac_line
      (CUpwMSW_TNE2.Ust_i 1 1 4 Sample.U_line Sample.U_line
         Sample.V_line Sample.V_line)
      (CUpwMSW_TNE2.Vst_i 1 1 10 Sample.V_line Sample.V_line) dPdU
      (CNumerics.FaceUnitNormal 1 Sample.Normal_line) iVar jVar
    * Sample.U_line jVar) =
  CNumerics.GetInviscidProjFlux 1 1 Sample.U_line Sample.V_line
    (CNumerics.FaceUnitNormal 1 Sample.Normal_line) iVar.
Proof.
  intros Hi. rewrite GetInviscidProjFlux_at. cbv zeta.
  unfold Sample.ProjJac_line. cbv zeta.
  destruct (MSW_star_same 1 1 4 10 Sample.U_line Sample.V_line) as [_ HV].
  rewrite !HV by (unfold CNumerics.VEL_INDEX, CNumerics.A_INDEX; simpl; lia).
  unfold sum_upto. simpl. rewrite FaceUnitNormal_Normal_line.
  unfold mat_of_rows, Sample.U_line, Sample.V_line, vec_of_list,
    CNumerics.VEL_INDEX, CNumerics.A_INDEX, CNumerics.RHO_INDEX,
    CNumerics.P_INDEX, CNumerics.H_INDEX, CNumerics.RHOS_INDEX.
  do 4 (destruct iVar as [|iVar];
        [simpl; rewrite ?FaceUnitNormal_Normal_line; lra|]).
  lia.
Qed.


(** ** Viscous flux: the entries of the flux tensor *)

Ltac nat_cases :=
  repeat match goal with
  | |- context [Nat.eqb ?a ?b] => destruct (Nat.eqb_spec a b)
  | |- context [Nat.ltb ?a ?b] => destruct (Nat.ltb_spec a b)
  | |- context [Nat.leb ?a ?b] => destruct (Nat.leb_spec a b)
  end.

Lemma upd2_same (a : mat) i j x : upd2 a i j x i j = x.
Proof. unfold upd2. now rewrite !Nat.eqb_refl. Qed.

Lemma upd2_other (a : mat) i j x r c :
  r <> i \/ c <> j -> upd2 a i j x r c = a r c.
Proof.
  unfold upd2. intros [H|H]; apply Nat.eqb_neq in H; rewrite H;
    [reflexivity|now rewrite andb_false_r].
Qed.

(** A loop that stores [g s] in row [s] of column [d]. *)
Lemma for_range_column_store (n d : nat) (g : nat -> R) (F : mat)
    (r c : nat) :
  for_range n (fun s F => upd2 F s d (g s)) F r c =
  if (Nat.ltb r n && Nat.eqb c d)%bool then g r else F r c.
Proof.
  unfold upd2. induction n as [|n IH]; simpl; [reflexivity|].
  rewrite IH.
  nat_cases; subst; simpl; try reflexivity; lia.
Qed.

(** The loop over [jDim] of lines 2245-2248: it stores [t j] in row
    [off + j] and adds [t j * u j] to row [e], which lies past the rows
    it stores. *)
Lemma for_range_shear (n off e d : nat) (t u : nat -> R) (F : mat)
    (r c : nat) :
  (off + n <= e)%nat ->
  for_range n
    (fun j F =>
       upd2 (upd2 F (off + j) d (t j)) e d
         (upd2 F (off + j) d (t j) e d + t j * u j)) F r c =
  if Nat.eqb c d then
    if Nat.eqb r e then F e d + sum_upto n (fun j => t j * u j)
    else if (Nat.leb off r && Nat.ltb r (off + n))%bool then t (r - off)%nat
    else F r c
  else F r c.
Proof.
  intros He. unfold upd2. revert r c. induction n as [|n IH]; intros r c.
  - simpl. unfold sum_upto. simpl.
    nat_cases; subst; simpl; try reflexivity; try lia; ring.
  - rewrite sum_upto_S. simpl. cbv zeta.
    rewrite !IH by lia.
    nat_cases; subst; simpl; try reflexivity; try lia; try ring.
    replace (off + n - off)%nat with n by lia. reflexivity.
Qed.

(** The loop over the species of lines 2251-2254: it adds
    [F[s][d] * h s] to row [e1] and [F[s][d] * v s] to row [e2], which
    lie past the species rows. *)
Lemma for_range_diffusion (n e1 e2 d : nat) (h v : nat -> R) (F : mat)
    (r c : nat) :
  (n <= e1)%nat -> (e1 < e2)%nat ->
  for_range n
    (fun s F =>
       upd2 (upd2 F e1 d (F e1 d + F s d * h s)) e2 d
         (upd2 F e1 d (F e1 d + F s d * h s) e2 d
          + upd2 F e1 d (F e1 d + F s d * h s) s d * v s)) F r c =
  if Nat.eqb c d then
    if Nat.eqb r e2 then F e2 d + sum_upto n (fun s => F s d * v s)
    else if Nat.eqb r e1 then F e1 d + sum_upto n (fun s => F s d * h s)
    else F r c
  else F r c.
Proof.
  intros H1 H2. unfold upd2. revert r c. induction n as [|n IH]; intros r c.
  - simpl. unfold sum_upto. simpl.
    nat_cases; subst; simpl; try reflexivity; try lia; ring.
  - rewrite !sum_upto_S. simpl. cbv zeta.
    rewrite !IH by lia.
    nat_cases; subst; simpl; try reflexivity; try lia; ring.
Qed.

(** ** Flux-vector splitting: the split eigenvalues and the weight *)

Lemma pos_part_nonneg (x : R) : 0 <= 0.5 * (x + Rabs x).
Proof.
  pose proof (Rle_abs (- x)) as H. rewrite Rabs_Ropp in H. lra.
Qed.

Lemma neg_part_nonpos (x : R) : 0.5 * (x - Rabs x) <= 0.
Proof. pose proof (Rle_abs x). lra. Qed.

(** X1. Every eigenvalue that the flux-vector splitting writes for the side
    i, in the entries 0 to [nSpecies+nDim+1] of [Lambda_i], is nonnegative
    and every one it writes for the side j is nonpositive, whatever the
    states and the normal. *)
Theorem MSW_split_eigenvalues_signed
    (nDim nSpecies nPrimVar : nat) (V_i V_j Normal : vec) (k : nat) :
  (0 < nDim)%nat -> (k <= nSpecies + nDim + 1)%nat ->
  0 <= CUpwMSW_TNE2.Lambda_i nDim nSpecies nPrimVar V_i V_j Normal k /\
  CUpwMSW_TNE2.Lambda_j nDim nSpecies nPrimVar V_i V_j Normal k <= 0.
Proof.
  intros _ _. rewrite MSW_Lambda_i_at, MSW_Lambda_j_at. split.
  - repeat match goal with
    | |- context [if ?b then _ else _] => destruct b
    end; try apply pos_part_nonneg; lra.
  - repeat match goal with
    | |- context [if ?b then _ else _] => destruct b
    end; try apply neg_part_nonpos; lra.
Qed.

(** The weight as a function of the relative pressure jump. *)
Lemma MSW_weight_of_jump (d : R) :
  0 <= d ->
  0 < 0.5 * (1 / ((5 * d) ^ 2 + 1)) <= 0.5 /\
  (0.5 * (1 / ((5 * d) ^ 2 + 1)) = 0.5 <-> d = 0).
Proof.
  intros Hd.
  assert (Hq : 1 <= (5 * d) ^ 2 + 1) by (simpl; nra).
  assert (Hinv : 0 < / ((5 * d) ^ 2 + 1) <= 1).
  { split; [apply Rinv_0_lt_compat; lra|].
    replace 1 with (/ 1) at 2 by apply Rinv_1.
    apply Rinv_le_contravar; lra. }
  unfold Rdiv. rewrite Rmult_1_l. split; [lra|]. split.
  - intros E.
    assert (E1 : / ((5 * d) ^ 2 + 1) = 1) by lra.
    assert (E2 : (5 * d) ^ 2 + 1 = 1).
    { rewrite <- (Rinv_inv ((5 * d) ^ 2 + 1)), E1. apply Rinv_1. }
    simpl in E2. nra.
  - intros ->. simpl. rewrite !Rmult_0_r, Rmult_0_l, Rplus_0_l, Rinv_1.
    ring.
Qed.

(** The relative pressure jump between two nodes of positive pressure. *)
Lemma MSW_dp_nonneg (nDim nSpecies : nat) (V_i V_j : vec) :
  0 < V_i (CNumerics.P_INDEX nDim nSpecies) ->
  0 < V_j (CNumerics.P_INDEX nDim nSpecies) ->
  0 <= CUpwMSW_TNE2.dp nDim nSpecies V_i V_j /\
  (CUpwMSW_TNE2.dp nDim nSpecies V_i V_j = 0 <->
   V_i (CNumerics.P_INDEX nDim nSpecies)
   = V_j (CNumerics.P_INDEX nDim nSpecies)).
Proof.
  intros Hi Hj.
  unfold CUpwMSW_TNE2.dp, CUpwMSW_TNE2.P_i, CUpwMSW_TNE2.P_j.
  set (Pi := V_i (CNumerics.P_INDEX nDim nSpecies)) in *.
  set (Pj := V_j (CNumerics.P_INDEX nDim nSpecies)) in *.
  assert (Hm : 0 < Rmin Pj Pi) by (apply Rmin_glb_lt; assumption).
  split; [|split].
  - apply Rmult_le_pos; [apply Rabs_pos|].
    left. apply Rinv_0_lt_compat. exact Hm.
  - intros E3.
    assert (E4 : Rabs (Pj - Pi) = 0).
    { apply (Rmult_eq_reg_r (/ Rmin Pj Pi)); [|apply Rinv_neq_0_compat; lra].
      unfold Rdiv in E3. rewrite E3. ring. }
    destruct (Req_dec (Pj - Pi) 0) as [E5|E5]; [lra|].
    apply Rabs_no_R0 in E5. contradiction.
  - intros E. rewrite E, Rminus_diag, Rabs_R0. unfold Rdiv. ring.
Qed.

(** X2. With positive pressures at both nodes the weight [w] of the other
    node in the weighted states lies above 0 and at most at one half, and
    is one half exactly when the two pressures are equal. *)
Theorem MSW_weight_bounds (nDim nSpecies : nat) (V_i V_j : vec) :
  0 < V_i (CNumerics.P_INDEX nDim nSpecies) ->
  0 < V_j (CNumerics.P_INDEX nDim nSpecies) ->
  let w := CUpwMSW_TNE2.w nDim nSpecies V_i V_j in
  0 < w <= 0.5 /\
  (w = 0.5 <-> V_i (CNumerics.P_INDEX nDim nSpecies)
               = V_j (CNumerics.P_INDEX nDim nSpecies)).
Proof.
  intros Hi Hj w. subst w.
  destruct (MSW_dp_nonneg nDim nSpecies V_i V_j Hi Hj) as [Hd Hz].
  destruct (MSW_weight_of_jump _ Hd) as [Hr He].
  unfold CUpwMSW_TNE2.w, CUpwMSW_TNE2.alpha.
  split; [exact Hr|]. rewrite He. exact Hz.
Qed.

Section MSWSupersonic.
Variables (nDim nSpecies nVar nPrimVar : nat).
Variables GetPMatrix GetPMatrix_inv :
  vec -> vec -> vec -> vec -> vec -> vec -> mat.
Variables (l m U_i U_j V_i V_j dPdU_i dPdU_j Normal : vec).
Hypothesis HPrim : (nSpecies + nDim + 6 <= nPrimVar)%nat.
Hypothesis HPi : 0 < V_i (CNumerics.P_INDEX nDim nSpecies).
Hypothesis HPj : 0 < V_j (CNumerics.P_INDEX nDim nSpecies).

Local Abbreviation w := (CUpwMSW_TNE2.w nDim nSpecies V_i V_j).
Local Abbreviation a_i := (V_i (CNumerics.A_INDEX nDim nSpecies)).
Local Abbreviation a_j := (V_j (CNumerics.A_INDEX nDim nSpecies)).
Local Abbreviation pv_i := (CUpwMSW_TNE2.ProjVel_i nDim nSpecies V_i Normal).
Local Abbreviation pv_j := (CUpwMSW_TNE2.ProjVel_j nDim nSpecies V_j Normal).

Lemma MSW_w_range : 0 < w <= 0.5.
Proof.
  destruct (MSW_dp_nonneg nDim nSpecies V_i V_j HPi HPj) as [Hd _].
  apply (MSW_weight_of_jump _ Hd).
Qed.

Lemma MSW_star_sound_speed :
  CUpwMSW_TNE2.Vst_i nDim nSpecies nPrimVar V_i V_j
    (CNumerics.A_INDEX nDim nSpecies) = (1 - w) * a_i + w * a_j /\
  CUpwMSW_TNE2.Vst_j nDim nSpecies nPrimVar V_i V_j
    (CNumerics.A_INDEX nDim nSpecies) = (1 - w) * a_j + w * a_i.
Proof.
  unfold CUpwMSW_TNE2.Vst_i, CUpwMSW_TNE2.Vst_j, CUpwMSW_TNE2.onemw.
  rewrite !vec_init_lt by (unfold CNumerics.A_INDEX; lia).
  split; reflexivity.
Qed.

(** Where the flow leaves i for j faster than sound at both nodes, the
    negative eigenvalues all vanish. *)
Lemma MSW_Lambda_j_supersonic (k : nat) :
  0 <= a_i -> 0 <= a_j -> a_i <= pv_i -> a_j <= pv_j ->
  CUpwMSW_TNE2.Lambda_j nDim nSpecies nPrimVar V_i V_j Normal k = 0.
Proof.
  intros Hai Haj Hi Hj. pose proof MSW_w_range as Hw.
  rewrite MSW_Lambda_j_at.
  destruct MSW_star_sound_speed as [_ ->].
  unfold CUpwMSW_TNE2.ProjVelst_j, CUpwMSW_TNE2.onemw.
  set (x := pv_i) in *. set (y := pv_j) in *.
  set (ww := w) in *.
  repeat match goal with
  | |- context [if ?b then _ else _] => destruct b
  end; try reflexivity;
  rewrite Rabs_right by nra; lra.
Qed.

Lemma MSW_Lambda_i_supersonic (k : nat) :
  0 <= a_i -> 0 <= a_j -> pv_i <= - a_i -> pv_j <= - a_j ->
  CUpwMSW_TNE2.Lambda_i nDim nSpecies nPrimVar V_i V_j Normal k = 0.
Proof.
  intros Hai Haj Hi Hj. pose proof MSW_w_range as Hw.
  rewrite MSW_Lambda_i_at.
  destruct MSW_star_sound_speed as [-> _].
  unfold CUpwMSW_TNE2.ProjVelst_i, CUpwMSW_TNE2.onemw.
  set (x := pv_i) in *. set (y := pv_j) in *.
  set (ww := w) in *.
  repeat match goal with
  | |- context [if ?b then _ else _] => destruct b
  end; try reflexivity;
  rewrite Rabs_left1 by nra; lra.
Qed.
End MSWSupersonic.

(** X3. Where the flow crosses the face from i to j at least as fast as
    sound at both nodes (positive pressures, nonnegative sound speeds),
    the negative part of the splitting is zero and the residual is its
    positive part [Fc_i] alone. *)
Theorem MSW_supersonic_forward
    (nDim nSpecies nVar nPrimVar : nat)
    (GetPMatrix GetPMatrix_inv : vec -> vec -> vec -> vec -> vec -> vec -> mat)
    (l m U_i U_j V_i V_j dPdU_i dPdU_j Normal : vec) (k : nat) :
  (0 < nDim)%nat -> nVar = (nSpecies + nDim + 2)%nat ->
  (nSpecies + nDim + 6 <= nPrimVar)%nat ->
  0 < V_i (CNumerics.P_INDEX nDim nSpecies) ->
  0 < V_j (CNumerics.P_INDEX nDim nSpecies) ->
  0 <= V_i (CNumerics.A_INDEX nDim nSpecies) ->
  0 <= V_j (CNumerics.A_INDEX nDim nSpecies) ->
  V_i (CNumerics.A_INDEX nDim nSpecies)
    <= CUpwMSW_TNE2.ProjVel_i nDim nSpecies V_i Normal ->
  V_j (CNumerics.A_INDEX nDim nSpecies)
    <= CUpwMSW_TNE2.ProjVel_j nDim nSpecies V_j Normal ->
  CUpwMSW_TNE2.Fc_j nDim nSpecies nVar nPrimVar GetPMatrix GetPMatrix_inv
    l m U_i U_j V_i V_j dPdU_j Normal k = 0 /\
  CUpwMSW_TNE2.ComputeResidual nDim nSpecies nVar nPrimVar
    GetPMatrix GetPMatrix_inv l m U_i U_j V_i V_j dPdU_i dPdU_j Normal k =
  CUpwMSW_TNE2.Fc_i nDim nSpecies nVar nPrimVar GetPMatrix GetPMatrix_inv
    l m U_i U_j V_i V_j dPdU_i Normal k.
Proof.
  intros _ _ HPrim HPi HPj Hai Haj Hi Hj.
  assert (E : CUpwMSW_TNE2.Fc_j nDim nSpecies nVar nPrimVar GetPMatrix
                GetPMatrix_inv l m U_i U_j V_i V_j dPdU_j Normal k = 0).
  { unfold CUpwMSW_TNE2.Fc_j, vec_init.
    destruct (Nat.ltb k nVar); [|reflexivity].
    apply sum_upto_zero. intros j _. unfold Proj_ModJac_Tensor.
    rewrite (sum_upto_zero nVar); [ring|]. intros q _.
    rewrite MSW_Lambda_j_supersonic by assumption. ring. }
  split; [exact E|].
  unfold CUpwMSW_TNE2.ComputeResidual, vec_init.
  destruct (Nat.ltb k nVar) eqn:Hk; [rewrite E; ring|].
  unfold CUpwMSW_TNE2.Fc_i, vec_init. rewrite Hk. reflexivity.
Qed.

(** X4. Where the flow crosses the face from j to i at least as fast as
    sound at both nodes (positive pressures, nonnegative sound speeds),
    the positive part of the splitting is zero and the residual is its
    negative part [Fc_j] alone. *)
Theorem MSW_supersonic_backward
    (nDim nSpecies nVar nPrimVar : nat)
    (GetPMatrix GetPMatrix_inv : vec -> vec -> vec -> vec -> vec -> vec -> mat)
    (l m U_i U_j V_i V_j dPdU_i dPdU_j Normal : vec) (k : nat) :
  (0 < nDim)%nat -> nVar = (nSpecies + nDim + 2)%nat ->
  (nSpecies + nDim + 6 <= nPrimVar)%nat ->
  0 < V_i (CNumerics.P_INDEX nDim nSpecies) ->
  0 < V_j (CNumerics.P_INDEX nDim nSpecies) ->
  0 <= V_i (CNumerics.A_INDEX nDim nSpecies) ->
  0 <= V_j (CNumerics.A_INDEX nDim nSpecies) ->
  CUpwMSW_TNE2.ProjVel_i nDim nSpecies V_i Normal
    <= - V_i (CNumerics.A_INDEX nDim nSpecies) ->
  CUpwMSW_TNE2.ProjVel_j nDim nSpecies V_j Normal
    <= - V_j (CNumerics.A_INDEX nDim nSpecies) ->
  CUpwMSW_TNE2.Fc_i nDim nSpecies nVar nPrimVar GetPMatrix GetPMatrix_inv
    l m U_i U_j V_i V_j dPdU_i Normal k = 0 /\
  CUpwMSW_TNE2.ComputeResidual nDim nSpecies nVar nPrimVar
    GetPMatrix GetPMatrix_inv l m U_i U_j V_i V_j dPdU_i dPdU_j Normal k =
  CUpwMSW_TNE2.Fc_j nDim nSpecies nVar nPrimVar GetPMatrix GetPMatrix_inv
    l m U_i U_j V_i V_j dPdU_j Normal k.
Proof.
  intros _ _ HPrim HPi HPj Hai Haj Hi Hj.
  assert (E : CUpwMSW_TNE2.Fc_i nDim nSpecies nVar nPrimVar GetPMatrix
                GetPMatrix_inv l m U_i U_j V_i V_j dPdU_i Normal k = 0).
  { unfold CUpwMSW_TNE2.Fc_i, vec_init.
    destruct (Nat.ltb k nVar); [|reflexivity].
    apply sum_upto_zero. intros j _. unfold Proj_ModJac_Tensor.
    rewrite (sum_upto_zero nVar); [ring|]. intros q _.
    rewrite MSW_Lambda_i_supersonic by assumption. ring. }
  split; [exact E|].
  unfold CUpwMSW_TNE2.ComputeResidual, vec_init.
  destruct (Nat.ltb k nVar) eqn:Hk; [rewrite E; ring|].
  unfold CUpwMSW_TNE2.Fc_j, vec_init. rewrite Hk. reflexivity.
Qed.

(** ** AUSM family: supersonic faces *)

Section AUSMSupersonic.
Variables (nDim nSpecies nVar : nat) (U_i U_j V_i V_j Normal : vec).
Hypothesis HVar : nVar = (nSpecies + nDim + 2)%nat.
Hypothesis HArea : CNumerics.FaceArea nDim Normal <> 0.

Local Abbreviation mL := (CUpwAUSM_TNE2.mL nDim nSpecies V_i Normal).
Local Abbreviation mR := (CUpwAUSM_TNE2.mR nDim nSpecies V_j Normal).

Lemma AUSM_split_forward :
  1 <= mL -> 1 <= mR ->
  CUpwAUSM_TNE2.mLP nDim nSpecies V_i Normal = mL /\
  CUpwAUSM_TNE2.mRM nDim nSpecies V_j Normal = 0 /\
  CUpwAUSM_TNE2.pLP nDim nSpecies V_i Normal
    = V_i (CNumerics.P_INDEX nDim nSpecies) /\
  CUpwAUSM_TNE2.pRM nDim nSpecies V_j Normal = 0.
Proof.
  intros HL HR.
  unfold CUpwAUSM_TNE2.mLP, CUpwAUSM_TNE2.mRM, CUpwAUSM_TNE2.pLP,
    CUpwAUSM_TNE2.pRM, CUpwAUSM_TNE2.P_i, CUpwAUSM_TNE2.P_j.
  rewrite (Rabs_right mL) by lra. rewrite (Rabs_right mR) by lra.
  repeat split.
  - destruct (Rle_dec mL 1); [|lra].
    replace mL with 1 by lra. lra.
  - destruct (Rle_dec mR 1); [|lra].
    replace mR with 1 by lra. lra.
  - destruct (Rle_dec mL 1).
    + replace mL with 1 by lra. lra.
    + unfold Rdiv.
      replace (0.5 * V_i (CNumerics.P_INDEX nDim nSpecies) * (mL + mL) * / mL)
        with (V_i (CNumerics.P_INDEX nDim nSpecies) * (mL * / mL)) by lra.
      rewrite Rinv_r by lra. ring.
  - destruct (Rle_dec mR 1).
    + replace mR with 1 by lra. lra.
    + unfold Rdiv. replace (mR - mR) with 0 by lra. ring.
Qed.

Lemma AUSM_split_backward :
  mL <= -1 -> mR <= -1 ->
  CUpwAUSM_TNE2.mLP nDim nSpecies V_i Normal = 0 /\
  CUpwAUSM_TNE2.mRM nDim nSpecies V_j Normal = mR /\
  CUpwAUSM_TNE2.pLP nDim nSpecies V_i Normal = 0 /\
  CUpwAUSM_TNE2.pRM nDim nSpecies V_j Normal
    = V_j (CNumerics.P_INDEX nDim nSpecies).
Proof.
  intros HL HR.
  unfold CUpwAUSM_TNE2.mLP, CUpwAUSM_TNE2.mRM, CUpwAUSM_TNE2.pLP,
    CUpwAUSM_TNE2.pRM, CUpwAUSM_TNE2.P_i, CUpwAUSM_TNE2.P_j.
  rewrite (Rabs_left1 mL) by lra. rewrite (Rabs_left1 mR) by lra.
  repeat split.
  - destruct (Rle_dec (- mL) 1); [|lra].
    replace mL with (-1) by lra. lra.
  - destruct (Rle_dec (- mR) 1); [|lra].
    replace mR with (-1) by lra. lra.
  - destruct (Rle_dec (- mL) 1).
    + replace mL with (-1) by lra. lra.
    + unfold Rdiv. replace (mL + - mL) with 0 by lra. ring.
  - destruct (Rle_dec (- mR) 1).
    + replace mR with (-1) by lra. lra.
    + unfold Rdiv.
      replace (0.5 * V_j (CNumerics.P_INDEX nDim nSpecies) * (mR - - mR) * / mR)
        with (V_j (CNumerics.P_INDEX nDim nSpecies) * (mR * / mR)) by lra.
      rewrite Rinv_r by lra. ring.
Qed.
End AUSMSupersonic.

(** X5. Where the flow crosses the face from i to j at a Mach number of
    one or more on both sides, the AUSM residual is the analytic flux of
    the state at i: nothing of the state at j enters. *)
Theorem AUSM_supersonic_forward
    (nDim nSpecies nVar : nat) (U_i U_j V_i V_j Normal : vec) (k : nat) :
  nVar = (nSpecies + nDim + 2)%nat ->
  CNumerics.FaceArea nDim Normal <> 0 ->
  V_i (CNumerics.RHO_INDEX nDim nSpecies) <> 0 ->
  V_i (CNumerics.A_INDEX nDim nSpecies) <> 0 ->
  1 <= CUpwAUSM_TNE2.mL nDim nSpecies V_i Normal ->
  1 <= CUpwAUSM_TNE2.mR nDim nSpecies V_j Normal ->
  CUpwAUSM_TNE2.ComputeResidual nDim nSpecies nVar U_i U_j V_i V_j Normal k =
  CNumerics.GetInviscidProjFlux nDim nSpecies U_i V_i Normal k.
Proof.
  intros HVar HArea Hrho Ha HL HR.
  destruct (AUSM_split_forward nDim nSpecies V_i V_j Normal HL HR)
    as [EmL [EmR [EpL EpR]]].
  rewrite <- (AUSM_family_flux nDim nSpecies nVar U_i V_i Normal HVar HArea
                Hrho (V_i (CNumerics.A_INDEX nDim nSpecies))
                (CUpwAUSM_TNE2.pF nDim nSpecies V_i V_j Normal) k Ha).
  - unfold CUpwAUSM_TNE2.ComputeResidual. cbv zeta.
    apply residual_ext; [|reflexivity]. intros iVar.
    unfold CUpwAUSM_TNE2.Phi, CUpwAUSM_TNE2.mF. rewrite EmL, EmR.
    rewrite Rplus_0_r, (Rabs_right _) by lra.
    unfold CUpwAUSM_TNE2.Area.
    change (CNumerics.ConservedLayout nDim nSpecies _ _ _ _ iVar)
      with (CUpwAUSM_TNE2.FcL nDim nSpecies U_i V_i iVar).
    change (sum_upto nDim _ / V_i (CNumerics.A_INDEX nDim nSpecies))
      with (CUpwAUSM_TNE2.mL nDim nSpecies V_i Normal).
    lra.
  - unfold CUpwAUSM_TNE2.pF. rewrite EpL, EpR. ring.
Qed.

(** X6. Where the flow crosses the face from j to i at a Mach number of
    one or more on both sides, the AUSM residual is the analytic flux of
    the state at j. *)
Theorem AUSM_supersonic_backward
    (nDim nSpecies nVar : nat) (U_i U_j V_i V_j Normal : vec) (k : nat) :
  nVar = (nSpecies + nDim + 2)%nat ->
  CNumerics.FaceArea nDim Normal <> 0 ->
  V_j (CNumerics.RHO_INDEX nDim nSpecies) <> 0 ->
  V_j (CNumerics.A_INDEX nDim nSpecies) <> 0 ->
  CUpwAUSM_TNE2.mL nDim nSpecies V_i Normal <= -1 ->
  CUpwAUSM_TNE2.mR nDim nSpecies V_j Normal <= -1 ->
  CUpwAUSM_TNE2.ComputeResidual nDim nSpecies nVar U_i U_j V_i V_j Normal k =
  CNumerics.GetInviscidProjFlux nDim nSpecies U_j V_j Normal k.
Proof.
  intros HVar HArea Hrho Ha HL HR.
  destruct (AUSM_split_backward nDim nSpecies V_i V_j Normal HL HR)
    as [EmL [EmR [EpL EpR]]].
  rewrite <- (AUSM_family_flux nDim nSpecies nVar U_j V_j Normal HVar HArea
                Hrho (V_j (CNumerics.A_INDEX nDim nSpecies))
                (CUpwAUSM_TNE2.pF nDim nSpecies V_i V_j Normal) k Ha).
  - unfold CUpwAUSM_TNE2.ComputeResidual. cbv zeta.
    apply residual_ext; [|reflexivity]. intros iVar.
    unfold CUpwAUSM_TNE2.Phi, CUpwAUSM_TNE2.mF. rewrite EmL, EmR.
    rewrite Rplus_0_l, (Rabs_left1 _) by lra.
    unfold CUpwAUSM_TNE2.Area.
    change (CNumerics.ConservedLayout nDim nSpecies _ _ _ _ iVar)
      with (CUpwAUSM_TNE2.FcR nDim nSpecies U_j V_j iVar).
    change (sum_upto nDim _ / V_j (CNumerics.A_INDEX nDim nSpecies))
      with (CUpwAUSM_TNE2.mR nDim nSpecies V_j Normal).
    lra.
  - unfold CUpwAUSM_TNE2.pF. rewrite EpL, EpR. ring.
Qed.

Section AUSMPLUSUP2Supersonic.
Variables (nDim nSpecies nVar : nat) (Minf Gamma : R).
Variables (U_i U_j V_i V_j Normal : vec).

Local Abbreviation mL :=
  (CUpwAUSMPLUSUP2_TNE2.mL nDim nSpecies Gamma V_i V_j Normal).
Local Abbreviation mR :=
  (CUpwAUSMPLUSUP2_TNE2.mR nDim nSpecies Gamma V_i V_j Normal).

(** No pressure diffusion at a mean Mach number of one or more. *)
Lemma UP2_Mp_supersonic :
  1 <= mL * mL -> 1 <= mR * mR ->
  CUpwAUSMPLUSUP2_TNE2.Mp nDim nSpecies Minf Gamma V_i V_j Normal = 0.
Proof.
  intros HL HR. unfold CUpwAUSMPLUSUP2_TNE2.Mp.
  replace (Rmax (1 - CUpwAUSMPLUSUP2_TNE2.sigma
                     * CUpwAUSMPLUSUP2_TNE2.MFsq nDim nSpecies Gamma V_i V_j
                         Normal) 0) with 0.
  { unfold Rdiv. ring. }
  symmetry. apply Rmax_right.
  unfold CUpwAUSMPLUSUP2_TNE2.sigma, CUpwAUSMPLUSUP2_TNE2.MFsq. lra.
Qed.

Lemma UP2_split_forward :
  1 <= mL -> 1 <= mR ->
  CUpwAUSMPLUSUP2_TNE2.mLP nDim nSpecies Gamma V_i V_j Normal = mL /\
  CUpwAUSMPLUSUP2_TNE2.mRM nDim nSpecies Gamma V_i V_j Normal = 0 /\
  CUpwAUSMPLUSUP2_TNE2.pLP nDim nSpecies Minf Gamma V_i V_j Normal = 1 /\
  CUpwAUSMPLUSUP2_TNE2.pRM nDim nSpecies Minf Gamma V_i V_j Normal = 0.
Proof.
  intros HL HR.
  unfold CUpwAUSMPLUSUP2_TNE2.mLP, CUpwAUSMPLUSUP2_TNE2.mRM,
    CUpwAUSMPLUSUP2_TNE2.pLP, CUpwAUSMPLUSUP2_TNE2.pRM,
    CUpwAUSMPLUSUP2_TNE2.beta.
  rewrite (Rabs_right mL) by lra. rewrite (Rabs_right mR) by lra.
  repeat split.
  - destruct (Rle_dec mL 1); [|lra]. replace mL with 1 by lra. lra.
  - destruct (Rle_dec mR 1); [|lra]. replace mR with 1 by lra. lra.
  - destruct (Rle_dec mL 1).
    + replace mL with 1 by lra. lra.
    + unfold Rdiv. replace (0.5 * (mL + mL) * / mL) with (mL * / mL) by lra.
      apply Rinv_r. lra.
  - destruct (Rle_dec mR 1).
    + replace mR with 1 by lra. lra.
    + unfold Rdiv. replace (mR - mR) with 0 by lra. ring.
Qed.

Lemma UP2_split_backward :
  mL <= -1 -> mR <= -1 ->
  CUpwAUSMPLUSUP2_TNE2.mLP nDim nSpecies Gamma V_i V_j Normal = 0 /\
  CUpwAUSMPLUSUP2_TNE2.mRM nDim nSpecies Gamma V_i V_j Normal = mR /\
  CUpwAUSMPLUSUP2_TNE2.pLP nDim nSpecies Minf Gamma V_i V_j Normal = 0 /\
  CUpwAUSMPLUSUP2_TNE2.pRM nDim nSpecies Minf Gamma V_i V_j Normal = 1.
Proof.
  intros HL HR.
  unfold CUpwAUSMPLUSUP2_TNE2.mLP, CUpwAUSMPLUSUP2_TNE2.mRM,
    CUpwAUSMPLUSUP2_TNE2.pLP, CUpwAUSMPLUSUP2_TNE2.pRM,
    CUpwAUSMPLUSUP2_TNE2.beta.
  rewrite (Rabs_left1 mL) by lra. rewrite (Rabs_left1 mR) by lra.
  repeat split.
  - destruct (Rle_dec (- mL) 1); [|lra]. replace mL with (-1) by lra. lra.
  - destruct (Rle_dec (- mR) 1); [|lra]. replace mR with (-1) by lra. lra.
  - destruct (Rle_dec (- mL) 1).
    + replace mL with (-1) by lra. lra.
    + unfold Rdiv. replace (mL + - mL) with 0 by lra. ring.
  - destruct (Rle_dec (- mR) 1).
    + replace mR with (-1) by lra. lra.
    + unfold Rdiv. replace (0.5 * (mR - - mR) * / mR) with (mR * / mR) by lra.
      apply Rinv_r. lra.
Qed.
End AUSMPLUSUP2Supersonic.

(** X7. Where the flow crosses the face from i to j at a Mach number of
    one or more on both sides, measured with the interface speed of sound
    [aF], the AUSM+-up2 residual is the analytic flux of the state at i. *)
Theorem AUSMPLUSUP2_supersonic_forward
    (nDim nSpecies nVar : nat) (Minf Gamma : R)
    (U_i U_j V_i V_j Normal : vec) (k : nat) :
  nVar = (nSpecies + nDim + 2)%nat ->
  CNumerics.FaceArea nDim Normal <> 0 ->
  V_i (CNumerics.RHO_INDEX nDim nSpecies) <> 0 ->
  CUpwAUSMPLUSUP2_TNE2.aF nDim nSpecies Gamma V_i V_j Normal <> 0 ->
  1 <= CUpwAUSMPLUSUP2_TNE2.mL nDim nSpecies Gamma V_i V_j Normal ->
  1 <= CUpwAUSMPLUSUP2_TNE2.mR nDim nSpecies Gamma V_i V_j Normal ->
  CUpwAUSMPLUSUP2_TNE2.ComputeResidual nDim nSpecies nVar Minf Gamma
    U_i U_j V_i V_j Normal k =
  CNumerics.GetInviscidProjFlux nDim nSpecies U_i V_i Normal k.
Proof.
  intros HVar HArea Hri Ha HL HR.
  destruct (UP2_split_forward nDim nSpecies Minf Gamma V_i V_j Normal
              HL HR) as [EmL [EmR [EpL EpR]]].
  assert (EMp : CUpwAUSMPLUSUP2_TNE2.Mp nDim nSpecies Minf Gamma V_i V_j
                  Normal = 0) by (apply UP2_Mp_supersonic; nra).
  rewrite <- (AUSM_family_flux nDim nSpecies nVar U_i V_i Normal HVar HArea
                Hri (CUpwAUSMPLUSUP2_TNE2.aF nDim nSpecies Gamma V_i V_j
                       Normal)
                (CUpwAUSMPLUSUP2_TNE2.pF nDim nSpecies Minf Gamma V_i V_j
                   Normal) k Ha).
  - unfold CUpwAUSMPLUSUP2_TNE2.ComputeResidual. cbv zeta.
    apply residual_ext; [|reflexivity]. intros iVar.
    unfold CUpwAUSMPLUSUP2_TNE2.mfP, CUpwAUSMPLUSUP2_TNE2.mfM,
      CUpwAUSMPLUSUP2_TNE2.Phi, CUpwAUSMPLUSUP2_TNE2.mF.
    rewrite EmL, EmR, EMp.
    rewrite !Rplus_0_r, (Rabs_right _) by lra.
    unfold CUpwAUSMPLUSUP2_TNE2.Area.
    change (CNumerics.ConservedLayout nDim nSpecies _ _ _ _ iVar)
      with (CUpwAUSMPLUSUP2_TNE2.FcL nDim nSpecies Gamma U_i V_i V_j
              Normal iVar).
    change (sum_upto nDim _
            / CUpwAUSMPLUSUP2_TNE2.aF nDim nSpecies Gamma V_i V_j Normal)
      with (CUpwAUSMPLUSUP2_TNE2.mL nDim nSpecies Gamma V_i V_j Normal).
    lra.
  - unfold CUpwAUSMPLUSUP2_TNE2.pF, CUpwAUSMPLUSUP2_TNE2.pFi.
    rewrite EpL, EpR.
    unfold CUpwAUSMPLUSUP2_TNE2.P_i, CUpwAUSMPLUSUP2_TNE2.P_j.
    set (s := sqrt _). lra.
Qed.

(** X8. Where the flow crosses the face from j to i at a Mach number of
    one or more on both sides, measured with the interface speed of sound
    [aF], the AUSM+-up2 residual is the analytic flux of the state at j. *)
Theorem AUSMPLUSUP2_supersonic_backward
    (nDim nSpecies nVar : nat) (Minf Gamma : R)
    (U_i U_j V_i V_j Normal : vec) (k : nat) :
  nVar = (nSpecies + nDim + 2)%nat ->
  CNumerics.FaceArea nDim Normal <> 0 ->
  V_j (CNumerics.RHO_INDEX nDim nSpecies) <> 0 ->
  CUpwAUSMPLUSUP2_TNE2.aF nDim nSpecies Gamma V_i V_j Normal <> 0 ->
  CUpwAUSMPLUSUP2_TNE2.mL nDim nSpecies Gamma V_i V_j Normal <= -1 ->
  CUpwAUSMPLUSUP2_TNE2.mR nDim nSpecies Gamma V_i V_j Normal <= -1 ->
  CUpwAUSMPLUSUP2_TNE2.ComputeResidual nDim nSpecies nVar Minf Gamma
    U_i U_j V_i V_j Normal k =
  CNumerics.GetInviscidProjFlux nDim nSpecies U_j V_j Normal k.
Proof.
  intros HVar HArea Hrj Ha HL HR.
  destruct (UP2_split_backward nDim nSpecies Minf Gamma V_i V_j Normal
              HL HR) as [EmL [EmR [EpL EpR]]].
  assert (EMp : CUpwAUSMPLUSUP2_TNE2.Mp nDim nSpecies Minf Gamma V_i V_j
                  Normal = 0) by (apply UP2_Mp_supersonic; nra).
  rewrite <- (AUSM_family_flux nDim nSpecies nVar U_j V_j Normal HVar HArea
                Hrj (CUpwAUSMPLUSUP2_TNE2.aF nDim nSpecies Gamma V_i V_j
                       Normal)
                (CUpwAUSMPLUSUP2_TNE2.pF nDim nSpecies Minf Gamma V_i V_j
                   Normal) k Ha).
  - unfold CUpwAUSMPLUSUP2_TNE2.ComputeResidual. cbv zeta.
    apply residual_ext; [|reflexivity]. intros iVar.
    unfold CUpwAUSMPLUSUP2_TNE2.mfP, CUpwAUSMPLUSUP2_TNE2.mfM,
      CUpwAUSMPLUSUP2_TNE2.Phi, CUpwAUSMPLUSUP2_TNE2.mF.
    rewrite EmL, EmR, EMp.
    rewrite Rplus_0_l, Rplus_0_r, (Rabs_left1 _) by lra.
    unfold CUpwAUSMPLUSUP2_TNE2.Area.
    change (CNumerics.ConservedLayout nDim nSpecies _ _ _ _ iVar)
      with (CUpwAUSMPLUSUP2_TNE2.FcR nDim nSpecies Gamma U_j V_i V_j
              Normal iVar).
    change (sum_upto nDim _
            / CUpwAUSMPLUSUP2_TNE2.aF nDim nSpecies Gamma V_i V_j Normal)
      with (CUpwAUSMPLUSUP2_TNE2.mR nDim nSpecies Gamma V_i V_j Normal).
    lra.
  - unfold CUpwAUSMPLUSUP2_TNE2.pF, CUpwAUSMPLUSUP2_TNE2.pFi.
    rewrite EpL, EpR.
    unfold CUpwAUSMPLUSUP2_TNE2.P_i, CUpwAUSMPLUSUP2_TNE2.P_j.
    set (s := sqrt _). lra.
Qed.

(** ** Centered scheme: the two sides of a face *)

Section CentLaxSides.
Variables (nDim nSpecies nVar nPrimVar : nat).
Variables (Param_Kappa_0 EPS Lambda_i Lambda_j : R).
Variables (Neighbor_i Neighbor_j : nat).
Variables (U_i U_j V_i V_j Normal : vec).

(** The analytic flux changes sign with the normal. *)
Lemma GetInviscidProjFlux_vneg (U V n : vec) (k : nat) :
  CNumerics.GetInviscidProjFlux nDim nSpecies U V (vneg n) k =
  - CNumerics.GetInviscidProjFlux nDim nSpecies U V n k.
Proof.
  rewrite !GetInviscidProjFlux_at. cbv zeta.
  rewrite (sum_upto_ext nDim
             (fun iDim => V (CNumerics.VEL_INDEX nSpecies + iDim)%nat
                          * vneg n iDim)
             (fun iDim => - (V (CNumerics.VEL_INDEX nSpecies + iDim)%nat
                             * n iDim)))
    by (intros; unfold vneg; ring).
  rewrite sum_upto_opp. unfold vneg.
  nat_cases; ring.
Qed.

Lemma sum_vneg (u n : vec) :
  sum_upto nDim (fun iDim => u iDim * vneg n iDim) =
  - sum_upto nDim (fun iDim => u iDim * n iDim).
Proof.
  rewrite <- sum_upto_opp. apply sum_upto_ext. intros d _.
  unfold vneg. ring.
Qed.

(** What the loop of lines 1965-1968 accumulates. *)
Lemma SpectralLoop_ProjVel (Vi Vj n : vec) :
  CCentLax_TNE2.ProjVel_i nDim nSpecies Vi Vj n =
    sum_upto nDim (fun iDim =>
      Vi (CNumerics.VEL_INDEX nSpecies + iDim)%nat * n iDim) /\
  CCentLax_TNE2.ProjVel_j nDim nSpecies Vi Vj n =
    sum_upto nDim (fun iDim =>
      Vj (CNumerics.VEL_INDEX nSpecies + iDim)%nat * n iDim).
Proof.
  unfold CCentLax_TNE2.ProjVel_i, CCentLax_TNE2.ProjVel_j,
    CCentLax_TNE2.SpectralLoop.
  induction nDim as [|m IH]; [split; reflexivity|].
  rewrite !sum_upto_S. simpl.
  destruct (for_range m _ _) as [[pi pj] A]. simpl in *.
  destruct IH as [-> ->]. split; reflexivity.
Qed.

Lemma CentLax_MeanLambda_swap :
  CCentLax_TNE2.MeanLambda nDim nSpecies V_j V_i (vneg Normal) =
  CCentLax_TNE2.MeanLambda nDim nSpecies V_i V_j Normal.
Proof.
  unfold CCentLax_TNE2.MeanLambda.
  rewrite !CentLax_Local_Lambda_i, !CentLax_Local_Lambda_j.
  destruct (SpectralLoop_ProjVel V_j V_i (vneg Normal)) as [-> ->].
  destruct (SpectralLoop_ProjVel V_i V_j Normal) as [-> ->].
  rewrite !sum_vneg, !Rabs_Ropp. lra.
Qed.

Lemma CentLax_StretchingFactor_swap :
  CCentLax_TNE2.StretchingFactor nDim nSpecies EPS Lambda_j Lambda_i
    V_j V_i (vneg Normal) =
  CCentLax_TNE2.StretchingFactor nDim nSpecies EPS Lambda_i Lambda_j
    V_i V_j Normal.
Proof.
  unfold CCentLax_TNE2.StretchingFactor, CCentLax_TNE2.Phi_i,
    CCentLax_TNE2.Phi_j.
  rewrite CentLax_MeanLambda_swap.
  set (a := Rpower _ _). set (b := Rpower _ _).
  rewrite (Rplus_comm b a). unfold Rdiv. ring.
Qed.

Lemma CentLax_Epsilon_0_swap :
  CCentLax_TNE2.Epsilon_0 nDim Param_Kappa_0 Neighbor_j Neighbor_i =
  CCentLax_TNE2.Epsilon_0 nDim Param_Kappa_0 Neighbor_i Neighbor_j.
Proof.
  unfold CCentLax_TNE2.Epsilon_0, CCentLax_TNE2.sc0.
  rewrite (Rplus_comm (INR Neighbor_j)), (Rmult_comm (INR Neighbor_j)).
  reflexivity.
Qed.

Lemma CentLax_Diff_U_swap (k : nat) :
  CCentLax_TNE2.Diff_U nDim nSpecies nVar U_j U_i V_j V_i k =
  - CCentLax_TNE2.Diff_U nDim nSpecies nVar U_i U_j V_i V_j k.
Proof.
  unfold CCentLax_TNE2.Diff_U, upd, vec_init, CCentLax_TNE2.rho_i,
    CCentLax_TNE2.rho_j, CCentLax_TNE2.h_i, CCentLax_TNE2.h_j.
  destruct (Nat.eqb k (nSpecies + nDim)); [ring|].
  destruct (Nat.ltb k nVar); ring.
Qed.

Lemma CentLax_ProjFlux_swap (k : nat) :
  CCentLax_TNE2.ProjFlux nDim nSpecies nVar nPrimVar U_j U_i V_j V_i
    (vneg Normal) k =
  - CCentLax_TNE2.ProjFlux nDim nSpecies nVar nPrimVar U_i U_j V_i V_j
      Normal k.
Proof.
  unfold CCentLax_TNE2.ProjFlux. rewrite GetInviscidProjFlux_vneg.
  f_equal. apply GetInviscidProjFlux_ext.
  - unfold CCentLax_TNE2.MeanU, vec_init.
    destruct (Nat.ltb _ nVar); lra.
  - intros i _. unfold CCentLax_TNE2.MeanV, vec_init.
    destruct (Nat.ltb i nPrimVar); lra.
Qed.
End CentLaxSides.

(** X9. The centered scheme is conservative: seen from the other side of
    the face, with the two nodes exchanged and the normal reversed, the
    residual is the opposite. *)
Theorem CentLax_conservative
    (nDim nSpecies nVar nPrimVar : nat)
    (Param_Kappa_0 EPS Lambda_i Lambda_j : R) (Neighbor_i Neighbor_j : nat)
    (U_i U_j V_i V_j Normal : vec) (k : nat) :
  CCentLax_TNE2.ComputeResidual nDim nSpecies nVar nPrimVar Param_Kappa_0
    EPS Lambda_j Lambda_i Neighbor_j Neighbor_i U_j U_i V_j V_i
    (vneg Normal) k =
  - CCentLax_TNE2.ComputeResidual nDim nSpecies nVar nPrimVar Param_Kappa_0
      EPS Lambda_i Lambda_j Neighbor_i Neighbor_j U_i U_j V_i V_j Normal k.
Proof.
  unfold CCentLax_TNE2.ComputeResidual. cbv zeta.
  rewrite (for_range_inplace nVar (fun iVar x =>
    x + CCentLax_TNE2.Epsilon_0 nDim Param_Kappa_0 Neighbor_j Neighbor_i
        * CCentLax_TNE2.Diff_U nDim nSpecies nVar U_j U_i V_j V_i iVar
        * CCentLax_TNE2.StretchingFactor nDim nSpecies EPS Lambda_j Lambda_i
            V_j V_i (vneg Normal)
        * CCentLax_TNE2.MeanLambda nDim nSpecies V_j V_i (vneg Normal))).
  rewrite (for_range_inplace nVar (fun iVar x =>
    x + CCentLax_TNE2.Epsilon_0 nDim Param_Kappa_0 Neighbor_i Neighbor_j
        * CCentLax_TNE2.Diff_U nDim nSpecies nVar U_i U_j V_i V_j iVar
        * CCentLax_TNE2.StretchingFactor nDim nSpecies EPS Lambda_i Lambda_j
            V_i V_j Normal
        * CCentLax_TNE2.MeanLambda nDim nSpecies V_i V_j Normal)).
  rewrite CentLax_Epsilon_0_swap, CentLax_Diff_U_swap,
    CentLax_StretchingFactor_swap, CentLax_MeanLambda_swap.
  unfold vec_init. rewrite CentLax_ProjFlux_swap.
  destruct (Nat.ltb k nVar); ring.
Qed.

Section ViscousClosed.
Variables (nDim nSpecies nVar : nat) (CalcHs : R -> R -> nat -> R) (TWO3 : R).
Variables (P : vec) (G : mat) (e n D : vec) (mu ktr kve : R).

Local Abbreviation FT :=
  (CAvgGrad_TNE2.Flux_Tensor nDim nSpecies CalcHs TWO3 P G e D mu ktr kve).
Local Abbreviation Column :=
  (CAvgGrad_TNE2.Flux_Tensor_column nDim nSpecies CalcHs TWO3 P G e D mu ktr
     kve).

(** For a mixture that is not ionized the function is the loop of the
    columns followed by the projection on the normal. *)
Lemma GetViscousProjFlux_columns :
  CAvgGrad_TNE2.GetViscousProjFlux nDim nSpecies nVar false CalcHs TWO3
    P G e n D mu ktr kve =
  Returns (vec_init nVar (fun iVar =>
    sum_upto nDim (fun iDim =>
      for_range nDim Column (fun _ _ => 0) iVar iDim * n iDim))).
Proof.
  change (CAvgGrad_TNE2.GetViscousProjFlux nDim nSpecies nVar false CalcHs
            TWO3 P G e n D mu ktr kve)
    with (bind (for_range_exit nDim (fun d F => Returns (Column d F))
                  (fun _ _ => 0))
               (fun F => Returns (vec_init nVar (fun iVar =>
                  sum_upto nDim (fun iDim => F iVar iDim * n iDim))))).
  assert (H : forall m, for_range_exit m (fun d F => Returns (Column d F))
                          (fun _ _ => 0) =
                        Returns (for_range m Column (fun _ _ => 0))).
  { induction m as [|m IH]; simpl; [reflexivity|]. rewrite IH. reflexivity. }
  rewrite H. reflexivity.
Qed.

(** A turn of the loop fills its column and no other. *)
Lemma Flux_Tensor_column_at (m : nat) (F : mat) (r c : nat) :
  (m < nDim)%nat -> (forall r, F r m = 0) ->
  Column m F r c = if Nat.eqb c m then FT r m else F r c.
Proof.
  intros Hm H0.
  unfold CAvgGrad_TNE2.Flux_Tensor_column. cbv zeta.
  rewrite (vec_init_lt nDim) by exact Hm.
  set (SF := fun s : nat =>
         CAvgGrad_TNE2.SpeciesFlux nDim nSpecies P G D s m).
  set (F1 := for_range nSpecies _ F).
  assert (H1 : forall r c, F1 r c =
            if (Nat.ltb r nSpecies && Nat.eqb c m)%bool then SF r
            else F r c).
  { intros r' c'. unfold F1. rewrite for_range_column_store. reflexivity. }
  set (F2 := upd2 F1 (nSpecies + nDim) m 0).
  set (F3 := for_range nDim _ F2).
  assert (H3 : forall r c, F3 r c =
            if Nat.eqb c m then
              if Nat.eqb r (nSpecies + nDim)
              then F2 (nSpecies + nDim)%nat m
                   + sum_upto nDim (fun j =>
                       CAvgGrad_TNE2.tau nDim nSpecies TWO3 G mu m j
                       * P (CNumerics.VEL_INDEX nSpecies + j)%nat)
              else if (Nat.leb nSpecies r
                       && Nat.ltb r (nSpecies + nDim))%bool
                   then CAvgGrad_TNE2.tau nDim nSpecies TWO3 G mu m
                          (r - nSpecies)
                   else F2 r c
            else F2 r c).
  { intros r' c'. unfold F3.
    apply (for_range_shear nDim nSpecies (nSpecies + nDim) m
             (fun j => CAvgGrad_TNE2.tau nDim nSpecies TWO3 G mu m j)
             (fun j => P (CNumerics.VEL_INDEX nSpecies + j)%nat)).
    lia. }
  set (hs := vec_init nSpecies _).
  set (F4 := for_range nSpecies _ F3).
  assert (H4 : forall r c, F4 r c =
            if Nat.eqb c m then
              if Nat.eqb r (nSpecies + nDim + 1)
              then F3 (nSpecies + nDim + 1)%nat m
                   + sum_upto nSpecies (fun s => F3 s m * e s)
              else if Nat.eqb r (nSpecies + nDim)
                   then F3 (nSpecies + nDim)%nat m
                        + sum_upto nSpecies (fun s => F3 s m * hs s)
                   else F3 r c
            else F3 r c).
  { intros r' c'. unfold F4.
    apply (for_range_diffusion nSpecies (nSpecies + nDim)
             (nSpecies + nDim + 1) m hs e); lia. }
  assert (HS : forall s, (s < nSpecies)%nat -> F3 s m = SF s).
  { intros s Hs. rewrite H3, Nat.eqb_refl.
    destruct (Nat.eqb_spec s (nSpecies + nDim)); [lia|].
    destruct (Nat.leb_spec nSpecies s); [lia|]. simpl.
    unfold F2. rewrite upd2_other by lia. rewrite H1, Nat.eqb_refl.
    destruct (Nat.ltb_spec s nSpecies); [reflexivity|lia]. }
  assert (E2 : F3 (nSpecies + nDim + 1)%nat m = 0).
  { rewrite H3, Nat.eqb_refl.
    destruct (Nat.eqb_spec (nSpecies + nDim + 1) (nSpecies + nDim)); [lia|].
    destruct (Nat.ltb_spec (nSpecies + nDim + 1) (nSpecies + nDim)); [lia|].
    rewrite andb_false_r. unfold F2. rewrite upd2_other by lia.
    rewrite H1. destruct (Nat.ltb_spec (nSpecies + nDim + 1) nSpecies);
      [lia|]. simpl. apply H0. }
  assert (E1 : F3 (nSpecies + nDim)%nat m =
               sum_upto nDim (fun j =>
                 CAvgGrad_TNE2.tau nDim nSpecies TWO3 G mu m j
                 * P (CNumerics.VEL_INDEX nSpecies + j)%nat)).
  { rewrite H3, !Nat.eqb_refl. unfold F2. rewrite upd2_same. ring. }
  assert (Eh : sum_upto nSpecies (fun s => F3 s m * hs s) =
               sum_upto nSpecies (fun s =>
                 SF s * CalcHs (P (CNumerics.T_INDEX nSpecies)) (e s) s)).
  { apply sum_upto_ext. intros s Hs. rewrite HS by exact Hs.
    unfold hs. rewrite vec_init_lt by exact Hs. reflexivity. }
  assert (Ee : sum_upto nSpecies (fun s => F3 s m * e s) =
               sum_upto nSpecies (fun s => SF s * e s)).
  { apply sum_upto_ext. intros s Hs. rewrite HS by exact Hs. reflexivity. }
  unfold upd2 at 1 2 3. rewrite !H4, !Nat.eqb_refl.
  rewrite E1, E2, Eh, Ee.
  unfold CAvgGrad_TNE2.Flux_Tensor. fold (SF r).
  destruct (Nat.eqb_spec c m) as [Ec|Hc].
  - subst c. rewrite !andb_true_r.
    destruct (Nat.eqb_spec (nSpecies + nDim) (nSpecies + nDim + 1)); [lia|].
    destruct (Nat.eqb_spec r (nSpecies + nDim + 1)) as [E|Hr1].
    { subst r. destruct (Nat.ltb_spec (nSpecies + nDim + 1) nSpecies);
        [lia|].
      destruct (Nat.ltb_spec (nSpecies + nDim + 1) (nSpecies + nDim));
        [lia|].
      destruct (Nat.eqb_spec (nSpecies + nDim + 1) (nSpecies + nDim));
        [lia|]. simpl. unfold SF. ring. }
    destruct (Nat.eqb_spec r (nSpecies + nDim)) as [E|Hr2].
    { subst r. destruct (Nat.ltb_spec (nSpecies + nDim) nSpecies); [lia|].
      destruct (Nat.ltb_spec (nSpecies + nDim) (nSpecies + nDim)); [lia|].
      simpl. unfold SF. ring. }
    simpl. rewrite H3, Nat.eqb_refl.
    destruct (Nat.eqb_spec r (nSpecies + nDim)); [lia|].
    destruct (Nat.ltb_spec r nSpecies) as [Hs|Hs].
    { destruct (Nat.leb_spec nSpecies r); [lia|]. simpl.
      unfold F2. rewrite upd2_other by lia. rewrite H1, Nat.eqb_refl.
      destruct (Nat.ltb_spec r nSpecies); [reflexivity|lia]. }
    destruct (Nat.leb_spec nSpecies r); [|lia].
    destruct (Nat.ltb_spec r (nSpecies + nDim)); [reflexivity|]. simpl.
    unfold F2. rewrite upd2_other by lia. rewrite H1.
    destruct (Nat.ltb_spec r nSpecies); [lia|]. simpl. apply H0.
  - rewrite !andb_false_r. rewrite H3.
    destruct (Nat.eqb_spec c m); [lia|].
    unfold F2. rewrite upd2_other by lia. rewrite H1.
    destruct (Nat.eqb_spec c m); [lia|]. rewrite andb_false_r. reflexivity.
Qed.

(** The columns once the loop has run. *)
Lemma Flux_Tensor_columns (m : nat) (r c : nat) :
  (m <= nDim)%nat ->
  for_range m Column (fun _ _ => 0) r c =
  if Nat.ltb c m then FT r c else 0.
Proof.
  revert r c. induction m as [|m IH]; intros r c Hm; [reflexivity|].
  simpl. rewrite Flux_Tensor_column_at;
    [|lia|intros r'; rewrite IH by lia;
          destruct (Nat.ltb_spec m m); [lia|reflexivity]].
  rewrite IH by lia.
  destruct (Nat.eqb_spec c m) as [E|Hc].
  - subst c. destruct (Nat.ltb_spec m (Datatypes.S m)); [reflexivity|lia].
  - destruct (Nat.ltb_spec c m), (Nat.ltb_spec c (Datatypes.S m));
      try reflexivity; lia.
Qed.

(** The flux a mixture that is not ionized gets: the flux tensor
    projected on the normal. *)
Lemma GetViscousProjFlux_closed :
  CAvgGrad_TNE2.GetViscousProjFlux nDim nSpecies nVar false CalcHs TWO3
    P G e n D mu ktr kve =
  Returns (vec_init nVar (fun iVar =>
    sum_upto nDim (fun iDim => FT iVar iDim * n iDim))).
Proof.
  rewrite GetViscousProjFlux_columns. f_equal.
  apply functional_extensionality. intros k. unfold vec_init.
  destruct (Nat.ltb k nVar); [|reflexivity].
  apply sum_upto_ext. intros d Hd.
  rewrite Flux_Tensor_columns by lia.
  destruct (Nat.ltb_spec d nDim); [reflexivity|lia].
Qed.
End ViscousClosed.

(** ** Viscous schemes: the two sides of a face *)

Lemma vec_init_vneg (n : nat) (f : vec) :
  vec_init n (fun k => - f k) = vneg (vec_init n f).
Proof.
  apply functional_extensionality. intros k. unfold vec_init, vneg.
  destruct (Nat.ltb k n); ring.
Qed.

Section ViscousSides.
Variables (nDim nSpecies nVar nPrimVar nPrimVarGrad : nat).
Variable CalcHs : R -> R -> nat -> R.
Variable TWO3 : R.

(** The flux changes sign with the normal. *)
Lemma GetViscousProjFlux_vneg (P : vec) (G : mat) (e n D : vec)
    (mu ktr kve : R) :
  exists r,
    CAvgGrad_TNE2.GetViscousProjFlux nDim nSpecies nVar false CalcHs TWO3
      P G e n D mu ktr kve = Returns r /\
    CAvgGrad_TNE2.GetViscousProjFlux nDim nSpecies nVar false CalcHs TWO3
      P G e (vneg n) D mu ktr kve = Returns (vneg r).
Proof.
  rewrite !GetViscousProjFlux_closed. eexists. split; [reflexivity|].
  f_equal. rewrite <- vec_init_vneg. f_equal.
  apply functional_extensionality. intros k.
  rewrite <- sum_upto_opp. apply sum_upto_ext. intros d _.
  unfold vneg. ring.
Qed.

Variables (V_i V_j : vec) (PrimVar_Grad_i PrimVar_Grad_j : mat).
Variables (Diffusion_Coeff_i Diffusion_Coeff_j eve_i eve_j : vec).
Variables (Laminar_Viscosity_i Laminar_Viscosity_j : R).
Variables (Thermal_Conductivity_i Thermal_Conductivity_j : R).
Variables (Thermal_Conductivity_ve_i Thermal_Conductivity_ve_j : R).
Variables (Normal Coord_i Coord_j : vec).

(** The means do not tell the two nodes apart. *)
Lemma Mean_PrimVar_swap :
  CAvgGrad_TNE2.Mean_PrimVar nDim nSpecies nPrimVar V_j V_i =
  CAvgGrad_TNE2.Mean_PrimVar nDim nSpecies nPrimVar V_i V_j.
Proof.
  apply functional_extensionality. intros k.
  unfold CAvgGrad_TNE2.Mean_PrimVar, vec_init2.
  change (CAvgGrad_TNE2.PrimVar_j nDim nSpecies nPrimVar V_i)
    with (CAvgGrad_TNE2.PrimVar_i nDim nSpecies nPrimVar V_i).
  change (CAvgGrad_TNE2.PrimVar_j nDim nSpecies nPrimVar V_j)
    with (CAvgGrad_TNE2.PrimVar_i nDim nSpecies nPrimVar V_j).
  destruct (Nat.ltb k nSpecies); [lra|].
  destruct (Nat.ltb k nPrimVar); lra.
Qed.

Lemma Mean_GradPrimVar_swap :
  CAvgGrad_TNE2.Mean_GradPrimVar nDim nSpecies nPrimVar nPrimVarGrad
    V_j V_i PrimVar_Grad_j PrimVar_Grad_i =
  CAvgGrad_TNE2.Mean_GradPrimVar nDim nSpecies nPrimVar nPrimVarGrad
    V_i V_j PrimVar_Grad_i PrimVar_Grad_j.
Proof.
  apply functional_extensionality. intros k.
  apply functional_extensionality. intros d.
  unfold CAvgGrad_TNE2.Mean_GradPrimVar, vec_init2.
  change (CAvgGrad_TNE2.PrimVar_j nDim nSpecies nPrimVar V_i)
    with (CAvgGrad_TNE2.PrimVar_i nDim nSpecies nPrimVar V_i).
  change (CAvgGrad_TNE2.PrimVar_j nDim nSpecies nPrimVar V_j)
    with (CAvgGrad_TNE2.PrimVar_i nDim nSpecies nPrimVar V_j).
  destruct (Nat.ltb d nDim); [|reflexivity].
  destruct (Nat.ltb k nSpecies).
  - match goal with
    | |- 0.5 * (?a + ?b) = _ => generalize a, b; intros x y; lra
    end.
  - destruct (Nat.ltb k nPrimVarGrad); lra.
Qed.

Lemma vec_init_mean_swap (n : nat) (f g : vec) :
  vec_init n (fun i => 0.5 * (g i + f i)) =
  vec_init n (fun i => 0.5 * (f i + g i)).
Proof.
  apply functional_extensionality. intros k. unfold vec_init.
  destruct (Nat.ltb k n); lra.
Qed.
End ViscousSides.

(** X10. For a mixture that is not ionized the viscous residual returns,
    and seen from the other side of the face, with the two nodes exchanged
    and the normal reversed, it is the opposite. *)
Theorem AvgGrad_conservative
    (nDim nSpecies nVar nPrimVar nPrimVarGrad : nat)
    (CalcHs : R -> R -> nat -> R) (TWO3 : R)
    (V_i V_j : vec) (PrimVar_Grad_i PrimVar_Grad_j : mat)
    (Diffusion_Coeff_i Diffusion_Coeff_j eve_i eve_j : vec)
    (Laminar_Viscosity_i Laminar_Viscosity_j : R)
    (Thermal_Conductivity_i Thermal_Conductivity_j : R)
    (Thermal_Conductivity_ve_i Thermal_Conductivity_ve_j : R)
    (Normal : vec) :
  exists val_residual,
    CAvgGrad_TNE2.ComputeResidual nDim nSpecies nVar nPrimVar nPrimVarGrad
      false CalcHs TWO3 V_i V_j PrimVar_Grad_i PrimVar_Grad_j
      Diffusion_Coeff_i Diffusion_Coeff_j eve_i eve_j
      Laminar_Viscosity_i Laminar_Viscosity_j
      Thermal_Conductivity_i Thermal_Conductivity_j
      Thermal_Conductivity_ve_i Thermal_Conductivity_ve_j Normal
    = Returns val_residual /\
    CAvgGrad_TNE2.ComputeResidual nDim nSpecies nVar nPrimVar nPrimVarGrad
      false CalcHs TWO3 V_j V_i PrimVar_Grad_j PrimVar_Grad_i
      Diffusion_Coeff_j Diffusion_Coeff_i eve_j eve_i
      Laminar_Viscosity_j Laminar_Viscosity_i
      Thermal_Conductivity_j Thermal_Conductivity_i
      Thermal_Conductivity_ve_j Thermal_Conductivity_ve_i (vneg Normal)
    = Returns (vneg val_residual).
Proof.
  unfold CAvgGrad_TNE2.ComputeResidual.
  rewrite !GetViscousProjFlux_truncated.
  rewrite Mean_PrimVar_swap, Mean_GradPrimVar_swap.
  unfold CAvgGrad_TNE2.Mean_Eve, CAvgGrad_TNE2.Mean_Diffusion_Coeff,
    CAvgGrad_TNE2.Mean_Laminar_Viscosity,
    CAvgGrad_TNE2.Mean_Thermal_Conductivity,
    CAvgGrad_TNE2.Mean_Thermal_Conductivity_ve.
  rewrite (vec_init_mean_swap nSpecies eve_i eve_j),
    (vec_init_mean_swap nSpecies Diffusion_Coeff_i Diffusion_Coeff_j).
  rewrite (Rplus_comm Laminar_Viscosity_j),
    (Rplus_comm Thermal_Conductivity_j),
    (Rplus_comm Thermal_Conductivity_ve_j).
  apply GetViscousProjFlux_vneg.
Qed.

Section CorrectedSides.
Variables (nDim nSpecies nPrimVar nPrimVarGrad : nat).
Variables (V_i V_j : vec) (PrimVar_Grad_i PrimVar_Grad_j : mat).
Variables (Coord_i Coord_j : vec).

Lemma Edge_Vector_swap (d : nat) :
  CAvgGradCorrected_TNE2.Edge_Vector nDim Coord_j Coord_i d =
  - CAvgGradCorrected_TNE2.Edge_Vector nDim Coord_i Coord_j d.
Proof.
  unfold CAvgGradCorrected_TNE2.Edge_Vector, vec_init.
  destruct (Nat.ltb d nDim); ring.
Qed.

Lemma dist_ij_2_swap :
  CAvgGradCorrected_TNE2.dist_ij_2 nDim Coord_j Coord_i =
  CAvgGradCorrected_TNE2.dist_ij_2 nDim Coord_i Coord_j.
Proof.
  unfold CAvgGradCorrected_TNE2.dist_ij_2. apply sum_upto_ext.
  intros d _. rewrite Edge_Vector_swap. ring.
Qed.

(** The correction along the edge is the same seen from either node. *)
Lemma GradCorrection_swap (iVar iDim : nat) :
  CAvgGradCorrected_TNE2.GradCorrection nDim nSpecies nPrimVar nPrimVarGrad
    V_j V_i PrimVar_Grad_j PrimVar_Grad_i Coord_j Coord_i iVar iDim =
  CAvgGradCorrected_TNE2.GradCorrection nDim nSpecies nPrimVar nPrimVarGrad
    V_i V_j PrimVar_Grad_i PrimVar_Grad_j Coord_i Coord_j iVar iDim.
Proof.
  unfold CAvgGradCorrected_TNE2.GradCorrection.
  rewrite dist_ij_2_swap, Edge_Vector_swap.
  assert (E : CAvgGradCorrected_TNE2.Proj_Mean_GradPrimVar_Edge nDim nSpecies
                nPrimVar nPrimVarGrad V_j V_i PrimVar_Grad_j PrimVar_Grad_i
                Coord_j Coord_i iVar =
              - CAvgGradCorrected_TNE2.Proj_Mean_GradPrimVar_Edge nDim
                  nSpecies nPrimVar nPrimVarGrad V_i V_j PrimVar_Grad_i
                  PrimVar_Grad_j Coord_i Coord_j iVar).
  { unfold CAvgGradCorrected_TNE2.Proj_Mean_GradPrimVar_Edge, vec_init.
    destruct (Nat.ltb iVar nPrimVarGrad); [|ring].
    rewrite <- sum_upto_opp. apply sum_upto_ext. intros d _.
    rewrite Edge_Vector_swap.
    change (CAvgGradCorrected_TNE2.Mean_GradPrimVar nDim nSpecies nPrimVar
              nPrimVarGrad V_j V_i PrimVar_Grad_j PrimVar_Grad_i)
      with (CAvgGrad_TNE2.Mean_GradPrimVar nDim nSpecies nPrimVar
              nPrimVarGrad V_j V_i PrimVar_Grad_j PrimVar_Grad_i).
    rewrite Mean_GradPrimVar_swap. 
    change (CAvgGrad_TNE2.Mean_GradPrimVar nDim nSpecies nPrimVar
              nPrimVarGrad V_i V_j PrimVar_Grad_i PrimVar_Grad_j)
      with (CAvgGradCorrected_TNE2.Mean_GradPrimVar nDim nSpecies nPrimVar
              nPrimVarGrad V_i V_j PrimVar_Grad_i PrimVar_Grad_j).
    ring. }
  rewrite E.
  change (CAvgGradCorrected_TNE2.PrimVar_j nDim nSpecies nPrimVar V_i)
    with (CAvgGradCorrected_TNE2.PrimVar_i nDim nSpecies nPrimVar V_i).
  change (CAvgGradCorrected_TNE2.PrimVar_j nDim nSpecies nPrimVar V_j)
    with (CAvgGradCorrected_TNE2.PrimVar_i nDim nSpecies nPrimVar V_j).
  unfold Rdiv. ring.
Qed.

Lemma Mean_GradPrimVar_Corrected_swap :
  CAvgGradCorrected_TNE2.Mean_GradPrimVar_Corrected nDim nSpecies nPrimVar
    nPrimVarGrad V_j V_i PrimVar_Grad_j PrimVar_Grad_i Coord_j Coord_i =
  CAvgGradCorrected_TNE2.Mean_GradPrimVar_Corrected nDim nSpecies nPrimVar
    nPrimVarGrad V_i V_j PrimVar_Grad_i PrimVar_Grad_j Coord_i Coord_j.
Proof.
  apply functional_extensionality. intros k.
  apply functional_extensionality. intros d.
  unfold CAvgGradCorrected_TNE2.Mean_GradPrimVar_Corrected.
  rewrite GradCorrection_swap.
  change (CAvgGradCorrected_TNE2.Mean_GradPrimVar nDim nSpecies nPrimVar
            nPrimVarGrad V_j V_i PrimVar_Grad_j PrimVar_Grad_i)
    with (CAvgGrad_TNE2.Mean_GradPrimVar nDim nSpecies nPrimVar
            nPrimVarGrad V_j V_i PrimVar_Grad_j PrimVar_Grad_i).
  rewrite Mean_GradPrimVar_swap. reflexivity.
Qed.
End CorrectedSides.

(** X11. For a mixture that is not ionized the viscous residual with the
    edge correction returns, and seen from the other side of the face,
    with the two nodes and their coordinates exchanged and the normal
    reversed, it is the opposite. *)
Theorem AvgGradCorrected_conservative
    (nDim nSpecies nVar nPrimVar nPrimVarGrad : nat)
    (CalcHs : R -> R -> nat -> R) (TWO3 : R)
    (V_i V_j : vec) (PrimVar_Grad_i PrimVar_Grad_j : mat)
    (Diffusion_Coeff_i Diffusion_Coeff_j eve_i eve_j : vec)
    (Laminar_Viscosity_i Laminar_Viscosity_j : R)
    (Thermal_Conductivity_i Thermal_Conductivity_j : R)
    (Thermal_Conductivity_ve_i Thermal_Conductivity_ve_j : R)
    (Normal Coord_i Coord_j : vec) :
  exists val_residual,
    CAvgGradCorrected_TNE2.ComputeResidual nDim nSpecies nVar nPrimVar
      nPrimVarGrad false CalcHs TWO3 V_i V_j PrimVar_Grad_i PrimVar_Grad_j
      Diffusion_Coeff_i Diffusion_Coeff_j eve_i eve_j
      Laminar_Viscosity_i Laminar_Viscosity_j
      Thermal_Conductivity_i Thermal_Conductivity_j
      Thermal_Conductivity_ve_i Thermal_Conductivity_ve_j
      Normal Coord_i Coord_j
    = Returns val_residual /\
    CAvgGradCorrected_TNE2.ComputeResidual nDim nSpecies nVar nPrimVar
      nPrimVarGrad false CalcHs TWO3 V_j V_i PrimVar_Grad_j PrimVar_Grad_i
      Diffusion_Coeff_j Diffusion_Coeff_i eve_j eve_i
      Laminar_Viscosity_j Laminar_Viscosity_i
      Thermal_Conductivity_j Thermal_Conductivity_i
      Thermal_Conductivity_ve_j Thermal_Conductivity_ve_i
      (vneg Normal) Coord_j Coord_i
    = Returns (vneg val_residual).
Proof.
  unfold CAvgGradCorrected_TNE2.ComputeResidual,
    CAvgGradCorrected_TNE2.GetViscousProjFlux.
  rewrite !GetViscousProjFlux_truncated.
  rewrite Mean_GradPrimVar_Corrected_swap.
  change (CAvgGradCorrected_TNE2.Mean_PrimVar nDim nSpecies nPrimVar V_j V_i)
    with (CAvgGrad_TNE2.Mean_PrimVar nDim nSpecies nPrimVar V_j V_i).
  rewrite Mean_PrimVar_swap.
  unfold CAvgGradCorrected_TNE2.Mean_Eve,
    CAvgGradCorrected_TNE2.Mean_Diffusion_Coeff,
    CAvgGradCorrected_TNE2.Mean_Laminar_Viscosity,
    CAvgGradCorrected_TNE2.Mean_Thermal_Conductivity,
    CAvgGradCorrected_TNE2.Mean_Thermal_Conductivity_ve.
  rewrite (vec_init_mean_swap nSpecies eve_i eve_j),
    (vec_init_mean_swap nSpecies Diffusion_Coeff_i Diffusion_Coeff_j).
  rewrite (Rplus_comm Laminar_Viscosity_j),
    (Rplus_comm Thermal_Conductivity_j),
    (Rplus_comm Thermal_Conductivity_ve_j).
  apply GetViscousProjFlux_vneg.
Qed.

(** ** Viscous flux: what it carries *)

Section ViscousContent.
Variables (nDim nSpecies nVar : nat) (CalcHs : R -> R -> nat -> R) (TWO3 : R).
Variables (P : vec) (G : mat) (e n D : vec) (mu ktr kve : R).

Local Abbreviation FT :=
  (CAvgGrad_TNE2.Flux_Tensor nDim nSpecies CalcHs TWO3 P G e D mu ktr kve).

(** Without gradients there is no flux. *)
Lemma Flux_Tensor_uniform (r c : nat) :
  (forall k d, G k d = 0) -> FT r c = 0.
Proof.
  intros HG.
  assert (HV : forall d, CAvgGrad_TNE2.Vector nDim nSpecies P G D d = 0).
  { intros d. unfold CAvgGrad_TNE2.Vector. apply sum_upto_zero.
    intros s _. rewrite HG. ring. }
  assert (HS : forall s d,
             CAvgGrad_TNE2.SpeciesFlux nDim nSpecies P G D s d = 0).
  { intros s d. unfold CAvgGrad_TNE2.SpeciesFlux. rewrite HV, HG. ring. }
  assert (Ht : forall i j, CAvgGrad_TNE2.tau nDim nSpecies TWO3 G mu i j = 0).
  { intros i j. unfold CAvgGrad_TNE2.tau, CAvgGrad_TNE2.div_vel.
    rewrite !HG. rewrite (sum_upto_zero nDim) by (intros; apply HG).
    destruct (Nat.eqb i j); ring. }
  unfold CAvgGrad_TNE2.Flux_Tensor.
  rewrite !(sum_upto_zero nDim) by (intros; rewrite Ht; ring).
  rewrite !(sum_upto_zero nSpecies) by (intros; rewrite HS; ring).
  rewrite HS, Ht, !HG.
  nat_cases; ring.
Qed.

(** The diffusion fluxes of the species add up to the sum of the
    diffusion fluxes less its share of the mass fractions. *)
Lemma SpeciesFlux_sum (d : nat) :
  sum_upto nSpecies (fun s =>
    CAvgGrad_TNE2.SpeciesFlux nDim nSpecies P G D s d) =
  (1 - sum_upto nSpecies (fun s => P (CNumerics.RHOS_INDEX + s)%nat))
  * CAvgGrad_TNE2.Vector nDim nSpecies P G D d.
Proof.
  unfold CAvgGrad_TNE2.SpeciesFlux.
  set (V := CAvgGrad_TNE2.Vector nDim nSpecies P G D d).
  rewrite (sum_upto_ext nSpecies _
             (fun s => P (CNumerics.RHO_INDEX nDim nSpecies) * D s
                       * G (CNumerics.RHOS_INDEX + s)%nat d
                       + - (P (CNumerics.RHOS_INDEX + s)%nat * V)))
    by (intros; ring).
  rewrite sum_upto_plus, sum_upto_opp, sum_upto_scal_r.
  fold (CAvgGrad_TNE2.Vector nDim nSpecies P G D d). fold V. ring.
Qed.

Lemma GetViscousProjFlux_species_sum :
  (nSpecies <= nVar)%nat ->
  exists r,
    CAvgGrad_TNE2.GetViscousProjFlux nDim nSpecies nVar false CalcHs TWO3
      P G e n D mu ktr kve = Returns r /\
    sum_upto nSpecies r =
    (1 - sum_upto nSpecies (fun s => P (CNumerics.RHOS_INDEX + s)%nat))
    * sum_upto nDim (fun d =>
        CAvgGrad_TNE2.Vector nDim nSpecies P G D d * n d).
Proof.
  intros HV. rewrite GetViscousProjFlux_closed. eexists.
  split; [reflexivity|].
  rewrite (sum_upto_ext nSpecies _
             (fun s => sum_upto nDim (fun d =>
                CAvgGrad_TNE2.SpeciesFlux nDim nSpecies P G D s d * n d))).
  2:{ intros s Hs. rewrite vec_init_lt by lia. apply sum_upto_ext.
      intros d _. unfold CAvgGrad_TNE2.Flux_Tensor.
      destruct (Nat.ltb_spec s nSpecies); [reflexivity|lia]. }
  rewrite sum_upto_swap.
  rewrite (sum_upto_ext nDim _
             (fun d =>
                (1 - sum_upto nSpecies
                       (fun s => P (CNumerics.RHOS_INDEX + s)%nat))
                * (CAvgGrad_TNE2.Vector nDim nSpecies P G D d * n d)))
    by (intros d _; rewrite sum_upto_scal_r, SpeciesFlux_sum; ring).
  apply sum_upto_scal.
Qed.
End ViscousContent.

Section ViscousMass.
Variables (nDim nSpecies nPrimVar : nat) (V_i V_j : vec).
Hypothesis Hi : sum_upto nSpecies (fun s => V_i s)
                = V_i (CNumerics.RHO_INDEX nDim nSpecies).
Hypothesis Hj : sum_upto nSpecies (fun s => V_j s)
                = V_j (CNumerics.RHO_INDEX nDim nSpecies).
Hypothesis Hri : V_i (CNumerics.RHO_INDEX nDim nSpecies) <> 0.
Hypothesis Hrj : V_j (CNumerics.RHO_INDEX nDim nSpecies) <> 0.

(** The mean mass fractions of two nodes whose species densities add up
    to the density add up to one. *)
Lemma Mean_PrimVar_fractions :
  sum_upto nSpecies (fun s =>
    CAvgGrad_TNE2.Mean_PrimVar nDim nSpecies nPrimVar V_i V_j
      (CNumerics.RHOS_INDEX + s)%nat) = 1.
Proof.
  rewrite (sum_upto_ext nSpecies _
             (fun s => 0.5 * / V_i (CNumerics.RHO_INDEX nDim nSpecies)
                       * V_i s
                       + 0.5 * / V_j (CNumerics.RHO_INDEX nDim nSpecies)
                         * V_j s)).
  2:{ intros s Hs. unfold CNumerics.RHOS_INDEX. simpl.
      unfold CAvgGrad_TNE2.Mean_PrimVar, CAvgGrad_TNE2.PrimVar_i,
        CAvgGrad_TNE2.PrimVar_j, vec_init2.
      destruct (Nat.ltb_spec s nSpecies); [|lia]. unfold Rdiv. lra. }
  rewrite sum_upto_plus, !sum_upto_scal.
  change (sum_upto nSpecies (fun s => V_i s)) with (sum_upto nSpecies V_i)
    in Hi.
  change (sum_upto nSpecies (fun s => V_j s)) with (sum_upto nSpecies V_j)
    in Hj.
  rewrite ?Hi, ?Hj.
  rewrite !Rmult_assoc, !Rinv_l by assumption. lra.
Qed.
End ViscousMass.

(** X12. Between two nodes of nonzero density without gradients the viscous
    residual of a mixture that is not ionized is zero. *)
Theorem AvgGrad_zero_without_gradients
    (nDim nSpecies nVar nPrimVar nPrimVarGrad : nat)
    (CalcHs : R -> R -> nat -> R) (TWO3 : R)
    (V_i V_j : vec) (PrimVar_Grad_i PrimVar_Grad_j : mat)
    (Diffusion_Coeff_i Diffusion_Coeff_j eve_i eve_j : vec)
    (Laminar_Viscosity_i Laminar_Viscosity_j : R)
    (Thermal_Conductivity_i Thermal_Conductivity_j : R)
    (Thermal_Conductivity_ve_i Thermal_Conductivity_ve_j : R)
    (Normal : vec) :
  V_i (CNumerics.RHO_INDEX nDim nSpecies) <> 0 ->
  V_j (CNumerics.RHO_INDEX nDim nSpecies) <> 0 ->
  (forall iVar iDim, PrimVar_Grad_i iVar iDim = 0) ->
  (forall iVar iDim, PrimVar_Grad_j iVar iDim = 0) ->
  exists val_residual,
    CAvgGrad_TNE2.ComputeResidual nDim nSpecies nVar nPrimVar nPrimVarGrad
      false CalcHs TWO3 V_i V_j PrimVar_Grad_i PrimVar_Grad_j
      Diffusion_Coeff_i Diffusion_Coeff_j eve_i eve_j
      Laminar_Viscosity_i Laminar_Viscosity_j
      Thermal_Conductivity_i Thermal_Conductivity_j
      Thermal_Conductivity_ve_i Thermal_Conductivity_ve_j Normal
    = Returns val_residual /\
    forall iVar, val_residual iVar = 0.
Proof.
  intros Hri Hrj Gi Gj. unfold CAvgGrad_TNE2.ComputeResidual.
  rewrite GetViscousProjFlux_truncated, GetViscousProjFlux_closed.
  eexists. split; [reflexivity|]. intros k. unfold vec_init.
  destruct (Nat.ltb k nVar); [|reflexivity].
  apply sum_upto_zero. intros d _.
  rewrite Flux_Tensor_uniform; [ring|].
  intros r c. unfold CAvgGrad_TNE2.Mean_GradPrimVar, vec_init2.
  rewrite !Gi, !Gj.
  destruct (Nat.ltb c nDim); [|reflexivity].
  destruct (Nat.ltb r nSpecies); [|destruct (Nat.ltb r nPrimVarGrad); lra].
  rewrite !Rmult_0_r, !Rminus_diag, !Rmult_0_r. lra.
Qed.

(** X13. The viscous schemes create no mass: where the species densities
    of each node add up to its density, the species rows of the residual
    of a mixture that is not ionized add up to zero, with and without the
    edge correction. *)
Theorem viscous_species_rows_sum_to_zero
    (nDim nSpecies nVar nPrimVar nPrimVarGrad : nat)
    (CalcHs : R -> R -> nat -> R) (TWO3 : R)
    (V_i V_j : vec) (PrimVar_Grad_i PrimVar_Grad_j : mat)
    (Diffusion_Coeff_i Diffusion_Coeff_j eve_i eve_j : vec)
    (Laminar_Viscosity_i Laminar_Viscosity_j : R)
    (Thermal_Conductivity_i Thermal_Conductivity_j : R)
    (Thermal_Conductivity_ve_i Thermal_Conductivity_ve_j : R)
    (Normal Coord_i Coord_j : vec) :
  (nSpecies <= nVar)%nat ->
  sum_upto nSpecies (fun s => V_i s)
    = V_i (CNumerics.RHO_INDEX nDim nSpecies) ->
  sum_upto nSpecies (fun s => V_j s)
    = V_j (CNumerics.RHO_INDEX nDim nSpecies) ->
  V_i (CNumerics.RHO_INDEX nDim nSpecies) <> 0 ->
  V_j (CNumerics.RHO_INDEX nDim nSpecies) <> 0 ->
  (exists val_residual,
     CAvgGrad_TNE2.ComputeResidual nDim nSpecies nVar nPrimVar nPrimVarGrad
       false CalcHs TWO3 V_i V_j PrimVar_Grad_i PrimVar_Grad_j
       Diffusion_Coeff_i Diffusion_Coeff_j eve_i eve_j
       Laminar_Viscosity_i Laminar_Viscosity_j
       Thermal_Conductivity_i Thermal_Conductivity_j
       Thermal_Conductivity_ve_i Thermal_Conductivity_ve_j Normal
     = Returns val_residual /\
     sum_upto nSpecies val_residual = 0) /\
  (exists val_residual,
     CAvgGradCorrected_TNE2.ComputeResidual nDim nSpecies nVar nPrimVar
       nPrimVarGrad false CalcHs TWO3 V_i V_j PrimVar_Grad_i PrimVar_Grad_j
       Diffusion_Coeff_i Diffusion_Coeff_j eve_i eve_j
       Laminar_Viscosity_i Laminar_Viscosity_j
       Thermal_Conductivity_i Thermal_Conductivity_j
       Thermal_Conductivity_ve_i Thermal_Conductivity_ve_j
       Normal Coord_i Coord_j
     = Returns val_residual /\
     sum_upto nSpecies val_residual = 0).
Proof.
  intros HV Hi Hj Hri Hrj.
  pose proof (Mean_PrimVar_fractions nDim nSpecies nPrimVar V_i V_j
                Hi Hj Hri Hrj) as HY.
  split.
  - unfold CAvgGrad_TNE2.ComputeResidual.
    rewrite GetViscousProjFlux_truncated.
    match goal with
    | |- exists _, CAvgGrad_TNE2.GetViscousProjFlux _ _ _ _ _ _
                     ?P ?G ?e ?n ?D ?mu ?ktr ?kve = _ /\ _ =>
        destruct (GetViscousProjFlux_species_sum nDim nSpecies nVar CalcHs
                    TWO3 P G e n D mu ktr kve HV) as [res [Hr Hs]];
        exists res; split; [exact Hr|rewrite Hs]
    end.
    rewrite HY. ring.
  - unfold CAvgGradCorrected_TNE2.ComputeResidual,
      CAvgGradCorrected_TNE2.GetViscousProjFlux.
    rewrite GetViscousProjFlux_truncated.
    match goal with
    | |- exists _, CAvgGrad_TNE2.GetViscousProjFlux _ _ _ _ _ _
                     ?P ?G ?e ?n ?D ?mu ?ktr ?kve = _ /\ _ =>
        destruct (GetViscousProjFlux_species_sum nDim nSpecies nVar CalcHs
                    TWO3 P G e n D mu ktr kve HV) as [res [Hr Hs]];
        exists res; split; [exact Hr|rewrite Hs]
    end.
    change (CAvgGradCorrected_TNE2.Mean_PrimVar nDim nSpecies nPrimVar
              V_i V_j)
      with (CAvgGrad_TNE2.Mean_PrimVar nDim nSpecies nPrimVar V_i V_j).
    rewrite HY. ring.
Qed.

(** ** Equilibrium constants: the table look-up inside its range *)

(** X14. In the decade of [10^14] [GetKeqConstants] returns the bottom row
    of the table and from [10^19] on, up to the largest value [pwr] can
    hold, the top row: no interpolation takes place there. *)
Theorem Keq_end_rows
    (nSpecies : nat) (Ms : vec) (Table : nat -> mat) (AVOGAD_CONSTANT : R)
    (V_i : vec) (val_Reaction k : nat) :
  k = 14%nat \/ (19 <= Z.of_nat k <= 65535)%Z ->
  10 ^ k <= CSource_TNE2.NumberDensity nSpecies Ms AVOGAD_CONSTANT V_i
    < 10 ^ (k + 1) ->
  CSource_TNE2.GetKeqConstants nSpecies Ms Table AVOGAD_CONSTANT V_i
    val_Reaction =
  Some (vec_init 5 (fun ii =>
    Table val_Reaction (if Nat.eqb k 14 then 0%nat else 5%nat) ii)).
Proof.
  intros Hk HN.
  rewrite (GetKeqConstants_decade nSpecies Ms Table AVOGAD_CONSTANT V_i
             val_Reaction k) by (lia || exact HN).
  unfold ushort_of_int. cbv zeta.
  rewrite Z.mod_small by lia.
  destruct Hk as [->|Hk]; [reflexivity|].
  destruct (Nat.eqb_spec k 14); [lia|].
  destruct (Z.leb_spec (Z.of_nat k - 14) 0); [lia|].
  destruct (Z.geb_spec (Z.of_nat k - 14) 5); [reflexivity|lia].
Qed.

(** X15. Between [10^15] and [10^19] every coefficient [GetKeqConstants]
    returns lies between the entries of the two table rows of the decade,
    and at the start of the decade it is the entry of the lower row. *)
Theorem Keq_interpolation_within_rows
    (nSpecies : nat) (Ms : vec) (Table : nat -> mat) (AVOGAD_CONSTANT : R)
    (V_i : vec) (val_Reaction k ii : nat) :
  (15 <= k <= 18)%nat -> (ii < 5)%nat ->
  10 ^ k <= CSource_TNE2.NumberDensity nSpecies Ms AVOGAD_CONSTANT V_i
    < 10 ^ (k + 1) ->
  exists A,
    CSource_TNE2.GetKeqConstants nSpecies Ms Table AVOGAD_CONSTANT V_i
      val_Reaction = Some A /\
    Rmin (Table val_Reaction (k - 14)%nat ii)
         (Table val_Reaction (k - 14 + 1)%nat ii) <= A ii <=
    Rmax (Table val_Reaction (k - 14)%nat ii)
         (Table val_Reaction (k - 14 + 1)%nat ii) /\
    (CSource_TNE2.NumberDensity nSpecies Ms AVOGAD_CONSTANT V_i = 10 ^ k ->
     A ii = Table val_Reaction (k - 14)%nat ii).
Proof.
  intros Hk Hii HN.
  rewrite (GetKeqConstants_between nSpecies Ms Table AVOGAD_CONSTANT V_i
             val_Reaction k Hk HN).
  eexists. split; [reflexivity|].
  rewrite vec_init_lt by exact Hii.
  set (N := CSource_TNE2.NumberDensity nSpecies Ms AVOGAD_CONSTANT V_i) in *.
  set (a := Table val_Reaction (k - 14)%nat ii).
  set (b := Table val_Reaction (k - 14 + 1)%nat ii).
  assert (Hp : 0 < 10 ^ k) by (apply pow_lt; lra).
  assert (HN' : 10 ^ k <= N < 10 ^ k * 10).
  { replace (10 ^ k * 10) with (10 ^ (k + 1)); [exact HN|].
    rewrite pow_add. simpl. ring. }
  set (p := 10 ^ k) in *.
  set (t := (N - p) / (p * 10 - p)).
  assert (Ht : 0 <= t < 1).
  { unfold t. split.
    - apply Rmult_le_pos; [lra|]. apply Rlt_le, Rinv_0_lt_compat. lra.
    - apply (Rmult_lt_reg_r (p * 10 - p)); [lra|].
      unfold Rdiv. rewrite Rmult_assoc, Rinv_l by lra. lra. }
  replace ((b - a) / (p * 10 - p) * (N - p) + a) with (a + (b - a) * t)
    by (unfold t; field; lra).
  split.
  - unfold Rmin, Rmax. destruct (Rle_dec a b); split; nra.
  - intros E. unfold t. rewrite E. unfold Rdiv. ring.
Qed.

(** ** Chemistry: the controlling temperature and the rows it writes *)

(** The smooth maximum of lines 3361-3362 lies above its two arguments,
    by no more than half of [epsilon]. *)
Lemma smooth_floor (x : R) :
  let Th := 0.5 * (x + CSource_TNE2.T_min
                   + sqrt ((x - CSource_TNE2.T_min)
                           * (x - CSource_TNE2.T_min)
                           + CSource_TNE2.epsilon * CSource_TNE2.epsilon)) in
  Rmax x CSource_TNE2.T_min < Th <= Rmax x CSource_TNE2.T_min + 40.
Proof.
  unfold CSource_TNE2.T_min, CSource_TNE2.epsilon. cbv zeta.
  set (d := x - 800).
  assert (Hs : Rabs d < sqrt (d * d + 80 * 80) <= Rabs d + 80).
  { split.
    - rewrite <- (sqrt_Rsqr_abs d). apply sqrt_lt_1_alt.
      unfold Rsqr. nra.
    - rewrite <- (sqrt_Rsqr (Rabs d + 80))
        by (pose proof (Rabs_pos d); lra).
      apply sqrt_le_1_alt. unfold Rsqr.
      pose proof (Rabs_pos d) as Hd.
      assert (E : Rabs d * Rabs d = d * d).
      { fold (Rsqr (Rabs d)). rewrite <- Rsqr_abs. reflexivity. }
      nra. }
  unfold d in *. clear d.
  unfold Rmax. destruct (Rle_dec x 800) as [H|H].
  - rewrite Rabs_left1 in Hs by lra. lra.
  - rewrite Rabs_right in Hs by lra. lra.
Qed.

(** X16. The temperatures [Thf] and [Thb] that control the forward and
    backward rates of a reaction lie above 800 and above the temperature
    they smooth, by no more than 40. *)
Theorem controlling_temperature_floor
    (nSpecies : nat) (Tcf_a Tcf_b Tcb_a Tcb_b V_i : vec) (iReaction : nat) :
  let Trxnf := CSource_TNE2.Trxnf nSpecies Tcf_a Tcf_b V_i iReaction in
  let Trxnb := CSource_TNE2.Trxnb nSpecies Tcb_a Tcb_b V_i iReaction in
  let Thf := CSource_TNE2.Thf nSpecies Tcf_a Tcf_b V_i iReaction in
  let Thb := CSource_TNE2.Thb nSpecies Tcb_a Tcb_b V_i iReaction in
  Rmax Trxnf 800 < Thf <= Rmax Trxnf 800 + 40 /\
  Rmax Trxnb 800 < Thb <= Rmax Trxnb 800 + 40.
Proof.
  cbv zeta. split.
  - apply (smooth_floor (CSource_TNE2.Trxnf nSpecies Tcf_a Tcf_b V_i
                           iReaction)).
  - apply (smooth_floor (CSource_TNE2.Trxnb nSpecies Tcb_a Tcb_b V_i
                           iReaction)).
Qed.

Section ChemistryRows.
Variables (nDim nSpecies nVar : nat) (Ms : vec).
Variable Table : nat -> mat.
Variable RxnMap : nat -> nat -> nat -> nat.
Variables (Tcf_a Tcf_b Tcb_a Tcb_b : vec) (Cf eta theta : nat -> R).
Variables (AVOGAD_CONSTANT : R) (U_i V_i eve_i : vec) (Volume : R).

(** One reaction writes the rows of the species in its slots and the
    vibrational-energy row. *)
Lemma ReactionResidual_other (iReaction : nat) (A r : vec) (k : nat) :
  (forall side ii, (side < 2)%nat -> (ii < 3)%nat ->
     (RxnMap iReaction side ii <= nSpecies)%nat) ->
  (nSpecies <= k)%nat -> k <> (nSpecies + nDim + 1)%nat ->
  CSource_TNE2.ReactionResidual nDim nSpecies Ms RxnMap Tcf_a Tcf_b
    Tcb_a Tcb_b Cf eta theta U_i V_i eve_i Volume iReaction A r k = r k.
Proof.
  intros Hmap Hk HE. unfold CSource_TNE2.ReactionResidual. cbv zeta.
  assert (Hslot : forall (s : nat) (q : vec) (x y : R),
             (s <= nSpecies)%nat ->
             (if Nat.eqb s nSpecies then q
              else upd (upd q s x) (nSpecies + nDim + 1) y) k = q k).
  { intros s q x y Hs. destruct (Nat.eqb_spec s nSpecies); [reflexivity|].
    unfold upd. destruct (Nat.eqb_spec k (nSpecies + nDim + 1)); [lia|].
    destruct (Nat.eqb_spec k s); [lia|reflexivity]. }
  simpl. rewrite !Hslot by (apply Hmap; lia). reflexivity.
Qed.

End ChemistryRows.

(** X17. Chemistry creates neither momentum nor total energy: where the
    slots of the reaction map hold species indices or the empty mark and
    the function returns, the residual is zero past the species rows, but
    for the vibrational-energy row. *)
Theorem chemistry_leaves_momentum_and_energy
    (nDim nSpecies nVar : nat) (Ms : vec) (Table : nat -> mat)
    (RxnMap : nat -> nat -> nat -> nat)
    (Tcf_a Tcf_b Tcb_a Tcb_b : vec) (Cf eta theta : nat -> R)
    (AVOGAD_CONSTANT : R) (U_i V_i eve_i : vec) (Volume : R)
    (nReactions : nat) (val_residual : vec) (iVar : nat) :
  (forall iReaction side ii,
     (iReaction < nReactions)%nat -> (side < 2)%nat -> (ii < 3)%nat ->
     (RxnMap iReaction side ii <= nSpecies)%nat) ->
  CSource_TNE2.ComputeChemistry nDim nSpecies nVar Ms Table RxnMap
    Tcf_a Tcf_b Tcb_a Tcb_b Cf eta theta AVOGAD_CONSTANT U_i V_i eve_i
    Volume nReactions = Some val_residual ->
  (nSpecies <= iVar < nVar)%nat -> iVar <> (nSpecies + nDim + 1)%nat ->
  val_residual iVar = 0.
Proof.
  unfold CSource_TNE2.ComputeChemistry. revert val_residual.
  induction nReactions as [|n IH]; intros r Hmap Hr [Hk Hlt] HE.
  - simpl in Hr. injection Hr as <-. unfold vec_init.
    destruct (Nat.ltb iVar nVar); reflexivity.
  - simpl in Hr.
    destruct (for_range_opt n _ _) as [t|] eqn:Ht; [|discriminate].
    unfold CSource_TNE2.ReactionStep in Hr.
    destruct (CSource_TNE2.GetKeqConstants _ _ _ _ _ _) as [A|];
      [|discriminate].
    injection Hr as <-.
    rewrite ReactionResidual_other
      by (try assumption; intros; apply Hmap; lia).
    apply IH; try assumption; [|reflexivity|lia].
    intros; apply Hmap; lia.
Qed.

Section ChemistryTotalMass.
Variables (nDim nSpecies nVar : nat) (Ms : vec).
Variable Table : nat -> mat.
Variable RxnMap : nat -> nat -> nat -> nat.
Variables (Tcf_a Tcf_b Tcb_a Tcb_b : vec) (Cf eta theta : nat -> R).
Variables (AVOGAD_CONSTANT : R) (U_i V_i eve_i : vec) (Volume : R).

(** The species mass one reaction adds, slot by slot. *)
Lemma ReactionResidual_species_sum (iReaction : nat) (A r : vec) :
  (forall side ii, (side < 2)%nat -> (ii < 3)%nat ->
     (RxnMap iReaction side ii <= nSpecies)%nat) ->
  sum_upto nSpecies
    (CSource_TNE2.ReactionResidual nDim nSpecies Ms RxnMap Tcf_a Tcf_b
       Tcb_a Tcb_b Cf eta theta U_i V_i eve_i Volume iReaction A r) =
  sum_upto nSpecies r
  + Volume
    * (CSource_TNE2.fwdRxn nSpecies Ms RxnMap Tcf_a Tcf_b Cf eta theta
         U_i V_i iReaction
       - CSource_TNE2.bkwRxn nSpecies Ms RxnMap Tcb_a Tcb_b Cf eta theta
           U_i V_i iReaction A)
    * (sum_upto 3 (fun ii =>
         CSource_TNE2.SlotMolarMass nSpecies Ms (RxnMap iReaction 1%nat ii))
       - sum_upto 3 (fun ii =>
           CSource_TNE2.SlotMolarMass nSpecies Ms
             (RxnMap iReaction 0%nat ii))).
Proof.
  intros Hmap. unfold CSource_TNE2.ReactionResidual. cbv zeta.
  unfold sum_upto at 3 4. cbn [for_range].
  pose proof (Hmap 0%nat 0%nat ltac:(lia) ltac:(lia)) as H00.
  pose proof (Hmap 0%nat 1%nat ltac:(lia) ltac:(lia)) as H01.
  pose proof (Hmap 0%nat 2%nat ltac:(lia) ltac:(lia)) as H02.
  pose proof (Hmap 1%nat 0%nat ltac:(lia) ltac:(lia)) as H10.
  pose proof (Hmap 1%nat 1%nat ltac:(lia) ltac:(lia)) as H11.
  pose proof (Hmap 1%nat 2%nat ltac:(lia) ltac:(lia)) as H12.
  rewrite !(species_sum_slot nDim nSpecies) by assumption.
  unfold CSource_TNE2.SlotMolarMass.
  destruct (Nat.eqb (RxnMap iReaction 0%nat 0%nat) nSpecies),
           (Nat.eqb (RxnMap iReaction 0%nat 1%nat) nSpecies),
           (Nat.eqb (RxnMap iReaction 0%nat 2%nat) nSpecies),
           (Nat.eqb (RxnMap iReaction 1%nat 0%nat) nSpecies),
           (Nat.eqb (RxnMap iReaction 1%nat 1%nat) nSpecies),
           (Nat.eqb (RxnMap iReaction 1%nat 2%nat) nSpecies); ring.
Qed.
End ChemistryTotalMass.

(** X18. Chemistry creates no mass: where every reaction has slots that
    hold species indices or the empty mark and as much molar mass in its
    product slots as in its reactant slots, the species rows of the
    residual the function returns add up to zero. *)
Theorem chemistry_conserves_mass
    (nDim nSpecies nVar : nat) (Ms : vec) (Table : nat -> mat)
    (RxnMap : nat -> nat -> nat -> nat)
    (Tcf_a Tcf_b Tcb_a Tcb_b : vec) (Cf eta theta : nat -> R)
    (AVOGAD_CONSTANT : R) (U_i V_i eve_i : vec) (Volume : R)
    (nReactions : nat) (val_residual : vec) :
  (forall iReaction side ii,
     (iReaction < nReactions)%nat -> (side < 2)%nat -> (ii < 3)%nat ->
     (RxnMap iReaction side ii <= nSpecies)%nat) ->
  (forall iReaction, (iReaction < nReactions)%nat ->
     sum_upto 3 (fun ii =>
       CSource_TNE2.SlotMolarMass nSpecies Ms (RxnMap iReaction 1%nat ii)) =
     sum_upto 3 (fun ii =>
       CSource_TNE2.SlotMolarMass nSpecies Ms (RxnMap iReaction 0%nat ii))) ->
  CSource_TNE2.ComputeChemistry nDim nSpecies nVar Ms Table RxnMap
    Tcf_a Tcf_b Tcb_a Tcb_b Cf eta theta AVOGAD_CONSTANT U_i V_i eve_i
    Volume nReactions = Some val_residual ->
  sum_upto nSpecies val_residual = 0.
Proof.
  unfold CSource_TNE2.ComputeChemistry. revert val_residual.
  induction nReactions as [|n IH]; intros r Hmap Hbal Hr.
  - simpl in Hr. injection Hr as <-. apply sum_upto_zero.
    intros s _. unfold vec_init. destruct (Nat.ltb s nVar); reflexivity.
  - simpl in Hr.
    destruct (for_range_opt n _ _) as [t|] eqn:Ht; [|discriminate].
    unfold CSource_TNE2.ReactionStep in Hr.
    destruct (CSource_TNE2.GetKeqConstants _ _ _ _ _ _) as [A|];
      [|discriminate].
    injection Hr as <-.
    rewrite ReactionResidual_species_sum by (intros; apply Hmap; lia).
    rewrite (Hbal n) by lia.
    rewrite (IH t); [ring| |intros; apply Hbal; lia|reflexivity].
    intros; apply Hmap; lia.
Qed.

(** ** Vibrational relaxation: the residual *)

(** A loop that adds [g s] to the entry [e] at every turn. *)
Lemma for_range_accumulate (n e : nat) (g : nat -> R) (r : vec) (k : nat) :
  for_range n (fun s r => upd r e (r e + g s)) r k =
  if Nat.eqb k e then r e + sum_upto n g else r k.
Proof.
  induction n as [|n IH].
  - simpl. unfold sum_upto. simpl.
    destruct (Nat.eqb_spec k e) as [E|_]; [rewrite E; ring|reflexivity].
  - rewrite sum_upto_S. simpl. unfold upd at 1.
    destruct (Nat.eqb_spec k e) as [E|HE]; [|exact IH].
    clear IH. 
    assert (IH : for_range n (fun s r => upd r e (r e + g s)) r e =
                 r e + sum_upto n g).
    { clear. induction n as [|n IH].
      - simpl. unfold sum_upto. simpl. ring.
      - rewrite sum_upto_S. simpl. unfold upd at 1.
        rewrite Nat.eqb_refl, IH. ring. }
    rewrite IH. ring.
Qed.

Section VibResidual.
Variables (nDim nSpecies nVar : nat) (Ms thetav : vec).
Variables (AVOGAD_CONSTANT UNIVERSAL_GAS_CONSTANT PI_NUMBER : R).
Variables (V_i eve_i : vec) (Volume : R) (CalcEve : R -> nat -> R).

(** The loop over the species adds one Landau-Teller term each to the
    vibrational-energy row and writes no other. *)
Lemma ComputeVibRelaxation_at (k : nat) :
  CSource_TNE2.ComputeVibRelaxation nDim nSpecies nVar Ms thetav
    AVOGAD_CONSTANT UNIVERSAL_GAS_CONSTANT PI_NUMBER V_i eve_i Volume
    CalcEve k =
  if Nat.eqb k (nSpecies + nDim + 1)
  then sum_upto nSpecies (fun iSpecies =>
         V_i (CNumerics.RHOS_INDEX + iSpecies)%nat
         * (CSource_TNE2.estar nSpecies V_i CalcEve iSpecies
            - eve_i iSpecies)
         / CSource_TNE2.taus nDim nSpecies Ms thetav AVOGAD_CONSTANT
             UNIVERSAL_GAS_CONSTANT PI_NUMBER V_i iSpecies
         * Volume)
  else 0.
Proof.
  unfold CSource_TNE2.ComputeVibRelaxation. cbv zeta.
  rewrite (for_range_accumulate nSpecies (nSpecies + nDim + 1)
             (fun iSpecies =>
                V_i (CNumerics.RHOS_INDEX + iSpecies)%nat
                * (CSource_TNE2.estar nSpecies V_i CalcEve iSpecies
                   - eve_i iSpecies)
                / CSource_TNE2.taus nDim nSpecies Ms thetav AVOGAD_CONSTANT
                    UNIVERSAL_GAS_CONSTANT PI_NUMBER V_i iSpecies
                * Volume)).
  assert (Z : forall q, vec_init nVar (fun _ => 0) q = 0).
  { intros q. unfold vec_init. destruct (Nat.ltb q nVar); reflexivity. }
  rewrite !Z. destruct (Nat.eqb k (nSpecies + nDim + 1)); [ring|reflexivity].
Qed.
End VibResidual.

(** X19. At thermal equilibrium, where the vibrational energy of every
    species is its energy at the translational temperature and the
    relaxation times are not zero, the relaxation residual is zero. *)
Theorem vib_relaxation_zero_at_equilibrium
    (nDim nSpecies nVar : nat) (Ms thetav : vec)
    (AVOGAD_CONSTANT UNIVERSAL_GAS_CONSTANT PI_NUMBER : R)
    (V_i eve_i : vec) (Volume : R) (CalcEve : R -> nat -> R) (iVar : nat) :
  (iVar < nVar)%nat ->
  (forall iSpecies, (iSpecies < nSpecies)%nat ->
     CSource_TNE2.taus nDim nSpecies Ms thetav AVOGAD_CONSTANT
       UNIVERSAL_GAS_CONSTANT PI_NUMBER V_i iSpecies <> 0) ->
  (forall iSpecies, (iSpecies < nSpecies)%nat ->
     eve_i iSpecies = CalcEve (V_i (CNumerics.T_INDEX nSpecies)) iSpecies) ->
  CSource_TNE2.ComputeVibRelaxation nDim nSpecies nVar Ms thetav
    AVOGAD_CONSTANT UNIVERSAL_GAS_CONSTANT PI_NUMBER V_i eve_i Volume
    CalcEve iVar = 0.
Proof.
  intros HiVar Htau Heq. rewrite ComputeVibRelaxation_at.
  destruct (Nat.eqb iVar (nSpecies + nDim + 1)); [|reflexivity].
  apply sum_upto_zero. intros s Hs.
  unfold CSource_TNE2.estar, CSource_TNE2.T. rewrite Heq by exact Hs.
  unfold Rdiv. ring.
Qed.

(** X20. Relaxation drives the vibrational energy towards equilibrium: with
    positive relaxation times, where no species holds more vibrational
    energy than at the translational temperature the residual writes a
    nonnegative source in the vibrational-energy row, and nothing in the
    other rows. *)
Theorem vib_relaxation_towards_equilibrium
    (nDim nSpecies nVar : nat) (Ms thetav : vec)
    (AVOGAD_CONSTANT UNIVERSAL_GAS_CONSTANT PI_NUMBER : R)
    (V_i eve_i : vec) (Volume : R) (CalcEve : R -> nat -> R) :
  0 <= Volume ->
  (forall s, (s < nSpecies)%nat -> 0 <= V_i (CNumerics.RHOS_INDEX + s)%nat) ->
  (forall s, (s < nSpecies)%nat ->
     0 < CSource_TNE2.taus nDim nSpecies Ms thetav AVOGAD_CONSTANT
           UNIVERSAL_GAS_CONSTANT PI_NUMBER V_i s) ->
  (forall s, (s < nSpecies)%nat ->
     eve_i s <= CalcEve (V_i (CNumerics.T_INDEX nSpecies)) s) ->
  let val_residual :=
    CSource_TNE2.ComputeVibRelaxation nDim nSpecies nVar Ms thetav
      AVOGAD_CONSTANT UNIVERSAL_GAS_CONSTANT PI_NUMBER V_i eve_i Volume
      CalcEve in
  0 <= val_residual (nSpecies + nDim + 1)%nat /\
  forall iVar, (iVar < nVar)%nat -> iVar <> (nSpecies + nDim + 1)%nat ->
    val_residual iVar = 0.
Proof.
  intros HV Hrho Htau He val_residual. subst val_residual. split.
  - rewrite ComputeVibRelaxation_at, Nat.eqb_refl.
    apply sum_upto_nonneg. intros s Hs.
    apply Rmult_le_pos; [|exact HV].
    apply Rmult_le_pos.
    + apply Rmult_le_pos; [apply Hrho, Hs|].
      unfold CSource_TNE2.estar, CSource_TNE2.T.
      specialize (He s Hs). lra.
    + left. apply Rinv_0_lt_compat, Htau, Hs.
  - intros k _ Hk. rewrite ComputeVibRelaxation_at.
    destruct (Nat.eqb_spec k (nSpecies + nDim + 1)); [contradiction|].
    reflexivity.
Qed.

(** ** The axisymmetric source *)

Section Axisymmetric.
Variables (nDim nSpecies nVar : nat).
Variables (U_i V_i dPdU_i Coord_i Ys : vec) (Volume : R).
Variables (val_residual_in val_source_in : vec).

Local Abbreviation yinv := (ComputeAxisymmetric.yinv Coord_i).
Local Abbreviation rho := (ComputeAxisymmetric.rho nDim nSpecies V_i).
Local Abbreviation rhov := (ComputeAxisymmetric.rhov nSpecies U_i).
Local Abbreviation res :=
  (ComputeAxisymmetric.val_residual nDim nSpecies U_i V_i Coord_i Volume
     val_residual_in).

(** The rows of the residual. *)
Lemma Axisymmetric_residual_at (k : nat) :
  res k =
  if Nat.eqb k (nSpecies + 3)
  then yinv * rhov * U_i (nSpecies + nDim + 1)%nat / rho * Volume
  else if Nat.eqb k (nSpecies + 2)
  then yinv * rhov * ComputeAxisymmetric.H nDim nSpecies V_i * Volume
  else if Nat.eqb k (nSpecies + 1)
  then yinv * rhov * U_i (nSpecies + 1)%nat / rho * Volume
  else if Nat.eqb k nSpecies
  then yinv * rhov * U_i nSpecies / rho * Volume
  else if Nat.ltb k nSpecies
  then yinv * rhov * (V_i (CNumerics.RHOS_INDEX + k)%nat / rho) * Volume
  else val_residual_in k.
Proof.
  unfold ComputeAxisymmetric.val_residual. cbv zeta. unfold upd at 1 2 3 4.
  rewrite (for_range_store nSpecies 0
             (fun iSpecies => yinv * rhov
                * ComputeAxisymmetric.Y nDim nSpecies V_i iSpecies * Volume)).
  simpl. rewrite Nat.sub_0_r. unfold ComputeAxisymmetric.Y, vec_init.
  destruct (Nat.ltb k nSpecies); reflexivity.
Qed.

Lemma Axisymmetric_source_at (k : nat) :
  ComputeAxisymmetric.val_source nDim nSpecies nVar U_i V_i Coord_i Volume
    val_residual_in val_source_in k =
  if Nat.ltb k nVar then val_source_in k + res k / Volume
  else val_source_in k.
Proof.
  unfold ComputeAxisymmetric.val_source.
  apply (for_range_inplace nVar (fun iVar x => x + res iVar / Volume)).
Qed.
End Axisymmetric.

(** X21. On the axis, where the second coordinate of the node is zero,
    the axisymmetric source is switched off: in two dimensions, for a node
    of nonzero density and a nonzero volume, the residual is zero, the
    source array keeps what it held and the Jacobian is zero. *)
Theorem axisymmetric_source_off_on_the_axis
    (nSpecies nVar : nat) (U_i V_i dPdU_i Coord_i Ys : vec)
    (Volume : R) (val_residual_in val_source_in : vec) (iVar jVar : nat) :
  nVar = (nSpecies + 4)%nat -> Coord_i 1%nat = 0 -> Volume <> 0 ->
  V_i (CNumerics.RHO_INDEX 2 nSpecies) <> 0 ->
  (iVar < nVar)%nat -> (jVar < nVar)%nat ->
  ComputeAxisymmetric.val_residual 2 nSpecies U_i V_i Coord_i Volume
    val_residual_in iVar = 0 /\
  ComputeAxisymmetric.val_source 2 nSpecies nVar U_i V_i Coord_i Volume
    val_residual_in val_source_in iVar = val_source_in iVar /\
  ComputeAxisymmetric.val_Jacobian 2 nSpecies nVar U_i V_i dPdU_i
    Coord_i Ys Volume iVar jVar = 0.
Proof.
  intros HVar Hy HV Hrho Hi Hj.
  assert (Ey : ComputeAxisymmetric.yinv Coord_i = 0).
  { unfold ComputeAxisymmetric.yinv.
    destruct (Req_dec_T (Coord_i 1%nat) 0); [reflexivity|contradiction]. }
  assert (Er : ComputeAxisymmetric.val_residual 2 nSpecies U_i V_i
                 Coord_i Volume val_residual_in iVar = 0).
  { rewrite Axisymmetric_residual_at, Ey. unfold Rdiv.
    nat_cases; try ring. lia. }
  split; [exact Er|]. split.
  - rewrite Axisymmetric_source_at, Er.
    destruct (Nat.ltb iVar nVar); unfold Rdiv; ring.
  - unfold ComputeAxisymmetric.val_Jacobian. cbv zeta. rewrite Ey.
    destruct (Nat.ltb_spec iVar nVar); [|lia].
    destruct (Nat.ltb_spec jVar nVar); [|lia]. simpl. ring.
Qed.

(** X22. Where the species densities add up to the density, the species
    rows of the axisymmetric residual add up to the radial mass flux over
    the radius, times the volume. *)
Theorem axisymmetric_species_rows_sum
    (nDim nSpecies : nat) (U_i V_i Coord_i : vec) (Volume : R)
    (val_residual_in : vec) :
  V_i (CNumerics.RHO_INDEX nDim nSpecies) <> 0 ->
  sum_upto nSpecies (fun iSpecies =>
    V_i (CNumerics.RHOS_INDEX + iSpecies)%nat)
    = V_i (CNumerics.RHO_INDEX nDim nSpecies) ->
  sum_upto nSpecies
    (ComputeAxisymmetric.val_residual nDim nSpecies U_i V_i Coord_i Volume
       val_residual_in) =
  ComputeAxisymmetric.yinv Coord_i * U_i (nSpecies + 1)%nat * Volume.
Proof.
  intros Hrho Hsum.
  rewrite (sum_upto_ext nSpecies _
             (fun s => ComputeAxisymmetric.yinv Coord_i
                       * U_i (nSpecies + 1)%nat * Volume
                       * / V_i (CNumerics.RHO_INDEX nDim nSpecies)
                       * V_i (CNumerics.RHOS_INDEX + s)%nat)).
  2:{ intros s Hs. rewrite Axisymmetric_residual_at.
      destruct (Nat.eqb_spec s (nSpecies + 3)); [lia|].
      destruct (Nat.eqb_spec s (nSpecies + 2)); [lia|].
      destruct (Nat.eqb_spec s (nSpecies + 1)); [lia|].
      destruct (Nat.eqb_spec s nSpecies); [lia|].
      destruct (Nat.ltb_spec s nSpecies); [|lia].
      unfold ComputeAxisymmetric.rhov, ComputeAxisymmetric.rho, Rdiv. ring. }
  rewrite sum_upto_scal, Hsum. field. exact Hrho.
Qed.

Ltac nat_split :=
  repeat match goal with
  | |- context [Nat.eqb ?a ?b] =>
      destruct (Nat.eqb_spec a b); try (exfalso; lia)
  | |- context [Nat.ltb ?a ?b] =>
      destruct (Nat.ltb_spec a b); try (exfalso; lia)
  | |- context [Nat.leb ?a ?b] =>
      destruct (Nat.leb_spec a b); try (exfalso; lia)
  end.

Lemma upd2_at (a : mat) i j x r c :
  upd2 a i j x r c = if (Nat.eqb r i && Nat.eqb c j)%bool then x else a r c.
Proof. reflexivity. Qed.

(** A loop that stores [g s] in column [s] of row [d]. *)
Lemma for_range_row_store (n d : nat) (g : nat -> R) (F : mat)
    (r c : nat) :
  for_range n (fun s F => upd2 F d s (g s)) F r c =
  if (Nat.eqb r d && Nat.ltb c n)%bool then g c else F r c.
Proof.
  unfold upd2. induction n as [|n IH]; simpl.
  - now rewrite andb_false_r.
  - rewrite IH. nat_cases; subst; simpl; try reflexivity; lia.
Qed.

(** The nest of loops of lines 3757-3762: row [s] receives [g s t] in
    its first [n] columns and [y s] in column [e], which lies past
    them. *)
Lemma for_range_species_block (m n e : nat) (g : nat -> nat -> R)
    (y : nat -> R) (F : mat) (r c : nat) :
  (n <= e)%nat ->
  for_range m
    (fun s F =>
       upd2 (for_range n (fun t F => upd2 F s t (g s t)) F) s e (y s))
    F r c =
  if Nat.ltb r m then
    if Nat.eqb c e then y r else if Nat.ltb c n then g r c else F r c
  else F r c.
Proof.
  intros He. induction m as [|m IH]; simpl; [reflexivity|].
  rewrite upd2_at, for_range_row_store, IH.
  nat_cases; subst; simpl; try reflexivity; lia.
Qed.

Section AxisymmetricJacobian.
Variables (nSpecies nVar : nat).
Variables (U_i V_i dPdU_i Coord_i Ys : vec) (Volume : R).

Local Abbreviation yinv := (ComputeAxisymmetric.yinv Coord_i).
Local Abbreviation rho := (ComputeAxisymmetric.rho 2 nSpecies V_i).
Local Abbreviation rhou := (ComputeAxisymmetric.rhou nSpecies U_i).
Local Abbreviation rhov := (ComputeAxisymmetric.rhov nSpecies U_i).
Local Abbreviation rhoEve := (ComputeAxisymmetric.rhoEve 2 nSpecies U_i).
Local Abbreviation H := (ComputeAxisymmetric.H 2 nSpecies V_i).
Local Abbreviation Y := (ComputeAxisymmetric.Y 2 nSpecies V_i).
Local Abbreviation dYdr := (ComputeAxisymmetric.dYdr 2 nSpecies V_i Ys).

(** The entries of the Jacobian in two dimensions. *)
Lemma Axisymmetric_Jacobian_at (i j : nat) :
  (i < nVar)%nat -> (j < nVar)%nat ->
  ComputeAxisymmetric.val_Jacobian 2 nSpecies nVar U_i V_i dPdU_i Coord_i
    Ys Volume i j =
  (if Nat.eqb i (nSpecies + 3) then
     if Nat.eqb j (nSpecies + 3) then rhov / rho
     else if Nat.eqb j (nSpecies + 1) then rhoEve / rho
     else if Nat.ltb j nSpecies then - rhoEve * rhov / (rho * rho)
     else 0
   else if Nat.eqb i (nSpecies + 2) then
     if Nat.eqb j (nSpecies + 3)
     then dPdU_i (nSpecies + 3)%nat * rhov / rho
     else if Nat.eqb j (nSpecies + 2)
     then (1 + dPdU_i (nSpecies + 2)%nat) * rhov / rho
     else if Nat.eqb j (nSpecies + 1)
     then H + dPdU_i (nSpecies + 1)%nat * rhov / rho
     else if Nat.eqb j nSpecies then dPdU_i nSpecies * rhov / rho
     else if Nat.ltb j nSpecies
     then - H * rhov / rho + dPdU_i j * rhov / rho
     else 0
   else if Nat.eqb i (nSpecies + 1) then
     if Nat.eqb j (nSpecies + 1) then 2 * rhov / rho
     else if Nat.ltb j nSpecies then - rhov * rhov / (rho * rho)
     else 0
   else if Nat.eqb i nSpecies then
     if Nat.eqb j (nSpecies + 1) then rhou / rho
     else if Nat.eqb j nSpecies then rhov / rho
     else if Nat.ltb j nSpecies then - rhou * rhov / (rho * rho)
     else 0
   else if Nat.ltb i nSpecies then
     if Nat.eqb j (nSpecies + 1) then Y i
     else if Nat.ltb j nSpecies then dYdr i j * rhov
     else 0
   else 0) * (yinv * Volume).
Proof.
  intros Hi Hj. unfold ComputeAxisymmetric.val_Jacobian. cbv zeta.
  destruct (Nat.ltb_spec i nVar); [|lia].
  destruct (Nat.ltb_spec j nVar); [|lia]. simpl andb. cbv iota.
  f_equal.
  repeat (rewrite upd2_at || rewrite for_range_row_store).
  rewrite for_range_species_block by lia.
  replace (nSpecies + 2 + 1)%nat with (nSpecies + 3)%nat by lia.
  nat_split; subst; simpl; try reflexivity; try lia.
Qed.
End AxisymmetricJacobian.

Lemma sum_upto_single (n k : nat) (x : R) :
  (k < n)%nat ->
  sum_upto n (fun j => if Nat.eqb j k then x else 0) = x.
Proof.
  induction n as [|n IH]; intros Hk; [lia|].
  rewrite sum_upto_S. destruct (Nat.eqb_spec n k) as [->|Hne].
  - rewrite sum_upto_zero; [ring|].
    intros j Hj. destruct (Nat.eqb_spec j k); [lia|reflexivity].
  - rewrite IH by lia. ring.
Qed.

(** X23. In two dimensions, where the conserved species densities are
    those of the primitive state, add up to the density, and the member
    [Ys] holds the mass fractions of the node, the Jacobian of the
    axisymmetric source applied to the conserved state gives back the
    residual in every row but the energy row. *)
Theorem axisymmetric_Jacobian_times_state
    (nSpecies nVar : nat) (U_i V_i dPdU_i Coord_i Ys : vec) (Volume : R)
    (val_residual_in : vec) (iVar : nat) :
  nVar = (nSpecies + 4)%nat ->
  V_i (CNumerics.RHO_INDEX 2 nSpecies) <> 0 ->
  (forall iSpecies, (iSpecies < nSpecies)%nat ->
     U_i iSpecies = V_i (CNumerics.RHOS_INDEX + iSpecies)%nat) ->
  sum_upto nSpecies (fun iSpecies =>
    V_i (CNumerics.RHOS_INDEX + iSpecies)%nat)
    = V_i (CNumerics.RHO_INDEX 2 nSpecies) ->
  (forall iSpecies, (iSpecies < nSpecies)%nat ->
     Ys iSpecies = V_i (CNumerics.RHOS_INDEX + iSpecies)%nat
                   / V_i (CNumerics.RHO_INDEX 2 nSpecies)) ->
  (iVar < nVar)%nat -> iVar <> (nSpecies + 2)%nat ->
  sum_upto nVar (fun jVar =>
    ComputeAxisymmetric.val_Jacobian 2 nSpecies nVar U_i V_i dPdU_i
      Coord_i Ys Volume iVar jVar * U_i jVar) =
  ComputeAxisymmetric.val_residual 2 nSpecies U_i V_i Coord_i Volume
    val_residual_in iVar.
Proof.
  intros HVar Hrho HU Hsum HYs Hi He.
  assert (HsumU : sum_upto nSpecies U_i = V_i (CNumerics.RHO_INDEX 2 nSpecies)).
  { rewrite <- Hsum. apply sum_upto_ext. exact HU. }
  rewrite (sum_upto_ext nVar _ _
             (fun j Hj => f_equal (fun x => x * U_i j)
                (Axisymmetric_Jacobian_at nSpecies nVar U_i V_i dPdU_i
                   Coord_i Ys Volume iVar j Hi Hj))).
  rewrite Axisymmetric_residual_at.
  subst nVar. replace (nSpecies + 4)%nat with (S (S (S (S nSpecies)))) by lia.
  rewrite !sum_upto_S.
  replace (S nSpecies) with (nSpecies + 1)%nat by lia.
  replace (S (nSpecies + 1)) with (nSpecies + 2)%nat by lia.
  replace (S (nSpecies + 2)) with (nSpecies + 3)%nat by lia.
  replace (nSpecies + 2 + 1)%nat with (nSpecies + 3)%nat by lia.
  unfold ComputeAxisymmetric.rhou, ComputeAxisymmetric.rhov,
    ComputeAxisymmetric.rhoEve, ComputeAxisymmetric.rho.
  replace (nSpecies + 2 + 1)%nat with (nSpecies + 3)%nat by lia.
  set (r := V_i (CNumerics.RHO_INDEX 2 nSpecies)) in *.
  set (yV := ComputeAxisymmetric.yinv Coord_i * Volume).
  destruct (Nat.eqb_spec iVar (nSpecies + 3)) as [E3|E3].
  { rewrite (sum_upto_ext nSpecies _
               (fun j => - U_i (nSpecies + 3)%nat * U_i (nSpecies + 1)%nat
                         / (r * r) * yV * U_i j)).
    2:{ intros j Hj. nat_split. reflexivity. }
    rewrite sum_upto_scal, HsumU.
    nat_split. unfold yV. field. exact Hrho. }
  destruct (Nat.eqb_spec iVar (nSpecies + 2)) as [E2|E2]; [contradiction|].
  destruct (Nat.eqb_spec iVar (nSpecies + 1)) as [E1|E1].
  { rewrite (sum_upto_ext nSpecies _
               (fun j => - U_i (nSpecies + 1)%nat * U_i (nSpecies + 1)%nat
                         / (r * r) * yV * U_i j)).
    2:{ intros j Hj. nat_split. reflexivity. }
    rewrite sum_upto_scal, HsumU.
    nat_split. unfold yV. field. exact Hrho. }
  destruct (Nat.eqb_spec iVar nSpecies) as [E0|E0].
  { rewrite (sum_upto_ext nSpecies _
               (fun j => - U_i nSpecies * U_i (nSpecies + 1)%nat
                         / (r * r) * yV * U_i j)).
    2:{ intros j Hj. nat_split. reflexivity. }
    rewrite sum_upto_scal, HsumU.
    nat_split. unfold yV. field. exact Hrho. }
  destruct (Nat.ltb_spec iVar nSpecies) as [Es|Es]; [|lia].
  rewrite (sum_upto_ext nSpecies _
             (fun j => (- Ys iVar / r * U_i (nSpecies + 1)%nat * yV) * U_i j
                + (if Nat.eqb j iVar
                   then 1 / r * U_i (nSpecies + 1)%nat * yV * U_i iVar
                   else 0))).
  2:{ intros j Hj. unfold ComputeAxisymmetric.dYdr, ComputeAxisymmetric.rho.
      fold r.
      destruct (Nat.ltb_spec iVar nSpecies); [|lia].
      destruct (Nat.ltb_spec j nSpecies); [|lia].
      destruct (Nat.eqb_spec j (nSpecies + 1)); [lia|]. simpl andb. cbv iota.
      destruct (Nat.eqb_spec iVar j), (Nat.eqb_spec j iVar);
        try (exfalso; lia); subst; unfold Rdiv; ring. }
  rewrite sum_upto_plus, sum_upto_scal, HsumU.
  rewrite (sum_upto_single nSpecies iVar) by exact Es.
  nat_split.
  unfold ComputeAxisymmetric.Y, vec_init, ComputeAxisymmetric.rho. fold r.
  destruct (Nat.ltb_spec iVar nSpecies); [|lia].
  rewrite (HYs iVar Es), (HU iVar Es). unfold yV. field. exact Hrho.
Qed.

(** ** The properties at sample data *)

Ltac sample_state :=
  unfold CNumerics.P_INDEX, CNumerics.RHO_INDEX, CNumerics.A_INDEX,
    CNumerics.H_INDEX, CNumerics.T_INDEX, CNumerics.VEL_INDEX,
    CNumerics.RHOS_INDEX,
    Cases.V_fast_i, Cases.V_fast_j, Cases.V_back_i, Cases.V_back_j,
    Cases.U_fast_i, Cases.U_fast_j, Cases.U_back_i, Cases.U_back_j,
    Cases.V_mid, Cases.U_swirl, Cases.Coord_off, Cases.Coord_axis,
    Cases.Ys_one, Sample.V_rest, Sample.V_rest_2P, Sample.U_rest,
    Sample.V_line, Sample.V_line_moving, Sample.vec_zero, vec_of_list;
  simpl.

Lemma MSW_split_eigenvalues_signed_witness :
  0 <= CUpwMSW_TNE2.Lambda_i 1 1 10 Sample.V_line Sample.V_line_moving
         Sample.Normal_line 2%nat /\
  CUpwMSW_TNE2.Lambda_j 1 1 10 Sample.V_line Sample.V_line_moving
    Sample.Normal_line 2%nat <= 0.
Proof.
  apply (MSW_split_eigenvalues_signed 1 1 10 Sample.V_line
           Sample.V_line_moving Sample.Normal_line 2%nat); lia.
Defined.

Lemma MSW_weight_bounds_witness :
  0 < CUpwMSW_TNE2.w 1 1 Sample.V_line Sample.V_line_moving <= 0.5 /\
  (CUpwMSW_TNE2.w 1 1 Sample.V_line Sample.V_line_moving = 0.5 <->
   Sample.V_line (CNumerics.P_INDEX 1 1)
   = Sample.V_line_moving (CNumerics.P_INDEX 1 1)).
Proof.
  apply (MSW_weight_bounds 1 1 Sample.V_line Sample.V_line_moving);
    sample_state; lra.
Defined.

(** The velocities of the fast states across the face of unit area. *)
Lemma Cases_ProjVel (V : vec) :
  sum_upto 1 (fun iDim =>
    vec_init 1 (fun iDim => V (CNumerics.VEL_INDEX 1 + iDim)%nat) iDim
    * CNumerics.FaceUnitNormal 1 Sample.Normal_line iDim) = V 3%nat.
Proof.
  unfold sum_upto, vec_init. simpl. rewrite FaceUnitNormal_Normal_line.
  unfold CNumerics.VEL_INDEX. simpl. ring.
Qed.

Lemma MSW_supersonic_forward_witness :
  CUpwMSW_TNE2.Fc_j 1 1 4 10 Sample.PMatrix_line Sample.PMatrix_line_inv
    Sample.vec_zero Sample.vec_zero Cases.U_fast_i Cases.U_fast_j
    Cases.V_fast_i Cases.V_fast_j Sample.vec_zero Sample.Normal_line 1%nat
    = 0 /\
  CUpwMSW_TNE2.ComputeResidual 1 1 4 10 Sample.PMatrix_line
    Sample.PMatrix_line_inv Sample.vec_zero Sample.vec_zero
    Cases.U_fast_i Cases.U_fast_j Cases.V_fast_i Cases.V_fast_j
    Sample.vec_zero Sample.vec_zero Sample.Normal_line 1%nat =
  CUpwMSW_TNE2.Fc_i 1 1 4 10 Sample.PMatrix_line Sample.PMatrix_line_inv
    Sample.vec_zero Sample.vec_zero Cases.U_fast_i Cases.U_fast_j
    Cases.V_fast_i Cases.V_fast_j Sample.vec_zero Sample.Normal_line 1%nat.
Proof.
  apply (MSW_supersonic_forward 1 1 4 10 Sample.PMatrix_line
           Sample.PMatrix_line_inv Sample.vec_zero Sample.vec_zero
           Cases.U_fast_i Cases.U_fast_j Cases.V_fast_i Cases.V_fast_j
           Sample.vec_zero Sample.vec_zero Sample.Normal_line 1%nat);
    try reflexivity; try lia;
    try (unfold CUpwMSW_TNE2.ProjVel_i, CUpwMSW_TNE2.ProjVel_j,
           CUpwMSW_TNE2.u_i, CUpwMSW_TNE2.u_j, CUpwMSW_TNE2.UnitNormal;
         rewrite Cases_ProjVel);
    sample_state; lra.
Defined.

Lemma MSW_supersonic_backward_witness :
  CUpwMSW_TNE2.Fc_i 1 1 4 10 Sample.PMatrix_line Sample.PMatrix_line_inv
    Sample.vec_zero Sample.vec_zero Cases.U_back_i Cases.U_back_j
    Cases.V_back_i Cases.V_back_j Sample.vec_zero Sample.Normal_line 1%nat
    = 0 /\
  CUpwMSW_TNE2.ComputeResidual 1 1 4 10 Sample.PMatrix_line
    Sample.PMatrix_line_inv Sample.vec_zero Sample.vec_zero
    Cases.U_back_i Cases.U_back_j Cases.V_back_i Cases.V_back_j
    Sample.vec_zero Sample.vec_zero Sample.Normal_line 1%nat =
  CUpwMSW_TNE2.Fc_j 1 1 4 10 Sample.PMatrix_line Sample.PMatrix_line_inv
    Sample.vec_zero Sample.vec_zero Cases.U_back_i Cases.U_back_j
    Cases.V_back_i Cases.V_back_j Sample.vec_zero Sample.Normal_line 1%nat.
Proof.
  apply (MSW_supersonic_backward 1 1 4 10 Sample.PMatrix_line
           Sample.PMatrix_line_inv Sample.vec_zero Sample.vec_zero
           Cases.U_back_i Cases.U_back_j Cases.V_back_i Cases.V_back_j
           Sample.vec_zero Sample.vec_zero Sample.Normal_line 1%nat);
    try reflexivity; try lia;
    try (unfold CUpwMSW_TNE2.ProjVel_i, CUpwMSW_TNE2.ProjVel_j,
           CUpwMSW_TNE2.u_i, CUpwMSW_TNE2.u_j, CUpwMSW_TNE2.UnitNormal;
         rewrite Cases_ProjVel);
    sample_state; lra.
Defined.

Ltac ausm_mach :=
  unfold CUpwAUSM_TNE2.mL, CUpwAUSM_TNE2.mR, CUpwAUSM_TNE2.ProjVel_i,
    CUpwAUSM_TNE2.ProjVel_j, CUpwAUSM_TNE2.u_i, CUpwAUSM_TNE2.u_j,
    CUpwAUSM_TNE2.UnitNormal, CUpwAUSM_TNE2.a_i, CUpwAUSM_TNE2.a_j;
  rewrite Cases_ProjVel.

Lemma AUSM_supersonic_forward_witness :
  CUpwAUSM_TNE2.ComputeResidual 1 1 4 Cases.U_fast_i Cases.U_fast_j
    Cases.V_fast_i Cases.V_fast_j Sample.Normal_line 1%nat =
  CNumerics.GetInviscidProjFlux 1 1 Cases.U_fast_i Cases.V_fast_i
    Sample.Normal_line 1%nat.
Proof.
  apply (AUSM_supersonic_forward 1 1 4 Cases.U_fast_i Cases.U_fast_j
           Cases.V_fast_i Cases.V_fast_j Sample.Normal_line 1%nat);
    [reflexivity
    |rewrite FaceArea_Normal_line; lra
    |sample_state; lra
    |sample_state; lra
    |ausm_mach; sample_state; lra
    |ausm_mach; sample_state; lra].
Defined.

Lemma AUSM_supersonic_backward_witness :
  CUpwAUSM_TNE2.ComputeResidual 1 1 4 Cases.U_back_i Cases.U_back_j
    Cases.V_back_i Cases.V_back_j Sample.Normal_line 1%nat =
  CNumerics.GetInviscidProjFlux 1 1 Cases.U_back_j Cases.V_back_j
    Sample.Normal_line 1%nat.
Proof.
  apply (AUSM_supersonic_backward 1 1 4 Cases.U_back_i Cases.U_back_j
           Cases.V_back_i Cases.V_back_j Sample.Normal_line 1%nat);
    [reflexivity
    |rewrite FaceArea_Normal_line; lra
    |sample_state; lra
    |sample_state; lra
    |ausm_mach; sample_state; lra
    |ausm_mach; sample_state; lra].
Defined.

(** The critical sound speed of the fast states for [Gamma = 1.4]. *)
Lemma Cases_Cstar : sqrt (2 * (1.4 - 1) / (1.4 + 1) * 270000) = 300.
Proof.
  replace (2 * (1.4 - 1) / (1.4 + 1) * 270000) with (300 * 300) by lra.
  apply sqrt_square. lra.
Qed.

Ltac minmax_values :=
  repeat match goal with
  | |- context [Rmax ?a ?b] =>
      first [rewrite (Rmax_right a b) by lra | rewrite (Rmax_left a b) by lra]
  end;
  repeat match goal with
  | |- context [Rmin ?a ?b] =>
      first [rewrite (Rmin_left a b) by lra | rewrite (Rmin_right a b) by lra]
  end.

Lemma Cases_aF_forward :
  CUpwAUSMPLUSUP2_TNE2.aF 1 1 1.4 Cases.V_fast_i Cases.V_fast_j
    Sample.Normal_line = 225.
Proof.
  unfold CUpwAUSMPLUSUP2_TNE2.aF, CUpwAUSMPLUSUP2_TNE2.ChatL,
    CUpwAUSMPLUSUP2_TNE2.ChatR, CUpwAUSMPLUSUP2_TNE2.CstarL,
    CUpwAUSMPLUSUP2_TNE2.CstarR, CUpwAUSMPLUSUP2_TNE2.h_i,
    CUpwAUSMPLUSUP2_TNE2.h_j, CUpwAUSMPLUSUP2_TNE2.ProjVel_i,
    CUpwAUSMPLUSUP2_TNE2.ProjVel_j, CUpwAUSMPLUSUP2_TNE2.u_i,
    CUpwAUSMPLUSUP2_TNE2.u_j, CUpwAUSMPLUSUP2_TNE2.UnitNormal.
  rewrite !Cases_ProjVel. sample_state. rewrite Cases_Cstar.
  minmax_values. lra.
Qed.

Lemma Cases_aF_backward :
  CUpwAUSMPLUSUP2_TNE2.aF 1 1 1.4 Cases.V_back_i Cases.V_back_j
    Sample.Normal_line = 200.
Proof.
  unfold CUpwAUSMPLUSUP2_TNE2.aF, CUpwAUSMPLUSUP2_TNE2.ChatL,
    CUpwAUSMPLUSUP2_TNE2.ChatR, CUpwAUSMPLUSUP2_TNE2.CstarL,
    CUpwAUSMPLUSUP2_TNE2.CstarR, CUpwAUSMPLUSUP2_TNE2.h_i,
    CUpwAUSMPLUSUP2_TNE2.h_j, CUpwAUSMPLUSUP2_TNE2.ProjVel_i,
    CUpwAUSMPLUSUP2_TNE2.ProjVel_j, CUpwAUSMPLUSUP2_TNE2.u_i,
    CUpwAUSMPLUSUP2_TNE2.u_j, CUpwAUSMPLUSUP2_TNE2.UnitNormal.
  rewrite !Cases_ProjVel. sample_state. rewrite Cases_Cstar.
  replace (- (-450)) with 450 by lra.
  minmax_values. lra.
Qed.

Ltac up2_mach E :=
  unfold CUpwAUSMPLUSUP2_TNE2.mL, CUpwAUSMPLUSUP2_TNE2.mR;
  rewrite E;
  unfold CUpwAUSMPLUSUP2_TNE2.ProjVel_i, CUpwAUSMPLUSUP2_TNE2.ProjVel_j,
    CUpwAUSMPLUSUP2_TNE2.u_i, CUpwAUSMPLUSUP2_TNE2.u_j,
    CUpwAUSMPLUSUP2_TNE2.UnitNormal;
  rewrite Cases_ProjVel; sample_state; lra.

Lemma AUSMPLUSUP2_supersonic_forward_witness :
  CUpwAUSMPLUSUP2_TNE2.ComputeResidual 1 1 4 2 1.4 Cases.U_fast_i
    Cases.U_fast_j Cases.V_fast_i Cases.V_fast_j Sample.Normal_line 1%nat =
  CNumerics.GetInviscidProjFlux 1 1 Cases.U_fast_i Cases.V_fast_i
    Sample.Normal_line 1%nat.
Proof.
  apply (AUSMPLUSUP2_supersonic_forward 1 1 4 2 1.4 Cases.U_fast_i
           Cases.U_fast_j Cases.V_fast_i Cases.V_fast_j Sample.Normal_line
           1%nat);
    [reflexivity
    |rewrite FaceArea_Normal_line; lra
    |sample_state; lra
    |rewrite Cases_aF_forward; lra
    |up2_mach Cases_aF_forward
    |up2_mach Cases_aF_forward].
Defined.

Lemma AUSMPLUSUP2_supersonic_backward_witness :
  CUpwAUSMPLUSUP2_TNE2.ComputeResidual 1 1 4 2 1.4 Cases.U_back_i
    Cases.U_back_j Cases.V_back_i Cases.V_back_j Sample.Normal_line 1%nat =
  CNumerics.GetInviscidProjFlux 1 1 Cases.U_back_j Cases.V_back_j
    Sample.Normal_line 1%nat.
Proof.
  apply (AUSMPLUSUP2_supersonic_backward 1 1 4 2 1.4 Cases.U_back_i
           Cases.U_back_j Cases.V_back_i Cases.V_back_j Sample.Normal_line
           1%nat);
    [reflexivity
    |rewrite FaceArea_Normal_line; lra
    |sample_state; lra
    |rewrite Cases_aF_backward; lra
    |up2_mach Cases_aF_backward
    |up2_mach Cases_aF_backward].
Defined.

Lemma AvgGrad_zero_without_gradients_witness :
  exists val_residual,
    CAvgGrad_TNE2.ComputeResidual 2 1 5 11 7 false Sample.CalcHs_zero (2 / 3)
      Sample.V_rest Sample.V_rest_2P (fun _ _ => 0) (fun _ _ => 0)
      (fun _ => 1) (fun _ => 1) Sample.vec_zero Sample.vec_zero
      1 1 2 2 3 3 Sample.Normal_x
    = Returns val_residual /\
    forall iVar, val_residual iVar = 0.
Proof.
  apply (AvgGrad_zero_without_gradients 2 1 5 11 7 Sample.CalcHs_zero (2 / 3)
           Sample.V_rest Sample.V_rest_2P (fun _ _ => 0) (fun _ _ => 0)
           (fun _ => 1) (fun _ => 1) Sample.vec_zero Sample.vec_zero
           1 1 2 2 3 3 Sample.Normal_x);
    [sample_state; lra|sample_state; lra|reflexivity|reflexivity].
Defined.

Lemma viscous_species_rows_sum_to_zero_witness :
  (exists val_residual,
     CAvgGrad_TNE2.ComputeResidual 2 1 5 11 7 false Sample.CalcHs_zero (2 / 3)
       Sample.V_rest Sample.V_rest_2P Sample.Grad_stretch Sample.Grad_stretch
       (fun _ => 1) (fun _ => 1) Sample.vec_zero Sample.vec_zero
       1 1 2 2 3 3 Sample.Normal_x
     = Returns val_residual /\
     sum_upto 1 val_residual = 0) /\
  (exists val_residual,
     CAvgGradCorrected_TNE2.ComputeResidual 2 1 5 11 7 false
       Sample.CalcHs_zero (2 / 3)
       Sample.V_rest Sample.V_rest_2P Sample.Grad_stretch Sample.Grad_stretch
       (fun _ => 1) (fun _ => 1) Sample.vec_zero Sample.vec_zero
       1 1 2 2 3 3 Sample.Normal_x Sample.Coord_origin Sample.Coord_x
     = Returns val_residual /\
     sum_upto 1 val_residual = 0).
Proof.
  apply (viscous_species_rows_sum_to_zero 2 1 5 11 7 Sample.CalcHs_zero
           (2 / 3) Sample.V_rest Sample.V_rest_2P Sample.Grad_stretch
           Sample.Grad_stretch (fun _ => 1) (fun _ => 1) Sample.vec_zero
           Sample.vec_zero 1 1 2 2 3 3 Sample.Normal_x Sample.Coord_origin
           Sample.Coord_x);
    [lia
    |unfold sum_upto; sample_state; lra
    |unfold sum_upto; sample_state; lra
    |sample_state; lra
    |sample_state; lra].
Defined.

Lemma Cases_NumberDensity_rest :
  10 ^ 19 <= CSource_TNE2.NumberDensity 1 Sample.Ms_N2 Sample.AVOGAD_CONSTANT
               Sample.V_rest < 10 ^ (19 + 1).
Proof.
  unfold CSource_TNE2.NumberDensity, sum_upto, Sample.Ms_N2,
    Sample.AVOGAD_CONSTANT, Sample.V_rest, vec_of_list. simpl. lra.
Qed.

Lemma Cases_NumberDensity_mid :
  10 ^ 17 <= CSource_TNE2.NumberDensity 1 Sample.Ms_N2 Sample.AVOGAD_CONSTANT
               Cases.V_mid < 10 ^ (17 + 1).
Proof.
  unfold CSource_TNE2.NumberDensity, sum_upto, Sample.Ms_N2,
    Sample.AVOGAD_CONSTANT, Cases.V_mid, vec_of_list. simpl. lra.
Qed.

Lemma Keq_end_rows_witness :
  CSource_TNE2.GetKeqConstants 1 Sample.Ms_N2 Cases.Table_steps
    Sample.AVOGAD_CONSTANT Sample.V_rest 0 =
  Some (vec_init 5 (fun ii =>
    Cases.Table_steps 0%nat (if Nat.eqb 19 14 then 0%nat else 5%nat) ii)).
Proof.
  apply (Keq_end_rows 1 Sample.Ms_N2 Cases.Table_steps
           Sample.AVOGAD_CONSTANT Sample.V_rest 0 19);
    [right; lia|exact Cases_NumberDensity_rest].
Defined.

Lemma Keq_interpolation_within_rows_witness :
  exists A,
    CSource_TNE2.GetKeqConstants 1 Sample.Ms_N2 Cases.Table_steps
      Sample.AVOGAD_CONSTANT Cases.V_mid 0 = Some A /\
    Rmin (Cases.Table_steps 0%nat (17 - 14)%nat 0%nat)
         (Cases.Table_steps 0%nat (17 - 14 + 1)%nat 0%nat) <= A 0%nat <=
    Rmax (Cases.Table_steps 0%nat (17 - 14)%nat 0%nat)
         (Cases.Table_steps 0%nat (17 - 14 + 1)%nat 0%nat) /\
    (CSource_TNE2.NumberDensity 1 Sample.Ms_N2 Sample.AVOGAD_CONSTANT
       Cases.V_mid = 10 ^ 17 ->
     A 0%nat = Cases.Table_steps 0%nat (17 - 14)%nat 0%nat).
Proof.
  apply (Keq_interpolation_within_rows 1 Sample.Ms_N2 Cases.Table_steps
           Sample.AVOGAD_CONSTANT Cases.V_mid 0 17 0);
    [lia|lia|exact Cases_NumberDensity_mid].
Defined.

Lemma Cases_NumberDensity_mix :
  10 ^ 19 <= CSource_TNE2.NumberDensity 2 Sample.Ms_N2_N
               Sample.AVOGAD_CONSTANT Cases.V_mix < 10 ^ (19 + 1).
Proof.
  unfold CSource_TNE2.NumberDensity, sum_upto, Sample.Ms_N2_N,
    Sample.AVOGAD_CONSTANT, Cases.V_mix, vec_of_list. simpl. lra.
Qed.

(** On the mixture the chemistry of the dissociation reaction returns. *)
Lemma Cases_chemistry_returns :
  exists val_residual,
    CSource_TNE2.ComputeChemistry 2 2 6 Sample.Ms_N2_N Cases.Table_steps
      Sample.RxnMap_dissociation Sample.vec_zero Sample.vec_zero
      Sample.vec_zero Sample.vec_zero (fun _ => 1) (fun _ => 0)
      (fun _ => 0) Sample.AVOGAD_CONSTANT Cases.U_mix Cases.V_mix
      Sample.vec_zero 1 1
    = Some val_residual.
Proof.
  unfold CSource_TNE2.ComputeChemistry. simpl.
  unfold CSource_TNE2.ReactionStep.
  rewrite (GetKeqConstants_above 2 Sample.Ms_N2_N Cases.Table_steps
             Sample.AVOGAD_CONSTANT Cases.V_mix 0 19)
    by (lia || exact Cases_NumberDensity_mix).
  eexists. reflexivity.
Qed.

Lemma Cases_dissociation_slots (iReaction side ii : nat) :
  (Sample.RxnMap_dissociation iReaction side ii <= 2)%nat.
Proof.
  unfold Sample.RxnMap_dissociation.
  destruct side as [|[|side]]; destruct ii as [|[|ii]]; lia.
Qed.

Lemma chemistry_leaves_momentum_and_energy_witness :
  exists val_residual,
    CSource_TNE2.ComputeChemistry 2 2 6 Sample.Ms_N2_N Cases.Table_steps
      Sample.RxnMap_dissociation Sample.vec_zero Sample.vec_zero
      Sample.vec_zero Sample.vec_zero (fun _ => 1) (fun _ => 0)
      (fun _ => 0) Sample.AVOGAD_CONSTANT Cases.U_mix Cases.V_mix
      Sample.vec_zero 1 1
    = Some val_residual /\
    val_residual 3%nat = 0.
Proof.
  destruct Cases_chemistry_returns as [val_residual Hr].
  exists val_residual. split; [exact Hr|].
  apply (chemistry_leaves_momentum_and_energy 2 2 6 Sample.Ms_N2_N
           Cases.Table_steps Sample.RxnMap_dissociation Sample.vec_zero
           Sample.vec_zero Sample.vec_zero Sample.vec_zero (fun _ => 1)
           (fun _ => 0) (fun _ => 0) Sample.AVOGAD_CONSTANT Cases.U_mix
           Cases.V_mix Sample.vec_zero 1 1 val_residual 3);
    [|exact Hr|lia|lia].
  intros iReaction side ii _ _ _. apply Cases_dissociation_slots.
Defined.

Lemma chemistry_conserves_mass_witness :
  exists val_residual,
    CSource_TNE2.ComputeChemistry 2 2 6 Sample.Ms_N2_N Cases.Table_steps
      Sample.RxnMap_dissociation Sample.vec_zero Sample.vec_zero
      Sample.vec_zero Sample.vec_zero (fun _ => 1) (fun _ => 0)
      (fun _ => 0) Sample.AVOGAD_CONSTANT Cases.U_mix Cases.V_mix
      Sample.vec_zero 1 1
    = Some val_residual /\
    sum_upto 2 val_residual = 0.
Proof.
  destruct Cases_chemistry_returns as [val_residual Hr].
  exists val_residual. split; [exact Hr|].
  apply (chemistry_conserves_mass 2 2 6 Sample.Ms_N2_N Cases.Table_steps
           Sample.RxnMap_dissociation Sample.vec_zero Sample.vec_zero
           Sample.vec_zero Sample.vec_zero (fun _ => 1) (fun _ => 0)
           (fun _ => 0) Sample.AVOGAD_CONSTANT Cases.U_mix Cases.V_mix
           Sample.vec_zero 1 1 val_residual);
    [|intros iReaction _|exact Hr].
  - intros iReaction side ii _ _ _. apply Cases_dissociation_slots.
  - unfold sum_upto, CSource_TNE2.SlotMolarMass,
      Sample.RxnMap_dissociation, Sample.Ms_N2_N, vec_of_list. simpl. lra.
Defined.

(** The relaxation time of the gas at rest is positive. *)
Lemma Cases_taus_pos (s : nat) :
  (s < 1)%nat ->
  0 < CSource_TNE2.taus 2 1 Sample.Ms_N2 (fun _ => 3395)
        Sample.AVOGAD_CONSTANT 8314 3 Sample.V_rest s.
Proof.
  intros Hs.
  assert (HA : 0 < Sample.AVOGAD_CONSTANT)
    by (unfold Sample.AVOGAD_CONSTANT; lra).
  assert (HMs : forall q, (q < 1)%nat -> 0 < Sample.Ms_N2 q)
    by (intros; unfold Sample.Ms_N2; lra).
  assert (Hrho : forall q, (q < 1)%nat ->
            0 <= Sample.V_rest (CNumerics.RHOS_INDEX + q)%nat).
  { intros q Hq. assert (q = 0)%nat as -> by lia. sample_state. lra. }
  assert (HT : 0 < CSource_TNE2.T 1 Sample.V_rest)
    by (unfold CSource_TNE2.T; sample_state; lra).
  assert (HP : 0 < CSource_TNE2.P 2 1 Sample.V_rest)
    by (unfold CSource_TNE2.P; sample_state; lra).
  assert (HX : forall q, (q < 1)%nat ->
            0 <= CSource_TNE2.X 1 Sample.Ms_N2 Sample.V_rest q).
  { intros q Hq. assert (q = 0)%nat as -> by lia.
    rewrite Sample_mole_fraction. lra. }
  assert (HX1 : exists q, (q < 1)%nat /\
            0 < CSource_TNE2.X 1 Sample.Ms_N2 Sample.V_rest q).
  { exists 0%nat. split; [lia|]. rewrite Sample_mole_fraction. lra. }
  pose proof (tauMW_pos 2 1 Sample.Ms_N2 (fun _ => 3395) Sample.V_rest
                HP HX HX1 s) as H2.
  pose proof (tauP_pos 1 Sample.Ms_N2 Sample.AVOGAD_CONSTANT 8314 3
                Sample.V_rest HA ltac:(lra) ltac:(lra) HMs Hrho HT HX1 s Hs)
    as H3.
  unfold CSource_TNE2.taus. lra.
Qed.

Lemma vib_relaxation_zero_at_equilibrium_witness :
  CSource_TNE2.ComputeVibRelaxation 2 1 5 Sample.Ms_N2 (fun _ => 3395)
    Sample.AVOGAD_CONSTANT 8314 3 Sample.V_rest (fun _ => 300) 1
    (fun T _ => T) 4%nat = 0.
Proof.
  apply (vib_relaxation_zero_at_equilibrium 2 1 5 Sample.Ms_N2
           (fun _ => 3395) Sample.AVOGAD_CONSTANT 8314 3 Sample.V_rest
           (fun _ => 300) 1 (fun T _ => T) 4%nat);
    [lia
    |intros s Hs; apply Rgt_not_eq, Rlt_gt, Cases_taus_pos, Hs
    |intros s Hs; sample_state; lra].
Defined.

Lemma vib_relaxation_towards_equilibrium_witness :
  0 <= CSource_TNE2.ComputeVibRelaxation 2 1 5 Sample.Ms_N2 (fun _ => 3395)
         Sample.AVOGAD_CONSTANT 8314 3 Sample.V_rest Sample.vec_zero 1
         (fun T _ => T) (1 + 2 + 1)%nat /\
  forall iVar, (iVar < 5)%nat -> iVar <> (1 + 2 + 1)%nat ->
    CSource_TNE2.ComputeVibRelaxation 2 1 5 Sample.Ms_N2 (fun _ => 3395)
      Sample.AVOGAD_CONSTANT 8314 3 Sample.V_rest Sample.vec_zero 1
      (fun T _ => T) iVar = 0.
Proof.
  apply (vib_relaxation_towards_equilibrium 2 1 5 Sample.Ms_N2
           (fun _ => 3395) Sample.AVOGAD_CONSTANT 8314 3 Sample.V_rest
           Sample.vec_zero 1 (fun T _ => T));
    [lra
    |intros s Hs; assert (s = 0)%nat as -> by lia; sample_state; lra
    |intros s Hs; apply Cases_taus_pos, Hs
    |intros s Hs; sample_state; lra].
Defined.

Lemma axisymmetric_source_off_on_the_axis_witness :
  ComputeAxisymmetric.val_residual 2 1 Cases.U_swirl Sample.V_rest
    Cases.Coord_axis 2 Sample.vec_zero 2%nat = 0 /\
  ComputeAxisymmetric.val_source 2 1 5 Cases.U_swirl Sample.V_rest
    Cases.Coord_axis 2 Sample.vec_zero Sample.U_rest 2%nat
    = Sample.U_rest 2%nat /\
  ComputeAxisymmetric.val_Jacobian 2 1 5 Cases.U_swirl Sample.V_rest
    Sample.dPdU_rest Cases.Coord_axis Cases.Ys_one 2 2%nat 1%nat = 0.
Proof.
  apply (axisymmetric_source_off_on_the_axis 1 5 Cases.U_swirl
           Sample.V_rest Sample.dPdU_rest Cases.Coord_axis Cases.Ys_one 2
           Sample.vec_zero Sample.U_rest 2 1);
    [reflexivity|reflexivity|lra|sample_state; lra|lia|lia].
Defined.

Lemma axisymmetric_species_rows_sum_witness :
  sum_upto 1
    (ComputeAxisymmetric.val_residual 2 1 Cases.U_swirl Sample.V_rest
       Cases.Coord_off 2 Sample.vec_zero) =
  ComputeAxisymmetric.yinv Cases.Coord_off * Cases.U_swirl (1 + 1)%nat * 2.
Proof.
  apply (axisymmetric_species_rows_sum 2 1 Cases.U_swirl Sample.V_rest
           Cases.Coord_off 2 Sample.vec_zero);
    [sample_state; lra|unfold sum_upto; sample_state; lra].
Defined.

Lemma axisymmetric_Jacobian_times_state_witness :
  sum_upto 5 (fun jVar =>
    ComputeAxisymmetric.val_Jacobian 2 1 5 Cases.U_swirl Sample.V_rest
      Sample.dPdU_rest Cases.Coord_off Cases.Ys_one 2 1%nat jVar
    * Cases.U_swirl jVar) =
  ComputeAxisymmetric.val_residual 2 1 Cases.U_swirl Sample.V_rest
    Cases.Coord_off 2 Sample.vec_zero 1%nat.
Proof.
  apply (axisymmetric_Jacobian_times_state 1 5 Cases.U_swirl Sample.V_rest
           Sample.dPdU_rest Cases.Coord_off Cases.Ys_one 2 Sample.vec_zero
           1%nat);
    [reflexivity
    |sample_state; lra
    |intros s Hs; assert (s = 0)%nat as -> by lia; sample_state; lra
    |unfold sum_upto; sample_state; lra
    |intros s Hs; assert (s = 0)%nat as -> by lia; sample_state; lra
    |lia
    |lia].
Defined.
